(** * A scapegoat tree on a pointer heap

    Shallow embedding of [src/src/Tree.hpp] (namespace [DM852], struct
    [Tree<Key, Value, Comp>]).  Nodes live in a heap indexed by addresses;
    a [Node*] is an optional address, [None] being [nullptr].  Every method
    is a function on the heap that either returns its result together with
    the new heap, or stops with the reason why the C++ program would leave
    defined behaviour: a null pointer dereference, a dangling pointer, or a
    loop that does not terminate (fuel exhausted).

    Keys are [int] ordered by [std::less<int>], as in the driver
    [test/main.cpp]; values are any type with [operator!=] and a default
    constructor.  The [float] field [alpha] is the constant [0.57] in every
    constructor and is only ever copied.  Floating point is IEEE binary32
    with rounding to nearest, ties to even: conversions from [int],
    [alpha * n] and the argument of [build] are rounded as the machine
    rounds them.  The value of [h_alpha()] depends on the logarithm of the
    C library, which is no part of the source: it is a parameter. *)

From stdpp Require Import base option list gmap sorting.
From Stdlib Require Import ZArith QArith Lia.

Set Warnings "-clear-no-such-hyp".
Local Open Scope Z_scope.

Module DM852.

(** ** Results of a computation on the heap *)

Inductive result (A : Type) : Type :=
| Ok (a : A)
| NullDeref
| Dangling
| OutOfFuel.
Arguments Ok {A} a.
Arguments NullDeref {A}.
Arguments Dangling {A}.
Arguments OutOfFuel {A}.

Definition result_bind {A B : Type} (f : A → result B) (m : result A) : result B :=
  match m with
  | Ok a => f a
  | NullDeref => NullDeref
  | Dangling => Dangling
  | OutOfFuel => OutOfFuel
  end.

#[export] Instance result_mbind : MBind result := @result_bind.
#[export] Instance result_mret : MRet result := @Ok.

Abbreviation loc := positive.
Abbreviation ptr := (option positive).

(** [static Comp comp] with [Comp = std::less<int>]. *)
Definition comp (a b : Z) : bool := a <? b.

(** ** Binary32 arithmetic

    A finite binary32 value is [m * 2^e] with [|m| < 2^24].  [round24 z] is
    the value of that form nearest to the integer [z], ties going to the
    even mantissa: the result of converting [z] to [float], and of every
    operation whose exact result is [z] (in any fixed unit [2^e]).  All
    values met here are far from overflow and underflow. *)
Definition round24 (z : Z) : Z :=
  let a := Z.abs z in
  if a <? 2 ^ 24 then z
  else
    let e := Z.log2 a - 23 in
    let q := a / 2 ^ e in
    let r := a mod 2 ^ e in
    let m := if (r <? 2 ^ (e - 1)) || ((r =? 2 ^ (e - 1)) && Z.even q)
             then q else q + 1 in
    Z.sgn z * (m * 2 ^ e).

(** [(float) k] for an [int] [k]. *)
Definition float_of_int (k : Z) : Z := round24 k.

(** [float alpha = 0.57]: the binary32 value nearest to 0.57 is
    [9563013 / 2^24]. *)
Definition alpha_mantissa : Z := 9563013.

(** [alpha * n] for an [int] [n], in units of [2^-24]: [n] is converted to
    [float] and the exact product is rounded. *)
Definition alpha_mul (n : Z) : Z := round24 (alpha_mantissa * float_of_int n).

(** [k <= alpha * n] and [k < alpha * n] for [int] operands [k] and [n];
    [k] is converted to [float] for the comparison. *)
Definition le_alpha_mul (k n : Z) : bool := float_of_int k * 2 ^ 24 <=? alpha_mul n.
Definition lt_alpha_mul (k n : Z) : bool := float_of_int k * 2 ^ 24 <? alpha_mul n.

(** [ceil(x/2)] and [floor(x/2)] on an integral [float]; halving is
    exact. *)
Definition ceil_half (x : Z) : Z := - ((- x) / 2).
Definition floor_half (x : Z) : Z := x / 2.

(** [Tree::h_alpha]: [floor(log(tree_size) / log(1/alpha))].  The
    logarithm is the one of the C library, computed in floating point, and
    nothing in the source fixes its results; [h_alpha_of n] stands for the
    value of the expression when [tree_size] is [n].  It is a parameter of
    the model: what is proved below holds whatever this function is. *)
Class HAlpha := h_alpha_of : Z → Z.

Section Tree.
Context {V : Type} `{!EqDecision V} `{!Inhabited V} `{!HAlpha}.

(** ** Nodes and the heap *)

(** [struct Node]: the pair is owned by its node and never shared, so its two
    components are fields of the node. *)
Record Node : Type := mkNode {
  nparent : ptr;
  nleft : ptr;
  nright : ptr;
  nkey : Z;
  nvalue : V
}.

Abbreviation heap := (gmap positive Node).

(** The fields of [struct Tree] ([alpha] and [comp] are constants). *)
Record Tree : Type := mkTree {
  root : ptr;
  tfirst : ptr;
  tlast : ptr;
  tree_size : Z;
  max_size : Z
}.

Definition set_parent (q : ptr) (n : Node) : Node :=
  mkNode q (nleft n) (nright n) (nkey n) (nvalue n).
Definition set_left (q : ptr) (n : Node) : Node :=
  mkNode (nparent n) q (nright n) (nkey n) (nvalue n).
Definition set_right (q : ptr) (n : Node) : Node :=
  mkNode (nparent n) (nleft n) q (nkey n) (nvalue n).
Definition set_value (v : V) (n : Node) : Node :=
  mkNode (nparent n) (nleft n) (nright n) (nkey n) v.

Definition set_root (q : ptr) (t : Tree) : Tree :=
  mkTree q (tfirst t) (tlast t) (tree_size t) (max_size t).
Definition set_first (q : ptr) (t : Tree) : Tree :=
  mkTree (root t) q (tlast t) (tree_size t) (max_size t).
Definition set_last (q : ptr) (t : Tree) : Tree :=
  mkTree (root t) (tfirst t) q (tree_size t) (max_size t).
Definition set_tree_size (n : Z) (t : Tree) : Tree :=
  mkTree (root t) (tfirst t) (tlast t) n (max_size t).
Definition set_max_size (n : Z) (t : Tree) : Tree :=
  mkTree (root t) (tfirst t) (tlast t) (tree_size t) n.

(** Reading through a pointer: [p->...]. *)
Definition deref (p : ptr) : result loc :=
  match p with
  | Some l => Ok l
  | None => NullDeref
  end.

Definition load (h : heap) (l : loc) : result Node :=
  match h !! l with
  | Some n => Ok n
  | None => Dangling
  end.

(** Writing a field through a pointer: [l->field = ...]. *)
Definition upd (h : heap) (l : loc) (f : Node → Node) : result heap :=
  match h !! l with
  | Some n => Ok (<[l := f n]> h)
  | None => Dangling
  end.

(** [new Node(key, value)]. *)
Definition new_Node (h : heap) (k : Z) (v : V) : loc * heap :=
  let l := fresh (dom h) in
  (l, <[l := mkNode None None None k v]> h).

(** Every loop and recursion below follows pointers of the heap; on a heap
    that holds a tree it ends within as many steps as there are cells. *)
Definition fuel (h : heap) : nat := S (size h).

(** [delete p], running [~Node]: [delete left; delete right; delete pair]. *)
Fixpoint delete_Node (f : nat) (h : heap) (p : ptr) : result heap :=
  match p with
  | None => Ok h
  | Some l =>
      match f with
      | O => OutOfFuel
      | S f' =>
          n ← load h l;
          h1 ← delete_Node f' h (nleft n);
          h2 ← delete_Node f' h1 (nright n);
          Ok (delete l h2)
      end
  end.

(** ** Successor and predecessor *)

(** [while(res->left) res = res->left;] *)
Fixpoint descend_left (f : nat) (h : heap) (res : loc) : result loc :=
  match f with
  | O => OutOfFuel
  | S f' =>
      n ← load h res;
      match nleft n with
      | Some l => descend_left f' h l
      | None => Ok res
      end
  end.

(** [while(res->right) res = res->right;] *)
Fixpoint descend_right (f : nat) (h : heap) (res : loc) : result loc :=
  match f with
  | O => OutOfFuel
  | S f' =>
      n ← load h res;
      match nright n with
      | Some r => descend_right f' h r
      | None => Ok res
      end
  end.

(** [Node::next]. *)
Definition next (h : heap) (x : loc) : result ptr :=
  n ← load h x;
  match nright n with
  | Some r => res ← descend_left (fuel h) h r; Ok (Some res)
  | None =>
      match nparent n with
      | None => Ok None
      | Some p =>
          pn ← load h p;
          if comp (nkey n) (nkey pn) then Ok (Some p)
          else
            match nparent pn with
            | None => Ok None
            | Some g =>
                gn ← load h g;
                if comp (nkey pn) (nkey gn) then Ok (Some g) else Ok None
            end
      end
  end.

(** [Node::prev]. *)
Definition prev (h : heap) (x : loc) : result ptr :=
  n ← load h x;
  match nleft n with
  | Some l => res ← descend_right (fuel h) h l; Ok (Some res)
  | None =>
      match nparent n with
      | None => Ok None
      | Some p =>
          pn ← load h p;
          if comp (nkey pn) (nkey n) then Ok (Some p)
          else
            match nparent pn with
            | None => Ok None
            | Some g =>
                gn ← load h g;
                if comp (nkey gn) (nkey pn) then Ok (Some g) else Ok None
            end
      end
  end.

(** ** Observers *)

Definition Tree_new : Tree := mkTree None None None 0 0.

Definition size (t : Tree) : Z := tree_size t.
Definition empty (t : Tree) : bool := tree_size t =? 0.
Definition tend : ptr := None.
Definition begin (t : Tree) : ptr := if empty t then tend else tfirst t.

(** [iterator::operator++]. *)
Definition iter_incr (h : heap) (it : ptr) : result ptr :=
  l ← deref it; next h l.

(** [iterator::operator--]. *)
Definition iter_decr (t : Tree) (h : heap) (it : ptr) : result ptr :=
  match it with
  | None => Ok (tlast t)
  | Some l => prev h l
  end.

(** [Tree::find]. *)
Fixpoint find_loop (f : nat) (h : heap) (key : Z) (tmp : ptr) : result ptr :=
  match f with
  | O => OutOfFuel
  | S f' =>
      match tmp with
      | None => Ok None
      | Some l =>
          n ← load h l;
          if negb (nkey n =? key) then
            if comp key (nkey n) then find_loop f' h key (nleft n)
            else find_loop f' h key (nright n)
          else Ok (Some l)
      end
  end.

Definition find (t : Tree) (h : heap) (key : Z) : result ptr :=
  find_loop (fuel h) h key (root t).

(** [Tree::node_size]. *)
Fixpoint node_size (f : nat) (h : heap) (node : ptr) : result Z :=
  match node with
  | None => Ok 0
  | Some l =>
      match f with
      | O => OutOfFuel
      | S f' =>
          n ← load h l;
          a ← node_size f' h (nleft n);
          b ← node_size f' h (nright n);
          Ok (a + b + 1)
      end
  end.

(** ** Rebuilding: flatten and build *)

(** [Tree::flatten]: [x->right = flatten(x->right, y); return flatten(x->left, x);] *)
Fixpoint flatten (f : nat) (h : heap) (x y : ptr) : result (ptr * heap) :=
  match x with
  | None => Ok (y, h)
  | Some xl =>
      match f with
      | O => OutOfFuel
      | S f' =>
          xn ← load h xl;
          '(r, h1) ← flatten f' h (nright xn) y;
          h2 ← upd h1 xl (set_right r);
          xn2 ← load h2 xl;
          flatten f' h2 (nleft xn2) (Some xl)
      end
  end.

(** The loop of [flatten_wrapper]: clear [left] and [parent] along the chain
    of [right] pointers. *)
Fixpoint clear_chain (f : nat) (h : heap) (tmp : ptr) : result heap :=
  match tmp with
  | None => Ok h
  | Some l =>
      match f with
      | O => OutOfFuel
      | S f' =>
          h1 ← upd h l (set_left None);
          h2 ← upd h1 l (set_parent None);
          n ← load h2 l;
          clear_chain f' h2 (nright n)
      end
  end.

(** [Tree::flatten_wrapper]. *)
Definition flatten_wrapper (h : heap) (x y : ptr) : result (ptr * heap) :=
  '(n, h1) ← flatten (fuel h) h x y;
  h2 ← clear_chain (fuel h1) h1 n;
  Ok (n, h2).

(** [Tree::build].  The [float] argument is integral in every call and [n]
    is its value: [n - 1] is rounded to binary32, the halving is exact, and
    [ceil] and [floor] give integral values again. *)
Fixpoint build (f : nat) (n : Z) (h : heap) (x : ptr) : result (loc * heap) :=
  match f with
  | O => OutOfFuel
  | S f' =>
      if n =? 0 then
        xl ← deref x;
        h1 ← upd h xl (set_left None);
        Ok (xl, h1)
      else
        '(r, h1) ← build f' (ceil_half (round24 (n - 1))) h x;
        rn ← load h1 r;
        '(s, h2) ← build f' (floor_half (round24 (n - 1))) h1 (nright rn);
        sn ← load h2 s;
        h3 ← upd h2 r (set_right (nleft sn));
        rn3 ← load h3 r;
        h4 ← match nright rn3 with
             | Some c => upd h3 c (set_parent (Some r))
             | None => Ok h3
             end;
        rn4 ← load h4 r;
        h5 ← match nleft rn4 with
             | Some c => upd h4 c (set_parent (Some r))
             | None => Ok h4
             end;
        h6 ← upd h5 s (set_left (Some r));
        Ok (s, h6)
  end.

(** The recursion of [build] on a value [n >= 0] is at most [n + 1] calls
    deep. *)
Definition build_fuel (n : Z) : nat := S (Z.to_nat n).

(** The rebuild sequence of [insert] and [erase]:
    [Node* w = new Node(Key(), Value()); z = flatten_wrapper(x, w);
     r = build(n, z)->left;] where the [int] [n] is converted to the
    [float] parameter of [build]. *)
Definition rebuild (h : heap) (x : ptr) (n : Z) : result ((loc * ptr) * heap) :=
  let '(w, h0) := new_Node h 0 inhabitant in
  '(z, h1) ← flatten_wrapper h0 x (Some w);
  '(s, h2) ← build (build_fuel (float_of_int n)) (float_of_int n) h1 z;
  sn ← load h2 s;
  Ok ((w, nleft sn), h2).

(** [w->left = nullptr; delete w;] *)
Definition drop_sentinel (h : heap) (w : loc) : result heap :=
  h1 ← upd h w (set_left None);
  delete_Node (fuel h1) h1 (Some w).

(** ** Insertion *)

Inductive walk : Type :=
| Found (n : loc)
| Fell (tmp : ptr) (depth : Z) (left_most right_most : bool).

(** The search loop of [Tree::insert]. *)
Fixpoint insert_walk (f : nat) (h : heap) (key : Z) (n tmp : ptr) (depth : Z)
    (left_most right_most : bool) : result walk :=
  match n with
  | None => Ok (Fell tmp depth left_most right_most)
  | Some l =>
      match f with
      | O => OutOfFuel
      | S f' =>
          nd ← load h l;
          if comp key (nkey nd) then
            insert_walk f' h key (nleft nd) (Some l) (depth + 1) left_most false
          else if negb (comp key (nkey nd)) && negb (comp (nkey nd) key) then
            Ok (Found l)
          else
            insert_walk f' h key (nright nd) (Some l) (depth + 1) false right_most
      end
  end.

(** Is [scn] a scapegoat candidate?  Returns [n_size] with the verdict. *)
Definition scapegoat_check (h : heap) (scn : loc) : result (Z * bool) :=
  n_size ← node_size (fuel h) h (Some scn);
  sn ← load h scn;
  a ← node_size (fuel h) h (nleft sn);
  b ← node_size (fuel h) h (nright sn);
  Ok (n_size, negb (le_alpha_mul a n_size && le_alpha_mul b n_size)).

(** The body of [if(!(... <= alpha * n_size && ...)) { ... }]. *)
Definition rebuild_scapegoat (t : Tree) (h : heap) (scn : loc) (n_size : Z)
    : result (Tree * heap) :=
  sn ← load h scn;
  match nparent sn with
  | None =>
      '((w, r), h1) ← rebuild h (root t) n_size;
      let t1 := set_max_size (tree_size t) (set_root r t) in
      h2 ← drop_sentinel h1 w;
      Ok (t1, h2)
  | Some scn_parent =>
      '((w, r), h1) ← rebuild h (Some scn) n_size;
      scn' ← deref r;
      h2 ← upd h1 scn' (set_parent (Some scn_parent));
      sn' ← load h2 scn';
      pn ← load h2 scn_parent;
      h3 ← (if comp (nkey sn') (nkey pn)
            then upd h2 scn_parent (set_left (Some scn'))
            else upd h2 scn_parent (set_right (Some scn')));
      let t1 := set_max_size (tree_size t) t in
      h4 ← drop_sentinel h3 w;
      Ok (t1, h4)
  end.

(** [while(tmp->parent != nullptr) { ... tmp = tmp->parent; }] *)
Fixpoint scapegoat_loop (f : nat) (t : Tree) (h : heap) (tmp : loc)
    : result (Tree * heap) :=
  match f with
  | O => OutOfFuel
  | S f' =>
      tn ← load h tmp;
      match nparent tn with
      | None => Ok (t, h)
      | Some scn =>
          '(n_size, bad) ← scapegoat_check h scn;
          if (bad : bool) then rebuild_scapegoat t h scn n_size
          else scapegoat_loop f' t h scn
      end
  end.

(** [Tree::insert(const Key&, const Value&)]; the rvalue overload has the
    same body. *)
Definition insert (t : Tree) (h : heap) (key : Z) (value : V)
    : result ((ptr * bool) * (Tree * heap)) :=
  let '(node, h0) := new_Node h key value in
  w ← insert_walk (fuel h0) h0 key (root t) None 0 true true;
  match w with
  | Found n =>
      nd ← load h0 n;
      '(res_bool, h1) ←
        (if decide (value ≠ nvalue nd)
         then h' ← upd h0 n (set_value value); Ok (true, h')
         else Ok (false, h0));
      h2 ← delete_Node (fuel h1) h1 (Some node);
      Ok ((Some n, res_bool), (t, h2))
  | Fell tmp depth left_most right_most =>
      h1 ← upd h0 node (set_parent tmp);
      '(t1, h2) ←
        match tmp with
        | None => Ok (set_root (Some node) t, h1)
        | Some tl =>
            tn ← load h1 tl;
            h' ← (if comp key (nkey tn)
                  then upd h1 tl (set_left (Some node))
                  else upd h1 tl (set_right (Some node)));
            Ok (t, h')
        end;
      let t2 := set_tree_size (tree_size t1 + 1) t1 in
      let t3 := set_max_size (Z.max (max_size t2) (tree_size t2)) t2 in
      let t4 := if left_most then set_first (Some node) t3 else t3 in
      let t5 := if right_most then set_last (Some node) t4 else t4 in
      if (h_alpha_of (tree_size t5) <? depth) && (2 <? tree_size t5) then
        r ← scapegoat_loop (fuel h2) t5 h2 node;
        Ok ((Some node, true), r)
      else Ok ((Some node, true), (t5, h2))
  end.

(** The first part of [Tree::insert], up to the declaration of [iter]
    before the self-balancing part, for a key that the search does
    not find: the new node, the value of [depth], and the tree and the heap
    in which the self-balancing part starts.  [None] when the key is
    found. *)
Definition insert_link (t : Tree) (h : heap) (key : Z) (value : V)
    : result (option ((loc * Z) * (Tree * heap))) :=
  let '(node, h0) := new_Node h key value in
  w ← insert_walk (fuel h0) h0 key (root t) None 0 true true;
  match w with
  | Found n => Ok None
  | Fell tmp depth left_most right_most =>
      h1 ← upd h0 node (set_parent tmp);
      '(t1, h2) ←
        match tmp with
        | None => Ok (set_root (Some node) t, h1)
        | Some tl =>
            tn ← load h1 tl;
            h' ← (if comp key (nkey tn)
                  then upd h1 tl (set_left (Some node))
                  else upd h1 tl (set_right (Some node)));
            Ok (t, h')
        end;
      let t2 := set_tree_size (tree_size t1 + 1) t1 in
      let t3 := set_max_size (Z.max (max_size t2) (tree_size t2)) t2 in
      let t4 := if left_most then set_first (Some node) t3 else t3 in
      let t5 := if right_most then set_last (Some node) t4 else t4 in
      Ok (Some ((node, depth), (t5, h2)))
  end.

(** The scapegoat search of [Tree::insert] without the rebuild: the first
    node above [tmp] that fails the test, with its [n_size]. *)
Fixpoint scapegoat_find (f : nat) (h : heap) (tmp : loc) : result (option (loc * Z)) :=
  match f with
  | O => OutOfFuel
  | S f' =>
      tn ← load h tmp;
      match nparent tn with
      | None => Ok None
      | Some scn =>
          '(n_size, bad) ← scapegoat_check h scn;
          if (bad : bool) then Ok (Some (scn, n_size))
          else scapegoat_find f' h scn
      end
  end.

(** ** Erasure *)

(** [Tree::subtree_shift]. *)
Definition subtree_shift (t : Tree) (h : heap) (u : loc) (v : ptr)
    : result (Tree * heap) :=
  un ← load h u;
  '(t1, h1) ←
    match nparent un with
    | None => Ok (set_root v t, h)
    | Some p =>
        pn ← load h p;
        h' ← (if bool_decide (Some u = nleft pn)
              then upd h p (set_left v)
              else upd h p (set_right v));
        Ok (t, h')
    end;
  match v with
  | None => Ok (t1, h1)
  | Some vl =>
      un1 ← load h1 u;
      h2 ← upd h1 vl (set_parent (nparent un1));
      Ok (t1, h2)
  end.

(** The three cases of [Tree::erase(const_iterator)]. *)
Definition erase_unlink (t : Tree) (h : heap) (node : loc) : result (Tree * heap) :=
  nd ← load h node;
  match nleft nd, nright nd with
  | None, _ => subtree_shift t h node (nright nd)
  | Some l, None => subtree_shift t h node (Some l)
  | Some _, Some _ =>
      yp ← next h node;
      y ← deref yp;
      yn ← load h y;
      '(t1, h1) ←
        (if bool_decide (nparent yn ≠ Some node) then
           '(ta, ha) ← subtree_shift t h y (nright yn);
           nd' ← load ha node;
           hb ← upd ha y (set_right (nright nd'));
           yn' ← load hb y;
           yr ← deref (nright yn');
           hc ← upd hb yr (set_parent (Some y));
           Ok (ta, hc)
         else Ok (t, h));
      '(t2, h2) ← subtree_shift t1 h1 node (Some y);
      nd2 ← load h2 node;
      h3 ← upd h2 y (set_left (nleft nd2));
      yn3 ← load h3 y;
      yl ← deref (nleft yn3);
      h4 ← upd h3 yl (set_parent (Some y));
      Ok (t2, h4)
  end.

(** [Tree::erase(const_iterator pos)]. *)
Definition erase_at (t : Tree) (h : heap) (pos : ptr) : result (Tree * heap) :=
  t1 ← (if bool_decide (tfirst t = pos)
        then node ← deref pos; f ← next h node; Ok (set_first f t)
        else Ok t);
  t2 ← (if bool_decide (tlast t1 = pos)
        then node ← deref pos; l ← prev h node; Ok (set_last l t1)
        else Ok t1);
  node ← deref pos;
  '(t3, h1) ← erase_unlink t2 h node;
  let t4 := set_tree_size (tree_size t3 - 1) t3 in
  h2 ← upd h1 node (set_right None);
  h3 ← upd h2 node (set_left None);
  h4 ← delete_Node (fuel h3) h3 (Some node);
  if lt_alpha_mul (tree_size t4) (max_size t4) then
    '((w, r), h5) ← rebuild h4 (root t4) (tree_size t4);
    let t5 := set_max_size (tree_size t4) (set_root r t4) in
    h6 ← drop_sentinel h5 w;
    Ok (t5, h6)
  else Ok (t4, h4).

(** [Tree::erase(const Key& key)]. *)
Definition erase (t : Tree) (h : heap) (key : Z) : result (Tree * heap) :=
  pos ← find t h key;
  erase_at t h pos.

(** [Tree::clear]. *)
Definition clear (t : Tree) (h : heap) : result (Tree * heap) :=
  h1 ← delete_Node (fuel h) h (root t);
  Ok (mkTree None None None 0 0, h1).

(** ** Copying *)

(** [Tree::copy_helper]. *)
Fixpoint copy_helper (f : nat) (h : heap) (root : ptr) : result (ptr * heap) :=
  match root with
  | None => Ok (None, h)
  | Some rl =>
      match f with
      | O => OutOfFuel
      | S f' =>
          rn ← load h rl;
          let '(n, h0) := new_Node h (nkey rn) (nvalue rn) in
          h2 ← match nleft rn with
               | None => Ok h0
               | Some _ =>
                   '(c, h1) ← copy_helper f' h0 (nleft rn);
                   h1' ← upd h1 n (set_left c);
                   match c with
                   | Some cl => upd h1' cl (set_parent (Some n))
                   | None => Ok h1'
                   end
               end;
          h4 ← match nright rn with
               | None => Ok h2
               | Some _ =>
                   '(c, h3) ← copy_helper f' h2 (nright rn);
                   h3' ← upd h3 n (set_right c);
                   match c with
                   | Some cl => upd h3' cl (set_parent (Some n))
                   | None => Ok h3'
                   end
               end;
          Ok (Some n, h4)
      end
  end.

(** The tail shared by the copy constructor and copy assignment:
    [if(other.root) root = copy_helper(other.root);] and the two scans that
    set [first] and [last]. *)
Definition copy_from (h : heap) (other : Tree) : result (Tree * heap) :=
  '(r, h1) ← (match root other with
              | Some _ => copy_helper (fuel h) h (root other)
              | None => Ok (None, h)
              end);
  n ← deref r;
  f ← descend_left (fuel h1) h1 n;
  n' ← deref r;
  l ← descend_right (fuel h1) h1 n';
  Ok (mkTree r (Some f) (Some l) (tree_size other) (max_size other), h1).

(** [Tree::Tree(const Tree& other)]. *)
Definition Tree_copy (h : heap) (other : Tree) : result (Tree * heap) :=
  copy_from h other.

(** [Tree::operator=(const Tree& other)], for [this] distinct from [other]. *)
Definition copy_assign (this : Tree) (h : heap) (other : Tree) : result (Tree * heap) :=
  h1 ← delete_Node (fuel h) h (root this);
  copy_from h1 other.

(** ** Equality *)

(** The three tests of the loop body of [Tree::operator==]; [true] means
    [return false]. *)
Definition differ (h : heap) (tmp n : loc) : result bool :=
  tn ← load h tmp;
  nn ← load h n;
  if (bool_decide (is_Some (nparent tn)) || bool_decide (is_Some (nparent nn)))
     && (negb (bool_decide (is_Some (nparent tn))) || negb (bool_decide (is_Some (nparent nn))))
  then Ok true
  else
    d ← match nparent tn with
        | Some tp =>
            tpn ← load h tp;
            np ← deref (nparent nn);
            npn ← load h np;
            Ok (negb (nkey tpn =? nkey npn) || bool_decide (nvalue tpn ≠ nvalue npn))
        | None => Ok false
        end;
    if (d : bool) then Ok true
    else Ok (negb (nkey tn =? nkey nn) || bool_decide (nvalue tn ≠ nvalue nn)).

(** [for(n = other.begin(); n != other.end(); n++) { ...; ++tmp; }] *)
Fixpoint equal_loop (f : nat) (h : heap) (tmp n : ptr) : result bool :=
  match n with
  | None => Ok true
  | Some nl =>
      match f with
      | O => OutOfFuel
      | S f' =>
          tl ← deref tmp;
          d ← differ h tl nl;
          if (d : bool) then Ok false
          else
            tmp' ← next h tl;
            n' ← next h nl;
            equal_loop f' h tmp' n'
      end
  end.

(** [Tree::operator==]. *)
Definition equal (this other : Tree) (h : heap) : result bool :=
  if negb (tree_size this =? tree_size other) then Ok false
  else equal_loop (fuel h) h (begin this) (begin other).

(** ** Traversal as the driver's [print] command does it *)

(** [for(iter = begin(); iter != end(); iter++)], collecting [*iter]. *)
Fixpoint traverse_loop (f : nat) (h : heap) (it : ptr) : result (list (Z * V)) :=
  match it with
  | None => Ok []
  | Some l =>
      match f with
      | O => OutOfFuel
      | S f' =>
          n ← load h l;
          it' ← next h l;
          rest ← traverse_loop f' h it';
          Ok ((nkey n, nvalue n) :: rest)
      end
  end.

Definition traverse (t : Tree) (h : heap) : result (list (Z * V)) :=
  traverse_loop (fuel h) h (begin t).

(** ** Element access *)

(** [iterator::operator*]: [return *(ptr->pair);] *)
Definition iter_get (h : heap) (it : ptr) : result (Z * V) :=
  l ← deref it;
  n ← load h l;
  Ok (nkey n, nvalue n).

(** [Tree::front]: [return *(begin());] *)
Definition front (t : Tree) (h : heap) : result (Z * V) :=
  iter_get h (begin t).

(** [Tree::back]: [if(empty()) end(); return *(--end());] where the result
    of the first [end()] is discarded. *)
Definition back (t : Tree) (h : heap) : result (Z * V) :=
  it ← iter_decr t h tend;
  iter_get h it.

(** ** Moving and destroying *)

(** [Tree::~Tree]: [delete root;] *)
Definition destroy (t : Tree) (h : heap) : result heap :=
  delete_Node (fuel h) h (root t).

(** The fields taken from [other] and the fields left in it by the move
    constructor and move assignment. *)
Definition taken (other : Tree) : Tree :=
  mkTree (root other) (tfirst other) (tlast other) (tree_size other) (max_size other).
Definition moved_from (other : Tree) : Tree :=
  set_max_size 0 (set_tree_size 0 (set_last None (set_first None (set_root None other)))).

(** [Tree::Tree(Tree&& other)]: the new tree and [other] afterwards. *)
Definition Tree_move (other : Tree) : Tree * Tree :=
  (taken other, moved_from other).

(** [Tree::operator=(Tree&& other)], for [this] distinct from [other]:
    [this] and [other] afterwards. *)
Definition move_assign (this : Tree) (h : heap) (other : Tree)
    : result ((Tree * Tree) * heap) :=
  h1 ← delete_Node (fuel h) h (root this);
  Ok ((taken other, moved_from other), h1).

End Tree.
End DM852.

(** * Observations on the heap used to state the properties

    These read a tree through its [left] and [right] pointers only, by
    structural recursion, and belong to no method of the source. *)

Module Observe.
Import DM852.

(** [k <= alpha * n] with [alpha = 0.57], in exact arithmetic: the weight
    bound as it is stated, not as the code tests it in [float]. *)
Definition within_alpha (k n : Z) : bool := 100 * k <=? 57 * n.

Section Observe.
Context {V : Type}.

Abbreviation heap := (gmap positive (@Node V)).

(** The entries below [p], left subtree first. *)
Fixpoint inorder (f : nat) (h : heap) (p : ptr) : result (list (Z * V)) :=
  match p with
  | None => Ok []
  | Some l =>
      match f with
      | O => OutOfFuel
      | S f' =>
          n ← load h l;
          a ← inorder f' h (nleft n);
          b ← inorder f' h (nright n);
          Ok (a ++ (nkey n, nvalue n) :: b)
      end
  end.

(** The entries of a tree, in order. *)
Definition entries (t : Tree) (h : heap) : result (list (Z * V)) :=
  inorder (fuel h) h (root t).

(** The shape below [p]: the tree of addresses. *)
Inductive shape : Type :=
| Nil
| Bin (l : shape) (x : loc) (r : shape).

Fixpoint shape_of (f : nat) (h : heap) (p : ptr) : result shape :=
  match p with
  | None => Ok Nil
  | Some l =>
      match f with
      | O => OutOfFuel
      | S f' =>
          n ← load h l;
          a ← shape_of f' h (nleft n);
          b ← shape_of f' h (nright n);
          Ok (Bin a l b)
      end
  end.


(** The nodes below [p] that break the weight bound
    [weight(left) <= alpha * weight(x)] and [weight(right) <= alpha * weight(x)]. *)
Fixpoint unbalanced (f : nat) (h : heap) (p : ptr) : result (list loc) :=
  match p with
  | None => Ok []
  | Some l =>
      match f with
      | O => OutOfFuel
      | S f' =>
          n ← load h l;
          w ← node_size (fuel h) h (Some l);
          wl ← node_size (fuel h) h (nleft n);
          wr ← node_size (fuel h) h (nright n);
          a ← unbalanced f' h (nleft n);
          b ← unbalanced f' h (nright n);
          Ok (a ++ (if within_alpha wl w && within_alpha wr w then [] else [l]) ++ b)
      end
  end.

End Observe.
End Observe.

(** * Trees held by a heap

    The proofs relate a heap to the binary tree of nodes it holds.  A tree
    [T] records, for every node, its address and its entry; [rep h par t]
    says that the cells of [h] at the addresses of [t] are linked as [t]
    prescribes, the root of [t] having parent pointer [par]. *)

Module Abs.
Import DM852.

Section Abs.
Context {V : Type}.

Abbreviation heap := (gmap positive (@Node V)).

Inductive T : Type :=
| E
| N (l : T) (p : loc) (k : Z) (v : V) (r : T).

Definition rootp (t : T) : ptr :=
  match t with
  | E => None
  | N _ p _ _ _ => Some p
  end.

(** Nodes, addresses, keys and entries in order. *)
Fixpoint nodes (t : T) : list (loc * (Z * V)) :=
  match t with
  | E => []
  | N l p k v r => nodes l ++ (p, (k, v)) :: nodes r
  end.

Definition ids (t : T) : list loc := fst <$> nodes t.
Definition elems (t : T) : list (Z * V) := snd <$> nodes t.
Definition keys (t : T) : list Z := fst <$> elems t.

Fixpoint weight (t : T) : Z :=
  match t with
  | E => 0
  | N l _ _ _ r => weight l + weight r + 1
  end.

Fixpoint rep (h : heap) (par : ptr) (t : T) : Prop :=
  match t with
  | E => True
  | N l p k v r =>
      h !! p = Some (mkNode par (rootp l) (rootp r) k v)
      ∧ rep h (Some p) l ∧ rep h (Some p) r
  end.

(** Binary search trees: the keys in order increase strictly. *)
Definition bst (t : T) : Prop := StronglySorted Z.lt (keys t).

(** ** Contexts: a tree with a hole *)

Inductive frame : Type :=
| FL (p : loc) (k : Z) (v : V) (r : T)
| FR (l : T) (p : loc) (k : Z) (v : V).

(** Innermost frame first. *)
Fixpoint plug (c : list frame) (t : T) : T :=
  match c with
  | [] => t
  | FL p k v r :: c' => plug c' (N t p k v r)
  | FR l p k v :: c' => plug c' (N l p k v t)
  end.

Definition faddr (f : frame) : loc :=
  match f with
  | FL p _ _ _ => p
  | FR _ p _ _ => p
  end.

Definition fkey (f : frame) : Z :=
  match f with
  | FL _ k _ _ => k
  | FR _ _ k _ => k
  end.

(** The parent pointer of the hole, [top] being the parent pointer of the
    root of the whole tree. *)
Definition cpar (top : ptr) (c : list frame) : ptr :=
  match c with
  | [] => top
  | f :: _ => Some (faddr f)
  end.

(** The root pointer of [plug c t], [q] being the root pointer of [t]. *)
Definition croot (c : list frame) (q : ptr) : ptr :=
  match last c with
  | Some f => Some (faddr f)
  | None => q
  end.

(** The cells of a context, the hole holding pointer [q]. *)
Fixpoint repc (h : heap) (top : ptr) (c : list frame) (q : ptr) : Prop :=
  match c with
  | [] => True
  | FL p k v r :: c' =>
      h !! p = Some (mkNode (cpar top c') q (rootp r) k v)
      ∧ rep h (Some p) r ∧ repc h top c' (Some p)
  | FR l p k v :: c' =>
      h !! p = Some (mkNode (cpar top c') (rootp l) q k v)
      ∧ rep h (Some p) l ∧ repc h top c' (Some p)
  end.

(** Nodes of a context to the left and to the right of the hole. *)
Fixpoint cleft (c : list frame) : list (loc * (Z * V)) :=
  match c with
  | [] => []
  | FL _ _ _ _ :: c' => cleft c'
  | FR l p k v :: c' => cleft c' ++ nodes l ++ [(p, (k, v))]
  end.

Fixpoint cright (c : list frame) : list (loc * (Z * V)) :=
  match c with
  | [] => []
  | FL p k v r :: c' => (p, (k, v)) :: nodes r ++ cright c'
  | FR _ _ _ _ :: c' => cright c'
  end.

(** Addresses of a context, and its keys to the left and to the right of
    the hole. *)
Definition cids (c : list frame) : list loc := fst <$> (cleft c ++ cright c).
Definition ckl (c : list frame) : list Z := (cleft c).*2.*1.
Definition ckr (c : list frame) : list Z := (cright c).*2.*1.

(** A key fits a context when the search for it passes through each frame
    on the side of the hole. *)
Definition fits (x : Z) (f : frame) : Prop :=
  match f with
  | FL _ k _ _ => x < k
  | FR _ _ k _ => k < x
  end.

Definition is_FL (f : frame) : bool :=
  match f with FL _ _ _ _ => true | FR _ _ _ _ => false end.
Definition is_FR (f : frame) : bool :=
  match f with FL _ _ _ _ => false | FR _ _ _ _ => true end.

(** The search for key [x] in [t] below context [c]: where it ends. *)
Fixpoint locate (x : Z) (t : T) (c : list frame) : list frame * T :=
  match t with
  | E => (c, E)
  | N l p k v r =>
      if x <? k then locate x l (FL p k v r :: c)
      else if k <? x then locate x r (FR l p k v :: c)
      else (c, t)
  end.

(** ** Chains of [right] pointers *)

(** [chain h es s tl]: from pointer [s], following [right], one meets the
    nodes [es] in turn and then pointer [tl]. *)
Fixpoint chain (h : heap) (es : list (loc * (Z * V))) (s tl : ptr) : Prop :=
  match es with
  | [] => s = tl
  | (p, (k, v)) :: es' =>
      s = Some p
      ∧ ∃ n, h !! p = Some n ∧ nkey n = k ∧ nvalue n = v ∧ chain h es' (nright n) tl
  end.

(** The number of nodes that [build f n] takes from the chain: as many as
    the halves of the rounded [n - 1] take, and one between them. *)
Fixpoint consumed (f : nat) (n : Z) : Z :=
  match f with
  | O => 0
  | S f' =>
      if n =? 0 then 0
      else consumed f' (ceil_half (round24 (n - 1))) + 1
           + consumed f' (floor_half (round24 (n - 1)))
  end.

(** The number of nodes that the rebuild sequence keeps when it is called
    with the [int] [n]. *)
Definition kept (n : Z) : Z :=
  consumed (build_fuel (float_of_int n)) (float_of_int n).

(** The shape [build] gives to [n] nodes when [n - 1] is not rounded: [ceil((n-1)/2)] of them to the
    left of the root and [floor((n-1)/2)] to its right, at every node. *)
Fixpoint built (t : T) : Prop :=
  match t with
  | E => True
  | N l _ _ _ r =>
      weight l = ceil_half (weight t - 1) ∧ weight r = floor_half (weight t - 1)
      ∧ built l ∧ built r
  end.


(** Every node keeps the weight bound. *)
Fixpoint weight_balanced (t : T) : Prop :=
  match t with
  | E => True
  | N l _ _ _ r =>
      Observe.within_alpha (weight l) (weight t) = true
      ∧ Observe.within_alpha (weight r) (weight t) = true
      ∧ weight_balanced l ∧ weight_balanced r
  end.

(** The tree of addresses. *)
Fixpoint tshape (t : T) : Observe.shape :=
  match t with
  | E => Observe.Nil
  | N l p _ _ r => Observe.Bin (tshape l) p (tshape r)
  end.

(** A tree and a context without their addresses: what is left is the
    shape with the entries. *)
Fixpoint strip (t : T) : T :=
  match t with
  | E => E
  | N l _ k v r => N (strip l) 1%positive k v (strip r)
  end.

Definition stripf (f : frame) : frame :=
  match f with
  | FL _ k v r => FL 1%positive k v (strip r)
  | FR l _ k v => FR (strip l) 1%positive k v
  end.

Definition stripc (c : list frame) : list frame := stripf <$> c.

(** Whether [next] finds a node, at the root of a subtree with right
    subtree [r] in context [c]: below on the right, one level up, or two
    levels up. *)
Definition goes_on (c : list frame) (r : T) : bool :=
  match r with
  | N _ _ _ _ _ => true
  | E =>
      match c with
      | FL _ _ _ _ :: _ => true
      | FR _ _ _ _ :: FL _ _ _ _ :: _ => true
      | _ => false
      end
  end.

(** What [copy_helper] returns for a subtree [s] copied in heap [h]. *)
Definition copied (h : heap) (s : T) (res : result (ptr * heap)) : Prop :=
  ∃ h' s',
    res = Ok (rootp s', h')
    ∧ rep h' None s'
    ∧ elems s' = elems s
    ∧ (s ≠ E → s' ≠ E)
    ∧ NoDup (ids s')
    ∧ (∀ q, q ∈ ids s' → h !! q = None)
    ∧ (∀ q, is_Some (h !! q) → h' !! q = h !! q)
    ∧ (∀ q, h !! q = None → q ∉ ids s' → h' !! q = None)
    ∧ strip s' = strip s.

(** ** The invariant of a [Tree] object *)

Record holds (t : Tree) (h : heap) (a : T) : Prop := mkHolds {
  holds_rep : rep h None a;
  holds_nodup : NoDup (ids a);
  holds_bst : bst a;
  holds_root : root t = rootp a;
  holds_first : tfirst t = head (ids a);
  holds_last : tlast t = last (ids a);
  holds_size : tree_size t = weight a
}.

Definition wf (t : Tree) (h : heap) : Prop := ∃ a, holds t h a.

(** What is left of the invariant when a rebuild has left nodes out
    (the [float] argument of [build] was smaller than the length of the
    chain): the nodes under [root] still form a search tree that starts at
    [first], and [tree_size] counts at least these nodes. *)
Record links (t : Tree) (h : heap) (a : T) : Prop := mkLinks {
  links_rep : rep h None a;
  links_nodup : NoDup (ids a);
  links_bst : bst a;
  links_root : root t = rootp a;
  links_first : tfirst t = head (ids a);
  links_size : weight a ≤ tree_size t
}.

End Abs.
End Abs.

(** * Sequences of operations *)

Module Trace.
Import DM852.

Section Trace.
Context {V : Type} `{!EqDecision V} `{!Inhabited V} `{!HAlpha}.

Inductive op : Type :=
| Insert (k : Z) (v : V)
| Erase (k : Z).

(** A tree object together with the heap it lives in. *)
Definition state : Type := Tree * gmap positive (@Node V).

Definition step (s : state) (o : op) : result state :=
  match o with
  | Insert k v => '(_, s') ← insert s.1 s.2 k v; Ok s'
  | Erase k => erase s.1 s.2 k
  end.

Fixpoint run (ops : list op) (s : state) : result state :=
  match ops with
  | [] => Ok s
  | o :: ops' => s' ← step s o; run ops' s'
  end.

End Trace.
End Trace.

(** * A reference for the contents of a tree

    Association lists sorted by key, with the three operations of a finite
    map.  They belong to no method of the source: the tree is compared with
    them. *)

Module Assoc.
Import DM852 Trace.

Section Assoc.
Context {V : Type} `{!EqDecision V} `{!Inhabited V}.

(** Store [v] under [k], in key order, replacing the value when [k] is
    there. *)
Fixpoint put (k : Z) (v : V) (es : list (Z * V)) : list (Z * V) :=
  match es with
  | [] => [(k, v)]
  | (k', v') :: es' =>
      if k <? k' then (k, v) :: es
      else if k' <? k then (k', v') :: put k v es'
      else (k, v) :: es'
  end.

(** Drop the entry of [k]. *)
Fixpoint del (k : Z) (es : list (Z * V)) : list (Z * V) :=
  match es with
  | [] => []
  | (k', v') :: es' => if k' =? k then es' else (k', v') :: del k es'
  end.

Definition has (k : Z) (es : list (Z * V)) : bool :=
  existsb (λ e, e.1 =? k) es.

Fixpoint get (k : Z) (es : list (Z * V)) : option V :=
  match es with
  | [] => None
  | (k', v') :: es' => if k' =? k then Some v' else get k es'
  end.

(** The list a sequence of operations leaves, [None] when it erases a key
    that is not there. *)
Fixpoint replay (ops : list (@op V)) (es : list (Z * V)) : option (list (Z * V)) :=
  match ops with
  | [] => Some es
  | Insert k v :: ops' => replay ops' (put k v es)
  | Erase k :: ops' => if has k es then replay ops' (del k es) else None
  end.

End Assoc.
End Assoc.

(** * Sessions on two trees

    The driver [SGT] of [test/main.cpp] keeps two trees, [tree] and
    [tmp_tree], and changes them by the commands [insert] and [erase] and
    [clear] on [tree], [copy] ([tmp_tree = tree]) and [move]
    ([tmp_tree = std::move(tree)]). *)

Module Session.
Import DM852 Abs Trace.

Section Session.
Context {V : Type} `{!EqDecision V} `{!Inhabited V} `{!HAlpha}.

Inductive cmd : Type :=
| Do (o : @op V)
| Clear
| Copy
| Move.

(** [tree], [tmp_tree] and the heap. *)
Definition state : Type := (Tree * Tree) * gmap positive (@Node V).

Definition exec (s : state) (c : cmd) : result state :=
  let '((tree, tmp), h) := s in
  match c with
  | Do o => '(tree', h') ← step (tree, h) o; Ok ((tree', tmp), h')
  | Clear => '(tree', h') ← clear tree h; Ok ((tree', tmp), h')
  | Copy => '(tmp', h') ← copy_assign tmp h tree; Ok ((tree, tmp'), h')
  | Move => '((tmp', tree'), h') ← move_assign tmp h tree; Ok ((tree', tmp'), h')
  end.

Fixpoint session (cmds : list cmd) (s : state) : result state :=
  match cmds with
  | [] => Ok s
  | c :: cmds' => s' ← exec s c; session cmds' s'
  end.

(** Both trees newly constructed. *)
Definition start (h0 : gmap positive (@Node V)) : state := ((Tree_new, Tree_new), h0).

(** The two destructors at the end of the session. *)
Definition finish (s : state) : result (gmap positive (@Node V)) :=
  let '((tree, tmp), h) := s in
  h1 ← destroy tmp h;
  destroy tree h1.

(** ** Ownership of heap cells

    Used to state what an operation may touch: [footprint h a h' a'] says
    that going from heap [h] to [h'] changed the tree [a] into [a'] and
    nothing else; [owned h0 h a b] that heap [h] is [h0] together with the
    cells of two disjoint trees [a] and [b]. *)
Definition footprint (h : gmap positive (@Node V)) (a : @T V)
    (h' : gmap positive (@Node V)) (a' : @T V) : Prop :=
  (∀ q, q ∉ ids a → q ∉ ids a' → h' !! q = h !! q)
  ∧ (∀ q, q ∈ ids a → q ∉ ids a' → h' !! q = None)
  ∧ (∀ q, q ∈ ids a' → q ∉ ids a → h !! q = None).

Definition owned (h0 h : gmap positive (@Node V)) (a b : @T V) : Prop :=
  (∀ q, q ∈ ids a → q ∉ ids b)
  ∧ (∀ q, q ∉ ids a → q ∉ ids b → h !! q = h0 !! q)
  ∧ (∀ q, q ∈ ids a ∨ q ∈ ids b → h0 !! q = None).

(** The invariant of a session of which each tree has had at most [n]
    nodes. *)
Definition sinv (h0 : gmap positive (@Node V)) (n : Z) (s : state) : Prop :=
  ∃ a b, holds s.1.1 s.2 a ∧ holds s.1.2 s.2 b ∧ owned h0 s.2 a b
         ∧ weight a ≤ n ∧ weight b ≤ n.

(** The same without counting cells: [confined h a h' a'] says that going
    from [h] to [h'] left alone every cell of [h] outside the tree [a], and
    that the tree [a'] is made of cells of [a] and of cells that were free
    in [h]; [apart s] that the two trees of [s] are search trees on
    disjoint cells. *)
Definition confined (h : gmap positive (@Node V)) (a : @T V)
    (h' : gmap positive (@Node V)) (a' : @T V) : Prop :=
  (∀ q, is_Some (h !! q) → q ∉ ids a → h' !! q = h !! q)
  ∧ (∀ q, q ∈ ids a' → q ∈ ids a ∨ h !! q = None).

Definition apart (s : state) : Prop :=
  ∃ a b, links s.1.1 s.2 a ∧ links s.1.2 s.2 b ∧ (∀ q, q ∈ ids a → q ∉ ids b).

End Session.
End Session.

(** * The scenarios of the specification, run on the model *)

Module Scenario.
Import DM852 Observe Abs Trace.

(** The scenarios are run with the exact value of
    [floor(log(n) / log(1/alpha))] for [alpha = 57/100] in the place of
    [h_alpha()], that is the largest [h] with [(1/alpha)^h <= n].  For the
    tree sizes that occur in them (at most 10) the quotient is at a
    distance of more than 0.04 from every integer, far beyond the rounding
    error of an evaluation in floating point.  [p] is [(1/alpha)^h]. *)
Definition alpha : Q := 57 # 100.

Fixpoint h_alpha_loop (fuel : nat) (n : Z) (p : Q) (h : Z) : Z :=
  match fuel with
  | O => h
  | S f =>
      if Qle_bool (p * / alpha) (inject_Z n)
      then h_alpha_loop f n (p * / alpha) (h + 1)
      else h
  end.

Definition h_alpha_exact (tree_size : Z) : Z :=
  h_alpha_loop (Z.to_nat tree_size) tree_size 1 0.

#[export] Instance scenario_h_alpha : HAlpha := h_alpha_exact.

(** The heap of a [Tree<int, int>]: the scenarios store integer values. *)
Abbreviation memory := (gmap positive (@Node Z)).

(** A run of the driver: a list of [insert key value] commands issued on a
    tree [t]. *)
Fixpoint insert_all (cmds : list (Z * Z)) (t : Tree) (h : memory)
    : result (Tree * memory) :=
  match cmds with
  | [] => Ok (t, h)
  | (k, v) :: cmds' =>
      '(_, (t', h')) ← insert t h k v;
      insert_all cmds' t' h'
  end.

Definition with_value (v : Z) (keys : list Z) : list (Z * Z) :=
  (λ k, (k, v)) <$> keys.

(** [build_from keys]: insert [keys], each with value 0, into an empty tree
    on an empty heap. *)
Definition build_from (keys : list Z) : result (Tree * memory) :=
  insert_all (with_value 0 keys) Tree_new ∅.

Definition on_state {A : Type} (s : result (Tree * memory))
    (f : Tree → memory → result A) : result A :=
  '(t, h) ← s; f t h.

(** The tree in which [next] loses the successor of key 7: the node 7 is the
    right child of 6, itself the right child of 4, the left child of the root 8. *)
Definition deep_right : result (Tree * memory) := build_from [8; 4; 12; 6; 10; 7].

(** Two trees on one heap, inserted in the same order, that differ in the
    value stored under key 12. *)
Definition two_trees : result (Tree * Tree * memory) :=
  '(a, h) ← insert_all (with_value 0 [8; 4; 12; 6; 10; 7]) Tree_new ∅;
  '(b, h') ← insert_all [(8, 0); (4, 0); (12, 1); (6, 0); (10, 0); (7, 0)] Tree_new h;
  Ok (a, b, h').

(** Five insertions none of which is deep enough to look for a scapegoat. *)
Definition lopsided : result (Tree * memory) := build_from [2; 1; 4; 3; 5].


(** A session of inserts and erases on [Tree<int, int>], and the state it
    ends in. *)
Definition sample_ops : list (@op Z) :=
  [Insert 5 0; Insert 3 1; Insert 8 2; Insert 1 3; Erase 3; Insert 4 4;
   Insert 7 5; Insert 9 6; Insert 2 7; Erase 8].

Definition sample_state : Tree * memory :=
  Eval vm_compute in
    match run sample_ops (Tree_new, ∅) with
    | Ok s => s
    | _ => (Tree_new, ∅)
    end.

Definition sample_tree : Tree := sample_state.1.
Definition sample_memory : memory := sample_state.2.

(** Four insertions and an erase, after which [size()] is 3 and [max_size]
    is 4: the next erase passes the test [tree_size < alpha * max_size]. *)
Definition shrink_ops : list (@op Z) :=
  [Insert 2 0; Insert 1 0; Insert 3 0; Insert 4 0; Erase 4].

Definition shrink_state : Tree * memory :=
  Eval vm_compute in
    match run shrink_ops (Tree_new, ∅) with
    | Ok s => s
    | _ => (Tree_new, ∅)
    end.

(** Four insertions after which [insert(10, 0)] links its node at depth 3,
    deeper than [h_alpha], and finds the node of key 8 as scapegoat. *)
Definition climb_ops : list (@op Z) :=
  [Insert 5 0; Insert 3 0; Insert 8 0; Insert 9 0].

Definition climb_state : Tree * memory :=
  Eval vm_compute in
    match run climb_ops (Tree_new, ∅) with
    | Ok s => s
    | _ => (Tree_new, ∅)
    end.

(** The entries of the sample tree. *)
Definition sample_entries : list (Z * Z) :=
  [(1, 3); (2, 7); (4, 4); (5, 0); (7, 5); (9, 6)].



(** A session on two trees, and the state it ends in. *)
Definition sample_cmds : list (@Session.cmd Z) :=
  [Session.Do (Insert 5 0); Session.Do (Insert 3 1); Session.Do (Insert 8 2);
   Session.Copy; Session.Do (Insert 1 3); Session.Do (Erase 3); Session.Move;
   Session.Do (Insert 4 4); Session.Do (Insert 7 5); Session.Clear;
   Session.Do (Insert 9 6); Session.Do (Insert 2 7); Session.Copy;
   Session.Do (Erase 9); Session.Do (Insert 6 6)].

Definition sample_pair : @Session.state Z :=
  Eval vm_compute in
    match Session.session sample_cmds (Session.start ∅) with
    | Ok s => s
    | _ => Session.start ∅
    end.

(** [tmp_tree = tree] in that state: the new [tmp_tree] and the memory. *)
Definition sample_copy : Tree * gmap positive (@Node Z) :=
  Eval vm_compute in
    match copy_assign sample_pair.1.2 sample_pair.2 sample_pair.1.1 with
    | Ok s => s
    | _ => (Tree_new, ∅)
    end.

End Scenario.

(** * Basic facts: heap cells, trees and contexts *)

Module Basic.
Import DM852 Abs.

Arguments fuel : simpl never.
Arguments build_fuel : simpl never.

Lemma bind_Ok {A B : Type} (a : A) (f : A → result B) : (Ok a ≫= f) = f a.
Proof. reflexivity. Qed.

(** Reduce [Ok a ≫= f] without unfolding anything else. *)
Ltac bind_ok := repeat (rewrite bind_Ok; cbv beta iota).

Lemma bind_Ok_inv {A B : Type} (m : result A) (f : A → result B) (b : B) :
  (m ≫= f) = Ok b → ∃ a, m = Ok a ∧ f a = Ok b.
Proof. destruct m; simpl; try discriminate. eauto. Qed.

Lemma within_alpha_spec k n : Observe.within_alpha k n = true ↔ 100 * k ≤ 57 * n.
Proof. unfold Observe.within_alpha. apply Z.leb_le. Qed.

(** ** Rounding to 24 bits *)

(** Below [2^24] nothing is rounded. *)
Lemma round24_small z : 0 ≤ z ≤ 2 ^ 24 → round24 z = z.
Proof.
  intros Hz. destruct (decide (z = 2 ^ 24)) as [->|Hne]; [by vm_compute|].
  unfold round24. rewrite Z.abs_eq by lia.
  assert ((z <? 2 ^ 24) = true) as -> by lia. done.
Qed.

(** From [2^24] on: the mantissa [q], the discarded part [r] and the
    rounded mantissa [m]. *)
Lemma round24_big z :
  2 ^ 24 ≤ z →
  ∃ e q r m,
    1 ≤ e ∧ z = q * 2 ^ e + r ∧ 0 ≤ r < 2 ^ e ∧ 2 ^ 23 ≤ q < 2 ^ 24
    ∧ round24 z = m * 2 ^ e
    ∧ ((m = q ∧ 2 * r ≤ 2 ^ e) ∨ (m = q + 1 ∧ 2 ^ e ≤ 2 * r)).
Proof.
  intros Hz. assert (0 < z) as Hpos by lia.
  pose proof (Z.log2_spec z Hpos) as (Hlo & Hhi).
  assert (24 ≤ Z.log2 z) as Hlog by (apply Z.log2_le_pow2; lia).
  set (e := Z.log2 z - 23) in *.
  assert (1 ≤ e) as He by lia.
  assert (0 < 2 ^ e) as Hpe by (apply Z.pow_pos_nonneg; lia).
  assert (2 ^ e = 2 * 2 ^ (e - 1)) as Hhalf.
  { rewrite <- (Z.pow_succ_r 2 (e - 1)) by lia. f_equal. lia. }
  assert (0 < 2 ^ (e - 1)) as Hph by (apply Z.pow_pos_nonneg; lia).
  pose proof (Z.div_mod z (2 ^ e) ltac:(lia)) as Hdm.
  pose proof (Z.mod_pos_bound z (2 ^ e) Hpe) as Hr.
  set (q := z / 2 ^ e) in *. set (r := z mod 2 ^ e) in *.
  assert (2 ^ Z.log2 z = 2 ^ 23 * 2 ^ e) as Hsplit.
  { rewrite <- Z.pow_add_r by lia. f_equal. lia. }
  assert (2 ^ Z.succ (Z.log2 z) = 2 ^ 24 * 2 ^ e) as Hsplit'.
  { rewrite <- Z.pow_add_r by lia. f_equal. lia. }
  assert (2 ^ 23 ≤ q < 2 ^ 24) as Hq.
  { split.
    - apply Z.div_le_lower_bound; [done|]. lia.
    - apply Z.div_lt_upper_bound; [done|]. lia. }
  unfold round24. rewrite Z.abs_eq by lia.
  assert ((z <? 2 ^ 24) = false) as -> by lia.
  fold e q r. rewrite Z.sgn_pos by done. rewrite Z.mul_1_l.
  exists e, q, r.
  destruct ((r <? 2 ^ (e - 1)) || ((r =? 2 ^ (e - 1)) && Z.even q)) eqn:Em.
  - exists q. split; [done|]. split; [lia|]. split; [done|]. split; [done|].
    split; [done|]. left. split; [done|].
    apply orb_true_iff in Em as [Em|Em]; [lia|].
    apply andb_true_iff in Em as (Em & _). lia.
  - exists (q + 1). split; [done|]. split; [lia|]. split; [done|]. split; [done|].
    split; [done|]. right. split; [done|].
    apply orb_false_iff in Em as (Em & _). lia.
Qed.

Lemma round24_nonneg z : 0 ≤ z → 0 ≤ round24 z.
Proof.
  intros Hz. destruct (decide (z ≤ 2 ^ 24)) as [Hs|Hb].
  - by rewrite round24_small.
  - destruct (round24_big z) as (e & q & r & m & He & Hzq & Hr & Hq & -> & Hm); [lia|].
    assert (0 < 2 ^ e) by (apply Z.pow_pos_nonneg; lia). nia.
Qed.

Lemma round24_pos z : 1 ≤ z → 1 ≤ round24 z.
Proof.
  intros Hz. destruct (decide (z ≤ 2 ^ 24)) as [Hs|Hb].
  - rewrite round24_small; lia.
  - destruct (round24_big z) as (e & q & r & m & He & Hzq & Hr & Hq & -> & Hm); [lia|].
    assert (0 < 2 ^ e) by (apply Z.pow_pos_nonneg; lia). nia.
Qed.

Lemma round24_le_double z : 0 ≤ z → round24 z ≤ 2 * z.
Proof.
  intros Hz. destruct (decide (z ≤ 2 ^ 24)) as [Hs|Hb].
  - rewrite round24_small; lia.
  - destruct (round24_big z) as (e & q & r & m & He & Hzq & Hr & Hq & -> & Hm); [lia|].
    assert (0 < 2 ^ e) by (apply Z.pow_pos_nonneg; lia). nia.
Qed.


Lemma ceil_half_spec x : ceil_half x = (x + 1) / 2.
Proof. unfold ceil_half. pose proof (Z.div_mod x 2). pose proof (Z.mod_pos_bound x 2).
  pose proof (Z.div_mod (-x) 2). pose proof (Z.mod_pos_bound (-x) 2).
  pose proof (Z.div_mod (x+1) 2). pose proof (Z.mod_pos_bound (x+1) 2). lia. Qed.

Lemma halves_sum x : ceil_half x + floor_half x = x.
Proof. rewrite ceil_half_spec. unfold floor_half.
  pose proof (Z.div_mod x 2). pose proof (Z.mod_pos_bound x 2).
  pose proof (Z.div_mod (x+1) 2). pose proof (Z.mod_pos_bound (x+1) 2). lia. Qed.

Section Basic.
Context {V : Type}.
Implicit Types (h : gmap positive (@Node V)) (t a l r : @T V) (c : list (@frame V)) (v : V).

Lemma load_Some h x n : h !! x = Some n → load h x = Ok n.
Proof. unfold load. by intros ->. Qed.

Lemma upd_Some h x n f : h !! x = Some n → upd h x f = Ok (<[x := f n]> h).
Proof. unfold upd. by intros ->. Qed.

Lemma fuel_insert_present h x n n' :
  h !! x = Some n → fuel (<[x := n']> h) = fuel h.
Proof.
  intros Hl. unfold fuel. f_equal.
  rewrite <- !size_dom. f_equal. rewrite dom_insert_L.
  apply elem_of_dom_2 in Hl. set_solver.
Qed.

(** ** Lists of nodes *)

Lemma ids_N l p k v r : ids (N l p k v r) = ids l ++ p :: ids r.
Proof. unfold ids. simpl. by rewrite fmap_app. Qed.

Lemma elems_N l p k v r : elems (N l p k v r) = elems l ++ (k, v) :: elems r.
Proof. unfold elems. simpl. by rewrite fmap_app. Qed.

Lemma keys_N l p k v r : keys (N l p k v r) = keys l ++ k :: keys r.
Proof. unfold keys. rewrite elems_N. by rewrite fmap_app. Qed.

Lemma ids_E : ids (@E V) = [].
Proof. reflexivity. Qed.

Lemma weight_length t : weight t = Z.of_nat (length (ids t)).
Proof.
  induction t as [|l IHl p k v r IHr]; [done|].
  rewrite ids_N, length_app. simpl. lia.
Qed.

Lemma weight_nonneg t : 0 ≤ weight t.
Proof. rewrite weight_length. lia. Qed.

Lemma rootp_in t p : rootp t = Some p → p ∈ ids t.
Proof.
  destruct t; simpl; [done|]. intros [= ->]. rewrite ids_N. set_solver.
Qed.

(** ** Frame properties of [rep] *)

Lemma rep_agree h h' par t :
  (∀ p, p ∈ ids t → h' !! p = h !! p) → rep h par t → rep h' par t.
Proof.
  revert par. induction t as [|l IHl p k v r IHr]; intros par Hag; [done|].
  simpl. intros (Hp & Hl & Hr). rewrite ids_N in Hag.
  split_and!.
  - rewrite Hag; [done|set_solver].
  - apply IHl; [|done]. intros; apply Hag; set_solver.
  - apply IHr; [|done]. intros; apply Hag; set_solver.
Qed.

Lemma rep_insert_out h par t q n :
  q ∉ ids t → rep h par t → rep (<[q := n]> h) par t.
Proof.
  intros Hq. apply rep_agree. intros p Hp. rewrite lookup_insert_ne; [done|].
  intros ->. done.
Qed.

Lemma rep_delete_out h par t q :
  q ∉ ids t → rep h par t → rep (delete q h) par t.
Proof.
  intros Hq. apply rep_agree. intros p Hp. rewrite lookup_delete_ne; [done|].
  intros ->. done.
Qed.

Lemma rep_in_dom h par t p : rep h par t → p ∈ ids t → is_Some (h !! p).
Proof.
  revert par. induction t as [|l IHl p' k v r IHr]; intros par; simpl.
  - intros _ Hp. by apply elem_of_nil in Hp.
  - intros (Hp & Hl & Hr). rewrite ids_N. intros Hin.
    apply elem_of_app in Hin as [Hin|Hin]; [by eapply IHl|].
    apply elem_of_cons in Hin as [->|Hin]; [by eexists|by eapply IHr].
Qed.

Lemma rep_length h par t :
  rep h par t → NoDup (ids t) → (length (ids t) ≤ base.size h)%nat.
Proof.
  intros Hrep Hnd. rewrite <- size_dom.
  unfold base.size, set_size. simpl.
  apply submseteq_length, NoDup_submseteq; [done|].
  intros p Hp. apply elem_of_elements, elem_of_dom. by eapply rep_in_dom.
Qed.

Lemma rep_fuel h par t :
  rep h par t → NoDup (ids t) → (length (ids t) < fuel h)%nat.
Proof. intros Hrep Hnd. pose proof (rep_length _ _ _ Hrep Hnd). unfold fuel. lia. Qed.

(** Changing the parent pointer of the root. *)
Lemma rep_set_parent h par par' t p n :
  rootp t = Some p → h !! p = Some n → NoDup (ids t) →
  rep h par t → rep (<[p := set_parent par' n]> h) par' t.
Proof.
  destruct t as [|l p' k v r]; simpl; [done|].
  intros [= ->] Hn Hnd (Hp & Hl & Hr).
  rewrite ids_N in Hnd. apply NoDup_app in Hnd as (Hndl & Hlp & Hnd).
  apply NoDup_cons in Hnd as (Hpr & Hndr).
  rewrite Hn in Hp. injection Hp as ->.
  split_and!.
  - by rewrite lookup_insert_eq.
  - apply rep_insert_out; [|done]. intros Hin. apply (Hlp _ Hin). set_solver.
  - by apply rep_insert_out.
Qed.

Lemma rep_root_cell h par t p :
  rep h par t → rootp t = Some p → ∃ n, h !! p = Some n ∧ nparent n = par.
Proof.
  destruct t; simpl; [done|]. intros (Hp & _) [= ->]. eauto.
Qed.

End Basic.
End Basic.

(** * Contexts *)

Module Ctx.
Import DM852 Abs Basic.

Section Ctx.
Context {V : Type}.
Implicit Types (h : gmap positive (@Node V)) (t a l r : @T V) (c : list (@frame V)) (v : V).

Lemma nodes_plug c t : nodes (plug c t) = cleft c ++ nodes t ++ cright c.
Proof.
  revert t. induction c as [|[p k v r|l p k v] c IH]; intros t; simpl.
  - by rewrite app_nil_r.
  - rewrite IH. simpl. by rewrite <- !app_assoc.
  - rewrite IH. simpl. by rewrite <- !app_assoc.
Qed.

Lemma ids_plug c t :
  ids (plug c t) = (fst <$> cleft c) ++ ids t ++ (fst <$> cright c).
Proof. unfold ids. by rewrite nodes_plug, !fmap_app. Qed.

Lemma keys_plug c t :
  keys (plug c t)
  = (fst <$> (snd <$> cleft c)) ++ keys t ++ (fst <$> (snd <$> cright c)).
Proof. unfold keys, elems. by rewrite nodes_plug, !fmap_app. Qed.

Lemma croot_cons f c q : croot (f :: c) q = croot c (Some (faddr f)).
Proof.
  unfold croot. destruct c as [|f' c']; [done|].
  change (last (f :: f' :: c')) with (last (f' :: c')).
  destruct (last (f' :: c')) eqn:El; [done|].
  by apply last_None in El.
Qed.

Lemma rootp_plug c t : rootp (plug c t) = croot c (rootp t).
Proof.
  revert t. induction c as [|f c IH]; intros t; [done|].
  rewrite croot_cons. destruct f as [p k v r|l p k v]; simpl; by rewrite IH.
Qed.

Lemma rep_plug h top c t :
  rep h top (plug c t) ↔ rep h (cpar top c) t ∧ repc h top c (rootp t).
Proof.
  revert t. induction c as [|[p k v r|l p k v] c IH]; intros t; simpl.
  - tauto.
  - rewrite IH. simpl. tauto.
  - rewrite IH. simpl. tauto.
Qed.

Lemma repc_agree h h' top c q :
  (∀ p, p ∈ cids c → h' !! p = h !! p) → repc h top c q → repc h' top c q.
Proof.
  unfold cids.
  induction c as [|[p k v r|l p k v] c IH] in q |- *; intros Hag; simpl; [done|..];
    intros (Hp & Hs & Hc); simpl in Hag.
  - split_and!.
    + rewrite Hag; [done|]. rewrite fmap_app. simpl. set_solver.
    + eapply rep_agree; [|done]. intros x Hx. apply Hag.
      rewrite fmap_app. simpl. rewrite fmap_app. unfold ids in Hx. set_solver.
    + apply IH; [|done]. intros x Hx. apply Hag.
      rewrite fmap_app in Hx. rewrite fmap_app. simpl. rewrite fmap_app. set_solver.
  - split_and!.
    + rewrite Hag; [done|]. rewrite !fmap_app. simpl. set_solver.
    + eapply rep_agree; [|done]. intros x Hx. apply Hag.
      rewrite !fmap_app. unfold ids in Hx. set_solver.
    + apply IH; [|done]. intros x Hx. apply Hag.
      rewrite fmap_app in Hx. rewrite !fmap_app. set_solver.
Qed.

Lemma repc_insert_out h top c q x n :
  x ∉ cids c → repc h top c q → repc (<[x := n]> h) top c q.
Proof.
  intros Hx. apply repc_agree. intros p Hp. rewrite lookup_insert_ne; [done|].
  by intros ->.
Qed.

Lemma repc_delete_out h top c q x :
  x ∉ cids c → repc h top c q → repc (delete x h) top c q.
Proof.
  intros Hx. apply repc_agree. intros p Hp. rewrite lookup_delete_ne; [done|].
  by intros ->.
Qed.

(** The addresses of a whole tree, hole content first. *)
Lemma ids_plug_perm c t : ids (plug c t) ≡ₚ ids t ++ cids c.
Proof.
  rewrite ids_plug. unfold cids. rewrite fmap_app, !app_assoc.
  apply Permutation_app_tail, Permutation_app_comm.
Qed.

Lemma cids_cons_FL p k v r c : cids (FL p k v r :: c) ≡ₚ p :: ids r ++ cids c.
Proof.
  unfold cids, ids. simpl. rewrite !fmap_app. simpl. rewrite fmap_app.
  rewrite <- Permutation_middle. apply perm_skip.
  rewrite !app_assoc. apply Permutation_app_tail, Permutation_app_comm.
Qed.

Lemma cids_cons_FR l p k v c : cids (FR l p k v :: c) ≡ₚ p :: ids l ++ cids c.
Proof.
  unfold cids, ids. simpl. rewrite !fmap_app. simpl.
  rewrite <- !app_assoc. simpl.
  rewrite (Permutation_app_comm (fst <$> cleft c)).
  rewrite <- !app_assoc. simpl. rewrite <- Permutation_middle.
  apply perm_skip, Permutation_app_head, Permutation_app_comm.
Qed.

(** Storing a new pointer in the hole: one field of the parent changes. *)
Lemma repc_set_hole h top f c q q' n :
  NoDup (cids (f :: c)) →
  h !! faddr f = Some n →
  repc h top (f :: c) q →
  repc (<[faddr f := (if is_FL f then set_left q' n else set_right q' n)]> h)
       top (f :: c) q'.
Proof.
  intros Hnd Hn Hc.
  destruct f as [p k v r|l p k v]; simpl in *; destruct Hc as (Hp & Hs & Hc).
  - rewrite cids_cons_FL in Hnd. apply NoDup_cons in Hnd as (Hp' & Hnd).
    apply NoDup_app in Hnd as (_ & _ & _).
    rewrite Hn in Hp. injection Hp as ->.
    split_and!; [by rewrite lookup_insert_eq|..].
    + apply rep_insert_out; [set_solver|done].
    + apply repc_insert_out; [set_solver|done].
  - rewrite cids_cons_FR in Hnd. apply NoDup_cons in Hnd as (Hp' & Hnd).
    apply NoDup_app in Hnd as (_ & _ & _).
    rewrite Hn in Hp. injection Hp as ->.
    split_and!; [by rewrite lookup_insert_eq|..].
    + apply rep_insert_out; [set_solver|done].
    + apply repc_insert_out; [set_solver|done].
Qed.

Lemma repc_head_cell h top f c q :
  repc h top (f :: c) q →
  ∃ n, h !! faddr f = Some n ∧ nkey n = fkey f ∧ nparent n = cpar top c
       ∧ (if is_FL f then nleft n = q else nright n = q).
Proof.
  destruct f; simpl; intros (Hp & _); eexists; (split; [done|]); simpl; done.
Qed.

End Ctx.
End Ctx.

(** * The methods that only read the heap *)

Module Read.
Import DM852 Abs Basic Ctx.

Section Read.
Context {V : Type}.
Implicit Types (h : gmap positive (@Node V)) (t a l r : @T V) (c : list (@frame V)) (v : V).

Lemma bst_N l p k v r :
  bst (N l p k v r) ↔
    bst l ∧ bst r ∧ (∀ x, x ∈ keys l → x < k) ∧ (∀ x, x ∈ keys r → k < x).
Proof.
  unfold bst. rewrite keys_N, StronglySorted_app, StronglySorted_cons, Forall_forall.
  split.
  - intros (H1 & H2 & H3 & H4). split_and!; try done.
    intros x Hx. apply H1; [done|]. set_solver.
  - intros (H1 & H2 & H3 & H4). split_and!; try done.
    intros x1 x2 Hx1 Hx2. apply elem_of_cons in Hx2 as [->|Hx2]; [by apply H3|].
    specialize (H3 _ Hx1). specialize (H4 _ Hx2). lia.
Qed.

Lemma node_size_spec h par t f :
  rep h par t → (length (ids t) ≤ f)%nat → node_size f h (rootp t) = Ok (weight t).
Proof.
  revert par f. induction t as [|l IHl p k v r IHr]; intros par f; [by destruct f|].
  simpl. intros (Hp & Hl & Hr). rewrite ids_N, length_app. simpl. intros Hf.
  destruct f as [|f]; [lia|]. simpl.
  rewrite (load_Some _ _ _ Hp). simpl.
  rewrite (IHl _ f Hl) by lia. simpl.
  rewrite (IHr _ f Hr) by lia. done.
Qed.

Lemma inorder_spec h par t f :
  rep h par t → (length (ids t) ≤ f)%nat →
  Observe.inorder f h (rootp t) = Ok (elems t).
Proof.
  revert par f. induction t as [|l IHl p k v r IHr]; intros par f; [by destruct f|].
  simpl. intros (Hp & Hl & Hr). rewrite ids_N, length_app. simpl. intros Hf.
  destruct f as [|f]; [lia|]. simpl.
  rewrite (load_Some _ _ _ Hp). simpl.
  rewrite (IHl _ f Hl) by lia. simpl.
  rewrite (IHr _ f Hr) by lia. simpl. by rewrite elems_N.
Qed.

Lemma shape_of_spec h par t f :
  rep h par t → (length (ids t) ≤ f)%nat →
  Observe.shape_of f h (rootp t) = Ok (tshape t).
Proof.
  revert par f. induction t as [|l IHl p k v r IHr]; intros par f; [by destruct f|].
  simpl. intros (Hp & Hl & Hr). rewrite ids_N, length_app. simpl. intros Hf.
  destruct f as [|f]; [lia|]. simpl.
  rewrite (load_Some _ _ _ Hp). simpl.
  rewrite (IHl _ f Hl) by lia. simpl.
  rewrite (IHr _ f Hr) by lia. done.
Qed.


Lemma descend_left_spec h par t p f :
  rep h par t → rootp t = Some p → (length (ids t) ≤ f)%nat →
  ∃ m, head (ids t) = Some m ∧ descend_left f h p = Ok m.
Proof.
  revert par p f. induction t as [|l IHl p' k v r _]; intros par p f; [done|].
  simpl. intros (Hp & Hl & Hr) [= ->]. rewrite ids_N, length_app. simpl. intros Hf.
  destruct f as [|f]; [lia|]. simpl.
  rewrite (load_Some _ _ _ Hp). simpl.
  destruct l as [|ll lp lk lv lr]; simpl.
  - eauto.
  - destruct (IHl _ lp f Hl eq_refl) as (m & Hm & ->); [lia|].
    exists m. split; [|done]. rewrite head_app, Hm. done.
Qed.

Lemma descend_right_spec h par t p f :
  rep h par t → rootp t = Some p → (length (ids t) ≤ f)%nat →
  ∃ m, last (ids t) = Some m ∧ descend_right f h p = Ok m.
Proof.
  revert par p f. induction t as [|l _ p' k v r IHr]; intros par p f; [done|].
  simpl. intros (Hp & Hl & Hr) [= ->]. rewrite ids_N, length_app. simpl. intros Hf.
  destruct f as [|f]; [lia|]. simpl.
  rewrite (load_Some _ _ _ Hp). simpl.
  destruct r as [|rl rp rk rv rr]; simpl.
  - exists p. split; [apply last_snoc|done].
  - destruct (IHr _ rp f Hr eq_refl) as (m & Hm & ->); [lia|].
    exists m. split; [|done]. rewrite last_app, last_cons, Hm. done.
Qed.

(** ** Searching *)

Lemma locate_plug x t c : plug (locate x t c).1 (locate x t c).2 = plug c t.
Proof.
  revert c. induction t as [|l IHl p k v r IHr]; intros c; [done|].
  simpl. destruct (x <? k); [by rewrite IHl|].
  destruct (k <? x); [by rewrite IHr|]. done.
Qed.

Lemma locate_fits x t c :
  Forall (fits x) c → Forall (fits x) (locate x t c).1.
Proof.
  revert c. induction t as [|l IHl p k v r IHr]; intros c Hc; [done|].
  simpl. destruct (x <? k) eqn:E1.
  - apply IHl. constructor; [|done]. simpl. lia.
  - destruct (k <? x) eqn:E2; [|done].
    apply IHr. constructor; [|done]. simpl. lia.
Qed.

Lemma locate_found x t c l p k v r :
  (locate x t c).2 = N l p k v r → k = x.
Proof.
  revert c. induction t as [|l' IHl p' k' v' r' IHr]; intros c; [done|].
  simpl. destruct (x <? k') eqn:E1; [by apply IHl|].
  destruct (k' <? x) eqn:E2; [by apply IHr|].
  simpl. intros [= _ _ -> _ _]. lia.
Qed.

(** A key is found exactly when it is stored. *)
Lemma locate_elem x t c :
  bst t → ((locate x t c).2 ≠ E ↔ x ∈ keys t).
Proof.
  revert c. induction t as [|l IHl p k v r IHr]; intros c Hb.
  - simpl. split; [done|]. intros H. by apply elem_of_nil in H.
  - apply bst_N in Hb as (Hbl & Hbr & Hl & Hr).
    simpl. rewrite keys_N. destruct (x <? k) eqn:E1.
    + rewrite IHl by done. split; [set_solver|].
      intros Hin. apply elem_of_app in Hin as [Hin|Hin]; [done|].
      apply elem_of_cons in Hin as [->|Hin]; [lia|]. specialize (Hr _ Hin). lia.
    + destruct (k <? x) eqn:E2.
      * rewrite IHr by done. split; [set_solver|].
        intros Hin. apply elem_of_app in Hin as [Hin|Hin];
          [specialize (Hl _ Hin); lia|].
        apply elem_of_cons in Hin as [->|Hin]; [lia|done].
      * simpl. split; [|done]. intros _. assert (x = k) as -> by lia. set_solver.
Qed.

Lemma find_loop_spec h top t c x f :
  rep h (cpar top c) t → (length (ids t) < f)%nat →
  find_loop f h x (rootp t) = Ok (rootp (locate x t c).2).
Proof.
  revert c f. induction t as [|l IHl p k v r IHr]; intros c f.
  - intros _ Hf. destruct f; [simpl in Hf; lia|done].
  - simpl. intros (Hp & Hl & Hr). rewrite ids_N, length_app. simpl. intros Hf.
    destruct f as [|f]; [lia|]. simpl.
    rewrite (load_Some _ _ _ Hp). simpl. unfold comp.
    destruct (x <? k) eqn:E1.
    + assert ((k =? x) = false) as -> by lia. simpl.
      apply (IHl (FL p k v r :: c)); [done|lia].
    + destruct (k <? x) eqn:E2.
      * assert ((k =? x) = false) as -> by lia. simpl.
        apply (IHr (FR l p k v :: c)); [done|lia].
      * assert ((k =? x) = true) as -> by lia. done.
Qed.

Lemma insert_walk_spec h top t c x f :
  rep h (cpar top c) t → (length (ids t) ≤ f)%nat →
  insert_walk f h x (rootp t) (cpar top c) (Z.of_nat (length c))
    (forallb is_FL c) (forallb is_FR c)
  = match (locate x t c).2 with
    | E => let c' := (locate x t c).1 in
           Ok (Fell (cpar top c') (Z.of_nat (length c'))
                 (forallb is_FL c') (forallb is_FR c'))
    | N _ p _ _ _ => Ok (Found p)
    end.
Proof.
  revert c f. induction t as [|l IHl p k v r IHr]; intros c f; [by destruct f|].
  simpl. intros (Hp & Hl & Hr). rewrite ids_N, length_app. simpl. intros Hf.
  destruct f as [|f]; [lia|]. simpl.
  rewrite (load_Some _ _ _ Hp). simpl. unfold comp.
  destruct (x <? k) eqn:E1.
  - specialize (IHl (FL p k v r :: c) f Hl). simpl in IHl.
    rewrite <- IHl by lia. f_equal. lia.
  - simpl. destruct (k <? x) eqn:E2; simpl; [|done].
    specialize (IHr (FR l p k v :: c) f Hr). simpl in IHr.
    rewrite <- IHr by lia. f_equal. lia.
Qed.

End Read.
End Read.

(** * Flattening a subtree into a chain *)

Module Flatten.
Import DM852 Abs Basic Ctx Read.

Section Flatten.
Context {V : Type}.
Implicit Types (h : gmap positive (@Node V)) (t a l r : @T V) (c : list (@frame V)) (v : V).
Implicit Types (es : list (loc * (Z * V))).

Lemma chain_agree h h' es s tl :
  (∀ q, q ∈ es.*1 → h' !! q = h !! q) → chain h es s tl → chain h' es s tl.
Proof.
  revert s. induction es as [|[p [k v]] es IH]; intros s Hag; [done|].
  simpl. intros (-> & n & Hn & Hk & Hv & Hc). split; [done|].
  exists n. split_and!; try done.
  - rewrite Hag; [done|]. simpl. set_solver.
  - apply IH; [|done]. intros q Hq. apply Hag. simpl. set_solver.
Qed.

Lemma chain_app h es1 es2 s tl :
  chain h (es1 ++ es2) s tl ↔ ∃ mid, chain h es1 s mid ∧ chain h es2 mid tl.
Proof.
  revert s. induction es1 as [|[p [k v]] es1 IH]; intros s; simpl.
  - split; [eauto|]. by intros (mid & -> & H).
  - split.
    + intros (-> & n & Hn & Hk & Hv & Hc). apply IH in Hc as (mid & H1 & H2).
      exists mid. split; [|done]. split; [done|]. exists n. done.
    + intros (mid & (-> & n & Hn & Hk & Hv & Hc) & H2). split; [done|].
      exists n. split_and!; try done. apply IH. eauto.
Qed.

Lemma chain_in_dom h es s tl q :
  chain h es s tl → q ∈ es.*1 → is_Some (h !! q).
Proof.
  revert s. induction es as [|[p [k v]] es IH]; intros s; simpl.
  - intros _ Hq. by apply elem_of_nil in Hq.
  - intros (-> & n & Hn & Hk & Hv & Hc) Hq.
    apply elem_of_cons in Hq as [->|Hq]; [by eexists|by eapply IH].
Qed.

Lemma length_le_size h (ps : list loc) :
  NoDup ps → (∀ q, q ∈ ps → is_Some (h !! q)) → (length ps ≤ base.size h)%nat.
Proof.
  intros Hnd Hin. rewrite <- size_dom.
  unfold base.size, set_size. simpl.
  apply submseteq_length, NoDup_submseteq; [done|].
  intros p Hp. apply elem_of_elements, elem_of_dom. by apply Hin.
Qed.

Lemma dom_insert_present h x (n n' : @Node V) :
  h !! x = Some n → dom (<[x := n']> h) = dom h.
Proof.
  intros Hx. rewrite dom_insert_L. apply elem_of_dom_2 in Hx. set_solver.
Qed.

Lemma flatten_spec t : ∀ h par y f,
  rep h par t → NoDup (ids t) → (length (ids t) ≤ f)%nat →
  ∃ h' hd, flatten f h (rootp t) y = Ok (hd, h')
    ∧ chain h' (nodes t) hd y
    ∧ (∀ q, q ∉ ids t → h' !! q = h !! q)
    ∧ dom h' = dom h.
Proof.
  induction t as [|l IHl p k v r IHr]; intros h par y f.
  - intros _ _ _. exists h, y. by destruct f.
  - simpl. intros (Hp & Hl & Hr). rewrite ids_N, length_app. simpl.
    intros Hnd Hf.
    apply NoDup_app in Hnd as (Hndl & Hlp & Hnd).
    apply NoDup_cons in Hnd as (Hpr & Hndr).
    destruct f as [|f]; [lia|]. simpl.
    rewrite (load_Some _ _ _ Hp). simpl.
    destruct (IHr h (Some p) y f Hr Hndr) as (h1 & rh & -> & Hc1 & Hf1 & Hd1); [lia|].
    simpl.
    assert (h1 !! p = Some (mkNode par (rootp l) (rootp r) k v)) as Hp1
      by (by rewrite Hf1).
    rewrite (upd_Some _ _ _ _ Hp1). simpl.
    unfold load at 1. rewrite lookup_insert_eq. simpl.
    set (h2 := <[p := _]> h1).
    assert (rep h2 (Some p) l) as Hl2.
    { eapply rep_agree; [|exact Hl]. intros q Hq. unfold h2.
      rewrite lookup_insert_ne by (intros ->; apply (Hlp _ Hq); set_solver).
      apply Hf1. intros Hqr. apply (Hlp _ Hq). set_solver. }
    destruct (IHl h2 (Some p) (Some p) f Hl2 Hndl) as (h3 & hd & -> & Hc3 & Hf3 & Hd3); [lia|].
    exists h3, hd. split; [reflexivity|]. split_and!.
    + apply chain_app. exists (Some p). split; [done|]. simpl. split; [done|].
      eexists. split.
      { rewrite Hf3 by (intros Hq; apply (Hlp _ Hq); set_solver).
        unfold h2. apply lookup_insert_eq. }
      simpl. split_and!; [done|done|].
      eapply chain_agree; [|exact Hc1]. intros q Hq.
      fold (ids r) in Hq.
      rewrite Hf3 by (intros Hql; apply (Hlp _ Hql); set_solver).
      unfold h2. rewrite lookup_insert_ne by (by intros ->). done.
    + intros q Hq. rewrite Hf3 by set_solver. unfold h2.
      rewrite lookup_insert_ne by set_solver. apply Hf1. set_solver.
    + rewrite Hd3. unfold h2. by rewrite (dom_insert_present _ _ _ _ Hp1).
Qed.

Lemma clear_chain_spec es : ∀ h s f,
  chain h es s None → NoDup (es.*1) → (length es ≤ f)%nat →
  ∃ h', clear_chain f h s = Ok h'
    ∧ chain h' es s None
    ∧ (∀ q, q ∈ es.*1 → ∃ n, h' !! q = Some n ∧ nparent n = None ∧ nleft n = None)
    ∧ (∀ q, q ∉ es.*1 → h' !! q = h !! q)
    ∧ dom h' = dom h.
Proof.
  induction es as [|[p [k v]] es IH]; intros h s f.
  - simpl. intros -> _ _. exists h. split; [by destruct f|].
    split_and!; try done. intros q Hq. by apply elem_of_nil in Hq.
  - simpl. intros (-> & n & Hn & Hk & Hv & Hc) Hnd Hf.
    apply NoDup_cons in Hnd as (Hp & Hnd).
    destruct f as [|f]; [lia|]. simpl.
    rewrite (upd_Some _ _ _ _ Hn). simpl.
    unfold upd at 1. rewrite lookup_insert_eq. simpl.
    unfold load at 1. rewrite lookup_insert_eq. simpl.
    rewrite insert_insert_eq.
    set (n2 := set_parent None (set_left None n)).
    set (h2 := <[p := n2]> h).
    assert (chain h2 es (nright n) None) as Hc2.
    { eapply chain_agree; [|exact Hc]. intros q Hq. unfold h2.
      rewrite lookup_insert_ne; [done|]. by intros ->. }
    destruct (IH h2 (nright n) f Hc2 Hnd) as (h' & -> & Hc' & Hcl & Hf' & Hd'); [lia|].
    exists h'. split; [done|].
    assert (h' !! p = Some n2) as Hp'.
    { rewrite Hf' by done. unfold h2. apply lookup_insert_eq. }
    split_and!.
    + done.
    + exists n2. subst n2. split_and!; done.
    + intros q Hq. apply elem_of_cons in Hq as [->|Hq]; [|by apply Hcl].
      exists n2. subst n2. done.
    + intros q Hq. rewrite Hf' by set_solver. unfold h2.
      rewrite lookup_insert_ne by set_solver. done.
    + rewrite Hd'. unfold h2. by rewrite (dom_insert_present _ _ _ _ Hn).
Qed.

End Flatten.
End Flatten.

(** * Building a balanced subtree from a chain *)

Module Build.
Import DM852 Abs Basic Ctx Read Flatten.

Section Build.
Context {V : Type}.
Implicit Types (h : gmap positive (@Node V)) (t a b l r : @T V) (c : list (@frame V)) (v : V).
Implicit Types (es : list (loc * (Z * V))).

Lemma weight_nodes t : weight t = Z.of_nat (length (nodes t)).
Proof. rewrite weight_length. unfold ids. by rewrite length_fmap. Qed.

(** Giving the root of a subtree its parent: [c->parent = q]. *)
Lemma adopt h b q :
  (∃ par, rep h par b) → NoDup (ids b) →
  ∃ h', match rootp b with
        | Some c => upd h c (set_parent q)
        | None => Ok h
        end = Ok h'
    ∧ rep h' q b
    ∧ (∀ x, Some x ≠ rootp b → h' !! x = h !! x)
    ∧ dom h' = dom h.
Proof.
  intros (par & Hrep) Hnd. destruct b as [|l p k v r].
  - exists h. done.
  - pose proof Hrep as (Hp & Hl & Hr). cbn [rootp].
    rewrite (upd_Some _ _ _ _ Hp). eexists. split; [done|].
    split; [|split].
    + by eapply (rep_set_parent _ par q (N l p k v r)).
    + intros x Hx. rewrite lookup_insert_ne; [done|]. congruence.
    + by rewrite (dom_insert_present _ _ _ _ Hp).
Qed.

Lemma consumed_nonneg f : ∀ n, 0 ≤ consumed f n.
Proof.
  induction f as [|f IH]; intros n; simpl; [done|].
  destruct (n =? 0); [done|].
  pose proof (IH (ceil_half (round24 (n - 1)))).
  pose proof (IH (floor_half (round24 (n - 1)))). lia.
Qed.

(** The two halves of the rounded [n - 1]. *)
Lemma halves_bounds_round n :
  1 ≤ n →
  0 ≤ ceil_half (round24 (n - 1)) ≤ n - 1
  ∧ 0 ≤ floor_half (round24 (n - 1)) ≤ n - 1.
Proof.
  intros Hn. pose proof (round24_nonneg (n - 1) ltac:(lia)) as H0.
  pose proof (round24_le_double (n - 1) ltac:(lia)) as H2.
  set (m := round24 (n - 1)) in *. rewrite ceil_half_spec. unfold floor_half.
  pose proof (Z.div_mod m 2 ltac:(lia)). pose proof (Z.mod_pos_bound m 2 ltac:(lia)).
  pose proof (Z.div_mod (m + 1) 2 ltac:(lia)).
  pose proof (Z.mod_pos_bound (m + 1) 2 ltac:(lia)). lia.
Qed.

(** Up to [2^24] [build] takes as many nodes as it is asked for. *)
Lemma consumed_exact f : ∀ n,
  0 ≤ n ≤ 2 ^ 24 → (Z.to_nat n < f)%nat → consumed f n = n.
Proof.
  induction f as [|f IH]; intros n Hn Hf; [lia|]. simpl.
  destruct (n =? 0) eqn:En; [lia|]. apply Z.eqb_neq in En.
  rewrite (round24_small (n - 1)) by lia.
  pose proof (halves_sum (n - 1)) as Hsum.
  pose proof (halves_bounds_round n ltac:(lia)) as (H1 & H2).
  rewrite (round24_small (n - 1)) in H1, H2 by lia.
  rewrite !IH; lia.
Qed.

Lemma kept_exact n : 0 ≤ n ≤ 2 ^ 24 → kept n = n.
Proof.
  intros Hn. unfold kept, float_of_int. rewrite round24_small by done.
  apply consumed_exact; [done|]. unfold build_fuel. lia.
Qed.

Lemma kept_nonneg n : 0 ≤ kept n.
Proof. apply consumed_nonneg. Qed.

(** A rebuild that is asked for at least one node keeps at least one. *)
Lemma kept_pos n : 1 ≤ n → 1 ≤ kept n.
Proof.
  intros Hn. unfold kept, float_of_int. pose proof (round24_pos n Hn) as Hp.
  set (m := round24 n) in *. unfold build_fuel. simpl.
  destruct (m =? 0) eqn:Em; [lia|].
  pose proof (consumed_nonneg (Z.to_nat m) (ceil_half (round24 (m - 1)))).
  pose proof (consumed_nonneg (Z.to_nat m) (floor_half (round24 (m - 1)))). lia.
Qed.

(** [build f n] on a chain that is long enough: it links the first
    [consumed f n] nodes [es] into a tree and hangs it to the left of the
    node [se] that follows them. *)
Lemma build_spec f : ∀ n es se rest h x nxt,
  0 ≤ n → (Z.to_nat n < f)%nat →
  Z.of_nat (length es) = consumed f n →
  chain h (es ++ se :: rest) x nxt → NoDup ((es ++ se :: rest).*1) →
  ∃ h' b sn, build f n h x = Ok (se.1, h')
    ∧ nodes b = es ∧ (n ≤ 2 ^ 24 → built b)
    ∧ h !! se.1 = Some sn ∧ h' !! se.1 = Some (set_left (rootp b) sn)
    ∧ (∃ par, rep h' par b)
    ∧ (∀ p, rootp b = Some p → nparent <$> (h' !! p) = nparent <$> (h !! p))
    ∧ (∀ q, q ∉ (es ++ [se]).*1 → h' !! q = h !! q)
    ∧ dom h' = dom h.
Proof.
  induction f as [|f IH]; intros n es se rest h x nxt Hn0 Hf Hn Hc Hnd; [lia|].
  cbn [build consumed] in *. destruct (n =? 0) eqn:En.
  - (* nothing is taken *)
    assert (es = []) as -> by (destruct es; [done|simpl in Hn; lia]).
    destruct se as [s [ks vs]]. simpl in Hc.
    destruct Hc as (-> & sn & Hs & _). simpl.
    rewrite (upd_Some _ _ _ _ Hs). simpl.
    exists (<[s := set_left None sn]> h), E, sn. split_and!; try done.
    + by rewrite lookup_insert_eq.
    + by exists None.
    + intros q Hq. rewrite lookup_insert_ne; [done|]. simpl in Hq. set_solver.
    + by rewrite (dom_insert_present _ _ _ _ Hs).
  - (* [n > 0]: the chain is split around a middle node *)
    apply Z.eqb_neq in En.
    pose proof (halves_bounds_round n ltac:(lia)) as (Hb1 & Hb2).
    set (n1 := ceil_half (round24 (n - 1))) in *.
    set (n2 := floor_half (round24 (n - 1))) in *.
    pose proof (consumed_nonneg f n1) as Hc1. pose proof (consumed_nonneg f n2) as Hc2.
    set (c1 := consumed f n1) in *. set (c2 := consumed f n2) in *.
    pose proof (take_drop (Z.to_nat c1) es) as Hes.
    set (es1 := take (Z.to_nat c1) es) in *.
    assert (length es1 = Z.to_nat c1) as Hl1.
    { unfold es1. rewrite length_take. lia. }
    destruct (drop (Z.to_nat c1) es) as [|re es2] eqn:Hdrop.
    { apply (f_equal length) in Hes. rewrite length_app in Hes. simpl in Hes. lia. }
    assert (length es2 = Z.to_nat c2) as Hl2.
    { apply (f_equal length) in Hes. rewrite length_app in Hes. simpl in Hes. lia. }
    clearbody es1. subst es.
    destruct re as [r [k v]]. destruct se as [s [ks vs]].
    rewrite <- app_assoc in Hc, Hnd. simpl in Hc, Hnd.
    pose proof Hc as Hwhole.
    apply chain_app in Hc as (mid & Hch1 & Hch2). simpl in Hch2.
    destruct Hch2 as (-> & rn0 & Hr & Hk & Hv & Hch2).
    pose proof Hnd as Hndw.
    rewrite fmap_app in Hnd. simpl in Hnd. rewrite fmap_app in Hnd. simpl in Hnd.
    apply NoDup_app in Hnd as (Hnd1 & Hd1 & Hnd).
    apply NoDup_cons in Hnd as (Hr2 & Hnd).
    pose proof Hnd as Hnd2s.
    apply NoDup_app in Hnd as (Hnd2 & Hd2 & Hnds).
    apply NoDup_cons in Hnds as (Hsrest & _).
    assert (r ∉ es1.*1) as Hr1 by (intros Hin; apply (Hd1 _ Hin); set_solver).
    assert (s ∉ es1.*1) as Hs1 by (intros Hin; apply (Hd1 _ Hin); set_solver).
    assert (s ∉ es2.*1) as Hs2 by (intros Hin; apply (Hd2 _ Hin); set_solver).
    assert (s ≠ r) as Hsr by set_solver.
    assert (r ∉ es2.*1) as Hr2e by set_solver.
    assert (∀ q, q ∈ es1.*1 → q ∉ es2.*1) as H12
      by (intros q Hq Hq2; apply (Hd1 _ Hq); set_solver).
    (* the left part *)
    destruct (IH n1 es1 (r, (k, v)) (es2 ++ (s, (ks, vs)) :: rest) h x nxt) as
      (h1 & b1 & rn0' & -> & Hb1' & Hbt1 & Hr' & Hr1' & Hrep1 & Hpar1 & Hfr1 & Hdom1).
    { lia. }
    { lia. }
    { lia. }
    { done. }
    { done. }
    simpl in Hr', Hr1'. rewrite Hr in Hr'. injection Hr' as <-.
    simpl. rewrite (load_Some _ _ _ Hr1'). simpl.
    (* the right part *)
    destruct (IH n2 es2 (s, (ks, vs)) rest h1 (nright rn0) nxt) as
      (h2 & b2 & sn & -> & Hb2' & Hbt2 & Hs & Hs' & Hrep2 & Hpar2 & Hfr2 & Hdom2).
    { lia. }
    { lia. }
    { lia. }
    { eapply chain_agree; [|exact Hch2]. intros q Hq. apply Hfr1.
      rewrite fmap_app in Hq |- *. simpl in Hq |- *. intros Hin.
      apply elem_of_app in Hin as [Hin|Hin].
      - apply (Hd1 _ Hin). by right.
      - apply list_elem_of_singleton in Hin as ->. exact (Hr2 Hq). }
    { by rewrite fmap_app. }
    simpl in Hs, Hs'. simpl. rewrite (load_Some _ _ _ Hs'). simpl.
    assert (ids b1 = es1.*1) as Hi1 by (unfold ids; by rewrite Hb1').
    assert (ids b2 = es2.*1) as Hi2 by (unfold ids; by rewrite Hb2').
    assert (h2 !! r = Some (set_left (rootp b1) rn0)) as Hr2'.
    { rewrite Hfr2; [done|]. rewrite fmap_app. simpl. set_solver. }
    rewrite (upd_Some _ _ _ _ Hr2'). simpl.
    set (rc := set_right (rootp b2) (set_left (rootp b1) rn0)).
    set (h3 := <[r := rc]> h2).
    assert (h3 !! r = Some rc) as Hr3 by apply lookup_insert_eq.
    rewrite (load_Some _ _ _ Hr3). simpl.
    (* the two children get [r] as parent *)
    destruct (adopt h3 b2 (Some r)) as (h4 & -> & Hrep4 & Hfr4 & Hdom4).
    { destruct Hrep2 as (par & Hrep2). exists par. apply rep_insert_out; [|done].
      by rewrite Hi2. }
    { by rewrite Hi2. }
    simpl.
    assert (h4 !! r = Some rc) as Hr4.
    { rewrite Hfr4; [apply lookup_insert_eq|].
      intros Hq. symmetry in Hq. apply rootp_in in Hq. by rewrite Hi2 in Hq. }
    rewrite (load_Some _ _ _ Hr4). simpl.
    destruct (adopt h4 b1 (Some r)) as (h5 & -> & Hrep5 & Hfr5 & Hdom5).
    { destruct Hrep1 as (par & Hrep1). exists par.
      eapply rep_agree; [|exact Hrep1]. intros q Hq. rewrite Hi1 in Hq.
      rewrite Hfr4.
      - unfold h3. rewrite lookup_insert_ne by set_solver.
        apply Hfr2. rewrite fmap_app. simpl. set_solver.
      - intros Hq'. symmetry in Hq'. apply rootp_in in Hq'. rewrite Hi2 in Hq'.
        by apply (H12 q). }
    { by rewrite Hi1. }
    simpl.
    assert (h5 !! s = Some (set_left (rootp b2) sn)) as Hs5.
    { rewrite Hfr5, Hfr4.
      - unfold h3. by rewrite lookup_insert_ne.
      - intros Hq. symmetry in Hq. apply rootp_in in Hq. by rewrite Hi2 in Hq.
      - intros Hq. symmetry in Hq. apply rootp_in in Hq. by rewrite Hi1 in Hq. }
    rewrite (upd_Some _ _ _ _ Hs5). simpl.
    assert (h5 !! r = Some rc) as Hr5.
    { rewrite Hfr5; [done|].
      intros Hq. symmetry in Hq. apply rootp_in in Hq. by rewrite Hi1 in Hq. }
    exists (<[s := set_left (Some r) (set_left (rootp b2) sn)]> h5),
      (N b1 r k v b2), sn.
    split_and!.
    + done.
    + simpl. by rewrite Hb1', Hb2'.
    + intros Hle. simpl. rewrite !weight_nodes, Hb1', Hb2'.
      assert (round24 (n - 1) = n - 1) as Hex by (apply round24_small; lia).
      assert (c1 = n1) as Hc1n by (apply consumed_exact; lia).
      assert (c2 = n2) as Hc2n by (apply consumed_exact; lia).
      pose proof (halves_sum (n - 1)) as Hsum.
      unfold n1, n2 in *. rewrite Hex in *.
      replace (Z.of_nat (length es1) + Z.of_nat (length es2) + 1 - 1) with (n - 1) by lia.
      split_and!; [lia|lia|apply Hbt1; lia|apply Hbt2; lia].
    + rewrite <- Hs. symmetry. apply Hfr1. rewrite fmap_app. simpl. set_solver.
    + simpl. rewrite lookup_insert_eq. done.
    + exists (nparent rn0). simpl. split_and!.
      * rewrite lookup_insert_ne by done. rewrite Hr5. unfold rc.
        by rewrite <- Hk, <- Hv.
      * apply rep_insert_out; [by rewrite Hi1|done].
      * apply rep_insert_out; [by rewrite Hi2|].
        eapply rep_agree; [|exact Hrep4]. intros q Hq. apply Hfr5.
        intros Hq'. symmetry in Hq'. apply rootp_in in Hq'. rewrite Hi1 in Hq'.
        rewrite Hi2 in Hq. by apply (H12 q).
    + simpl. intros p [= <-]. rewrite lookup_insert_ne by done.
      rewrite Hr5, Hr. done.
    + intros q Hq. rewrite !fmap_app in Hq. simpl in Hq. rewrite ?fmap_app in Hq.
      simpl in Hq.
      rewrite lookup_insert_ne by set_solver.
      rewrite Hfr5, Hfr4.
      * unfold h3. rewrite lookup_insert_ne by set_solver.
        rewrite Hfr2 by (rewrite fmap_app; simpl; set_solver).
        apply Hfr1. rewrite fmap_app. simpl. set_solver.
      * intros Hq'. symmetry in Hq'. apply rootp_in in Hq'. rewrite Hi2 in Hq'.
        set_solver.
      * intros Hq'. symmetry in Hq'. apply rootp_in in Hq'. rewrite Hi1 in Hq'.
        set_solver.
    + rewrite (dom_insert_present _ _ _ _ Hs5), Hdom5, Hdom4. unfold h3.
      rewrite (dom_insert_present _ _ _ _ Hr2'). by rewrite Hdom2.
Qed.

(** [build f n] on a chain that is too short runs off its end. *)
Lemma build_overrun f : ∀ n es h x,
  0 ≤ n → (Z.to_nat n < f)%nat →
  chain h es x None → NoDup (es.*1) →
  Z.of_nat (length es) ≤ consumed f n →
  ∀ res, build f n h x ≠ Ok res.
Proof.
  induction f as [|f IH]; intros n es h x Hn0 Hf Hc Hnd Hlen res; [lia|].
  cbn [build consumed] in *. destruct (n =? 0) eqn:En.
  - assert (es = []) as -> by (destruct es; [done|simpl in Hlen; lia]).
    simpl in Hc. subst x. done.
  - apply Z.eqb_neq in En.
    pose proof (halves_bounds_round n ltac:(lia)) as (Hb1 & Hb2).
    set (n1 := ceil_half (round24 (n - 1))) in *.
    set (n2 := floor_half (round24 (n - 1))) in *.
    pose proof (consumed_nonneg f n1) as Hc1. pose proof (consumed_nonneg f n2) as Hc2.
    set (c1 := consumed f n1) in *. set (c2 := consumed f n2) in *.
    intros Hres. apply bind_Ok_inv in Hres as ([r h1] & Hb & Hres).
    destruct (decide (Z.of_nat (length es) ≤ c1)) as [Hle|Hgt].
    { by apply (IH n1 es h x ltac:(lia) ltac:(lia) Hc Hnd Hle (r, h1)). }
    pose proof (take_drop (Z.to_nat c1) es) as Hes.
    set (es1 := take (Z.to_nat c1) es) in *.
    assert (length es1 = Z.to_nat c1) as Hl1.
    { unfold es1. rewrite length_take. lia. }
    destruct (drop (Z.to_nat c1) es) as [|re es2] eqn:Hdrop.
    { apply (f_equal length) in Hes. rewrite length_app in Hes. simpl in Hes. lia. }
    clearbody es1. subst es.
    destruct (build_spec f n1 es1 re es2 h x None) as
      (h1' & b1 & rn0 & Hb' & _ & _ & Hr & Hr1 & _ & _ & Hfr1 & _); try done; try lia.
    rewrite Hb' in Hb. injection Hb as <- <-.
    rewrite (load_Some _ _ _ Hr1) in Hres. cbn [mbind result_mbind result_bind] in Hres.
    apply bind_Ok_inv in Hres as ([s h2] & Hb2' & _).
    destruct re as [rl [k v]]. simpl in *.
    apply chain_app in Hc as (mid & _ & Hch2). simpl in Hch2.
    destruct Hch2 as (-> & rn & Hrn & _ & _ & Hch2).
    rewrite Hr in Hrn. injection Hrn as <-.
    rewrite fmap_app in Hnd. simpl in Hnd.
    apply NoDup_app in Hnd as (_ & Hd1 & Hnd). apply NoDup_cons in Hnd as (Hr2 & Hnd2).
    apply (IH n2 es2 h1' (nright rn0) ltac:(lia) ltac:(lia)) with (res := (s, h2)).
    + eapply chain_agree; [|exact Hch2]. intros q Hq. apply Hfr1.
      rewrite fmap_app. simpl. intros Hin.
      apply elem_of_app in Hin as [Hin|Hin].
      * apply (Hd1 _ Hin). by right.
      * apply list_elem_of_singleton in Hin as ->. exact (Hr2 Hq).
    + done.
    + rewrite length_app in Hlen. simpl in Hlen. lia.
    + done.
Qed.

End Build.
End Build.

(** * The rebuild sequence *)

Module Rebuild.
Import DM852 Abs Basic Ctx Read Flatten Build.

Section Rebuild.
Context {V : Type} `{!Inhabited V}.
Implicit Types (h : gmap positive (@Node V)) (t a b l r : @T V) (c : list (@frame V)) (v : V).
Implicit Types (es : list (loc * (Z * V))).

Lemma delete_Node_null f h : delete_Node f h None = Ok h.
Proof. by destruct f. Qed.

Lemma fresh_None h : h !! fresh (dom h) = None.
Proof. apply not_elem_of_dom, is_fresh. Qed.

Lemma rep_not_fresh h par t : rep h par t → fresh (dom h) ∉ ids t.
Proof.
  intros Hrep Hin. destruct (rep_in_dom _ _ _ _ Hrep Hin) as [n Hn].
  by rewrite fresh_None in Hn.
Qed.

Lemma drop_sentinel_spec h w par wl k v :
  h !! w = Some (mkNode par wl None k v) → drop_sentinel h w = Ok (delete w h).
Proof.
  intros Hw. unfold drop_sentinel. rewrite (upd_Some _ _ _ _ Hw). simpl.
  unfold load. rewrite lookup_insert_eq. simpl.
  rewrite delete_Node_null. simpl. rewrite delete_Node_null. simpl.
  by rewrite delete_insert_eq.
Qed.

(** The rebuild sequence called with [n] on a subtree [t].  [build] takes
    [kept n] nodes from the chain of [t]: when the chain holds as many, the
    first [kept n] nodes are linked into the subtree that is returned and
    the others are left out of it; when it holds fewer, [build] runs off
    the end of the chain. *)
Lemma rebuild_spec_gen h par t n :
  rep h par t → NoDup (ids t) → 0 ≤ n →
  (kept n ≤ weight t →
    ∃ w h' b wl, rebuild h (rootp t) n = Ok ((w, rootp b), h')
      ∧ h !! w = None
      ∧ nodes b = take (Z.to_nat (kept n)) (nodes t)
      ∧ (float_of_int n ≤ 2 ^ 24 → built b)
      ∧ rep h' None b
      ∧ h' !! w = Some (mkNode None wl None 0 inhabitant)
      ∧ (kept n = weight t → wl = rootp b)
      ∧ (∀ q, q ∉ ids t → q ≠ w → h' !! q = h !! q)
      ∧ dom h' = {[w]} ∪ dom h)
  ∧ (weight t < kept n → ∀ res, rebuild h (rootp t) n ≠ Ok res).
Proof.
  intros Hrep Hnd Hn0. unfold rebuild, new_Node.
  set (w := fresh (dom h)). set (wn := mkNode None None None 0 inhabitant).
  set (h0 := <[w := wn]> h).
  assert (h !! w = None) as Hw by apply fresh_None.
  assert (w ∉ ids t) as Hwt by by eapply rep_not_fresh.
  assert (rep h0 par t) as Hrep0 by by apply rep_insert_out.
  unfold flatten_wrapper.
  destruct (flatten_spec t h0 par (Some w) (fuel h0) Hrep0 Hnd)
    as (h1 & z & -> & Hc1 & Hfr1 & Hdom1).
  { pose proof (rep_fuel _ _ _ Hrep0 Hnd). lia. }
  bind_ok.
  assert (h1 !! w = Some wn) as Hw1.
  { rewrite Hfr1 by done. apply lookup_insert_eq. }
  set (we := (w, (0, inhabitant)) : loc * (Z * V)).
  set (es := nodes t ++ [we]).
  assert (chain h1 es z None) as Hc1'.
  { apply chain_app. exists (Some w). split; [done|]. simpl. split; [done|].
    exists wn. done. }
  assert (es.*1 = ids t ++ [w]) as Hes by (unfold es, ids; by rewrite fmap_app).
  assert (NoDup (es.*1)) as Hnde.
  { rewrite Hes. apply NoDup_app. split_and!; [done| |apply NoDup_singleton].
    intros q Hq. set_solver. }
  destruct (clear_chain_spec es h1 z (fuel h1) Hc1' Hnde)
    as (h2 & -> & Hc2 & Hcl2 & Hfr2 & Hdom2).
  { unfold fuel. rewrite <- (length_fmap fst).
    pose proof (length_le_size h1 (es.*1) Hnde) as Hle.
    assert ((length es.*1 ≤ base.size h1)%nat); [|lia].
    apply Hle. intros q Hq. by eapply chain_in_dom. }
  bind_ok.
  (* the cell of the sentinel once the chain is cleared *)
  assert (h2 !! w = Some wn) as Hw2.
  { destruct (Hcl2 w) as (n0 & Hn0' & Hnp & Hnl); [rewrite Hes; set_solver|].
    pose proof Hc2 as Hc2'. apply chain_app in Hc2' as (mid & _ & Hc2'). simpl in Hc2'.
    destruct Hc2' as (-> & n1 & Hn1 & Hnk & Hnv & Hnr). rewrite Hn0' in Hn1.
    injection Hn1 as <-. rewrite Hn0'. f_equal. destruct n0; simpl in *.
    unfold wn. congruence. }
  pose proof (kept_nonneg n) as Hk0. pose proof (weight_nodes t) as Hwn.
  pose proof (round24_nonneg n Hn0) as Hfn.
  unfold kept in *. fold (float_of_int n) in Hfn.
  set (fn := float_of_int n) in *. set (m := consumed (build_fuel fn) fn) in *.
  split.
  - intros Hle.
    pose proof (take_drop (Z.to_nat m) es) as Htd.
    assert (take (Z.to_nat m) es = take (Z.to_nat m) (nodes t)) as Htk.
    { unfold es. rewrite take_app_le; [done|lia]. }
    rewrite Htk in Htd.
    destruct (drop (Z.to_nat m) es) as [|se rest] eqn:Hdrop.
    { apply (f_equal length) in Htd. unfold es in Htd.
      rewrite !length_app, length_take in Htd. simpl in Htd. lia. }
    set (tk := take (Z.to_nat m) (nodes t)) in *.
    assert (length tk = Z.to_nat m) as Hltk by (unfold tk; rewrite length_take; lia).
    rewrite <- Htd in Hc2, Hnde, Hcl2, Hfr2, Hes.
    destruct (build_spec (build_fuel fn) fn tk se rest h2 z None)
      as (h3 & b & sn & -> & Hb & Hbt & Hsn & Hs3 & Hrep3 & Hpar3 & Hfr3 & Hdom3).
    { done. }
    { unfold build_fuel. lia. }
    { fold m. lia. }
    { done. }
    { done. }
    bind_ok. cbn [fst]. rewrite (load_Some _ _ _ Hs3). bind_ok. cbn [nleft set_left].
    assert (ids b = tk.*1) as Hib by (unfold ids; by rewrite Hb).
    assert (∀ q, q ∈ (tk ++ [se]).*1 → q ∈ ids t ∨ q = w) as Hsub.
    { intros q Hq. assert (q ∈ (tk ++ se :: rest).*1) as Hq'.
      { rewrite fmap_app in Hq |- *. simpl in Hq |- *. set_solver. }
      rewrite Hes in Hq'. set_solver. }
    assert (∀ q, q ∈ tk.*1 → q ∈ ids t) as Hsubt.
    { intros q Hq. unfold ids. apply list_elem_of_fmap in Hq as (e & -> & He).
      apply list_elem_of_fmap. exists e. split; [done|].
      unfold tk in He. by eapply elem_of_sublist; [|apply sublist_take]. }
    (* the cell of the sentinel after [build] *)
    assert (∃ wl, h3 !! w = Some (mkNode None wl None 0 inhabitant)
                  ∧ (m = weight t → wl = rootp b)) as (wl & Hw3 & Hwl).
    { destruct (decide (se.1 = w)) as [Heq|Hne].
      - exists (rootp b). rewrite <- Heq, Hs3. rewrite Heq, Hw2 in Hsn.
        injection Hsn as <-. done.
      - exists None. split.
        + rewrite Hfr3; [done|]. rewrite fmap_app. simpl. intros Hin.
          apply elem_of_app in Hin as [Hin|Hin].
          * by apply Hwt, Hsubt.
          * apply list_elem_of_singleton in Hin. done.
        + intros Hm. exfalso. apply Hne.
          assert (tk = nodes t) as Htkn.
          { unfold tk. apply take_ge. lia. }
          rewrite Htkn in Htd. unfold es in Htd.
          apply app_inv_head in Htd. injection Htd as Hse _. by rewrite Hse. }
    exists w, h3, b, wl. split_and!; try done.
    + destruct Hrep3 as (par3 & Hrep3). destruct b as [|bl bp bk bv br]; [done|].
      pose proof Hrep3 as (Hbp & _). specialize (Hpar3 bp eq_refl).
      destruct (Hcl2 bp) as (n0 & Hn0' & Hnp & _).
      { rewrite fmap_app. apply elem_of_app. left. rewrite <- Hib, ids_N. set_solver. }
      rewrite Hbp, Hn0' in Hpar3. simpl in Hpar3. rewrite Hnp in Hpar3.
      injection Hpar3 as ->. done.
    + intros q Hq Hqw. rewrite Hfr3, Hfr2, Hfr1; try done.
      * unfold h0. by rewrite lookup_insert_ne.
      * rewrite Hes. set_solver.
      * intros Hin. destruct (Hsub _ Hin); done.
    + rewrite Hdom3, Hdom2, Hdom1. unfold h0. by rewrite dom_insert_L.
  - intros Hgt res Hres.
    apply bind_Ok_inv in Hres as ([s h3] & Hb & _).
    apply (build_overrun (build_fuel fn) fn es h2 z) with (res := (s, h3)); try done.
    + unfold build_fuel. lia.
    + unfold es. rewrite length_app. cbn [length].
      change (consumed (build_fuel fn) fn) with m. lia.
Qed.


End Rebuild.
End Rebuild.

(** * Order of the keys around a hole *)

Module Order.
Import DM852 Abs Basic Ctx Read.

Section Order.
Context {V : Type}.
Implicit Types (h : gmap positive (@Node V)) (t a b l r s : @T V) (c : list (@frame V)) (v : V).
Implicit Types (es : list (loc * (Z * V))).

Lemma keys_nodes t : keys t = (nodes t).*2.*1.
Proof. done. Qed.

Lemma bst_plug c s : bst (plug c s) ↔ StronglySorted Z.lt (ckl c ++ keys s ++ ckr c).
Proof. unfold bst. by rewrite keys_plug. Qed.

Lemma ckl_FL p k v r c : ckl (FL p k v r :: c) = ckl c.
Proof. done. Qed.
Lemma ckr_FL p k v r c : ckr (FL p k v r :: c) = k :: keys r ++ ckr c.
Proof. unfold ckr, keys, elems. cbn [cright]. by rewrite !fmap_cons, !fmap_app. Qed.
Lemma ckl_FR l p k v c : ckl (FR l p k v :: c) = ckl c ++ keys l ++ [k].
Proof. unfold ckl, keys, elems. cbn [cleft]. by rewrite !fmap_app. Qed.
Lemma ckr_FR l p k v c : ckr (FR l p k v :: c) = ckr c.
Proof. done. Qed.

Lemma sorted_middle (A B M : list Z) :
  StronglySorted Z.lt (A ++ M ++ B) → StronglySorted Z.lt (A ++ B).
Proof.
  rewrite !StronglySorted_app. intros (H1 & H2 & H3 & H4 & H5).
  split_and!; try done. intros x1 x2 Hx1 Hx2. apply H1; [done|]. set_solver.
Qed.

(** The keys of the hole fit the innermost frame. *)
Lemma bst_plug_fits f c s x :
  bst (plug (f :: c) s) → x ∈ keys s → fits x f.
Proof.
  rewrite bst_plug. destruct f as [p k v r|l p k v]; simpl.
  - rewrite ckl_FL, ckr_FL. rewrite !StronglySorted_app.
    intros (_ & _ & H & _) Hx. apply H; [done|]. set_solver.
  - rewrite ckl_FR, ckr_FR. rewrite !StronglySorted_app.
    intros (H & _) Hx. apply H; set_solver.
Qed.

(** A key that the search led to the hole lies between the two sides. *)
Lemma fits_bounds c x :
  Forall (fits x) c → StronglySorted Z.lt (ckl c ++ ckr c) →
  (∀ y, y ∈ ckl c → y < x) ∧ (∀ y, y ∈ ckr c → x < y).
Proof.
  induction c as [|[p k v r|l p k v] c IH]; intros Hf Hs.
  - split; intros y Hy; by apply elem_of_nil in Hy.
  - apply Forall_cons in Hf as (Hx & Hf). simpl in Hx.
    rewrite ckl_FL, ckr_FL in *.
    destruct IH as (IH1 & IH2); [done|..].
    { change (k :: keys r ++ ckr c) with ((k :: keys r) ++ ckr c) in Hs.
      by apply sorted_middle in Hs. }
    split; [done|]. intros y Hy.
    apply StronglySorted_app in Hs as (_ & _ & Hs).
    apply StronglySorted_cons in Hs as (Hk & _). rewrite Forall_forall in Hk.
    apply elem_of_cons in Hy as [->|Hy]; [done|].
    specialize (Hk _ Hy). apply elem_of_app in Hy as [Hy|Hy]; [lia|by apply IH2].
  - apply Forall_cons in Hf as (Hx & Hf). simpl in Hx.
    rewrite ckl_FR, ckr_FR in *.
    destruct IH as (IH1 & IH2); [done|..].
    { rewrite <- app_assoc in Hs. by apply sorted_middle in Hs. }
    split; [|done]. intros y Hy.
    apply StronglySorted_app in Hs as (_ & Hs & _).
    rewrite app_assoc in Hs. apply StronglySorted_app in Hs as (Hk & _).
    apply elem_of_app in Hy as [Hy|Hy]; [by apply IH1|].
    apply elem_of_app in Hy as [Hy|Hy].
    + specialize (Hk y k). assert (y < k); [|lia]. apply Hk; set_solver.
    + apply list_elem_of_singleton in Hy as ->. done.
Qed.

Lemma sorted_insert (A B : list Z) x :
  StronglySorted Z.lt (A ++ B) →
  (∀ y, y ∈ A → y < x) → (∀ y, y ∈ B → x < y) →
  StronglySorted Z.lt (A ++ x :: B).
Proof.
  rewrite !StronglySorted_app, StronglySorted_cons, Forall_forall.
  intros (H1 & H2 & H3) HA HB. split_and!; try done.
  intros x1 x2 Hx1 Hx2. apply elem_of_cons in Hx2 as [->|Hx2]; [by apply HA|].
  by apply H1.
Qed.

Lemma sorted_sublist (l1 l2 : list Z) :
  l1 `sublist_of` l2 → StronglySorted Z.lt l2 → StronglySorted Z.lt l1.
Proof.
  induction 1 as [|x l1 l2 Hsub IH|x l1 l2 Hsub IH]; intros Hs; [done|..].
  - apply StronglySorted_cons in Hs as (Hx & Hs). apply StronglySorted_cons.
    split; [|by apply IH]. rewrite Forall_forall in Hx |- *.
    intros y Hy. apply Hx. by eapply elem_of_sublist.
  - apply StronglySorted_cons in Hs as (_ & Hs). by apply IH.
Qed.

(** A tree made of some of the nodes of a search tree, in their order, is
    a search tree. *)
Lemma ids_sublist a a' :
  nodes a' `sublist_of` nodes a → ids a' `sublist_of` ids a.
Proof. intros H. unfold ids. by apply fmap_sublist. Qed.

Lemma bst_sublist a a' : nodes a' `sublist_of` nodes a → bst a → bst a'.
Proof.
  intros H. unfold bst. rewrite !keys_nodes. apply sorted_sublist.
  by do 2 apply fmap_sublist.
Qed.

Lemma weight_sublist a a' : nodes a' `sublist_of` nodes a → weight a' ≤ weight a.
Proof.
  intros H%sublist_length. rewrite !weight_length. unfold ids.
  rewrite !length_fmap. lia.
Qed.

Lemma sorted_NoDup (l : list Z) : StronglySorted Z.lt l → NoDup l.
Proof.
  induction 1 as [|x l Hs IH Hx]; constructor; [|done].
  rewrite Forall_forall in Hx. intros Hin. specialize (Hx _ Hin). lia.
Qed.

(** In a search tree a key names one node. *)
Lemma bst_key_unique t p p' k v v' :
  bst t → (p, (k, v)) ∈ nodes t → (p', (k, v')) ∈ nodes t → p = p' ∧ v = v'.
Proof.
  unfold bst. rewrite keys_nodes. intros Hs%sorted_NoDup.
  intros H1 H2.
  apply list_elem_of_lookup in H1 as (i & Hi). apply list_elem_of_lookup in H2 as (j & Hj).
  assert (i = j) as ->.
  { eapply NoDup_lookup; [exact Hs|..].
    - rewrite !list_lookup_fmap, Hi. done.
    - rewrite !list_lookup_fmap, Hj. done. }
  rewrite Hi in Hj. by injection Hj as -> ->.
Qed.

(** Leftmost and rightmost: the flags of the search. *)
Lemma forallb_is_FL c : forallb is_FL c = true ↔ cleft c = [].
Proof.
  induction c as [|[p k v r|l p k v] c IH]; simpl; [done|done|].
  split; [done|]. intros H. apply app_eq_nil in H as (_ & H).
  apply app_eq_nil in H as (_ & H). discriminate.
Qed.

Lemma forallb_is_FR c : forallb is_FR c = true ↔ cright c = [].
Proof.
  induction c as [|[p k v r|l p k v] c IH]; simpl; [done| |done].
  split; done.
Qed.

Lemma forallb_is_FL_false c : forallb is_FL c = false ↔ cleft c ≠ [].
Proof. rewrite <- forallb_is_FL. by destruct (forallb is_FL c). Qed.

Lemma forallb_is_FR_false c : forallb is_FR c = false ↔ cright c ≠ [].
Proof. rewrite <- forallb_is_FR. by destruct (forallb is_FR c). Qed.

Lemma croot_nonempty f c q q' : croot (f :: c) q = croot (f :: c) q'.
Proof.
  unfold croot. destruct (last (f :: c)) eqn:El; [done|]. by apply last_None in El.
Qed.

End Order.
End Order.

(** * Finding and rebuilding the scapegoat *)

Module Scapegoat.
Import DM852 Abs Basic Ctx Read Flatten Build Rebuild Order.

Section Scapegoat.
Context {V : Type} `{!Inhabited V}.
Implicit Types (h : gmap positive (@Node V)) (t : Tree) (a b l r s : @T V) (c : list (@frame V)) (v : V).
Implicit Types (es : list (loc * (Z * V))).

Lemma nodes_nonempty_root s : nodes s ≠ [] → ∃ p, rootp s = Some p.
Proof. destruct s; [done|]. eauto. Qed.

Lemma rootp_key_in s p h par :
  rep h par s → rootp s = Some p → ∃ n, h !! p = Some n ∧ nkey n ∈ keys s.
Proof.
  destruct s as [|l p' k v r]; [done|]. intros (Hp & _) [= ->].
  eexists. split; [done|]. simpl. rewrite keys_N. set_solver.
Qed.

Lemma NoDup_plug c s :
  NoDup (ids (plug c s)) →
  NoDup (ids s) ∧ NoDup (cids c) ∧ (∀ q, q ∈ ids s → q ∉ cids c).
Proof.
  rewrite ids_plug_perm. intros H. apply NoDup_app in H as (H1 & H2 & H3). done.
Qed.

Lemma weight_plug_le c s : weight s ≤ weight (plug c s).
Proof. rewrite !weight_nodes, nodes_plug, !length_app. lia. Qed.

(** A subtree replaced by the first [m] of its nodes. *)
Lemma take_plug_sublist c s b (m : nat) :
  nodes b = take m (nodes s) → nodes (plug c b) `sublist_of` nodes (plug c s).
Proof.
  intros Hb. rewrite !nodes_plug, Hb.
  apply sublist_app; [done|]. apply sublist_app; [apply sublist_take|done].
Qed.

Lemma take_plug_head c s b (m : nat) :
  nodes b = take m (nodes s) → (0 < m)%nat →
  head (ids (plug c b)) = head (ids (plug c s)).
Proof.
  intros Hb Hm. unfold ids. rewrite !nodes_plug, Hb.
  destruct (cleft c); [|done]. simpl.
  destruct (nodes s); [by rewrite take_nil|]. destruct m; [lia|]. done.
Qed.

(** The rebuild at a scapegoat: either the first nodes of its subtree are
    built into the subtree that takes its place (all of them, up to [2^24]
    nodes), or [build] runs off the end of the chain. *)
Lemma rebuild_scapegoat_gen t h c s scn :
  rootp s = Some scn →
  rep h None (plug c s) → NoDup (ids (plug c s)) → bst (plug c s) →
  root t = rootp (plug c s) →
  (∃ t' h' b (m : nat),
    rebuild_scapegoat t h scn (weight s) = Ok (t', h')
    ∧ rep h' None (plug c b) ∧ nodes b = take m (nodes s) ∧ (0 < m)%nat
    ∧ (weight s ≤ 2 ^ 24 → nodes b = nodes s ∧ built b)
    ∧ root t' = rootp (plug c b) ∧ tfirst t' = tfirst t ∧ tlast t' = tlast t
    ∧ tree_size t' = tree_size t
    ∧ (∀ q, q ∉ ids (plug c s) → h' !! q = h !! q))
  ∨ (2 ^ 24 < weight s ∧ ∀ res, rebuild_scapegoat t h scn (weight s) ≠ Ok res).
Proof.
  intros Hroot Hrep Hnd Hbst Ht.
  pose proof Hrep as Hwhole.
  apply rep_plug in Hrep as (Hs & Hc).
  pose proof Hnd as Hndw.
  apply NoDup_plug in Hnd as (Hnds & Hndc & Hdisj).
  destruct (rep_root_cell _ _ _ _ Hs Hroot) as (sn & Hsn & Hpar).
  pose proof (weight_nonneg s) as Hw0.
  assert (1 ≤ weight s) as Hw1 by (destruct s; [done|]; simpl;
    pose proof (weight_nonneg s1); pose proof (weight_nonneg s2); lia).
  destruct (rebuild_spec_gen h _ s (weight s) Hs Hnds Hw0) as (Hok & Hbad).
  destruct (decide (kept (weight s) ≤ weight s)) as [Hle|Hgt]; [left|right].
  2:{ split.
      - apply Z.nle_gt. intros Hsmall. apply Hgt. rewrite kept_exact; lia.
      - intros res Hres. unfold rebuild_scapegoat in Hres.
        rewrite (load_Some _ _ _ Hsn) in Hres. rewrite bind_Ok in Hres. cbv beta iota in Hres.
        rewrite Hpar in Hres.
        destruct c as [|f c]; cbn [cpar plug] in *.
        + rewrite Ht in Hres. apply bind_Ok_inv in Hres as (r1 & Hr1 & _).
          apply (Hbad ltac:(lia) r1 Hr1).
        + rewrite <- Hroot in Hres. apply bind_Ok_inv in Hres as (r1 & Hr1 & _).
          apply (Hbad ltac:(lia) r1 Hr1). }
  destruct (Hok Hle) as (w & h1 & b & wl & Hrb & Hw & Hb & Hbt & Hrep1 & Hw1' & _ & Hfr1 & Hdom1).
  clear Hok Hbad.
  pose proof (kept_pos (weight s) Hw1) as Hkp.
  set (m := Z.to_nat (kept (weight s))) in *.
  assert (0 < m)%nat as Hm by lia.
  assert (nodes b `sublist_of` nodes s) as Hsub by (rewrite Hb; apply sublist_take).
  assert (∀ q, q ∈ ids b → q ∈ ids s) as Hib.
  { intros q Hq. eapply elem_of_sublist; [exact Hq|]. by apply ids_sublist. }
  assert (NoDup (ids b)) as Hndb.
  { eapply sublist_NoDup; [exact Hnds|]. by apply ids_sublist. }
  assert (w ∉ ids (plug c s)) as Hww.
  { intros Hin. destruct (rep_in_dom _ _ _ _ Hwhole Hin) as [n Hn]. congruence. }
  assert ((w ∉ ids s) ∧ (w ∉ cids c)) as (Hws & Hwc).
  { rewrite ids_plug_perm in Hww. set_solver. }
  assert (w ∉ ids b) as Hwb by (intros Hin; by apply Hws, Hib).
  assert (repc h1 None c (rootp s)) as Hc1.
  { eapply repc_agree; [|exact Hc]. intros q Hq. apply Hfr1; [|set_solver].
    intros Hqs. by apply (Hdisj q). }
  assert (weight s ≤ 2 ^ 24 → nodes b = nodes s ∧ built b) as Hexact.
  { intros Hsmall. split.
    - rewrite Hb. apply take_ge. unfold m. rewrite kept_exact by lia.
      rewrite weight_nodes. lia.
    - apply Hbt. unfold float_of_int. rewrite round24_small; lia. }
  destruct c as [|f c]; cbn [cpar].
  - (* the root is the scapegoat *)
    cbn [plug] in *.
    unfold rebuild_scapegoat. rewrite (load_Some _ _ _ Hsn). bind_ok.
    rewrite Hpar, Ht, Hrb. bind_ok.
    rewrite (drop_sentinel_spec _ _ _ _ _ _ Hw1'). bind_ok.
    eexists _, _, b, m. split; [done|]. split_and!; try done.
    + by apply rep_delete_out.
    + intros q Hq. destruct (decide (q = w)) as [->|Hne].
      * by rewrite lookup_delete_eq.
      * rewrite lookup_delete_ne by done. by apply Hfr1.
  - (* the scapegoat has a parent *)
    unfold rebuild_scapegoat. rewrite (load_Some _ _ _ Hsn). bind_ok.
    rewrite Hpar. cbn [cpar].
    rewrite <- Hroot, Hrb. bind_ok.
    destruct (nodes_nonempty_root b) as (scn' & Hscn').
    { rewrite Hb. destruct s; [done|]. simpl.
      destruct (nodes s1); destruct m; simpl; (lia || done). }
    rewrite Hscn'. cbn [deref]. bind_ok.
    destruct (rep_root_cell _ _ _ _ Hrep1 Hscn') as (bn & Hbn & Hbpar).
    rewrite (upd_Some _ _ _ _ Hbn). bind_ok.
    set (h2 := <[scn' := set_parent (Some (faddr f)) bn]> h1).
    assert (h2 !! scn' = Some (set_parent (Some (faddr f)) bn)) as Hbn2
      by apply lookup_insert_eq.
    rewrite (load_Some _ _ _ Hbn2). bind_ok.
    assert (scn' ∈ ids s) as Hscn_in by (by apply Hib, rootp_in).
    assert (scn' ∉ cids (f :: c)) as Hscn_c by by apply Hdisj.
    assert (rep h2 (Some (faddr f)) b) as Hrep2.
    { eapply rep_set_parent; try done. }
    assert (repc h2 None (f :: c) (rootp s)) as Hc2 by by apply repc_insert_out.
    destruct (repc_head_cell _ _ _ _ _ Hc2) as (pn & Hpn & Hpk & Hpp & Hph).
    rewrite (load_Some _ _ _ Hpn). bind_ok.
    (* the side the rebuilt subtree goes to *)
    assert (nkey bn ∈ keys s) as Hkin.
    { destruct (rootp_key_in _ _ _ _ Hrep1 Hscn') as (n & Hn & Hk).
      rewrite Hbn in Hn. injection Hn as <-.
      eapply elem_of_sublist; [exact Hk|].
      rewrite !keys_nodes. by do 2 apply fmap_sublist. }
    pose proof (bst_plug_fits f c s _ Hbst Hkin) as Hfit.
    assert ((if comp (nkey (set_parent (Some (faddr f)) bn)) (nkey pn)
             then upd h2 (faddr f) (set_left (Some scn'))
             else upd h2 (faddr f) (set_right (Some scn')))
            = Ok (<[faddr f := if is_FL f then set_left (Some scn') pn
                               else set_right (Some scn') pn]> h2)) as ->.
    { simpl. rewrite Hpk. unfold comp. destruct f; simpl in *.
      - assert ((nkey bn <? k) = true) as -> by lia. by apply upd_Some.
      - assert ((nkey bn <? k) = false) as -> by lia. by apply upd_Some. }
    bind_ok.
    set (h3 := <[faddr f := _]> h2).
    assert (faddr f ∈ cids (f :: c)) as Hf_in.
    { destruct f; [rewrite cids_cons_FL|rewrite cids_cons_FR]; set_solver. }
    assert (h3 !! w = Some (mkNode None wl None 0 inhabitant)) as Hw3.
    { unfold h3, h2. rewrite !lookup_insert_ne; [done|..].
      - by intros ->.
      - by intros <-. }
    rewrite (drop_sentinel_spec _ _ _ _ _ _ Hw3). bind_ok.
    eexists _, _, b, m. split; [done|]. split_and!; try done.
    + apply rep_delete_out.
      { rewrite ids_plug_perm. apply not_elem_of_app. done. }
      apply rep_plug. split.
      * simpl. apply rep_insert_out; [|done]. intros Hin.
        by apply (Hdisj _ (Hib _ Hin)).
      * rewrite Hscn'. by eapply repc_set_hole.
    + cbn [root set_max_size]. rewrite Ht, !rootp_plug. apply croot_nonempty.
    + intros q Hq. rewrite ids_plug_perm in Hq.
      apply not_elem_of_app in Hq as (Hq1 & Hq2).
      destruct (decide (q = w)) as [->|Hne].
      { by rewrite lookup_delete_eq. }
      rewrite lookup_delete_ne by done.
      unfold h3, h2. rewrite !lookup_insert_ne; [by apply Hfr1|..].
      * by intros ->.
      * by intros <-.
Qed.

(** Up to [2^24] nodes the rebuild at a scapegoat keeps every node. *)
Lemma rebuild_scapegoat_spec t h c s scn :
  rootp s = Some scn →
  rep h None (plug c s) → NoDup (ids (plug c s)) → bst (plug c s) →
  root t = rootp (plug c s) → weight s ≤ 2 ^ 24 →
  ∃ t' h' b,
    rebuild_scapegoat t h scn (weight s) = Ok (t', h')
    ∧ rep h' None (plug c b) ∧ nodes b = nodes s ∧ built b
    ∧ root t' = rootp (plug c b) ∧ tfirst t' = tfirst t ∧ tlast t' = tlast t
    ∧ tree_size t' = tree_size t
    ∧ (∀ q, q ∉ ids (plug c s) → h' !! q = h !! q).
Proof.
  intros Hroot Hrep Hnd Hbst Ht Hsmall.
  destruct (rebuild_scapegoat_gen t h c s scn Hroot Hrep Hnd Hbst Ht)
    as [(t' & h' & b & m & Hr & Hrep' & _ & _ & Hex & Hrest)|(Hbig & _)]; [|lia].
  destruct (Hex Hsmall) as (Hb & Hbt). exists t', h', b. done.
Qed.

Lemma plug_cons f c s : plug (f :: c) s = plug c (plug [f] s).
Proof. by destruct f. Qed.

Lemma rootp_plug1 f s : rootp (plug [f] s) = Some (faddr f).
Proof. by destruct f. Qed.

Lemma scapegoat_check_spec h par s scn :
  rootp s = Some scn → rep h par s → NoDup (ids s) →
  ∃ bad, scapegoat_check h scn = Ok (weight s, bad).
Proof.
  intros Hroot Hrep Hnd. unfold scapegoat_check.
  pose proof (rep_fuel _ _ _ Hrep Hnd) as Hf.
  rewrite <- Hroot.
  rewrite (node_size_spec _ _ _ _ Hrep) by lia. bind_ok.
  destruct s as [|l p k v r]; [done|]. injection Hroot as ->.
  destruct Hrep as (Hp & Hl & Hr). rewrite (load_Some _ _ _ Hp). bind_ok.
  rewrite ids_N, length_app in Hf. simpl in Hf.
  cbn [nleft nright].
  rewrite (node_size_spec _ _ _ _ Hl) by lia. bind_ok.
  rewrite (node_size_spec _ _ _ _ Hr) by lia. bind_ok.
  eauto.
Qed.

(** The loop of [insert] that looks for a scapegoat above the new node. *)
Lemma scapegoat_loop_gen c : ∀ s f t h tmp,
  rootp s = Some tmp →
  rep h None (plug c s) → NoDup (ids (plug c s)) → bst (plug c s) →
  root t = rootp (plug c s) →
  (length c < f)%nat →
  (∃ t' h' a',
    scapegoat_loop f t h tmp = Ok (t', h')
    ∧ rep h' None a' ∧ nodes a' `sublist_of` nodes (plug c s)
    ∧ head (ids a') = head (ids (plug c s))
    ∧ (weight (plug c s) ≤ 2 ^ 24 → nodes a' = nodes (plug c s))
    ∧ root t' = rootp a' ∧ tfirst t' = tfirst t ∧ tlast t' = tlast t
    ∧ tree_size t' = tree_size t
    ∧ (∀ q, q ∉ ids (plug c s) → h' !! q = h !! q))
  ∨ (2 ^ 24 < weight (plug c s) ∧ ∀ res, scapegoat_loop f t h tmp ≠ Ok res).
Proof.
  induction c as [|fr c IH]; intros s f t h tmp Hroot Hrep Hnd Hbst Ht Hf.
  - destruct f as [|f]; [simpl in Hf; lia|]. simpl in *.
    destruct (rep_root_cell _ _ _ _ Hrep Hroot) as (n & Hn & Hpar).
    left. rewrite (load_Some _ _ _ Hn). bind_ok. rewrite Hpar.
    exists t, h, s. done.
  - destruct f as [|f]; [simpl in Hf; lia|]. cbn [scapegoat_loop].
    pose proof Hrep as Hrep'. apply rep_plug in Hrep' as (Hs & Hc).
    destruct (rep_root_cell _ _ _ _ Hs Hroot) as (n & Hn & Hpar).
    rewrite (load_Some _ _ _ Hn). bind_ok. rewrite Hpar. cbn [cpar].
    rewrite plug_cons in Hrep, Hnd, Hbst, Ht.
    pose proof Hrep as Hrep2. apply rep_plug in Hrep2 as (Hs2 & _).
    pose proof Hnd as Hnd2. apply NoDup_plug in Hnd2 as (Hnd2 & _).
    destruct (scapegoat_check_spec h _ (plug [fr] s) (faddr fr)
                (rootp_plug1 _ _) Hs2 Hnd2) as (bad & ->).
    bind_ok. rewrite (plug_cons fr c s). destruct bad.
    + destruct (rebuild_scapegoat_gen t h c (plug [fr] s) (faddr fr)
                  (rootp_plug1 _ _) Hrep Hnd Hbst Ht)
        as [(t' & h' & b & m & -> & Hrep' & Hb & Hm & Hex & Hrt & Hfi & Hla & Hsz & Hfr)
           |(Hbig & Hbad)].
      * left. exists t', h', (plug c b). split; [done|]. split_and!; try done.
        -- by eapply take_plug_sublist.
        -- by eapply take_plug_head.
        -- intros Hsmall. rewrite (nodes_plug c b), (nodes_plug c (plug [fr] s)).
           f_equal. f_equal. apply Hex.
           pose proof (weight_plug_le c (plug [fr] s)). lia.
      * right. split; [|done]. pose proof (weight_plug_le c (plug [fr] s)). lia.
    + destruct (IH (plug [fr] s) f t h (faddr fr) (rootp_plug1 _ _) Hrep Hnd Hbst Ht)
        as [(t' & h' & a' & -> & Hrest)|Hbad]; [simpl in Hf; lia|left|right; done].
      exists t', h', a'. done.
Qed.

Lemma scapegoat_loop_spec c s f t h tmp :
  rootp s = Some tmp →
  rep h None (plug c s) → NoDup (ids (plug c s)) → bst (plug c s) →
  root t = rootp (plug c s) →
  (length c < f)%nat → weight (plug c s) ≤ 2 ^ 24 →
  ∃ t' h' a',
    scapegoat_loop f t h tmp = Ok (t', h')
    ∧ rep h' None a' ∧ nodes a' = nodes (plug c s)
    ∧ root t' = rootp a' ∧ tfirst t' = tfirst t ∧ tlast t' = tlast t
    ∧ tree_size t' = tree_size t
    ∧ (∀ q, q ∉ ids (plug c s) → h' !! q = h !! q).
Proof.
  intros Hroot Hrep Hnd Hbst Ht Hf Hsmall.
  destruct (scapegoat_loop_gen c s f t h tmp Hroot Hrep Hnd Hbst Ht Hf)
    as [(t' & h' & a' & Hl & Hrep' & _ & _ & Hex & Hrest)|(Hbig & _)]; [|lia].
  exists t', h', a'. split; [done|]. split; [done|]. split; [by apply Hex|done].
Qed.

(** The search alone: what the loop rebuilds. *)
Lemma scapegoat_find_spec c : ∀ s f h tmp,
  rootp s = Some tmp →
  rep h None (plug c s) → NoDup (ids (plug c s)) →
  (length c < f)%nat →
  ∃ res, scapegoat_find f h tmp = Ok res
    ∧ match res with
      | None => ∀ t, scapegoat_loop f t h tmp = Ok (t, h)
      | Some (scn, n) =>
          ∃ c0 s0, plug c0 s0 = plug c s ∧ rootp s0 = Some scn ∧ n = weight s0
                   ∧ ∀ t, scapegoat_loop f t h tmp = rebuild_scapegoat t h scn n
      end.
Proof.
  induction c as [|fr c IH]; intros s f h tmp Hroot Hrep Hnd Hf.
  - destruct f as [|f]; [simpl in Hf; lia|]. cbn [plug] in *.
    destruct (rep_root_cell _ _ _ _ Hrep Hroot) as (n & Hn & Hpar).
    exists None. split.
    + cbn [scapegoat_find]. rewrite (load_Some _ _ _ Hn). bind_ok. by rewrite Hpar.
    + intros t. cbn [scapegoat_loop]. rewrite (load_Some _ _ _ Hn). bind_ok.
      by rewrite Hpar.
  - destruct f as [|f]; [simpl in Hf; lia|].
    pose proof Hrep as Hrep'. apply rep_plug in Hrep' as (Hs & Hc).
    destruct (rep_root_cell _ _ _ _ Hs Hroot) as (n & Hn & Hpar). cbn [cpar] in Hpar.
    rewrite plug_cons in Hrep, Hnd.
    pose proof Hrep as Hrep2. apply rep_plug in Hrep2 as (Hs2 & _).
    pose proof Hnd as Hnd2. apply NoDup_plug in Hnd2 as (Hnd2 & _).
    destruct (scapegoat_check_spec h _ (plug [fr] s) (faddr fr)
                (rootp_plug1 _ _) Hs2 Hnd2) as (bad & Hcheck).
    assert (∀ t, scapegoat_loop (S f) t h tmp
                 = if bad then rebuild_scapegoat t h (faddr fr) (weight (plug [fr] s))
                   else scapegoat_loop f t h (faddr fr)) as Hloop.
    { intros t. cbn [scapegoat_loop]. rewrite (load_Some _ _ _ Hn). bind_ok.
      rewrite Hpar, Hcheck. by bind_ok. }
    assert (scapegoat_find (S f) h tmp
            = if bad then Ok (Some (faddr fr, weight (plug [fr] s)))
              else scapegoat_find f h (faddr fr)) as ->.
    { cbn [scapegoat_find]. rewrite (load_Some _ _ _ Hn). bind_ok.
      rewrite Hpar, Hcheck. by bind_ok. }
    destruct bad.
    + exists (Some (faddr fr, weight (plug [fr] s))). split; [done|].
      exists c, (plug [fr] s). split_and!; try done.
      * by rewrite <- plug_cons.
      * apply rootp_plug1.
    + destruct (IH (plug [fr] s) f h (faddr fr) (rootp_plug1 _ _) Hrep Hnd)
        as (res & -> & Hres); [simpl in Hf; lia|].
      exists res. split; [done|]. destruct res as [[scn n0]|].
      * destruct Hres as (c0 & s0 & Hp & Hr0 & Hn0 & Hl).
        exists c0, s0. split_and!; try done.
        -- by rewrite plug_cons.
        -- intros t. rewrite Hloop. apply Hl.
      * intros t. rewrite Hloop. apply Hres.
Qed.

End Scapegoat.
End Scapegoat.

(** * Insertion *)

Module Insert.
Import DM852 Abs Basic Ctx Read Flatten Build Rebuild Order Scapegoat.

Section Insert.
Context {V : Type} `{!EqDecision V} `{!Inhabited V} `{!HAlpha}.
Implicit Types (h : gmap positive (@Node V)) (t : Tree) (a b l r s : @T V) (c : list (@frame V)) (v : V).
Implicit Types (es : list (loc * (Z * V))).

Lemma delete_fresh_Node h node k v :
  h !! node = Some (mkNode None None None k v) →
  delete_Node (fuel h) h (Some node) = Ok (delete node h).
Proof.
  intros Hn. unfold fuel. simpl. rewrite (load_Some _ _ _ Hn). simpl.
  rewrite delete_Node_null. simpl. by rewrite delete_Node_null.
Qed.

Lemma insert_walk_root t h a x :
  rep h None a → NoDup (ids a) → root t = rootp a →
  insert_walk (fuel h) h x (root t) None 0 true true
  = match (locate x a []).2 with
    | E => let c' := (locate x a []).1 in
           Ok (Fell (cpar None c') (Z.of_nat (length c'))
                 (forallb is_FL c') (forallb is_FR c'))
    | N _ p _ _ _ => Ok (Found p)
    end.
Proof.
  intros Hrep Hnd ->.
  apply (insert_walk_spec h None a [] x (fuel h) Hrep).
  pose proof (rep_fuel _ _ _ Hrep Hnd). lia.
Qed.

(** The key is already stored: its value is overwritten in place. *)
Lemma insert_found_core t h a x v c l p k v0 r :
  rep h None a → NoDup (ids a) → root t = rootp a →
  locate x a [] = (c, N l p k v0 r) →
  let h' := <[p := mkNode (cpar None c) (rootp l) (rootp r) k v]> h in
  insert t h x v = Ok ((Some p, bool_decide (v ≠ v0)), (t, h'))
  ∧ rep h' None (plug c (N l p k v r))
  ∧ k = x ∧ a = plug c (N l p k v0 r)
  ∧ h !! p = Some (mkNode (cpar None c) (rootp l) (rootp r) k v0).
Proof.
  intros Hrep Hnd Hroot Hloc h'.
  pose proof (locate_plug x a []) as Hplug. rewrite Hloc in Hplug.
  cbn [fst snd plug] in Hplug.
  pose proof (locate_found x a [] l p k v0 r) as Hk. rewrite Hloc in Hk.
  specialize (Hk eq_refl).
  assert (h !! p = Some (mkNode (cpar None c) (rootp l) (rootp r) k v0)) as Hp.
  { rewrite <- Hplug in Hrep. apply rep_plug in Hrep as (Hs & _). apply Hs. }
  split_and!; [| |done|done|done].
  - unfold insert, new_Node.
    set (node := fresh (dom h)). set (h0 := <[node := _]> h).
    assert (h !! node = None) as Hnode by apply fresh_None.
    assert (rep h0 None a) as Hrep0.
    { apply rep_insert_out; [|done]. by eapply rep_not_fresh. }
    rewrite (insert_walk_root t h0 a x Hrep0 Hnd Hroot), Hloc. cbn [snd]. bind_ok.
    assert (p ≠ node) as Hpn by (intros ->; congruence).
    assert (h0 !! p = Some (mkNode (cpar None c) (rootp l) (rootp r) k v0)) as Hp0.
    { unfold h0. by rewrite lookup_insert_ne. }
    rewrite (load_Some _ _ _ Hp0). bind_ok. cbn [nvalue].
    destruct (decide (v ≠ v0)) as [Hne|Heq].
    + rewrite (upd_Some _ _ _ _ Hp0). bind_ok.
      rewrite (delete_fresh_Node _ node x v).
      2:{ rewrite lookup_insert_ne by done. apply lookup_insert_eq. }
      bind_ok. rewrite bool_decide_eq_true_2 by done.
      do 3 f_equal. unfold h0, h', set_value. simpl.
      rewrite (insert_insert_ne h p node) by exact Hpn.
      apply delete_insert_id. by rewrite lookup_insert_ne.
    + apply dec_stable in Heq. subst v0. bind_ok.
      rewrite (delete_fresh_Node _ node x v) by apply lookup_insert_eq.
      bind_ok. rewrite bool_decide_eq_false_2 by (intros Hne; by apply Hne).
      do 3 f_equal. unfold h0, h'. rewrite delete_insert_id by done.
      by rewrite insert_id.
  - subst a. pose proof Hrep as Hrep'. apply rep_plug in Hrep' as (Hs & Hc).
    pose proof Hnd as Hnd'. apply NoDup_plug in Hnd' as (Hnds & Hndc & Hdisj).
    destruct Hs as (_ & Hl & Hr).
    rewrite ids_N in Hnds. apply NoDup_app in Hnds as (Hndl & Hlp & Hndr).
    apply NoDup_cons in Hndr as (Hpr & Hndr).
    apply rep_plug. split.
    + split_and!; [apply lookup_insert_eq|..]; apply rep_insert_out; try done.
      intros Hin. apply (Hlp _ Hin). set_solver.
    + apply repc_insert_out; [|done]. apply Hdisj. rewrite ids_N. set_solver.
Qed.

Lemma ids_same_value c l p k (v v0 : V) r :
  ids (plug c (N l p k v r)) = ids (plug c (N l p k v0 r)).
Proof. by rewrite !ids_plug, !ids_N. Qed.

Lemma insert_found t h a x v c l p k v0 r :
  holds t h a → locate x a [] = (c, N l p k v0 r) →
  let h' := <[p := mkNode (cpar None c) (rootp l) (rootp r) k v]> h in
  insert t h x v = Ok ((Some p, bool_decide (v ≠ v0)), (t, h'))
  ∧ holds t h' (plug c (N l p k v r))
  ∧ k = x ∧ a = plug c (N l p k v0 r)
  ∧ h !! p = Some (mkNode (cpar None c) (rootp l) (rootp r) k v0).
Proof.
  intros [Hrep Hnd Hbst Hroot Hfirst Hlast Hsize] Hloc h'.
  destruct (insert_found_core t h a x v c l p k v0 r Hrep Hnd Hroot Hloc)
    as (Hi & Hrep' & Hk & Ha & Hp).
  split_and!; try done. subst a.
  pose proof (ids_same_value c l p k v v0 r) as Hidp.
  split; try done.
  - by rewrite Hidp.
  - unfold bst in *. rewrite keys_plug, keys_N in *. done.
  - rewrite Hroot, !rootp_plug. done.
  - by rewrite Hidp.
  - by rewrite Hidp.
  - rewrite Hsize, !weight_length, Hidp. done.
Qed.

Lemma insert_found_links t h a x v c l p k v0 r :
  links t h a → locate x a [] = (c, N l p k v0 r) →
  let h' := <[p := mkNode (cpar None c) (rootp l) (rootp r) k v]> h in
  insert t h x v = Ok ((Some p, bool_decide (v ≠ v0)), (t, h'))
  ∧ links t h' (plug c (N l p k v r))
  ∧ k = x ∧ a = plug c (N l p k v0 r)
  ∧ h !! p = Some (mkNode (cpar None c) (rootp l) (rootp r) k v0).
Proof.
  intros [Hrep Hnd Hbst Hroot Hfirst Hsize] Hloc h'.
  destruct (insert_found_core t h a x v c l p k v0 r Hrep Hnd Hroot Hloc)
    as (Hi & Hrep' & Hk & Ha & Hp).
  split_and!; try done. subst a.
  pose proof (ids_same_value c l p k v v0 r) as Hidp.
  split; try done.
  - by rewrite Hidp.
  - unfold bst in *. rewrite keys_plug, keys_N in *. done.
  - rewrite Hroot, !rootp_plug. done.
  - by rewrite Hidp.
  - rewrite !weight_length, Hidp, <- weight_length. done.
Qed.

Lemma length_cids c : (length c ≤ length (cids c))%nat.
Proof.
  induction c as [|[p k v r|l p k v] c IH]; [done|..].
  - rewrite cids_cons_FL. simpl. rewrite length_app. lia.
  - rewrite cids_cons_FR. simpl. rewrite length_app. lia.
Qed.

(** Two trees with the same nodes in order are interchangeable in the
    invariant. *)
Lemma holds_same_nodes t t' h' a a' :
  nodes a' = nodes a → rep h' None a' →
  NoDup (ids a) → bst a →
  root t' = rootp a' → tfirst t' = tfirst t → tlast t' = tlast t →
  tree_size t' = tree_size t →
  tfirst t = head (ids a) → tlast t = last (ids a) → tree_size t = weight a →
  holds t' h' a'.
Proof.
  intros Hn Hrep Hnd Hbst Hr Hf Hl Hs Hf' Hl' Hs'.
  assert (ids a' = ids a) as Hi by (unfold ids; by rewrite Hn).
  split; try done.
  - by rewrite Hi.
  - unfold bst, keys, elems in *. by rewrite Hn.
  - by rewrite Hf, Hf', Hi.
  - by rewrite Hl, Hl', Hi.
  - by rewrite Hs, Hs', !weight_length, Hi.
Qed.

Lemma holds_links t h a : holds t h a → links t h a.
Proof. intros [? ? ? ? ? ? Hs]. split; try done. lia. Qed.

(** The key is new: the search and the linking of the leaf, up to the
    self-balancing part of [insert]. *)
Lemma insert_link_spec t h a x v c :
  rep h None a → NoDup (ids a) → bst a → root t = rootp a →
  locate x a [] = (c, E) →
  let node := fresh (dom h) in
  let leaf := N E node x v E in
  ∃ t5 h2,
    insert_link t h x v = Ok (Some ((node, Z.of_nat (length c)), (t5, h2)))
    ∧ insert t h x v
      = (if (h_alpha_of (tree_size t5) <? Z.of_nat (length c)) && (2 <? tree_size t5)
         then res ← scapegoat_loop (fuel h2) t5 h2 node; Ok ((Some node, true), res)
         else Ok ((Some node, true), (t5, h2)))
    ∧ h !! node = None
    ∧ rep h2 None (plug c leaf) ∧ NoDup (ids (plug c leaf)) ∧ bst (plug c leaf)
    ∧ root t5 = rootp (plug c leaf)
    ∧ tfirst t5 = (if forallb is_FL c then Some node else tfirst t)
    ∧ tlast t5 = (if forallb is_FR c then Some node else tlast t)
    ∧ tree_size t5 = tree_size t + 1
    ∧ max_size t5 = Z.max (max_size t) (tree_size t + 1)
    ∧ nodes a = cleft c ++ cright c
    ∧ nodes (plug c leaf) = cleft c ++ (node, (x, v)) :: cright c
    ∧ (∀ q, q ∉ ids a → q ≠ node → h2 !! q = h !! q)
    ∧ (length c < fuel h2)%nat.
Proof.
  intros Hrep Hnd Hbst Hroot Hloc node leaf.
  pose proof (locate_plug x a []) as Hplug. rewrite Hloc in Hplug.
  cbn [fst snd plug] in Hplug.
  pose proof (locate_fits x a [] (Forall_nil_2 _)) as Hfits. rewrite Hloc in Hfits.
  cbn [fst] in Hfits.
  assert (nodes a = cleft c ++ cright c) as Hna by (by rewrite <- Hplug, nodes_plug).
  set (h0 := <[node := mkNode None None None x v]> h).
  assert (h !! node = None) as Hnode by apply fresh_None.
  assert (node ∉ ids a) as Hnode_a by by eapply rep_not_fresh.
  assert (rep h0 None a) as Hrep0 by by apply rep_insert_out.
  pose proof (insert_walk_root t h0 a x Hrep0 Hnd Hroot) as Hwalk.
  rewrite Hloc in Hwalk. cbn [fst snd] in Hwalk.
  assert (h0 !! node = Some (mkNode None None None x v)) as Hn0 by apply lookup_insert_eq.
  set (h1 := <[node := set_parent (cpar None c) (mkNode None None None x v)]> h0).
  assert (upd h0 node (set_parent (cpar None c)) = Ok h1) as Hupd
    by (by rewrite (upd_Some _ _ _ _ Hn0)).
  assert (node ∉ cids c) as Hnode_c.
  { intros Hin. apply Hnode_a. rewrite <- Hplug, ids_plug_perm. set_solver. }
  assert (NoDup (cids c)) as Hndc.
  { rewrite <- Hplug in Hnd. by apply NoDup_plug in Hnd as (_ & ? & _). }
  assert (repc h1 None c None) as Hc1.
  { rewrite <- Hplug in Hrep. apply rep_plug in Hrep as (_ & Hc).
    unfold h1, h0. apply repc_insert_out; [done|]. by apply repc_insert_out. }
  (* linking the leaf below its parent *)
  assert (∃ t1 h2,
    match cpar None c with
    | None => Ok (set_root (Some node) t, h1)
    | Some tl =>
        tn ← load h1 tl;
        h' ← (if comp x (nkey tn) then upd h1 tl (set_left (Some node))
              else upd h1 tl (set_right (Some node)));
        Ok (t, h')
    end = Ok (t1, h2)
    ∧ rep h2 None (plug c leaf) ∧ root t1 = rootp (plug c leaf)
    ∧ tfirst t1 = tfirst t ∧ tlast t1 = tlast t ∧ tree_size t1 = tree_size t
    ∧ max_size t1 = max_size t
    ∧ (∀ q, q ≠ node → q ∉ cids c → h2 !! q = h !! q))
    as (t1 & h2 & Hlink & Hrep2 & Hroot1 & Hfirst1 & Hlast1 & Hsize1 & Hmax1 & Hfr2).
  { destruct c as [|f c]; cbn [cpar].
    - exists (set_root (Some node) t), h1. split; [done|]. split_and!; try done.
      + simpl. split_and!; try done. apply lookup_insert_eq.
      + intros q Hq _. unfold h1, h0. by rewrite !lookup_insert_ne.
    - destruct (repc_head_cell _ _ _ _ _ Hc1) as (pn & Hpn & Hpk & Hpp & Hph).
      rewrite (load_Some _ _ _ Hpn). bind_ok.
      apply Forall_cons in Hfits as (Hfit & _).
      assert ((if comp x (nkey pn)
               then upd h1 (faddr f) (set_left (Some node))
               else upd h1 (faddr f) (set_right (Some node)))
              = Ok (<[faddr f := if is_FL f then set_left (Some node) pn
                                 else set_right (Some node) pn]> h1)) as ->.
      { rewrite Hpk. unfold comp. destruct f; simpl in *.
        - assert ((x <? k) = true) as -> by lia. by apply upd_Some.
        - assert ((x <? k) = false) as -> by lia. by apply upd_Some. }
      bind_ok. eexists _, _. split; [done|]. split_and!; try done.
      + apply rep_plug. split.
        * assert (faddr f ∈ cids (f :: c)) as Hf_in.
          { destruct f; [rewrite cids_cons_FL|rewrite cids_cons_FR]; set_solver. }
          unfold leaf. cbn [rep rootp cpar]. split_and!; [|done|done].
          rewrite lookup_insert_ne; [apply lookup_insert_eq|].
          intros Heq. apply Hnode_c. by rewrite <- Heq.
        * by eapply repc_set_hole.
      + rewrite Hroot, <- Hplug, !rootp_plug. apply croot_nonempty.
      + intros q Hq Hqc.
        assert (faddr f ∈ cids (f :: c)) as Hf_in.
        { destruct f; [rewrite cids_cons_FL|rewrite cids_cons_FR]; set_solver. }
        rewrite lookup_insert_ne by (intros Heq; apply Hqc; by rewrite <- Heq).
        unfold h1, h0. by rewrite !lookup_insert_ne. }
  set (t2 := set_tree_size (tree_size t1 + 1) t1).
  set (t3 := set_max_size (Z.max (max_size t2) (tree_size t2)) t2).
  set (t4 := if forallb is_FL c then set_first (Some node) t3 else t3).
  set (t5 := if forallb is_FR c then set_last (Some node) t4 else t4).
  assert (nodes (plug c leaf) = cleft c ++ (node, (x, v)) :: cright c) as Hn5
    by by rewrite nodes_plug.
  assert (NoDup (ids (plug c leaf))) as Hnd5.
  { rewrite ids_plug_perm. simpl. apply NoDup_cons. done. }
  exists t5, h2. split_and!; try done.
  - unfold insert_link, new_Node. fold node h0. rewrite Hwalk. bind_ok.
    rewrite Hupd. bind_ok. rewrite Hlink. by bind_ok.
  - unfold insert, new_Node. fold node h0. rewrite Hwalk. bind_ok.
    rewrite Hupd. bind_ok. rewrite Hlink. by bind_ok.
  - apply bst_plug. simpl.
    rewrite <- Hplug in Hbst. apply bst_plug in Hbst. simpl in Hbst.
    destruct (fits_bounds c x Hfits Hbst) as (Hlo & Hhi).
    by apply sorted_insert.
  - unfold t5, t4. by destruct (forallb is_FR c), (forallb is_FL c).
  - unfold t5, t4. destruct (forallb is_FR c), (forallb is_FL c); simpl; done.
  - unfold t5, t4. destruct (forallb is_FR c), (forallb is_FL c); simpl; done.
  - unfold t5, t4. destruct (forallb is_FR c), (forallb is_FL c); simpl; lia.
  - unfold t5, t4. destruct (forallb is_FR c), (forallb is_FL c); simpl; lia.
  - intros q Hq Hqn. apply Hfr2; [done|]. intros Hin. apply Hq.
    rewrite <- Hplug, ids_plug_perm. set_solver.
  - pose proof (rep_fuel _ _ _ Hrep2 Hnd5) as Hlt.
    pose proof (length_cids c) as Hlc.
    rewrite ids_plug_perm, length_app in Hlt. lia.
Qed.

(** [first] and [last] of the tree with the new leaf. *)
(** On a stored key the first half of [insert] reports that nothing was
    linked. *)
Lemma insert_link_found t h a x v c l p k v0 r :
  rep h None a → NoDup (ids a) → root t = rootp a →
  locate x a [] = (c, N l p k v0 r) →
  insert_link t h x v = Ok None.
Proof.
  intros Hrep Hnd Hroot Hloc. unfold insert_link, new_Node.
  set (node := fresh (dom h)). set (h0 := <[node := _]> h).
  assert (rep h0 None a) as Hrep0.
  { apply rep_insert_out; [|done]. by eapply rep_not_fresh. }
  rewrite (insert_walk_root t h0 a x Hrep0 Hnd Hroot), Hloc. cbn [snd]. by bind_ok.
Qed.

Lemma first_with_leaf c (node : loc) (fst0 : ptr) :
  fst0 = head ((cleft c).*1 ++ (cright c).*1) →
  (if forallb is_FL c then Some node else fst0)
  = head ((cleft c).*1 ++ node :: (cright c).*1).
Proof.
  intros ->. destruct (forallb is_FL c) eqn:Efl.
  - apply forallb_is_FL in Efl. by rewrite Efl.
  - apply forallb_is_FL_false in Efl. rewrite !head_app. by destruct (cleft c).
Qed.

Lemma last_with_leaf c (node : loc) (lst0 : ptr) :
  lst0 = last ((cleft c).*1 ++ (cright c).*1) →
  (if forallb is_FR c then Some node else lst0)
  = last ((cleft c).*1 ++ node :: (cright c).*1).
Proof.
  intros ->. destruct (forallb is_FR c) eqn:Efr.
  - apply forallb_is_FR in Efr. rewrite Efr. simpl. by rewrite last_snoc.
  - apply forallb_is_FR_false in Efr.
    rewrite !last_app, last_cons.
    destruct (cright c) as [|e cr]; [done|]. simpl.
    destruct (last (e.1 :: _)) eqn:El; [done|]. by apply last_None in El.
Qed.

(** The key is new: a leaf is attached where the search fell off the tree,
    and the path to it may be rebuilt.  Either [insert] returns, the tree
    being made of nodes of the old one and possibly the new node (of all of
    them when the old tree has fewer than [2^24] nodes); or the tree has
    [2^24] nodes or more and [build] runs off the end of its chain. *)
Lemma insert_fell_gen t h a x v c :
  links t h a → locate x a [] = (c, E) →
  (∃ t' h' a' p,
    insert t h x v = Ok ((Some p, true), (t', h'))
    ∧ links t' h' a'
    ∧ h !! p = None
    ∧ nodes a = cleft c ++ cright c
    ∧ nodes a' `sublist_of` cleft c ++ (p, (x, v)) :: cright c
    ∧ (∀ q, q ∉ ids a → q ≠ p → h' !! q = h !! q)
    ∧ (holds t h a → weight a < 2 ^ 24 →
       holds t' h' a' ∧ nodes a' = cleft c ++ (p, (x, v)) :: cright c))
  ∨ (2 ^ 24 ≤ weight a ∧ ∀ res, insert t h x v ≠ Ok res).
Proof.
  intros [Hrep Hnd Hbst Hroot Hfirst Hsize] Hloc.
  destruct (insert_link_spec t h a x v c Hrep Hnd Hbst Hroot Hloc)
    as (t5 & h2 & _ & Hins & Hnode & Hrep5 & Hnd5 & Hbst5 & Hroot5 & Hfirst5 & Hlast5
        & Hsize5 & _ & Hna & Hn5 & Hfr2 & Hfuel).
  set (node := fresh (dom h)) in *. set (leaf := N E node x v E) in *.
  assert (ids (plug c leaf) = (cleft c).*1 ++ node :: (cright c).*1) as Hi5.
  { unfold ids. by rewrite Hn5, fmap_app. }
  assert (ids a = (cleft c).*1 ++ (cright c).*1) as Hia.
  { unfold ids. by rewrite Hna, fmap_app. }
  assert (weight (plug c leaf) = weight a + 1) as Hw5.
  { rewrite !weight_length, Hi5, Hia, !length_app. simpl. lia. }
  assert (tfirst t5 = head (ids (plug c leaf))) as Hf5.
  { rewrite Hfirst5, Hi5. apply first_with_leaf. by rewrite <- Hia. }
  assert (links t5 h2 (plug c leaf)) as Hl5 by (split; try done; lia).
  assert (holds t h a → holds t5 h2 (plug c leaf)) as Hh5.
  { intros [_ _ _ _ _ Hlast Hsz]. split; try done.
    - rewrite Hlast5, Hi5. apply last_with_leaf. by rewrite <- Hia.
    - lia. }
  rewrite Hins.
  destruct ((h_alpha_of (tree_size t5) <? Z.of_nat (length c)) && (2 <? tree_size t5)).
  - destruct (scapegoat_loop_gen c leaf (fuel h2) t5 h2 node eq_refl
                Hrep5 Hnd5 Hbst5 Hroot5 Hfuel)
      as [(t' & h' & a' & -> & Hrep' & Hsub & Hhd & Hex & Hroot' & Hfirst' & Hlast'
           & Hsize' & Hfr')|(Hbig & Hbad)].
    + left. bind_ok. exists t', h', a', node. split; [done|]. split_and!; try done.
      * split; try done.
        -- eapply sublist_NoDup; [exact Hnd5|]. by apply ids_sublist.
        -- by eapply bst_sublist.
        -- by rewrite Hfirst', Hf5.
        -- pose proof (weight_sublist _ _ Hsub). lia.
      * by rewrite <- Hn5.
      * intros q Hq Hqn. rewrite Hfr'.
        -- by apply Hfr2.
        -- rewrite Hi5. rewrite Hia in Hq. set_solver.
      * intros Hh Hsmall. specialize (Hh5 Hh).
        destruct Hh5 as [_ _ _ _ Hfirst5' Hlast5' Hsize5'].
        assert (nodes a' = nodes (plug c leaf)) as Hn' by (apply Hex; lia).
        split; [|by rewrite Hn'].
        by eapply (holds_same_nodes t5 t' h' (plug c leaf) a').
    + right. split; [lia|]. intros res Hres.
      apply bind_Ok_inv in Hres as (r1 & Hr1 & _). by apply (Hbad r1).
  - left. exists t5, h2, (plug c leaf), node. split_and!; try done.
    + by rewrite Hn5.
    + intros Hh _. split; [by apply Hh5|done].
Qed.

(** Fewer than [2^24] nodes: the leaf is attached and every node kept. *)
Lemma insert_fell_frame t h a x v c :
  holds t h a → weight a < 2 ^ 24 → locate x a [] = (c, E) →
  ∃ t' h' a' p,
    insert t h x v = Ok ((Some p, true), (t', h'))
    ∧ holds t' h' a'
    ∧ h !! p = None
    ∧ nodes a = cleft c ++ cright c
    ∧ nodes a' = cleft c ++ (p, (x, v)) :: cright c
    ∧ (∀ q, q ∉ ids a → q ≠ p → h' !! q = h !! q).
Proof.
  intros Hh Hsmall Hloc.
  destruct (insert_fell_gen t h a x v c (holds_links _ _ _ Hh) Hloc)
    as [(t' & h' & a' & p & Hi & _ & Hp & Hna & _ & Hfr & Hex)|(Hbig & _)]; [|lia].
  destruct (Hex Hh Hsmall) as (Hh' & Hna').
  exists t', h', a', p. done.
Qed.

Lemma insert_fell t h a x v c :
  holds t h a → weight a < 2 ^ 24 → locate x a [] = (c, E) →
  ∃ t' h' a' p,
    insert t h x v = Ok ((Some p, true), (t', h'))
    ∧ holds t' h' a'
    ∧ h !! p = None
    ∧ nodes a = cleft c ++ cright c
    ∧ nodes a' = cleft c ++ (p, (x, v)) :: cright c.
Proof.
  intros Hh Hsmall Hloc.
  destruct (insert_fell_frame t h a x v c Hh Hsmall Hloc)
    as (t' & h' & a' & p & Hi & Hh' & Hp & Hna & Hna' & _).
  exists t', h', a', p. done.
Qed.

End Insert.
End Insert.

(** * Replacing a subtree, successor and predecessor *)

Module Shift.
Import DM852 Abs Basic Ctx Read Flatten Build Rebuild Order Scapegoat.

Section Shift.
Context {V : Type}.
Implicit Types (h : gmap positive (@Node V)) (t : Tree) (a b l r s : @T V) (c : list (@frame V)).
Implicit Types (es : list (loc * (Z * V))).

Lemma faddr_in_cids f c : faddr f ∈ cids (f :: c).
Proof. destruct f; [rewrite cids_cons_FL|rewrite cids_cons_FR]; set_solver. Qed.

Lemma cids_tail f c q : q ∈ cids c → q ∈ cids (f :: c).
Proof. destruct f; [rewrite cids_cons_FL|rewrite cids_cons_FR]; set_solver. Qed.

Lemma frame_left_in_cids l p k (v : V) c q : q ∈ ids l → q ∈ cids (FR l p k v :: c).
Proof. rewrite cids_cons_FR. set_solver. Qed.

(** A subtree whose cells are unchanged but for the parent pointer of its
    root. *)
Lemma rep_reparent h h' par par' s :
  rep h par s → NoDup (ids s) →
  (∀ q, q ∈ ids s → Some q ≠ rootp s → h' !! q = h !! q) →
  (∀ q n, rootp s = Some q → h !! q = Some n → h' !! q = Some (set_parent par' n)) →
  rep h' par' s.
Proof.
  destruct s as [|l p k v r]; [done|]. intros (Hp & Hl & Hr) Hnd Hfr Hroot.
  rewrite ids_N in Hnd, Hfr.
  apply NoDup_app in Hnd as (Hndl & Hlp & Hnd).
  apply NoDup_cons in Hnd as (Hpr & Hndr).
  split_and!.
  - by rewrite (Hroot p _ eq_refl Hp).
  - eapply rep_agree; [|exact Hl]. intros q Hq. apply Hfr; [set_solver|].
    simpl. intros [= ->]. apply (Hlp _ Hq). set_solver.
  - eapply rep_agree; [|exact Hr]. intros q Hq. apply Hfr; [set_solver|].
    simpl. intros [= ->]. done.
Qed.

(** [subtree_shift u v]: the hole of the context of [u] receives [v], and
    [v], if any, the parent of [u]. *)
Lemma subtree_shift_spec t h top c u un v :
  h !! u = Some un → nparent un = cpar top c →
  repc h top c (Some u) →
  (c = [] → top = None) →
  NoDup (cids c) → u ∉ cids c →
  (∀ vl, v = Some vl → is_Some (h !! vl) ∧ (vl ∉ cids c) ∧ vl ≠ u) →
  ∃ h',
    subtree_shift t h u v = Ok (match c with [] => set_root v t | _ => t end, h')
    ∧ repc h' top c v
    ∧ (∀ vl vn, v = Some vl → h !! vl = Some vn →
         h' !! vl = Some (set_parent (cpar top c) vn))
    ∧ (∀ q, Some q ≠ cpar top c → Some q ≠ v → h' !! q = h !! q)
    ∧ dom h' = dom h.
Proof.
  intros Hu Hpar Hc Htop Hnd Huc Hv.
  unfold subtree_shift. rewrite (load_Some _ _ _ Hu). bind_ok. rewrite Hpar.
  (* the first half: the pointer held by the parent, or the root *)
  assert (∃ h1,
    match cpar top c with
    | Some p =>
        pn ← load h p;
        h' ← (if bool_decide (Some u = nleft pn) then upd h p (set_left v)
              else upd h p (set_right v));
        Ok (t, h')
    | None => Ok (set_root v t, h)
    end = Ok (match c with [] => set_root v t | _ => t end, h1)
    ∧ repc h1 top c v
    ∧ (∀ q, Some q ≠ cpar top c → h1 !! q = h !! q)
    ∧ dom h1 = dom h) as (h1 & -> & Hc1 & Hfr1 & Hdom1).
  { destruct c as [|f c].
    - rewrite (Htop eq_refl). cbn [cpar]. exists h. done.
    - cbn [cpar]. destruct (repc_head_cell _ _ _ _ _ Hc) as (pn & Hpn & Hpk & Hpp & Hph).
      rewrite (load_Some _ _ _ Hpn). bind_ok.
      assert ((if bool_decide (Some u = nleft pn) then upd h (faddr f) (set_left v)
               else upd h (faddr f) (set_right v))
              = Ok (<[faddr f := if is_FL f then set_left v pn
                                 else set_right v pn]> h)) as ->.
      { destruct f as [p k v' r|l p k v']; simpl in *.
        - rewrite Hph, bool_decide_eq_true_2 by done. by apply upd_Some.
        - destruct Hc as (Hp & Hl & _). rewrite Hpn in Hp. injection Hp as ->.
          simpl. rewrite bool_decide_eq_false_2; [by apply upd_Some|].
          intros Heq. symmetry in Heq. apply rootp_in in Heq.
          apply Huc. by apply frame_left_in_cids. }
      bind_ok. eexists. split; [done|]. split_and!.
      + by eapply repc_set_hole.
      + intros q Hq. rewrite lookup_insert_ne; [done|]. congruence.
      + by rewrite (dom_insert_present _ _ _ _ Hpn). }
  bind_ok. destruct v as [vl|].
  - destruct (Hv vl eq_refl) as ([vn Hvn] & Hvc & Hvu).
    assert (Some vl ≠ cpar top c) as Hvp.
    { destruct c as [|f c]; cbn [cpar].
      - by rewrite (Htop eq_refl).
      - intros [= ->]. apply Hvc, faddr_in_cids. }
    assert (Some u ≠ cpar top c) as Hup.
    { destruct c as [|f c]; cbn [cpar].
      - by rewrite (Htop eq_refl).
      - intros [= ->]. apply Huc, faddr_in_cids. }
    rewrite (load_Some h1 u un) by (by rewrite Hfr1).
    bind_ok. rewrite Hpar.
    rewrite (upd_Some h1 vl vn) by (by rewrite Hfr1).
    bind_ok. eexists. split; [done|]. split_and!.
    + by apply repc_insert_out.
    + intros vl' vn' [= <-] Hvn'. rewrite Hvn in Hvn'. injection Hvn' as <-.
      apply lookup_insert_eq.
    + intros q Hq1 Hq2. rewrite lookup_insert_ne by congruence. by apply Hfr1.
    + rewrite dom_insert_present with (n := vn); [done|]. by rewrite Hfr1.
  - exists h1. split; [done|]. split_and!; try done.
    intros q Hq _. by apply Hfr1.
Qed.

(** ** The leftmost node of a subtree *)

Lemma plug_app c1 c2 s : plug (c1 ++ c2) s = plug c2 (plug c1 s).
Proof.
  revert s. induction c1 as [|[] c1 IH]; intros s; simpl; [done|..]; by rewrite IH.
Qed.

Lemma cleft_app c1 c2 : cleft (c1 ++ c2) = cleft c2 ++ cleft c1.
Proof.
  induction c1 as [|[] c1 IH]; simpl; [by rewrite app_nil_r|done|].
  by rewrite IH, <- app_assoc.
Qed.

Lemma cright_app c1 c2 : cright (c1 ++ c2) = cright c1 ++ cright c2.
Proof.
  induction c1 as [|[] c1 IH]; simpl; [done| |done].
  by rewrite IH, <- app_assoc.
Qed.

Lemma min_decomp r :
  r ≠ E →
  ∃ cy y ky vy yr, r = plug cy (N E y ky vy yr) ∧ cleft cy = [].
Proof.
  induction r as [|l IHl p k v r _]; [done|]. intros _.
  destruct l as [|ll lp lk lv lr].
  - exists [], p, k, v, r. done.
  - destruct IHl as (cy & y & ky & vy & yr & Heq & Hcl); [done|].
    exists (cy ++ [FL p k v r]), y, ky, vy, yr. split.
    + by rewrite plug_app, <- Heq.
    + by rewrite cleft_app, Hcl.
Qed.

Lemma max_decomp l :
  l ≠ E →
  ∃ cy y ky vy yl, l = plug cy (N yl y ky vy E) ∧ cright cy = [].
Proof.
  induction l as [|l _ p k v r IHr]; [done|]. intros _.
  destruct r as [|rl rp rk rv rr].
  - exists [], p, k, v, l. done.
  - destruct IHr as (cy & y & ky & vy & yl & Heq & Hcr); [done|].
    exists (cy ++ [FR l p k v]), y, ky, vy, yl. split.
    + by rewrite plug_app, <- Heq.
    + by rewrite cright_app, Hcr.
Qed.

(** [subtree_shift] with a tree [s] in the role of [v]. *)
Lemma shift_tree t h top c u un s par0 :
  h !! u = Some un → nparent un = cpar top c →
  repc h top c (Some u) →
  (c = [] → top = None) →
  NoDup (cids c) → u ∉ cids c →
  rep h par0 s → NoDup (ids s) → (∀ q, q ∈ ids s → q ∉ cids c) → u ∉ ids s →
  ∃ h',
    subtree_shift t h u (rootp s)
      = Ok (match c with [] => set_root (rootp s) t | _ => t end, h')
    ∧ repc h' top c (rootp s)
    ∧ rep h' (cpar top c) s
    ∧ (∀ q, q ∉ cids c → q ∉ ids s → h' !! q = h !! q)
    ∧ dom h' = dom h.
Proof.
  intros Hu Hpar Hc Htop Hndc Huc Hs Hnds Hdisj Hus.
  destruct (subtree_shift_spec t h top c u un (rootp s) Hu Hpar Hc Htop Hndc Huc)
    as (h' & Heq & Hc' & Hv' & Hfr' & Hdom').
  { intros vl Hvl. apply rootp_in in Hvl as Hin. split_and!.
    - by eapply rep_in_dom.
    - by apply Hdisj.
    - by intros ->. }
  exists h'. split; [done|]. split_and!; try done.
  - eapply rep_reparent; [exact Hs|done|..].
    + intros q Hq Hqr. apply Hfr'; [|done].
      destruct c as [|f c]; cbn [cpar].
      * by rewrite (Htop eq_refl).
      * intros [= ->]. apply (Hdisj _ Hq), faddr_in_cids.
    + intros q n Hq Hn. by eapply Hv'.
  - intros q Hqc Hqs. apply Hfr'.
    + destruct c as [|f c]; cbn [cpar].
      * by rewrite (Htop eq_refl).
      * intros [= ->]. apply Hqc, faddr_in_cids.
    + intros Hq. symmetry in Hq. by apply rootp_in in Hq.
Qed.

(** ** Successor and predecessor where [erase] calls them *)

Lemma next_right h p n r :
  h !! p = Some n → nright n = rootp r → r ≠ E →
  rep h (Some p) r → NoDup (ids r) →
  next h p = Ok (head (ids r)).
Proof.
  intros Hp Hr Hne Hrep Hnd. unfold next. rewrite (load_Some _ _ _ Hp). bind_ok.
  rewrite Hr. destruct r as [|rl rp rk rv rr]; [done|]. cbn [rootp].
  destruct (descend_left_spec h (Some p) (N rl rp rk rv rr) rp (fuel h) Hrep eq_refl)
    as (m & Hm & ->).
  { pose proof (rep_fuel _ _ _ Hrep Hnd). lia. }
  bind_ok. by rewrite Hm.
Qed.

Lemma prev_left h p n l :
  h !! p = Some n → nleft n = rootp l → l ≠ E →
  rep h (Some p) l → NoDup (ids l) →
  prev h p = Ok (last (ids l)).
Proof.
  intros Hp Hl Hne Hrep Hnd. unfold prev. rewrite (load_Some _ _ _ Hp). bind_ok.
  rewrite Hl. destruct l as [|ll lp lk lv lr]; [done|]. cbn [rootp].
  destruct (descend_right_spec h (Some p) (N ll lp lk lv lr) lp (fuel h) Hrep eq_refl)
    as (m & Hm & ->).
  { pose proof (rep_fuel _ _ _ Hrep Hnd). lia. }
  bind_ok. by rewrite Hm.
Qed.

(** The leftmost node without right child: its successor is its parent. *)
Lemma next_up_first h c p n :
  h !! p = Some n → nright n = None → nparent n = cpar None c →
  repc h None c (Some p) → cleft c = [] → Forall (fits (nkey n)) c →
  next h p = Ok (head (cright c).*1).
Proof.
  intros Hp Hr Hpar Hc Hcl Hfit. unfold next. rewrite (load_Some _ _ _ Hp). bind_ok.
  rewrite Hr, Hpar. destruct c as [|[pp kp vp rp|lp pp kp vp] c]; [done| |].
  - cbn [cpar faddr]. destruct Hc as (Hpp & _). rewrite (load_Some _ _ _ Hpp). bind_ok.
    apply Forall_cons in Hfit as (Hfit & _). simpl in Hfit. unfold comp. simpl.
    by assert ((nkey n <? kp) = true) as -> by lia.
  - simpl in Hcl. apply app_eq_nil in Hcl as (_ & Hcl).
    apply app_eq_nil in Hcl as (_ & Hcl). discriminate.
Qed.

(** The rightmost node without left child: its predecessor is its parent. *)
Lemma prev_up_last h c p n :
  h !! p = Some n → nleft n = None → nparent n = cpar None c →
  repc h None c (Some p) → cright c = [] → Forall (fits (nkey n)) c →
  prev h p = Ok (last (cleft c).*1).
Proof.
  intros Hp Hl Hpar Hc Hcr Hfit. unfold prev. rewrite (load_Some _ _ _ Hp). bind_ok.
  rewrite Hl, Hpar. destruct c as [|[pp kp vp rp|lp pp kp vp] c]; [done| |].
  - simpl in Hcr. discriminate.
  - cbn [cpar faddr]. destruct Hc as (Hpp & _). rewrite (load_Some _ _ _ Hpp). bind_ok.
    apply Forall_cons in Hfit as (Hfit & _). simpl in Hfit. unfold comp. simpl.
    assert ((kp <? nkey n) = true) as -> by lia.
    rewrite !fmap_app. simpl. by rewrite app_assoc, last_snoc.
Qed.

End Shift.
End Shift.

(** * Unlinking a node *)

Module Unlink.
Import DM852 Abs Basic Ctx Read Flatten Build Rebuild Order Scapegoat Shift.

Section Unlink.
Context {V : Type}.
Implicit Types (h : gmap positive (@Node V)) (t : Tree) (a b l r s : @T V) (c : list (@frame V)).
Implicit Types (es : list (loc * (Z * V))).

Lemma NoDup_node c l p k (v : V) r :
  NoDup (ids (plug c (N l p k v r))) →
  NoDup (ids l) ∧ NoDup (ids r) ∧ NoDup (cids c)
  ∧ (p ∉ ids l) ∧ (p ∉ ids r) ∧ (p ∉ cids c)
  ∧ (∀ q, q ∈ ids l → q ∉ ids r)
  ∧ (∀ q, q ∈ ids l → q ∉ cids c)
  ∧ (∀ q, q ∈ ids r → q ∉ cids c).
Proof.
  intros Hnd. apply NoDup_plug in Hnd as (Hnd & Hndc & Hdisj).
  rewrite ids_N in Hnd, Hdisj.
  apply NoDup_app in Hnd as (Hndl & Hlp & Hnd).
  apply NoDup_cons in Hnd as (Hpr & Hndr).
  split_and!; try done.
  - intros Hin. apply (Hlp _ Hin). set_solver.
  - apply Hdisj. set_solver.
  - intros q Hq Hq'. apply (Hlp _ Hq). set_solver.
  - intros q Hq. apply Hdisj. set_solver.
  - intros q Hq. apply Hdisj. set_solver.
Qed.

(** The end of the two-children case: [y], already in the place of [node],
    receives the left subtree of [node]. *)
Lemma graft_left (A : Type) (res : A) h c p pn l y ky (vy : V) R :
  repc h None c (Some y) → rep h (cpar None c) (N E y ky vy R) →
  rep h (Some p) l → l ≠ E → NoDup (ids l) →
  h !! p = Some pn → nleft pn = rootp l →
  y ∉ ids l → p ∉ ids l → p ≠ y → y ∉ ids R →
  (∀ q, q ∈ ids l → q ∉ ids R) → (∀ q, q ∈ ids l → q ∉ cids c) →
  y ∉ cids c →
  ∃ h',
    (nd2 ← load h p;
     h3 ← upd h y (set_left (nleft nd2));
     yn3 ← load h3 y;
     yl ← deref (nleft yn3);
     h4 ← upd h3 yl (set_parent (Some y));
     Ok (res, h4)) = Ok (res, h')
    ∧ rep h' None (plug c (N l y ky vy R))
    ∧ is_Some (h' !! p)
    ∧ dom h' = dom h
    ∧ (∀ q, q ≠ y → q ∉ ids l → h' !! q = h !! q).
Proof.
  intros Hc (Hy & _ & HR) Hl Hne Hndl Hp Hpl Hyl Hpl' Hpy HyR HlR Hlc Hyc.
  rewrite (load_Some _ _ _ Hp). bind_ok. rewrite Hpl.
  rewrite (upd_Some _ _ _ _ Hy). bind_ok.
  set (h3 := <[y := _]> h).
  rewrite (load_Some h3 y _ (lookup_insert_eq _ _ _)). bind_ok. cbn [nleft set_left].
  destruct (nodes_nonempty_root l) as (lp & Hlroot).
  { destruct l; [done|]. simpl. by destruct (nodes l1). }
  rewrite Hlroot. cbn [deref]. bind_ok.
  assert (lp ∈ ids l) as Hlp_in by by apply rootp_in.
  assert (lp ≠ y) as Hlpy by (intros ->; done).
  assert (lp ≠ p) as Hlpp by (intros ->; done).
  destruct (rep_root_cell _ _ _ _ Hl Hlroot) as (ln & Hln & Hlpar).
  assert (h3 !! lp = Some ln) as Hlp3.
  { unfold h3. by rewrite lookup_insert_ne. }
  rewrite (upd_Some _ _ _ _ Hlp3). bind_ok.
  eexists. split; [done|]. split_and!.
  - apply rep_plug. split; [split; [|split]|].
    + rewrite lookup_insert_ne by done. unfold h3. rewrite lookup_insert_eq.
      by rewrite Hlroot.
    + eapply rep_set_parent; try done. unfold h3. by apply rep_insert_out.
    + apply rep_insert_out; [by apply HlR|]. unfold h3. by apply rep_insert_out.
    + cbn [rootp]. apply repc_insert_out; [by apply Hlc|]. unfold h3.
      by apply repc_insert_out.
  - rewrite lookup_insert_ne by done. unfold h3. rewrite lookup_insert_ne by done.
    by eexists.
  - rewrite (dom_insert_present _ _ _ _ Hlp3). unfold h3.
    by rewrite (dom_insert_present _ _ _ _ Hy).
  - intros q Hqy Hql. rewrite lookup_insert_ne by (by intros ->).
    unfold h3. by rewrite lookup_insert_ne.
Qed.

Lemma root_after_shift t c q q' :
  root t = croot c q →
  root (match c with [] => set_root q' t | _ => t end) = croot c q'.
Proof.
  destruct c as [|f c]; [done|]. intros ->. apply croot_nonempty.
Qed.

Lemma erase_unlink_spec t h c l p k (v : V) r :
  rep h None (plug c (N l p k v r)) → NoDup (ids (plug c (N l p k v r))) →
  root t = rootp (plug c (N l p k v r)) →
  ∃ t3 h1 j,
    erase_unlink t h p = Ok (t3, h1)
    ∧ rep h1 None (plug c j) ∧ nodes j = nodes l ++ nodes r
    ∧ root t3 = rootp (plug c j) ∧ tfirst t3 = tfirst t ∧ tlast t3 = tlast t
    ∧ tree_size t3 = tree_size t ∧ max_size t3 = max_size t
    ∧ is_Some (h1 !! p)
    ∧ (∀ q, q ∉ ids (plug c (N l p k v r)) → h1 !! q = h !! q).
Proof.
  intros Hrep Hnd Hroot.
  assert (∀ q, q ∉ ids (plug c (N l p k v r)) →
            (q ∉ cids c) ∧ q ≠ p ∧ (q ∉ ids l) ∧ (q ∉ ids r)) as Hout.
  { intros q Hq. rewrite ids_plug_perm, ids_N in Hq.
    apply not_elem_of_app in Hq as (Hq & Hqc).
    apply not_elem_of_app in Hq as (Hql & Hq).
    apply not_elem_of_cons in Hq as (Hqp & Hqr). done. }
  apply NoDup_node in Hnd as (Hndl & Hndr & Hndc & Hpl & Hpr & Hpc & Hlr & Hlc & Hrc).
  apply rep_plug in Hrep as ((Hp & Hl & Hr) & Hc). cbn [rootp] in Hc.
  rewrite rootp_plug in Hroot. cbn [rootp] in Hroot.
  unfold erase_unlink. rewrite (load_Some _ _ _ Hp). bind_ok. cbn [nleft nright].
  destruct l as [|ll lp lk lv lr]; [|destruct r as [|rl rp rk rv rr]].
  - (* no left child *)
    cbn [rootp].
    destruct (shift_tree t h None c p _ r (Some p) Hp eq_refl Hc)
      as (h1 & -> & Hc1 & Hr1 & Hfr1 & Hdom1); try done.
    eexists _, h1, r. split; [done|]. split_and!; try done.
    + by apply rep_plug.
    + rewrite rootp_plug. by apply (root_after_shift t c (Some p)).
    + by destruct c.
    + by destruct c.
    + by destruct c.
    + by destruct c.
    + rewrite Hfr1 by done. by eexists.
    + intros q Hq. destruct (Hout q Hq) as (? & ? & ? & ?). by apply Hfr1.
  - (* a left child only *)
    cbn [rootp]. set (l := N ll lp lk lv lr) in *.
    destruct (shift_tree t h None c p _ l (Some p) Hp eq_refl Hc)
      as (h1 & Heq & Hc1 & Hr1 & Hfr1 & Hdom1); try done.
    cbn [rootp l] in Heq. rewrite Heq.
    eexists _, h1, l. split; [done|]. split_and!; try done.
    + by apply rep_plug.
    + simpl. by rewrite app_nil_r.
    + rewrite rootp_plug. by apply (root_after_shift t c (Some p) (Some lp)).
    + by destruct c.
    + by destruct c.
    + by destruct c.
    + by destruct c.
    + rewrite Hfr1 by done. by eexists.
    + intros q Hq. destruct (Hout q Hq) as (? & ? & ? & ?). by apply Hfr1.
  - (* two children *)
    set (l := N ll lp lk lv lr) in *. set (r := N rl rp rk rv rr) in *.
    cbn [rootp].
    destruct (min_decomp r) as (cy & y & ky & vy & yr & Hreq & Hcl); [done|].
    assert (ids r = y :: ids yr ++ (cright cy).*1) as Hir.
    { by rewrite Hreq, ids_plug, Hcl, ids_N. }
    rewrite (next_right h p _ r Hp eq_refl) by done.
    bind_ok. rewrite Hir. cbn [head deref]. bind_ok.
    assert (y ∈ ids r) as Hy_in by (rewrite Hir; set_solver).
    assert (p ≠ y) as Hpy by (intros ->; done).
    pose proof Hr as Hr'. rewrite Hreq in Hr'. apply rep_plug in Hr' as ((Hy & _ & Hyr) & Hcy).
    cbn [rootp] in Hcy.
    rewrite (load_Some _ _ _ Hy). bind_ok. cbn [nparent nright].
    pose proof Hndr as Hndr'. rewrite Hreq in Hndr'.
    apply NoDup_node in Hndr' as (_ & Hndyr & Hndcy & _ & Hyyr & Hycy & _ & _ & Hyrcy).
    assert (∀ q, q ∈ ids yr → q ∈ ids r) as Hyr_in by (intros q Hq; rewrite Hir; set_solver).
    assert (∀ q, q ∈ cids cy → q ∈ ids r) as Hcy_in.
    { intros q Hq. rewrite Hreq, ids_plug_perm. set_solver. }
    (* the state in which [y] takes the place of [node] *)
    assert (∃ t1 h1 t2 h2 R,
      (if bool_decide (cpar (Some p) cy ≠ Some p) then
         '(ta, ha) ← subtree_shift t h y (rootp yr);
         nd' ← load ha p;
         hb ← upd ha y (set_right (nright nd'));
         yn' ← load hb y;
         yr' ← deref (nright yn');
         hc ← upd hb yr' (set_parent (Some y));
         Ok (ta, hc)
       else Ok (t, h)) = Ok (t1, h1)
      ∧ subtree_shift t1 h1 p (Some y) = Ok (t2, h2)
      ∧ repc h2 None c (Some y) ∧ rep h2 (cpar None c) (N E y ky vy R)
      ∧ rep h2 (Some p) l ∧ h2 !! p = h !! p
      ∧ nodes R = nodes yr ++ cright cy
      ∧ t2 = match c with [] => set_root (Some y) t | _ => t end
      ∧ (∀ q, q ∉ cids c → q ∉ ids r → h2 !! q = h !! q))
      as (t1 & h1 & t2 & h2 & R & Heq1 & Heq2 & Hc2 & Hy2 & Hl2 & Hp2 & HR & Ht2 & Hfr2').
    { destruct cy as [|f cy].
      - (* [y] is the right child of [node] *)
        cbn [cpar]. rewrite bool_decide_eq_false_2 by (intros Hne; by apply Hne).
        cbn [plug] in Hreq.
        destruct (shift_tree t h None c p _ r (Some p) Hp eq_refl Hc)
          as (h1 & Heq & Hc1 & Hr1 & Hfr1 & Hdom1); try done.
        rewrite Hreq in Heq at 1. cbn [rootp] in Heq.
        eexists t, h, _, h1, yr. split; [done|]. split; [exact Heq|].
        split_and!; try done.
        + by rewrite Hreq in Hc1.
        + by rewrite <- Hreq.
        + eapply rep_agree; [|exact Hl]. intros q Hq. apply Hfr1; [by apply Hlc|].
          by apply Hlr.
        + by apply Hfr1.
        + simpl. by rewrite app_nil_r.
        + by rewrite Hreq.
      - (* [y] lies deeper *)
        assert (faddr f ∈ ids r) as Hf_in by apply Hcy_in, faddr_in_cids.
        cbn [cpar].
        rewrite bool_decide_eq_true_2 by (intros [= Heq]; apply Hpr; by rewrite <- Heq).
        destruct (shift_tree t h (Some p) (f :: cy) y _ yr (Some y) Hy eq_refl Hcy)
          as (h1 & Hss & Hc1 & Hr1 & Hfr1 & Hdom1); try done.
        assert (rep h1 (Some p) (plug (f :: cy) yr)) as HR1 by by apply rep_plug.
        assert (h1 !! p = h !! p) as Hp1.
        { apply Hfr1; [|by intros Hin; apply Hpr, Hyr_in].
          intros Hin. by apply Hpr, Hcy_in. }
        assert (h1 !! y = h !! y) as Hy1 by by apply Hfr1.
        assert (rootp r = rootp (plug (f :: cy) yr)) as Hrr.
        { rewrite Hreq, !rootp_plug. apply croot_nonempty. }
        destruct (nodes_nonempty_root (plug (f :: cy) yr)) as (zr & Hrr').
        { rewrite nodes_plug, Hcl. destruct f; simpl.
          - intros Hn. apply app_eq_nil in Hn as (_ & Hn). discriminate.
          - simpl in Hcl. apply app_eq_nil in Hcl as (_ & Hcl).
            apply app_eq_nil in Hcl as (_ & Hcl). discriminate. }
        set (yn := mkNode (Some (faddr f)) None (Some zr) ky vy).
        set (hb := <[y := yn]> h1).
        assert (NoDup (ids (plug (f :: cy) yr))) as HndR.
        { rewrite ids_plug_perm. apply NoDup_app. split_and!; try done. }
        assert (∀ q, q ∈ ids (plug (f :: cy) yr) → q ∈ ids r ∧ q ≠ y) as HR_in.
        { intros q Hq. rewrite ids_plug_perm in Hq.
          apply elem_of_app in Hq as [Hq|Hq].
          - split; [by apply Hyr_in|by intros ->].
          - split; [by apply Hcy_in|by intros ->]. }
        assert (zr ∈ ids (plug (f :: cy) yr)) as Hrr_in by by apply rootp_in.
        destruct (HR_in _ Hrr_in) as (Hrr_r & Hrr_y).
        assert (rep hb (Some p) (plug (f :: cy) yr)) as HRb.
        { unfold hb. apply rep_insert_out; [|done]. intros Hq.
          by destruct (HR_in _ Hq). }
        destruct (rep_root_cell _ _ _ _ HRb Hrr') as (rn & Hrn & _).
        set (hc := <[zr := set_parent (Some y) rn]> hb).
        assert (rep hc (Some y) (plug (f :: cy) yr)) as HRc.
        { by eapply rep_set_parent. }
        set (Y := N E y ky vy (plug (f :: cy) yr)).
        assert (rep hc (Some (faddr f)) Y) as HYc.
        { split; [|done]. unfold hc. rewrite lookup_insert_ne by done.
          unfold hb. rewrite lookup_insert_eq. by rewrite Hrr'. }
        assert (ids Y ≡ₚ ids r) as HiY.
        { unfold Y. rewrite ids_N, Hreq, !ids_plug_perm, ids_N. done. }
        assert (hc !! p = h !! p) as Hpc_.
        { unfold hc, hb. rewrite !lookup_insert_ne; [done|done|].
          intros ->. done. }
        assert (repc hc None c (Some p)) as Hcc.
        { eapply repc_agree; [|exact Hc]. intros q Hq. unfold hc, hb.
          rewrite !lookup_insert_ne.
          - apply Hfr1.
            + intros Hin. apply (Hrc q); [by apply Hcy_in|done].
            + intros Hin. apply (Hrc q); [by apply Hyr_in|done].
          - intros ->. by apply (Hrc q).
          - intros ->. by apply (Hrc q). }
        destruct (shift_tree t hc None c p _ Y (Some (faddr f))
                    (eq_trans Hpc_ Hp) eq_refl Hcc)
          as (h2 & Heq & Hc2 & Hy2 & Hfr2 & Hdom2); try done.
        { by rewrite HiY. }
        { intros q Hq. rewrite HiY in Hq. by apply Hrc. }
        { by rewrite HiY. }
        cbn [rootp Y] in Heq.
        eexists t, hc, _, h2, (plug (f :: cy) yr).
        split; [|split; [exact Heq|]].
        { rewrite Hss. bind_ok.
          rewrite (load_Some h1 p _ (eq_trans Hp1 Hp)). bind_ok. cbn [nright].
          rewrite (upd_Some h1 y _ _ (eq_trans Hy1 Hy)). bind_ok.
          rewrite Hrr, Hrr'. change (<[y := _]> h1) with hb.
          rewrite (load_Some hb y _ (lookup_insert_eq _ _ _)). bind_ok.
          cbn [nright yn deref]. bind_ok.
          rewrite (upd_Some _ _ _ _ Hrn). bind_ok. done. }
        split_and!; try done.
        + eapply rep_agree; [|exact Hl]. intros q Hq. rewrite Hfr2.
          * unfold hc, hb. rewrite !lookup_insert_ne.
            -- apply Hfr1.
               ++ intros Hin. apply (Hlr q); [done|by apply Hcy_in].
               ++ intros Hin. apply (Hlr q); [done|by apply Hyr_in].
            -- intros ->. by apply (Hlr q).
            -- intros ->. by apply (Hlr q).
          * by apply Hlc.
          * rewrite HiY. by apply Hlr.
        + rewrite Hfr2; [done|done|]. by rewrite HiY.
        + by rewrite nodes_plug, Hcl.
        + intros q Hqc Hqr. rewrite Hfr2; [|done|by rewrite HiY].
          unfold hc, hb. rewrite !lookup_insert_ne.
          * apply Hfr1.
            -- intros Hin. by apply Hqr, Hcy_in.
            -- intros Hin. by apply Hqr, Hyr_in.
          * by intros ->.
          * by intros ->. }
    rewrite Heq1. bind_ok. rewrite Heq2. bind_ok.
    assert (ids R ≡ₚ ids yr ++ (cright cy).*1) as HiR.
    { unfold ids. by rewrite HR, fmap_app. }
    assert (∀ q, q ∈ ids R → q ∈ ids r ∧ q ≠ y) as HR_in.
    { intros q Hq. rewrite HiR in Hq. split.
      - rewrite Hir. set_solver.
      - intros ->. rewrite Hir in Hndr. apply NoDup_cons in Hndr as (Hn & _).
        by apply Hn. }
    destruct (graft_left Tree t2 h2 c p (mkNode (cpar None c) (rootp l) (rootp r) k v)
                l y ky vy R Hc2 Hy2 Hl2)
      as (h' & -> & Hrep' & Hp' & Hdom' & Hfr'); try done.
    { by rewrite Hp2. }
    { intros Hin. by apply (Hlr y). }
    { intros Hin. by destruct (HR_in _ Hin). }
    { intros q Hq Hin. destruct (HR_in _ Hin) as (Hin' & _). by apply (Hlr q). }
    { by apply Hrc. }
    exists t2, h', (N l y ky vy R). split; [done|]. split_and!; try done.
    + change (nodes (N l y ky vy R)) with (nodes l ++ (y, (ky, vy)) :: nodes R).
      rewrite HR.
      assert (nodes r = (y, (ky, vy)) :: nodes yr ++ cright cy) as ->.
      { by rewrite Hreq, nodes_plug, Hcl. }
      done.
    + rewrite Ht2, rootp_plug. by apply (root_after_shift t c (Some p) (Some y)).
    + rewrite Ht2. by destruct c.
    + rewrite Ht2. by destruct c.
    + rewrite Ht2. by destruct c.
    + rewrite Ht2. by destruct c.
    + intros q Hq. destruct (Hout q Hq) as (Hqc & Hqp & Hql & Hqr).
      rewrite Hfr'; [by apply Hfr2'|by intros ->|done].
Qed.

(** What [next] returns at a node: null, or the node that follows in
    order. *)
Lemma next_zip h c l x k (v : V) r :
  rep h None (plug c (N l x k v r)) →
  NoDup (ids (plug c (N l x k v r))) → bst (plug c (N l x k v r)) →
  ∃ res, next h x = Ok res
         ∧ (res = None ∨ res = head (nodes r ++ cright c).*1)
         ∧ (r ≠ E → res ≠ None).
Proof.
  intros Hrep Hnd Hbst.
  pose proof Hrep as Hrep'. apply rep_plug in Hrep' as ((Hx & Hl & Hr) & Hc).
  cbn [rootp] in Hc.
  pose proof Hnd as Hnd'.
  apply NoDup_node in Hnd' as (Hndl & Hndr & Hndc & _).
  destruct r as [|rl rp rk rv rr].
  - unfold next. rewrite (load_Some _ _ _ Hx). bind_ok. cbn [nright nparent rootp nkey].
    destruct c as [|f c]; cbn [cpar].
    { exists None. split_and!; [done|by left|done]. }
    destruct (repc_head_cell _ _ _ _ _ Hc) as (pn & Hpn & Hpk & Hpp & _).
    rewrite (load_Some _ _ _ Hpn). bind_ok. rewrite Hpk.
    assert (fits k f) as Hfit.
    { apply (bst_plug_fits f c (N l x k v E)); [done|]. rewrite keys_N. set_solver. }
    destruct f as [p' kp vp rp|l' p' kp vp]; simpl in Hfit; unfold comp; cbn [fkey faddr].
    + assert ((k <? kp) = true) as -> by lia.
      exists (Some p'). split_and!; [done|by right|done].
    + assert ((k <? kp) = false) as -> by lia.
      rewrite Hpp. destruct c as [|f' c]; cbn [cpar].
      { exists None. split_and!; [done|by left|done]. }
      destruct Hc as (_ & _ & Hc').
      destruct (repc_head_cell _ _ _ _ _ Hc') as (gn & Hgn & Hgk & _).
      rewrite (load_Some _ _ _ Hgn). bind_ok. rewrite Hgk.
      assert (fits kp f') as Hfit'.
      { apply (bst_plug_fits f' c (N l' p' kp vp (N l x k v E))); [done|].
        rewrite keys_N. set_solver. }
      destruct f' as [g kg vg rg|lg g kg vg]; simpl in Hfit'; cbn [fkey faddr].
      * assert ((kp <? kg) = true) as -> by lia.
        exists (Some g). split_and!; [done|by right|done].
      * assert ((kp <? kg) = false) as -> by lia.
        exists None. split_and!; [done|by left|done].
  - rewrite (next_right h x _ (N rl rp rk rv rr) Hx eq_refl) by done.
    eexists. split; [done|]. split.
    + right. unfold ids. rewrite fmap_app.
      destruct (nodes (N rl rp rk rv rr)) eqn:E; [|done].
      exfalso. cbn [nodes] in E. by destruct (nodes rl).
    + intros _. unfold ids. cbn [nodes]. rewrite fmap_app.
      destruct (nodes rl); done.
Qed.

(** What [prev] returns at a node: null, or the node that precedes in
    order. *)
Lemma prev_zip h c l x k (v : V) r :
  rep h None (plug c (N l x k v r)) →
  NoDup (ids (plug c (N l x k v r))) → bst (plug c (N l x k v r)) →
  ∃ res, prev h x = Ok res
         ∧ (res = None ∨ res = last (cleft c ++ nodes l).*1)
         ∧ (l ≠ E → res ≠ None).
Proof.
  intros Hrep Hnd Hbst.
  pose proof Hrep as Hrep'. apply rep_plug in Hrep' as ((Hx & Hl & Hr) & Hc).
  cbn [rootp] in Hc.
  pose proof Hnd as Hnd'.
  apply NoDup_node in Hnd' as (Hndl & Hndr & Hndc & _).
  destruct l as [|ll lp lk lv lr].
  - unfold prev. rewrite (load_Some _ _ _ Hx). bind_ok. cbn [nleft nparent rootp nkey].
    destruct c as [|f c]; cbn [cpar].
    { exists None. split_and!; [done|by left|done]. }
    destruct (repc_head_cell _ _ _ _ _ Hc) as (pn & Hpn & Hpk & Hpp & _).
    rewrite (load_Some _ _ _ Hpn). bind_ok. rewrite Hpk.
    assert (fits k f) as Hfit.
    { apply (bst_plug_fits f c (N E x k v r)); [done|]. rewrite keys_N. set_solver. }
    destruct f as [p' kp vp rp|l' p' kp vp]; simpl in Hfit; unfold comp; cbn [fkey faddr].
    + assert ((kp <? k) = false) as -> by lia.
      rewrite Hpp. destruct c as [|f' c]; cbn [cpar].
      { exists None. split_and!; [done|by left|done]. }
      destruct Hc as (_ & _ & Hc').
      destruct (repc_head_cell _ _ _ _ _ Hc') as (gn & Hgn & Hgk & _).
      rewrite (load_Some _ _ _ Hgn). bind_ok. rewrite Hgk.
      assert (fits kp f') as Hfit'.
      { apply (bst_plug_fits f' c (N (N E x k v r) p' kp vp rp)); [done|].
        rewrite keys_N. set_solver. }
      destruct f' as [g kg vg rg|lg g kg vg]; simpl in Hfit'; cbn [fkey faddr].
      * assert ((kg <? kp) = false) as -> by lia.
        exists None. split_and!; [done|by left|done].
      * assert ((kg <? kp) = true) as -> by lia.
        exists (Some g). split_and!; [done| |done]. right.
        cbn [cleft nodes]. rewrite app_nil_r, !fmap_app. simpl.
        by rewrite app_assoc, last_snoc.
    + assert ((kp <? k) = true) as -> by lia.
      exists (Some p'). split_and!; [done| |done]. right.
      cbn [cleft nodes]. rewrite app_nil_r, !fmap_app. simpl.
      by rewrite app_assoc, last_snoc.
  - rewrite (prev_left h x _ (N ll lp lk lv lr) Hx eq_refl) by done.
    assert (∃ q, last (ids (N ll lp lk lv lr)) = Some q) as (q & Hq).
    { rewrite ids_N. rewrite last_app, last_cons.
      destruct (last (ids lr)); eauto. }
    eexists. split; [done|]. split.
    + right. rewrite fmap_app. fold (ids (N ll lp lk lv lr)).
      rewrite last_app. by rewrite Hq.
    + intros _. by rewrite Hq.
Qed.

End Unlink.
End Unlink.

(** * Erasure *)

Module Erase.
Import DM852 Abs Basic Ctx Read Flatten Build Rebuild Order Scapegoat Insert Shift Unlink.

Section Erase.
Context {V : Type} `{!EqDecision V} `{!Inhabited V} `{!HAlpha}.
Implicit Types (h : gmap positive (@Node V)) (t : Tree) (a b l r s : @T V) (c : list (@frame V)).
Implicit Types (es : list (loc * (Z * V))).

Lemma delete_childless h p n :
  h !! p = Some n → nleft n = None → nright n = None →
  delete_Node (fuel h) h (Some p) = Ok (delete p h).
Proof.
  intros Hn Hl Hr. unfold fuel. simpl. rewrite (load_Some _ _ _ Hn). simpl.
  rewrite Hl, delete_Node_null. simpl. by rewrite Hr, delete_Node_null.
Qed.

Lemma head_remove (A B : list loc) p :
  head (A ++ p :: B) ≠ Some p → head (A ++ B) = head (A ++ p :: B).
Proof. destruct A; simpl; [done|done]. Qed.

Lemma last_remove (A B : list loc) p :
  last (A ++ p :: B) ≠ Some p → last (A ++ B) = last (A ++ p :: B).
Proof.
  rewrite !last_app, last_cons. destruct (last B) eqn:El; simpl; [done|].
  intros Hne. by destruct Hne.
Qed.

Lemma head_is_mid (A B : list loc) p :
  head (A ++ p :: B) = Some p → p ∉ A → A = [].
Proof.
  destruct A as [|x A]; [done|]. simpl. intros [= ->] Hp. set_solver.
Qed.

Lemma last_is_mid (A B : list loc) p :
  last (A ++ p :: B) = Some p → p ∉ B → B = [].
Proof.
  rewrite last_app, last_cons. destruct (last B) eqn:El; simpl.
  - intros [= ->] Hp. apply last_Some_elem_of in El. done.
  - intros _ _. by apply last_None in El.
Qed.

(** The update of [first] before the node is unlinked. *)
Lemma erase_first t h c l p k (v : V) r :
  rep h None (plug c (N l p k v r)) → NoDup (ids (plug c (N l p k v r))) →
  Forall (fits k) c →
  tfirst t = head (ids (plug c (N l p k v r))) →
  ∃ t1,
    (if bool_decide (tfirst t = Some p)
     then node ← deref (Some p); f ← next h node; Ok (set_first f t)
     else Ok t) = Ok t1
    ∧ tfirst t1 = head ((cleft c).*1 ++ ids l ++ ids r ++ (cright c).*1)
    ∧ root t1 = root t ∧ tlast t1 = tlast t
    ∧ tree_size t1 = tree_size t ∧ max_size t1 = max_size t.
Proof.
  intros Hrep Hnd Hfit Hfirst.
  pose proof Hnd as Hnd'.
  apply NoDup_node in Hnd' as (Hndl & Hndr & Hndc & Hpl & Hpr & Hpc & Hlr & Hlc & Hrc).
  apply rep_plug in Hrep as ((Hp & Hl & Hr) & Hc). cbn [rootp] in Hc.
  rewrite ids_plug, ids_N in Hfirst. rewrite <- !app_assoc in Hfirst.
  rewrite (app_assoc _ (ids l)) in Hfirst.
  assert (p ∉ (cleft c).*1 ++ ids l) as Hpa.
  { intros Hin. apply elem_of_app in Hin as [Hin|Hin]; [|done].
    apply Hpc. unfold cids. rewrite fmap_app. set_solver. }
  case_bool_decide as Hb.
  - rewrite Hfirst in Hb. apply head_is_mid in Hb as Hnil; [|done].
    apply app_eq_nil in Hnil as (Hcl & Hln).
    apply fmap_nil_inv in Hcl.
    assert (l = E) as -> by (destruct l as [|? ? ? ? ?]; [done|]; rewrite ids_N in Hln;
                              by destruct (ids l1)).
    cbn [deref]. bind_ok. rewrite Hcl. cbn [fmap list_fmap app].
    destruct r as [|rl rp rk rv rr].
    + rewrite (next_up_first h c p _ Hp); try done. bind_ok.
      eexists. split; [done|]. done.
    + rewrite (next_right h p _ (N rl rp rk rv rr) Hp); try done. bind_ok.
      eexists. split; [done|]. split_and!; try done.
      simpl. rewrite ids_N. by destruct (ids rl).
  - exists t. split; [done|]. split_and!; try done.
    rewrite Hfirst in Hb |- *. rewrite (app_assoc _ (ids l)).
    symmetry. by apply head_remove.
Qed.

(** The update of [last] before the node is unlinked. *)
Lemma erase_last t h c l p k (v : V) r :
  rep h None (plug c (N l p k v r)) → NoDup (ids (plug c (N l p k v r))) →
  Forall (fits k) c →
  tlast t = last (ids (plug c (N l p k v r))) →
  ∃ t1,
    (if bool_decide (tlast t = Some p)
     then node ← deref (Some p); f ← prev h node; Ok (set_last f t)
     else Ok t) = Ok t1
    ∧ tlast t1 = last ((cleft c).*1 ++ ids l ++ ids r ++ (cright c).*1)
    ∧ root t1 = root t ∧ tfirst t1 = tfirst t
    ∧ tree_size t1 = tree_size t ∧ max_size t1 = max_size t.
Proof.
  intros Hrep Hnd Hfit Hlast.
  pose proof Hnd as Hnd'.
  apply NoDup_node in Hnd' as (Hndl & Hndr & Hndc & Hpl & Hpr & Hpc & Hlr & Hlc & Hrc).
  apply rep_plug in Hrep as ((Hp & Hl & Hr) & Hc). cbn [rootp] in Hc.
  rewrite ids_plug, ids_N in Hlast. rewrite <- !app_assoc in Hlast.
  rewrite (app_assoc _ (ids l)) in Hlast. cbn [app] in Hlast.
  assert (p ∉ ids r ++ (cright c).*1) as Hpa.
  { intros Hin. apply elem_of_app in Hin as [Hin|Hin]; [done|].
    apply Hpc. unfold cids. rewrite fmap_app. set_solver. }
  case_bool_decide as Hb.
  - rewrite Hlast in Hb. apply last_is_mid in Hb as Hnil; [|done].
    apply app_eq_nil in Hnil as (Hrn & Hcr).
    apply fmap_nil_inv in Hcr.
    assert (r = E) as -> by (destruct r as [|? ? ? ? ?]; [done|]; rewrite ids_N in Hrn;
                              by destruct (ids r1)).
    cbn [deref]. bind_ok. rewrite Hcr. cbn [fmap list_fmap]. rewrite !app_nil_r.
    destruct l as [|ll lp lk lv lr].
    + rewrite (prev_up_last h c p _ Hp); try done. bind_ok.
      eexists. split; [done|]. split_and!; try done.
      simpl. by rewrite app_nil_r.
    + rewrite (prev_left h p _ (N ll lp lk lv lr) Hp); try done. bind_ok.
      eexists. split; [done|]. split_and!; try done.
      simpl. rewrite last_app. rewrite ids_N, last_app, last_cons.
      by destruct (last (ids lr)).
  - exists t. split; [done|]. split_and!; try done.
    rewrite Hlast in Hb |- *. rewrite (app_assoc _ (ids l)).
    symmetry. by apply last_remove.
Qed.

(** The update of [last] returns whatever [last] points to. *)
Lemma erase_last_returns t h c l p k (v : V) r :
  rep h None (plug c (N l p k v r)) → NoDup (ids (plug c (N l p k v r))) →
  bst (plug c (N l p k v r)) →
  ∃ t1,
    (if bool_decide (tlast t = Some p)
     then node ← deref (Some p); f ← prev h node; Ok (set_last f t)
     else Ok t) = Ok t1
    ∧ root t1 = root t ∧ tfirst t1 = tfirst t
    ∧ tree_size t1 = tree_size t ∧ max_size t1 = max_size t.
Proof.
  intros Hrep Hnd Hbst. case_bool_decide.
  - destruct (prev_zip h c l p k v r Hrep Hnd Hbst) as (res & Hp & _).
    cbn [deref]. bind_ok. rewrite Hp. bind_ok. eexists. split; [done|]. done.
  - exists t. done.
Qed.

(** Erasing a stored key.  Either [erase] returns, the tree being made of
    nodes of the old one without the node of the key (of all of them when
    the tree was exact and had at most [2^24] nodes); or the rebuild runs
    off the end of the chain. *)
Lemma erase_found_gen t h a x c l p k (v : V) r :
  links t h a → locate x a [] = (c, N l p k v r) →
  (∃ t' h' a',
    erase t h x = Ok (t', h')
    ∧ links t' h' a'
    ∧ nodes a = cleft c ++ nodes l ++ (p, (k, v)) :: nodes r ++ cright c
    ∧ nodes a' `sublist_of` cleft c ++ nodes l ++ nodes r ++ cright c
    ∧ k = x
    ∧ (∀ q, q ∉ ids a → h' !! q = h !! q)
    ∧ h' !! p = None
    ∧ (holds t h a → weight a ≤ 2 ^ 24 →
       holds t' h' a'
       ∧ nodes a' = cleft c ++ nodes l ++ nodes r ++ cright c
       ∧ (lt_alpha_mul (tree_size t - 1) (max_size t) = true → built a')))
  ∨ ((tree_size t ≠ weight a ∨ 2 ^ 24 < weight a) ∧ ∀ res, erase t h x ≠ Ok res).
Proof.
  intros [Hrep Hnd Hbst Hroot Hfirst Hsize] Hloc.
  pose proof (locate_plug x a []) as Hplug. rewrite Hloc in Hplug.
  cbn [fst snd plug] in Hplug.
  pose proof (locate_found x a [] l p k v r) as Hk. rewrite Hloc in Hk.
  specialize (Hk eq_refl). subst x.
  pose proof (locate_fits k a [] (Forall_nil_2 _)) as Hfits. rewrite Hloc in Hfits.
  cbn [fst] in Hfits.
  assert (nodes a = cleft c ++ nodes l ++ (p, (k, v)) :: nodes r ++ cright c) as Hna.
  { rewrite <- Hplug, nodes_plug. simpl. by rewrite <- app_assoc. }
  unfold erase, find. rewrite Hroot.
  rewrite (find_loop_spec h None a [] k (fuel h) Hrep (rep_fuel _ _ _ Hrep Hnd)).
  rewrite Hloc. cbn [snd rootp]. bind_ok.
  subst a. unfold erase_at.
  destruct (erase_first t h c l p k v r Hrep Hnd Hfits Hfirst)
    as (t1 & -> & Hfirst1 & Hroot1 & Hlast1 & Hsize1 & Hmax1).
  bind_ok.
  destruct (erase_last_returns t1 h c l p k v r Hrep Hnd Hbst)
    as (t2 & Hel & Hroot2 & Hfirst2 & Hsize2 & Hmax2).
  rewrite Hel. bind_ok. cbn [deref]. bind_ok.
  destruct (erase_unlink_spec t2 h c l p k v r Hrep Hnd)
    as (t3 & h1 & j & -> & Hrep3 & Hj & Hroot3 & Hfirst3 & Hlast3 & Hsize3 & Hmax3 & [pn Hpn]
        & Hfr3).
  { by rewrite Hroot2, Hroot1. }
  bind_ok.
  rewrite (upd_Some _ _ _ _ Hpn). bind_ok.
  rewrite (upd_Some _ p (set_right None pn)) by apply lookup_insert_eq. bind_ok.
  rewrite insert_insert_eq.
  rewrite (delete_childless _ p (set_left None (set_right None pn))
             (lookup_insert_eq _ _ _) eq_refl eq_refl).
  bind_ok. rewrite delete_insert_eq.
  set (t4 := set_tree_size (tree_size t3 - 1) t3).
  (* the invariant once the node is gone *)
  assert (nodes (plug c j) = cleft c ++ nodes l ++ nodes r ++ cright c) as Hn4.
  { by rewrite nodes_plug, Hj, <- app_assoc. }
  assert (ids (plug c j) = (cleft c).*1 ++ ids l ++ ids r ++ (cright c).*1) as Hi4.
  { unfold ids. by rewrite Hn4, !fmap_app. }
  assert (ids (plug c (N l p k v r))
          = (cleft c).*1 ++ ids l ++ p :: ids r ++ (cright c).*1) as Hi0.
  { unfold ids. rewrite Hna, !fmap_app, fmap_cons, fmap_app. done. }
  assert (p ∈ ids (plug c (N l p k v r))) as Hp_in by (rewrite Hi0; set_solver).
  assert (∀ q, q ∈ ids (plug c j) → q ∈ ids (plug c (N l p k v r))) as Hsub.
  { intros q. rewrite Hi4, Hi0. set_solver. }
  pose proof Hnd as Hnd0. rewrite Hi0 in Hnd.
  assert (p ∉ ids (plug c j)) as Hpj.
  { rewrite Hi4. rewrite app_assoc in Hnd |- *.
    apply NoDup_app in Hnd as (_ & Hd & Hnd).
    apply NoDup_cons in Hnd as (Hn & _).
    intros Hin. apply elem_of_app in Hin as [Hin|Hin]; [|done].
    apply (Hd _ Hin). set_solver. }
  assert (NoDup (ids (plug c j))) as Hnd4.
  { rewrite Hi4. rewrite app_assoc in Hnd |- *.
    apply NoDup_app in Hnd as (Hn1 & Hd & Hnd).
    apply NoDup_cons in Hnd as (_ & Hn2).
    apply NoDup_app. split_and!; try done.
    intros q Hq Hq'. apply (Hd _ Hq). set_solver. }
  assert (weight (plug c (N l p k v r)) = weight (plug c j) + 1) as Hw4.
  { rewrite !weight_length, Hi0, Hi4, !length_app. simpl. rewrite length_app. lia. }
  assert (tree_size t4 = tree_size t - 1) as Hsz4.
  { unfold t4. simpl. by rewrite Hsize3, Hsize2, Hsize1. }
  assert (max_size t4 = max_size t) as Hmx4.
  { unfold t4. simpl. by rewrite Hmax3, Hmax2, Hmax1. }
  assert (links t4 (delete p h1) (plug c j)) as Hl4.
  { split.
    - by apply rep_delete_out.
    - done.
    - unfold bst in *. rewrite keys_nodes in *. rewrite Hn4. rewrite Hna in Hbst.
      rewrite !fmap_app in *. simpl in Hbst. rewrite !fmap_app in Hbst.
      rewrite app_assoc in Hbst |- *.
      by apply (sorted_middle _ _ [k]) in Hbst.
    - done.
    - by rewrite Hi4, <- Hfirst1, <- Hfirst2, <- Hfirst3.
    - lia. }
  assert (holds t h (plug c (N l p k v r)) → holds t4 (delete p h1) (plug c j)) as Hh4.
  { intros [_ _ _ _ _ Hlast Hsz]. destruct Hl4 as [? ? ? ? ? _]. split; try done.
    - rewrite <- Hlast1 in Hlast.
      destruct (erase_last t1 h c l p k v r Hrep Hnd0 Hfits Hlast)
        as (t2' & Hel' & Hlast2 & _).
      rewrite Hel in Hel'. injection Hel' as <-.
      by rewrite Hi4, <- Hlast2, <- Hlast3.
    - lia. }
  rewrite Hsz4, Hmx4.
  assert (∀ q, q ∉ ids (plug c (N l p k v r)) → delete p h1 !! q = h !! q) as Hfr4.
  { intros q Hq. rewrite lookup_delete_ne by (by intros ->). by apply Hfr3. }
  destruct (lt_alpha_mul (tree_size t - 1) (max_size t)) eqn:Hlt.
  - (* the whole tree is rebuilt *)
    destruct Hl4 as [Hrep4 _ Hbst4 Hroot4 Hfirst4 Hsize4].
    rewrite Hroot4.
    pose proof (weight_nonneg (plug c j)) as Hwj.
    destruct (rebuild_spec_gen (delete p h1) None (plug c j) (tree_size t - 1) Hrep4 Hnd4)
      as (Hok & Hbad); [lia|].
    destruct (decide (kept (tree_size t - 1) ≤ weight (plug c j))) as [Hle|Hgt].
    + left. destruct (Hok Hle)
        as (w & h5 & b & wl & -> & Hw & Hb & Hbt & Hrep5 & Hw5 & _ & Hfr5 & Hdom5).
      bind_ok. rewrite (drop_sentinel_spec _ _ _ _ _ _ Hw5). bind_ok.
      assert (nodes b `sublist_of` nodes (plug c j)) as Hsb
        by (rewrite Hb; apply sublist_take).
      assert (w ∉ ids (plug c j)) as Hwj'.
      { intros Hin. destruct (rep_in_dom _ _ _ _ Hrep4 Hin) as [n Hn]. congruence. }
      assert (w ∉ ids b) as Hwb.
      { intros Hin. apply Hwj'. eapply elem_of_sublist; [exact Hin|].
        by apply ids_sublist. }
      eexists _, _, b. split; [done|]. split_and!; try done.
      * split.
        -- by apply rep_delete_out.
        -- eapply sublist_NoDup; [exact Hnd4|]. by apply ids_sublist.
        -- by eapply bst_sublist.
        -- done.
        -- cbn [tfirst set_max_size set_root]. rewrite Hfirst4. unfold ids. rewrite Hb.
           destruct (nodes (plug c j)) as [|e es] eqn:En; [by rewrite take_nil|].
           assert (1 ≤ weight (plug c j)) by (rewrite weight_nodes, En; simpl; lia).
           pose proof (kept_pos (tree_size t - 1) ltac:(lia)).
           destruct (Z.to_nat (kept (tree_size t - 1))) eqn:Ek; [lia|]. done.
        -- cbn [tree_size set_max_size set_root]. pose proof (weight_sublist _ _ Hsb). lia.
      * by rewrite <- Hn4.
      * intros q Hq. destruct (decide (q = w)) as [->|Hqw].
        -- rewrite lookup_delete_eq. symmetry. rewrite <- Hfr3 by done.
           rewrite lookup_delete_ne in Hw; [done|]. by intros ->.
        -- rewrite lookup_delete_ne by done.
           rewrite Hfr5; [|by intros Hin; apply Hq, Hsub|done].
           by apply Hfr4.
      * destruct (decide (p = w)) as [->|Hpw]; [by rewrite lookup_delete_eq|].
        rewrite lookup_delete_ne by done. rewrite Hfr5 by done.
        by rewrite lookup_delete_eq.
      * intros Hh Hsmall. specialize (Hh4 Hh).
        pose proof (holds_size _ _ _ Hh) as Hsz.
        destruct Hh4 as [_ _ _ _ Hfirst4' Hlast4 Hsize4'].
        assert (kept (tree_size t - 1) = tree_size t - 1) as Hk
          by (apply kept_exact; lia).
        assert (nodes b = nodes (plug c j)) as Hbn.
        { rewrite Hb. apply take_ge. rewrite Hk, weight_nodes in *. lia. }
        split_and!.
        -- eapply (holds_same_nodes t4 _ _ (plug c j) b); try done.
           by apply rep_delete_out.
        -- by rewrite Hbn.
        -- intros _. apply Hbt. unfold float_of_int. rewrite round24_small; lia.
    + right. split.
      * destruct (decide (tree_size t = weight (plug c (N l p k v r)))) as [Heq|Hne];
          [|by left].
        right. apply Z.nle_gt. intros Hsmall. apply Hgt.
        rewrite kept_exact; lia.
      * intros res Hres. apply bind_Ok_inv in Hres as (r1 & Hr1 & _).
        apply (Hbad ltac:(lia) r1 Hr1).
  - left. exists t4, (delete p h1), (plug c j). split; [done|]. split_and!; try done.
    + by rewrite Hn4.
    + by rewrite lookup_delete_eq.
    + intros Hh _. split_and!; [by apply Hh4|done|done].
Qed.

(** Erasing a stored key from an exact tree of at most [2^24] nodes; the
    cells outside the tree are left alone and the cell of the node is
    freed. *)
Lemma erase_found_frame t h a x c l p k (v : V) r :
  holds t h a → weight a ≤ 2 ^ 24 → locate x a [] = (c, N l p k v r) →
  ∃ t' h' a',
    erase t h x = Ok (t', h')
    ∧ holds t' h' a'
    ∧ nodes a = cleft c ++ nodes l ++ (p, (k, v)) :: nodes r ++ cright c
    ∧ nodes a' = cleft c ++ nodes l ++ nodes r ++ cright c
    ∧ k = x
    ∧ (lt_alpha_mul (tree_size t - 1) (max_size t) = true → built a')
    ∧ (∀ q, q ∉ ids a → h' !! q = h !! q)
    ∧ h' !! p = None.
Proof.
  intros Hh Hsmall Hloc.
  destruct (erase_found_gen t h a x c l p k v r (holds_links _ _ _ Hh) Hloc)
    as [(t' & h' & a' & He & _ & Hna & _ & Hk & Hfr & Hp & Hex)|([Hne|Hbig] & _)].
  - destruct (Hex Hh Hsmall) as (Hh' & Hna' & Hbt).
    exists t', h', a'. done.
  - by destruct Hne, Hh.
  - lia.
Qed.

(** Erasing a stored key. *)
Lemma erase_found t h a x c l p k (v : V) r :
  holds t h a → weight a ≤ 2 ^ 24 → locate x a [] = (c, N l p k v r) →
  ∃ t' h' a',
    erase t h x = Ok (t', h')
    ∧ holds t' h' a'
    ∧ nodes a = cleft c ++ nodes l ++ (p, (k, v)) :: nodes r ++ cright c
    ∧ nodes a' = cleft c ++ nodes l ++ nodes r ++ cright c
    ∧ k = x
    ∧ (lt_alpha_mul (tree_size t - 1) (max_size t) = true → built a').
Proof.
  intros Hh Hsmall Hloc.
  destruct (erase_found_frame t h a x c l p k v r Hh Hsmall Hloc)
    as (t' & h' & a' & He & Hh' & Hna & Hna' & Hk & Hb & _).
  exists t', h', a'. done.
Qed.

(** Erasing a key that is not stored dereferences a null pointer. *)
Lemma erase_missing_links t h a x c :
  links t h a → locate x a [] = (c, E) → erase t h x = NullDeref.
Proof.
  intros [Hrep Hnd Hbst Hroot Hfirst Hsize] Hloc.
  unfold erase, find. rewrite Hroot.
  rewrite (find_loop_spec h None a [] x (fuel h) Hrep (rep_fuel _ _ _ Hrep Hnd)).
  rewrite Hloc. cbn [snd rootp]. bind_ok. unfold erase_at.
  do 2 (case_bool_decide; [done|]; bind_ok). done.
Qed.

Lemma erase_missing t h a x c :
  holds t h a → locate x a [] = (c, E) → erase t h x = NullDeref.
Proof. intros Hh. apply erase_missing_links. by apply holds_links. Qed.

End Erase.
End Erase.

(** * The shape that [build] produces *)

Module Shape.
Import DM852 Abs Basic Ctx Read Flatten Build Rebuild.

Section Shape.
Context {V : Type}.
Implicit Types (h : gmap positive (@Node V)) (a b l r s : @T V).

Lemma halves_bounds n :
  0 ≤ n - 1 →
  2 * ceil_half (n - 1) ≤ n ∧ n ≤ 2 * ceil_half (n - 1) + 1
  ∧ 2 * floor_half (n - 1) ≤ n - 1 ∧ n - 1 ≤ 2 * floor_half (n - 1) + 1.
Proof.
  intros Hn. rewrite ceil_half_spec. unfold floor_half.
  replace (n - 1 + 1) with n by lia.
  pose proof (Z.div_mod n 2). pose proof (Z.mod_pos_bound n 2).
  pose proof (Z.div_mod (n - 1) 2). pose proof (Z.mod_pos_bound (n - 1) 2). lia.
Qed.

(** Every node of a built tree keeps the weight bound, with room to spare:
    neither side holds more than half of the nodes. *)
Lemma built_weight_balanced b : built b → weight_balanced b.
Proof.
  induction b as [|l IHl p k v r IHr]; [done|].
  intros (Hl & Hr & Hbl & Hbr). cbn [weight_balanced]. split_and!; auto.
  - apply within_alpha_spec. cbn [weight] in *.
    pose proof (weight_nonneg l). pose proof (weight_nonneg r).
    pose proof (halves_bounds (weight l + weight r + 1)). lia.
  - apply within_alpha_spec. cbn [weight] in *.
    pose proof (weight_nonneg l). pose proof (weight_nonneg r).
    pose proof (halves_bounds (weight l + weight r + 1)). lia.
Qed.




(** A tree that keeps the weight bound at every node has no unbalanced node. *)
Lemma unbalanced_spec h t : ∀ par f,
  rep h par t → NoDup (ids t) → (length (ids t) ≤ f)%nat → weight_balanced t →
  Observe.unbalanced f h (rootp t) = Ok [].
Proof.
  induction t as [|l IHl p k v r IHr]; intros par f Hrep Hnd Hf Hwb; [by destruct f|].
  pose proof (rep_fuel _ _ _ Hrep Hnd) as Hfuel.
  pose proof Hrep as (Hp & Hl & Hr).
  rewrite ids_N in Hnd, Hf, Hfuel. rewrite length_app in Hf, Hfuel. simpl in Hf, Hfuel.
  apply NoDup_app in Hnd as (Hndl & _ & Hnd). apply NoDup_cons in Hnd as (_ & Hndr).
  destruct Hwb as (Hwl & Hwr & Hbl & Hbr).
  destruct f as [|f]; [lia|].
  cbn [Observe.unbalanced rootp]. rewrite (load_Some _ _ _ Hp). bind_ok.
  change (Some p) with (rootp (N l p k v r)).
  rewrite (node_size_spec h par (N l p k v r) (fuel h) Hrep)
    by (rewrite ids_N, length_app; simpl; lia).
  bind_ok. cbn [nleft nright].
  rewrite (node_size_spec h (Some p) l (fuel h) Hl) by lia. bind_ok.
  rewrite (node_size_spec h (Some p) r (fuel h) Hr) by lia. bind_ok.
  rewrite (IHl (Some p) f Hl Hndl) by (done || lia). bind_ok.
  rewrite (IHr (Some p) f Hr Hndr) by (done || lia). bind_ok.
  by rewrite Hwl, Hwr.
Qed.

End Shape.
End Shape.

(** * Copying a tree *)

Module Copy.
Import DM852 Abs Basic Ctx Read Flatten Build Rebuild.

Section Copy.
Context {V : Type}.
Implicit Types (h : gmap positive (@Node V)) (t : Tree) (a b l r s : @T V).

(** Copying one child of the new node [n] and hanging it below [n]. *)
Lemma copy_child h f par s n nn (setf : ptr → Node → Node) :
  (∀ h0 par0, rep h0 par0 s → copied h0 s (copy_helper f h0 (rootp s))) →
  rep h par s → h !! n = Some nn → setf None nn = nn →
  (∀ q x, setf q x = set_left q x) ∨ (∀ q x, setf q x = set_right q x) →
  ∃ h2 s',
    match rootp s with
    | None => Ok h
    | Some _ =>
        '(c, h1) ← copy_helper f h (rootp s);
        h1' ← upd h1 n (setf c);
        match c with
        | Some cl => upd h1' cl (set_parent (Some n))
        | None => Ok h1'
        end
    end = Ok h2
    ∧ rep h2 (Some n) s'
    ∧ h2 !! n = Some (setf (rootp s') nn)
    ∧ elems s' = elems s
    ∧ NoDup (ids s')
    ∧ (∀ q, q ∈ ids s' → h !! q = None)
    ∧ (∀ q, is_Some (h !! q) → q ≠ n → h2 !! q = h !! q)
    ∧ (∀ q, h !! q = None → q ∉ ids s' → h2 !! q = None)
    ∧ strip s' = strip s.
Proof.
  intros IH Hrep Hn Hsetf Hset.
  destruct s as [|l p k v r].
  - exists h, E. cbn [rootp]. rewrite Hsetf. split_and!; try done.
    + apply NoDup_nil_2.
    + intros q Hq. by apply elem_of_nil in Hq.
  - destruct (IH h par Hrep)
      as (h1 & s' & Heq & Hrep1 & Hel & Hne & Hnd & Hfresh & Hold & Hnew & Hstrip).
    cbn [rootp] in Heq |- *. rewrite Heq. bind_ok.
    assert (h1 !! n = Some nn) as Hn1 by (rewrite Hold; [done|by eexists]).
    rewrite (upd_Some _ _ _ _ Hn1). bind_ok.
    destruct s' as [|l' p' k' v' r']; [by destruct Hne|].
    cbn [rootp].
    assert (p' ≠ n) as Hpn.
    { intros ->. rewrite Hfresh in Hn; [done|]. rewrite ids_N. set_solver. }
    assert (n ∉ ids (N l' p' k' v' r')) as Hn_out.
    { intros Hin. rewrite (Hfresh _ Hin) in Hn. done. }
    pose proof Hrep1 as (Hp' & _).
    rewrite (upd_Some _ p' (mkNode None (rootp l') (rootp r') k' v'))
      by (by rewrite lookup_insert_ne).
    eexists _, (N l' p' k' v' r'). split; [done|]. split_and!; try done.
    + eapply (rep_set_parent _ None); try done.
      * by rewrite lookup_insert_ne.
      * by apply rep_insert_out.
    + rewrite lookup_insert_ne by done. by rewrite lookup_insert_eq.
    + intros q Hq Hqn. rewrite !lookup_insert_ne; [by apply Hold|done|].
      intros ->. destruct Hq as [x Hx]. rewrite Hfresh in Hx; [done|].
      rewrite ids_N. set_solver.
    + intros q Hq Hqs. rewrite !lookup_insert_ne; [by apply Hnew|..].
      * intros ->. congruence.
      * intros ->. apply Hqs. rewrite ids_N. set_solver.
Qed.

Lemma copy_helper_spec s : ∀ f h par,
  rep h par s → (length (ids s) ≤ f)%nat →
  copied h s (copy_helper f h (rootp s)).
Proof.
  induction s as [|l IHl p k v r IHr]; intros f h par Hrep Hf.
  - exists h, E. split; [by destruct f|]. split_and!; try done.
    + apply NoDup_nil_2.
    + intros q Hq. by apply elem_of_nil in Hq.
  - rewrite ids_N, length_app in Hf. simpl in Hf.
    destruct f as [|f]; [lia|].
    pose proof Hrep as (Hp & Hl & Hr).
    cbn [rootp copy_helper]. rewrite (load_Some _ _ _ Hp). bind_ok.
    unfold new_Node. cbn [nkey nvalue nleft nright].
    set (n := fresh (dom h)). set (nn := mkNode None None None k v).
    set (h0 := <[n := nn]> h).
    assert (h !! n = None) as Hn by apply fresh_None.
    assert (∀ q, is_Some (h !! q) → q ≠ n) as Hold_n.
    { intros q [x Hx] ->. congruence. }
    assert (rep h0 (Some p) l) as Hl0.
    { apply rep_insert_out; [|done]. intros Hin.
      destruct (rep_in_dom _ _ _ _ Hl Hin) as [x Hx]. congruence. }
    destruct (copy_child h0 f (Some p) l n nn set_left)
      as (h2 & l' & -> & Hrepl & Hn2 & Hell & Hndl & Hfl & Holdl & Hnewl & Hsl); try done.
    { intros h1 par1 Hrep1. apply (IHl f h1 par1 Hrep1). lia. }
    { apply lookup_insert_eq. }
    { by left. }
    bind_ok.
    assert (rep h2 (Some p) r) as Hr2.
    { eapply rep_agree; [|exact Hr]. intros q Hq.
      destruct (rep_in_dom _ _ _ _ Hr Hq) as [x Hx].
      rewrite Holdl.
      - unfold h0. rewrite lookup_insert_ne; [done|]. intros ->. congruence.
      - unfold h0. rewrite lookup_insert_ne; [by eexists|]. intros ->. congruence.
      - intros ->. congruence. }
    destruct (copy_child h2 f (Some p) r n (set_left (rootp l') nn) set_right)
      as (h4 & r' & -> & Hrepr & Hn4 & Helr & Hndr & Hfr & Holdr & Hnewr & Hsr); try done.
    { intros h1 par1 Hrep1. apply (IHr f h1 par1 Hrep1). lia. }
    { by right. }
    bind_ok.
    assert (∀ q, q ∈ ids l' → q ≠ n ∧ h !! q = None ∧ is_Some (h2 !! q)) as Hl'_in.
    { intros q Hq. pose proof (Hfl _ Hq) as Hq0. unfold h0 in Hq0.
      apply lookup_insert_None in Hq0 as (Hq0 & Hne).
      split_and!; [done|done|]. exact (rep_in_dom _ _ _ _ Hrepl Hq). }
    assert (∀ q, q ∈ ids r' → q ≠ n ∧ h !! q = None ∧ q ∉ ids l') as Hr'_in.
    { intros q Hq. pose proof (Hfr _ Hq) as Hq2.
      assert (q ≠ n) as Hne by (intros ->; congruence).
      split_and!; [done| |].
      - destruct (h !! q) as [x|] eqn:Hx; [|done].
        rewrite Holdl in Hq2; [|unfold h0; rewrite lookup_insert_ne by done; by eexists|done].
        unfold h0 in Hq2. rewrite lookup_insert_ne in Hq2 by done. congruence.
      - intros Hin. destruct (Hl'_in _ Hin) as (_ & _ & [x Hx]). congruence. }
    exists h4, (N l' n k v r'). split; [done|]. split_and!.
    + split_and!; [done| |done].
      eapply rep_agree; [|exact Hrepl]. intros q Hq.
      destruct (Hl'_in _ Hq) as (Hne & _ & Hsome). by apply Holdr.
    + by rewrite !elems_N, Hell, Helr.
    + done.
    + rewrite ids_N. apply NoDup_app. split_and!; [done| |].
      * intros q Hq Hq'. apply elem_of_cons in Hq' as [->|Hq'].
        -- by destruct (Hl'_in _ Hq) as (? & _).
        -- by destruct (Hr'_in _ Hq') as (_ & _ & ?).
      * apply NoDup_cons. split; [|done]. intros Hin.
        by destruct (Hr'_in _ Hin) as (? & _).
    + intros q Hq. rewrite ids_N in Hq.
      apply elem_of_app in Hq as [Hq|Hq]; [by destruct (Hl'_in _ Hq) as (_ & ? & _)|].
      apply elem_of_cons in Hq as [->|Hq]; [done|by destruct (Hr'_in _ Hq) as (_ & ? & _)].
    + intros q Hq. pose proof (Hold_n _ Hq) as Hne.
      assert (is_Some (h0 !! q)) as Hq0 by (unfold h0; by rewrite lookup_insert_ne).
      rewrite Holdr; [|by rewrite Holdl|done].
      rewrite Holdl by done. unfold h0. by rewrite lookup_insert_ne.
    + intros q Hq Hqs. rewrite ids_N in Hqs.
      apply Hnewr; [|set_solver].
      apply Hnewl; [|set_solver].
      unfold h0. rewrite lookup_insert_ne; [done|]. set_solver.
    + cbn [strip]. by rewrite Hsl, Hsr.
Qed.

Lemma copy_from_empty h (other : @Tree) :
  root other = None → copy_from h other = NullDeref.
Proof. intros Hroot. unfold copy_from. by rewrite Hroot. Qed.

Lemma copy_from_holds h (other : @Tree) a :
  holds other h a → root other ≠ None →
  ∃ t' h' a',
    copy_from h other = Ok (t', h')
    ∧ holds t' h' a'
    ∧ elems a' = elems a
    ∧ holds other h' a
    ∧ (∀ q, q ∈ ids a' → h !! q = None)
    ∧ (∀ q, is_Some (h !! q) → h' !! q = h !! q)
    ∧ (∀ q, q ∉ ids a' → h' !! q = h !! q)
    ∧ strip a' = strip a.
Proof.
  intros [Hrep Hnd Hbst Hroot Hfirst Hlast Hsize] Hne.
  destruct (copy_helper_spec a (fuel h) h None Hrep)
    as (h' & a' & Heq & Hrep' & Hel & Hne' & Hnd' & Hfresh & Hold & Hnew & Hstrip).
  { pose proof (rep_fuel _ _ _ Hrep Hnd). lia. }
  unfold copy_from. rewrite Hroot in Hne |- *.
  destruct (rootp a) as [ra|] eqn:Hra; [|done].
  rewrite Heq. bind_ok.
  destruct a' as [|l' p' k' v' r'].
  { destruct Hne'; [|done]. intros ->. done. }
  set (a' := N l' p' k' v' r') in *.
  pose proof (rep_fuel _ _ _ Hrep' Hnd') as Hfuel.
  destruct (descend_left_spec h' None a' p' (fuel h') Hrep' eq_refl) as (f & Hf & Hdl);
    [lia|].
  destruct (descend_right_spec h' None a' p' (fuel h') Hrep' eq_refl) as (z & Hz & Hdr);
    [lia|].
  change (rootp a') with (Some p'). cbn [deref]. bind_ok.
  rewrite Hdl. bind_ok. rewrite Hdr. bind_ok.
  eexists _, h', a'. split; [done|]. split_and!; try done.
  - split; cbn [root tfirst tlast tree_size]; try done.
    + unfold bst, keys. by rewrite Hel.
    + rewrite Hsize, !weight_nodes.
      rewrite <- (length_fmap snd (nodes a')), <- (length_fmap snd (nodes a)).
      fold (elems a') (elems a). by rewrite Hel.
  - split; try done.
    + eapply rep_agree; [|exact Hrep]. intros q Hq. apply Hold.
      by eapply rep_in_dom.
    + by rewrite Hroot.
  - intros q Hq. destruct (h !! q) as [n|] eqn:Hn.
    + rewrite <- Hn. apply Hold. rewrite Hn. by eexists.
    + by apply Hnew.
Qed.

(** The same for a tree of which only the links are known; the copy has
    the right [last] whatever the source's was. *)
Lemma copy_from_links h (other : @Tree) a :
  links other h a → root other ≠ None →
  ∃ t' h' a',
    copy_from h other = Ok (t', h')
    ∧ links t' h' a'
    ∧ elems a' = elems a
    ∧ links other h' a
    ∧ (∀ q, q ∈ ids a' → h !! q = None)
    ∧ (∀ q, is_Some (h !! q) → h' !! q = h !! q)
    ∧ (∀ q, q ∉ ids a' → h' !! q = h !! q)
    ∧ strip a' = strip a
    ∧ tree_size t' = tree_size other.
Proof.
  intros [Hrep Hnd Hbst Hroot Hfirst Hsize] Hne.
  destruct (copy_helper_spec a (fuel h) h None Hrep)
    as (h' & a' & Heq & Hrep' & Hel & Hne' & Hnd' & Hfresh & Hold & Hnew & Hstrip).
  { pose proof (rep_fuel _ _ _ Hrep Hnd). lia. }
  unfold copy_from. rewrite Hroot in Hne |- *.
  destruct (rootp a) as [ra|] eqn:Hra; [|done].
  rewrite Heq. bind_ok.
  destruct a' as [|l' p' k' v' r'].
  { destruct Hne'; [|done]. intros ->. done. }
  set (a' := N l' p' k' v' r') in *.
  pose proof (rep_fuel _ _ _ Hrep' Hnd') as Hfuel.
  destruct (descend_left_spec h' None a' p' (fuel h') Hrep' eq_refl) as (f & Hf & Hdl);
    [lia|].
  destruct (descend_right_spec h' None a' p' (fuel h') Hrep' eq_refl) as (z & Hz & Hdr);
    [lia|].
  change (rootp a') with (Some p'). cbn [deref]. bind_ok.
  rewrite Hdl. bind_ok. rewrite Hdr. bind_ok.
  eexists _, h', a'. split; [done|]. split_and!; try done.
  - split; cbn [root tfirst tlast tree_size]; try done.
    + unfold bst, keys. by rewrite Hel.
    + assert (weight a' = weight a) as ->; [|done]. rewrite !weight_nodes.
      rewrite <- (length_fmap snd (nodes a')), <- (length_fmap snd (nodes a)).
      fold (elems a') (elems a). by rewrite Hel.
  - split; try done.
    + eapply rep_agree; [|exact Hrep]. intros q Hq. apply Hold.
      by eapply rep_in_dom.
    + by rewrite Hroot.
  - intros q Hq. destruct (h !! q) as [n|] eqn:Hn.
    + rewrite <- Hn. apply Hold. rewrite Hn. by eexists.
    + by apply Hnew.
Qed.

(** [delete root] frees a whole tree and nothing else. *)
Lemma delete_tree_spec s : ∀ f h par,
  rep h par s → NoDup (ids s) → (length (ids s) ≤ f)%nat →
  ∃ h', delete_Node f h (rootp s) = Ok h'
    ∧ (∀ q, q ∉ ids s → h' !! q = h !! q)
    ∧ (∀ q, q ∈ ids s → h' !! q = None).
Proof.
  induction s as [|l IHl p k v r IHr]; intros f h par Hrep Hnd Hf.
  - exists h. split; [by destruct f|]. split; [done|].
    intros q Hq. by apply elem_of_nil in Hq.
  - pose proof Hrep as (Hp & Hl & Hr).
    rewrite ids_N in Hnd, Hf. rewrite length_app in Hf. simpl in Hf.
    apply NoDup_app in Hnd as (Hndl & Hdisj & Hnd).
    apply NoDup_cons in Hnd as (Hpr & Hndr).
    destruct f as [|f]; [lia|].
    cbn [rootp delete_Node]. rewrite (load_Some _ _ _ Hp). bind_ok. cbn [nleft nright].
    destruct (IHl f h (Some p) Hl Hndl) as (h1 & -> & Hfr1 & Hfree1); [lia|]. bind_ok.
    assert (rep h1 (Some p) r) as Hr1.
    { eapply rep_agree; [|exact Hr]. intros q Hq. apply Hfr1. intros Hql.
      apply (Hdisj q Hql). by right. }
    destruct (IHr f h1 (Some p) Hr1 Hndr) as (h2 & -> & Hfr2 & Hfree2); [lia|]. bind_ok.
    eexists. split; [done|]. split.
    + intros q Hq. rewrite ids_N in Hq.
      apply not_elem_of_app in Hq as (Hql & Hq).
      apply not_elem_of_cons in Hq as (Hqp & Hqr).
      rewrite lookup_delete_ne by done. rewrite Hfr2 by done. by apply Hfr1.
    + intros q Hq. rewrite ids_N in Hq.
      destruct (decide (q = p)) as [->|Hqp]; [by rewrite lookup_delete_eq|].
      rewrite lookup_delete_ne by done.
      apply elem_of_app in Hq as [Hq|Hq].
      * rewrite Hfr2; [by apply Hfree1|]. intros Hqr. apply (Hdisj q Hq). by right.
      * apply elem_of_cons in Hq as [->|Hq]; [done|]. by apply Hfree2.
Qed.

(** Assigning from a tree with a null root: the old nodes are freed, then
    the scan for [first] dereferences the null root. *)
Lemma copy_assign_empty h (this other : @Tree) b :
  links this h b → root other = None → copy_assign this h other = NullDeref.
Proof.
  intros [Hrep Hnd _ Hroot _ _] Ho. unfold copy_assign. rewrite Hroot.
  destruct (delete_tree_spec b (fuel h) h None Hrep Hnd) as (h1 & -> & _).
  { pose proof (rep_fuel _ _ _ Hrep Hnd). lia. }
  bind_ok. by apply copy_from_empty.
Qed.

End Copy.
End Copy.

(** * The invariants along a run

    Two invariants are carried along a run.  [links] (the search tree under
    [root], and [first]) holds in every state that a run reaches.  [holds]
    (with [last] and the node count as well) holds as long as the tree has
    had at most [2^24] nodes, the sizes that [build] receives unchanged
    through its [float] parameter. *)

Module Invariant.
Import DM852 Abs Trace Session Basic Ctx Read Flatten Build Rebuild Order Scapegoat Insert Shift Unlink Erase Shape.

Section Invariant.
Context {V : Type} `{!EqDecision V} `{!Inhabited V} `{!HAlpha}.
Implicit Types (h : gmap positive (@Node V)) (t : Tree) (a b l r s : @T V) (c : list (@frame V)).
Implicit Types (es : list (loc * (Z * V))).

Lemma holds_init h : holds Tree_new h E.
Proof. split; try done; [apply NoDup_nil_2|constructor]. Qed.

Lemma links_init h : links Tree_new h E.
Proof. apply holds_links, holds_init. Qed.

Lemma find_links t h a x :
  links t h a → find t h x = Ok (rootp (locate x a []).2).
Proof.
  intros [Hrep Hnd _ Hroot _ _]. unfold find. rewrite Hroot.
  apply (find_loop_spec h None a [] x (fuel h) Hrep). by eapply rep_fuel.
Qed.

Lemma find_spec t h a x :
  holds t h a → find t h x = Ok (rootp (locate x a []).2).
Proof. intros Hh. by apply find_links, holds_links. Qed.

Lemma entries_links t h a : links t h a → Observe.entries t h = Ok (elems a).
Proof.
  intros [Hrep Hnd _ Hroot _ _]. unfold Observe.entries. rewrite Hroot.
  apply (inorder_spec h None a (fuel h) Hrep).
  pose proof (rep_fuel _ _ _ Hrep Hnd). lia.
Qed.

Lemma entries_spec t h a : holds t h a → Observe.entries t h = Ok (elems a).
Proof. intros Hh. by apply entries_links, holds_links. Qed.

Lemma locate_cases x a :
  (∃ c, locate x a [] = (c, E))
  ∨ (∃ c l p k v r, locate x a [] = (c, N l p k (v : V) r)).
Proof.
  destruct (locate x a []) as [c [|l p k v r]] eqn:Hloc; [left|right]; eauto 10.
Qed.

Lemma links_in_dom t h a q : links t h a → q ∈ ids a → is_Some (h !! q).
Proof. intros [Hrep _ _ _ _ _] Hq. by eapply rep_in_dom. Qed.

Lemma links_agree t h h' a :
  links t h a → (∀ q, q ∈ ids a → h' !! q = h !! q) → links t h' a.
Proof.
  intros [Hrep Hnd Hbst Hroot Hfirst Hsize] Hag. split; try done.
  by eapply rep_agree.
Qed.

Lemma confined_refl h a a' : ids a' = ids a → confined h a h a'.
Proof. intros Hi. split; [done|]. intros q Hq. left. by rewrite <- Hi. Qed.

Lemma confined_trans h a h1 a1 h2 a2 :
  confined h a h1 a1 → confined h1 a1 h2 a2 → confined h a h2 a2.
Proof.
  intros (Ho1 & Hn1) (Ho2 & Hn2). split.
  - intros q Hq Hqa. rewrite <- (Ho1 q Hq Hqa). apply Ho2.
    + by rewrite (Ho1 q Hq Hqa).
    + intros Hq1. destruct (Hn1 q Hq1) as [?|Hnone]; [done|].
      rewrite Hnone in Hq. by destruct Hq.
  - intros q Hq2. destruct (Hn2 q Hq2) as [Hq1|Hnone]; [by apply Hn1|].
    destruct (decide (q ∈ ids a)) as [?|Hqa]; [by left|]. right.
    destruct (h !! q) as [n|] eqn:Hn; [|done].
    rewrite <- (Ho1 q) in Hn; [congruence| |done].
    destruct (h !! q) eqn:E'; [by eexists|].
    rewrite Ho1 in Hnone; [congruence| |done]. by rewrite E'.
Qed.

(** ** Every run *)

(** An [insert] that returns leaves a search tree, made of cells of the old
    one and of fresh cells, and leaves the other cells alone. *)
Lemma insert_links t h a x v res :
  links t h a → insert t h x v = Ok res →
  ∃ p (ch : bool) t' h' a',
    res = ((Some p, ch), (t', h'))
    ∧ links t' h' a'
    ∧ confined h a h' a'.
Proof.
  intros Hl Hi. destruct (locate_cases x a) as [(c & Hloc)|(c & l & p & k & v0 & r & Hloc)].
  - destruct (insert_fell_gen t h a x v c Hl Hloc)
      as [(t' & h' & a' & p & Hi' & Hl' & Hp & Hna & Hna' & Hfr & _)|(_ & Hbad)];
      [|by destruct (Hbad res)].
    rewrite Hi' in Hi. injection Hi as <-.
    exists p, true, t', h', a'. split_and!; try done. split.
    + intros q Hq Hqa. apply Hfr; [done|]. intros ->. rewrite Hp in Hq. by destruct Hq.
    + intros q Hq.
      pose proof (elem_of_sublist _ _ _ Hq (fmap_sublist fst _ _ Hna')) as Hq'.
      unfold ids. rewrite Hna. rewrite fmap_app in Hq' |- *. cbn in Hq'.
      apply elem_of_app in Hq' as [?|Hq']; [left; set_solver|].
      apply elem_of_cons in Hq' as [->|?]; [by right|left; set_solver].
  - destruct (insert_found_links t h a x v c l p k v0 r Hl Hloc)
      as (Hi' & Hl' & -> & -> & Hp).
    rewrite Hi' in Hi. injection Hi as <-.
    eexists p, _, t, _, _. split_and!; [done|exact Hl'|]. split.
    + intros q Hq Hqa. rewrite lookup_insert_ne; [done|]. intros <-. apply Hqa.
      rewrite ids_plug, ids_N. set_solver.
    + intros q Hq. left. by rewrite !ids_plug, !ids_N in Hq |- *.
Qed.

Lemma erase_links t h a x t' h' :
  links t h a → erase t h x = Ok (t', h') →
  ∃ a', links t' h' a' ∧ confined h a h' a'.
Proof.
  intros Hl He. destruct (locate_cases x a) as [(c & Hloc)|(c & l & p & k & v0 & r & Hloc)].
  - rewrite (erase_missing_links t h a x c Hl Hloc) in He. discriminate.
  - destruct (erase_found_gen t h a x c l p k v0 r Hl Hloc)
      as [(t2 & h2 & a2 & He2 & Hl2 & Hna & Hna' & _ & Hfr & _)|(_ & Hbad)];
      [|by destruct (Hbad (t', h'))].
    rewrite He2 in He. injection He as <- <-.
    exists a2. split; [done|]. split.
    + intros q _ Hqa. by apply Hfr.
    + intros q Hq. left.
      pose proof (elem_of_sublist _ _ _ Hq (fmap_sublist fst _ _ Hna')) as Hq'.
      unfold ids. rewrite Hna. rewrite !fmap_app in Hq' |- *.
      rewrite fmap_cons, fmap_app. set_solver.
Qed.

Lemma step_links (s s' : @Trace.state V) (o : @op V) a :
  links s.1 s.2 a → step s o = Ok s' →
  ∃ a', links s'.1 s'.2 a' ∧ confined s.2 a s'.2 a'.
Proof.
  intros Hl Hs. destruct s as [t h]. destruct o as [k v|k]; cbn [step fst snd] in *.
  - apply bind_Ok_inv in Hs as (res & Hi & Hs).
    destruct (insert_links t h a k v res Hl Hi) as (p & ch & t' & h' & a' & -> & Hl' & Hc).
    injection Hs as <-. by exists a'.
  - destruct s' as [t' h']. by eapply erase_links.
Qed.

Lemma run_links (ops : list (@op V)) : ∀ (s s' : @Trace.state V) a,
  links s.1 s.2 a → run ops s = Ok s' →
  ∃ a', links s'.1 s'.2 a' ∧ confined s.2 a s'.2 a'.
Proof.
  induction ops as [|o ops IH]; intros s s' a Hl Hr; simpl in Hr.
  - injection Hr as <-. exists a. split; [done|]. by apply confined_refl.
  - apply bind_Ok_inv in Hr as (s1 & Hs & Hr).
    destruct (step_links s s1 o a Hl Hs) as (a1 & Hl1 & Hc1).
    destruct (IH s1 s' a1 Hl1 Hr) as (a' & Hl' & Hc').
    exists a'. split; [done|]. by eapply confined_trans.
Qed.

(** Every state reached from the empty tree is a search tree. *)
Lemma reachable_links (ops : list (@op V)) h0 t h :
  run ops (Tree_new, h0) = Ok (t, h) → ∃ a, links t h a.
Proof.
  intros Hr.
  destruct (run_links ops (Tree_new, h0) (t, h) E (links_init h0) Hr) as (a & Hl & _).
  by exists a.
Qed.

(** ** Runs of at most [2^24] operations *)

(** [insert] returns on every well-formed tree of fewer than [2^24] nodes,
    and keeps it well-formed. *)
Lemma insert_holds t h a x v :
  holds t h a → weight a < 2 ^ 24 →
  ∃ p (ch : bool) t' h' a',
    insert t h x v = Ok ((Some p, ch), (t', h'))
    ∧ holds t' h' a'
    ∧ (p, (x, v)) ∈ nodes a'
    ∧ weight a' ≤ weight a + 1.
Proof.
  intros Hh Hsmall.
  destruct (locate_cases x a) as [(c & Hloc)|(c & l & p & k & v0 & r & Hloc)].
  - destruct (insert_fell t h a x v c Hh Hsmall Hloc)
      as (t' & h' & a' & p & Hi & Hh' & _ & Hna & Hn).
    exists p, true, t', h', a'. split_and!; try done.
    + rewrite Hn. set_solver.
    + rewrite !weight_nodes, Hn, Hna, !length_app. simpl. lia.
  - destruct (insert_found t h a x v c l p k v0 r Hh Hloc) as (Hi & Hh' & -> & -> & _).
    eexists p, _, t, _, _. split_and!; [done|exact Hh'| |].
    + rewrite nodes_plug. simpl. set_solver.
    + rewrite !weight_nodes, !nodes_plug. simpl. rewrite !length_app. simpl.
      lia.
Qed.

Lemma erase_holds t h a x t' h' :
  holds t h a → weight a ≤ 2 ^ 24 → erase t h x = Ok (t', h') →
  ∃ a', holds t' h' a' ∧ weight a' ≤ weight a.
Proof.
  intros Hh Hsmall He.
  destruct (locate_cases x a) as [(c & Hloc)|(c & l & p & k & v0 & r & Hloc)].
  - rewrite (erase_missing t h a x c Hh Hloc) in He. discriminate.
  - destruct (erase_found t h a x c l p k v0 r Hh Hsmall Hloc)
      as (t2 & h2 & a2 & He2 & Hh2 & Hna & Hna' & _).
    rewrite He2 in He. injection He as <- <-. exists a2. split; [done|].
    rewrite !weight_nodes, Hna, Hna', !length_app. simpl. rewrite !length_app. lia.
Qed.

Lemma step_holds (s s' : @Trace.state V) (o : @op V) a :
  holds s.1 s.2 a → weight a < 2 ^ 24 → step s o = Ok s' →
  ∃ a', holds s'.1 s'.2 a' ∧ weight a' ≤ weight a + 1.
Proof.
  intros Hh Hsmall Hs. destruct s as [t h]. destruct o as [k v|k]; cbn [step fst snd] in *.
  - destruct (insert_holds t h a k v Hh Hsmall) as (p & ch & t' & h' & a' & Hi & Hh' & _ & Hw).
    rewrite Hi in Hs. simpl in Hs. injection Hs as <-. by exists a'.
  - destruct s' as [t' h'].
    destruct (erase_holds t h a k t' h' Hh ltac:(lia) Hs) as (a' & Hh' & Hw).
    exists a'. split; [done|lia].
Qed.

Lemma run_holds (ops : list (@op V)) : ∀ (s s' : @Trace.state V) a,
  holds s.1 s.2 a → weight a + Z.of_nat (length ops) ≤ 2 ^ 24 → run ops s = Ok s' →
  ∃ a', holds s'.1 s'.2 a' ∧ weight a' ≤ weight a + Z.of_nat (length ops).
Proof.
  induction ops as [|o ops IH]; intros s s' a Hh Hsmall Hr; simpl in Hr.
  - injection Hr as <-. exists a. split; [done|]. simpl. lia.
  - apply bind_Ok_inv in Hr as (s1 & Hs & Hr). cbn [length] in Hsmall |- *.
    destruct (step_holds s s1 o a Hh ltac:(lia) Hs) as (a1 & Hh1 & Hw1).
    destruct (IH s1 s' a1 Hh1 ltac:(lia) Hr) as (a' & Hh' & Hw').
    exists a'. split; [done|lia].
Qed.

(** Every state reached from the empty tree by at most [2^24] operations
    is well-formed. *)
Lemma reachable_holds (ops : list (@op V)) h0 t h :
  run ops (Tree_new, h0) = Ok (t, h) → Z.of_nat (length ops) ≤ 2 ^ 24 →
  ∃ a, holds t h a ∧ weight a ≤ Z.of_nat (length ops).
Proof.
  intros Hr Hsmall.
  destruct (run_holds ops (Tree_new, h0) (t, h) E (holds_init h0)) as (a & Hh & Hw);
    [simpl; lia|done|].
  exists a. split; [done|]. simpl in Hw. lia.
Qed.

Lemma reachable_wf (ops : list (@op V)) h0 t h :
  run ops (Tree_new, h0) = Ok (t, h) → Z.of_nat (length ops) ≤ 2 ^ 24 → wf t h.
Proof.
  intros Hr Hsmall. destruct (reachable_holds ops h0 t h Hr Hsmall) as (a & Hh & _).
  by exists a.
Qed.

End Invariant.
End Invariant.

(** * Properties of every reachable tree *)

Module Properties.
Import DM852 Observe Abs Trace Basic Ctx Read Flatten Build Rebuild Order Scapegoat Insert Shift Unlink Erase Shape Invariant.

Section Properties.
Context {V : Type} `{!EqDecision V} `{!Inhabited V} `{!HAlpha}.
Implicit Types (h : gmap positive (@Node V)) (t : Tree) (a b l r s : @T V) (c : list (@frame V)).
Implicit Types (ops : list (@op V)).

Lemma elems_plug_node c l p k (v : V) r :
  elems (plug c (N l p k v r))
  = ((cleft c).*2 ++ elems l) ++ (k, v) :: elems r ++ (cright c).*2.
Proof.
  unfold elems. rewrite nodes_plug. simpl.
  rewrite !fmap_app, fmap_cons, <- !app_assoc. done.
Qed.

(** The search for a stored key ends at its node. *)
Lemma locate_node a p k (v : V) :
  bst a → (p, (k, v)) ∈ nodes a → ∃ c l r, locate k a [] = (c, N l p k v r).
Proof.
  intros Hbst Hin.
  assert (k ∈ keys a) as Hk.
  { rewrite keys_nodes. apply list_elem_of_fmap. exists (k, v). split; [done|].
    apply list_elem_of_fmap. exists (p, (k, v)). done. }
  apply (locate_elem k a []) in Hk; [|done].
  destruct (locate k a []) as [c [|l p' k' v' r]] eqn:Hloc; [done|].
  pose proof (locate_found k a [] l p' k' v' r) as Hk'. rewrite Hloc in Hk'.
  specialize (Hk' eq_refl). subst k'.
  pose proof (locate_plug k a []) as Hplug. rewrite Hloc in Hplug. cbn in Hplug.
  assert ((p', (k, v')) ∈ nodes a) as Hin'.
  { rewrite <- Hplug, nodes_plug. simpl. set_solver. }
  destruct (bst_key_unique a p p' k v v' Hbst Hin Hin') as (-> & ->).
  eauto.
Qed.

(** [find] on a stored key returns its node. *)
Lemma find_node_links t h a p k (v : V) :
  links t h a → (p, (k, v)) ∈ nodes a →
  find t h k = Ok (Some p)
  ∧ ∃ n, h !! p = Some n ∧ nkey n = k ∧ nvalue n = v.
Proof.
  intros Hl Hin. destruct (locate_node a p k v (links_bst _ _ _ Hl) Hin) as (c & l & r & Hloc).
  split.
  - rewrite (find_links t h a k Hl), Hloc. done.
  - pose proof (locate_plug k a []) as Hplug. rewrite Hloc in Hplug. cbn in Hplug.
    pose proof (links_rep _ _ _ Hl) as Hrep. rewrite <- Hplug in Hrep.
    apply rep_plug in Hrep as ((Hp & _) & _). eauto.
Qed.

Lemma find_node t h a p k (v : V) :
  holds t h a → (p, (k, v)) ∈ nodes a →
  find t h k = Ok (Some p)
  ∧ ∃ n, h !! p = Some n ∧ nkey n = k ∧ nvalue n = v.
Proof. intros Hh. by apply find_node_links, holds_links. Qed.

(** [find] on a key that is not stored returns the past-the-end position. *)
Lemma find_absent_links t h a k :
  links t h a → k ∉ keys a → find t h k = Ok None.
Proof.
  intros Hl Hk. rewrite (find_links t h a k Hl).
  destruct (locate k a []) as [c s] eqn:Hloc. destruct s as [|l p k' v r]; [done|].
  exfalso. apply Hk. apply (locate_elem k a []); [apply Hl|]. by rewrite Hloc.
Qed.

Lemma find_absent t h a k :
  holds t h a → k ∉ keys a → find t h k = Ok None.
Proof. intros Hh. by apply find_absent_links, holds_links. Qed.

(** Inserting an entry that is already stored changes nothing. *)
Lemma insert_again t h a p k (v : V) :
  links t h a → (p, (k, v)) ∈ nodes a →
  insert t h k v = Ok ((Some p, false), (t, h)).
Proof.
  intros Hl Hin. destruct (locate_node a p k v (links_bst _ _ _ Hl) Hin) as (c & l & r & Hloc).
  destruct (insert_found_links t h a k v c l p k v r Hl Hloc) as (Hi & _ & _ & _ & Hp).
  rewrite Hi. rewrite bool_decide_eq_false_2 by (intros Hne; by apply Hne).
  by rewrite insert_id.
Qed.

(** A key that is not among the nodes kept from a tree without it. *)
Lemma erased_key_absent (A B : list (loc * (Z * V))) p k v (ns : list (loc * (Z * V))) :
  StronglySorted Z.lt (A ++ (p, (k, v)) :: B).*2.*1 →
  ns `sublist_of` A ++ B → k ∉ ns.*2.*1.
Proof.
  intros Hs Hsub Hin. apply sorted_NoDup in Hs.
  rewrite !fmap_app, !fmap_cons in Hs. cbn in Hs.
  apply NoDup_app in Hs as (_ & Hd & Hnd). apply NoDup_cons in Hnd as (Hk & _).
  pose proof (elem_of_sublist _ _ _ Hin
                (fmap_sublist fst _ _ (fmap_sublist snd _ _ Hsub))) as Hin'.
  rewrite !fmap_app in Hin'. apply elem_of_app in Hin' as [Hin'|Hin']; [|done].
  apply (Hd _ Hin'). set_solver.
Qed.

(** C5: after every sequence of inserts and erases from the empty tree the
    entries read in order have strictly increasing keys, hence no key
    occurs twice; and [insert] on a stored key returns, replaces the value
    of that entry in place and adds no entry. *)
Theorem order_invariant ops h0 t h :
  run ops (Tree_new, h0) = Ok (t, h) →
  ∃ es,
    entries t h = Ok es
    ∧ StronglySorted Z.lt es.*1
    ∧ NoDup es.*1
    ∧ (∀ k v, k ∈ es.*1 →
         ∃ p ch t' h' A v0 B,
           insert t h k v = Ok ((Some p, ch), (t', h'))
           ∧ es = A ++ (k, v0) :: B
           ∧ entries t' h' = Ok (A ++ (k, v) :: B)
           ∧ size t' = size t).
Proof.
  intros Hrun. destruct (reachable_links ops h0 t h Hrun) as (a & Hl).
  exists (elems a). split_and!.
  - by apply entries_links.
  - apply Hl.
  - apply sorted_NoDup, Hl.
  - intros k v Hk.
    apply (locate_elem k a []) in Hk; [|apply Hl].
    destruct (locate k a []) as [c [|l p k' v0 r]] eqn:Hloc; [done|].
    destruct (insert_found_links t h a k v c l p k' v0 r Hl Hloc)
      as (Hi & Hl' & -> & -> & _).
    eexists p, _, t, _, _, v0, _. split; [exact Hi|]. split_and!.
    + apply elems_plug_node.
    + rewrite (entries_links _ _ _ Hl'). f_equal. apply elems_plug_node.
    + done.
Qed.

(** On every tree reached from the empty one by fewer than [2^24]
    operations, [insert(key, value)] followed by the same [insert] leaves
    the tree and the heap as the first call left them and reports [false];
    and an [insert] whose key [find] locates at a node [q] returns [q],
    reports whether the value differs from the stored one, and changes
    nothing but the value of [q]. *)
Theorem insert_twice_small ops h0 t h k v :
  run ops (Tree_new, h0) = Ok (t, h) → Z.of_nat (length ops) < 2 ^ 24 →
  ∃ p ch t1 h1,
    insert t h k v = Ok ((Some p, ch), (t1, h1))
    ∧ insert t1 h1 k v = Ok ((Some p, false), (t1, h1))
    ∧ (∀ q, find t h k = Ok (Some q) →
         ∃ n, h !! q = Some n ∧ p = q ∧ ch = bool_decide (v ≠ nvalue n)
              ∧ t1 = t ∧ h1 = <[q := set_value v n]> h).
Proof.
  intros Hrun Hlen.
  destruct (reachable_holds ops h0 t h Hrun ltac:(lia)) as (a & Hh & Hw).
  destruct (locate_cases k a) as [(c & Hloc)|(c & l & p & k' & v0 & r & Hloc)].
  - destruct (insert_fell t h a k v c Hh ltac:(lia) Hloc)
      as (t' & h' & a' & p & Hi & Hh' & _ & _ & Hn).
    exists p, true, t', h'. split; [done|]. split.
    + apply (insert_again t' h' a'); [by apply holds_links|]. rewrite Hn. set_solver.
    + intros q Hq. rewrite (find_spec t h a k Hh), Hloc in Hq. done.
  - destruct (insert_found t h a k v c l p k' v0 r Hh Hloc) as (Hi & Hh' & -> & Ha & Hp).
    eexists p, _, t, _. split; [exact Hi|]. split.
    + eapply insert_again; [apply holds_links; exact Hh'|]. rewrite nodes_plug. simpl.
      set_solver.
    + intros q Hq. rewrite (find_spec t h a k Hh), Hloc in Hq. injection Hq as <-.
      eexists. split; [exact Hp|]. done.
Qed.

(** After every sequence of inserts and erases from the empty tree, an
    [insert] whose key [find] locates at a node [q] returns [q], reports
    whether the value differs from the stored one, changes nothing but the
    value of [q], and the same [insert] once more reports [false] and
    changes nothing. *)
Theorem insert_stored_in_place ops h0 t h k v q :
  run ops (Tree_new, h0) = Ok (t, h) →
  find t h k = Ok (Some q) →
  ∃ n, h !! q = Some n
       ∧ insert t h k v
         = Ok ((Some q, bool_decide (v ≠ nvalue n)), (t, <[q := set_value v n]> h))
       ∧ insert t (<[q := set_value v n]> h) k v
         = Ok ((Some q, false), (t, <[q := set_value v n]> h)).
Proof.
  intros Hrun Hq. destruct (reachable_links ops h0 t h Hrun) as (a & Hl).
  rewrite (find_links t h a k Hl) in Hq.
  destruct (locate k a []) as [c [|l p k' v0 r]] eqn:Hloc; [done|].
  injection Hq as <-.
  destruct (insert_found_links t h a k v c l p k' v0 r Hl Hloc) as (Hi & Hl' & -> & Ha & Hp).
  eexists. split; [exact Hp|]. split; [exact Hi|].
  eapply insert_again; [exact Hl'|]. rewrite nodes_plug. simpl. set_solver.
Qed.

(** On every tree reached from the empty one by fewer than [2^24]
    operations, [find(key)] right after [insert(key, value)] returns the
    node that [insert] returned, and that node holds the key and the value;
    [find(key)] right after an [erase(key)] that returned gives the
    past-the-end position; and [erase(key)] returns whenever [find(key)]
    finds the key. *)
Theorem find_after_update_small ops h0 t h :
  run ops (Tree_new, h0) = Ok (t, h) → Z.of_nat (length ops) < 2 ^ 24 →
  (∀ k v, ∃ p ch t' h' n,
     insert t h k v = Ok ((Some p, ch), (t', h'))
     ∧ find t' h' k = Ok (Some p)
     ∧ h' !! p = Some n ∧ nkey n = k ∧ nvalue n = v)
  ∧ (∀ k t' h', erase t h k = Ok (t', h') → find t' h' k = Ok tend)
  ∧ (∀ k p, find t h k = Ok (Some p) → ∃ t' h', erase t h k = Ok (t', h')).
Proof.
  intros Hrun Hlen.
  destruct (reachable_holds ops h0 t h Hrun ltac:(lia)) as (a & Hh & Hw). split_and!.
  - intros k v.
    destruct (insert_holds t h a k v Hh ltac:(lia)) as (p & ch & t' & h' & a' & Hi & Hh' & Hin & _).
    destruct (find_node t' h' a' p k v Hh' Hin) as (Hf & n & Hn & Hk & Hv).
    exists p, ch, t', h', n. done.
  - intros k t' h' He.
    destruct (locate_cases k a) as [(c & Hloc)|(c & l & p & k' & v0 & r & Hloc)].
    + rewrite (erase_missing t h a k c Hh Hloc) in He. discriminate.
    + destruct (erase_found t h a k c l p k' v0 r Hh ltac:(lia) Hloc)
        as (t2 & h2 & a2 & He2 & Hh2 & Hna & Hna2 & -> & _).
      rewrite He2 in He. injection He as <- <-.
      apply (find_absent t2 h2 a2); [done|]. rewrite keys_nodes.
      apply (erased_key_absent (cleft c ++ nodes l) (nodes r ++ cright c) p k v0).
      * pose proof (holds_bst _ _ _ Hh) as Hbst. unfold bst in Hbst.
        rewrite keys_nodes, Hna in Hbst. by rewrite <- app_assoc.
      * rewrite Hna2, <- app_assoc. done.
  - intros k p Hf. rewrite (find_spec t h a k Hh) in Hf.
    destruct (locate k a []) as [c [|l p' k' v0 r]] eqn:Hloc; [done|].
    destruct (erase_found t h a k c l p' k' v0 r Hh ltac:(lia) Hloc)
      as (t' & h' & a' & He & _).
    eauto.
Qed.

(** After every sequence of inserts and erases from the empty tree,
    [find(key)] right after an [erase(key)] that returned gives the
    past-the-end position. *)
Theorem find_after_erase ops h0 t h k t' h' :
  run ops (Tree_new, h0) = Ok (t, h) →
  erase t h k = Ok (t', h') →
  find t' h' k = Ok tend.
Proof.
  intros Hrun He. destruct (reachable_links ops h0 t h Hrun) as (a & Hl).
  destruct (locate_cases k a) as [(c & Hloc)|(c & l & p & k' & v0 & r & Hloc)].
  - rewrite (erase_missing_links t h a k c Hl Hloc) in He. discriminate.
  - destruct (erase_found_gen t h a k c l p k' v0 r Hl Hloc)
      as [(t2 & h2 & a2 & He2 & Hl2 & Hna & Hna2 & -> & _)|(_ & Hbad)];
      [|by destruct (Hbad (t', h'))].
    rewrite He2 in He. injection He as <- <-.
    apply (find_absent_links t2 h2 a2); [done|]. rewrite keys_nodes.
    apply (erased_key_absent (cleft c ++ nodes l) (nodes r ++ cright c) p k v0).
    + pose proof (links_bst _ _ _ Hl) as Hbst. unfold bst in Hbst.
      rewrite keys_nodes, Hna in Hbst. by rewrite <- app_assoc.
    + by rewrite <- app_assoc.
Qed.

End Properties.
End Properties.

(** * Rebuilding and copying *)

Module Structure.
Import DM852 Observe Abs Trace Basic Ctx Read Flatten Build Rebuild Order Scapegoat Insert Shift Unlink Erase Shape Copy Invariant.

Section Structure.
Context {V : Type} `{!EqDecision V} `{!Inhabited V} `{!HAlpha}.
Implicit Types (h : gmap positive (@Node V)) (t : Tree) (a b l r s : @T V) (c : list (@frame V)).
Implicit Types (ops : list (@op V)).


(** A built subtree has no node that breaks the weight bound. *)
Lemma built_unbalanced h par b :
  rep h par b → NoDup (ids b) → built b →
  unbalanced (fuel h) h (rootp b) = Ok [].
Proof.
  intros Hrep Hnd Hbt. apply (unbalanced_spec h b par); try done.
  - pose proof (rep_fuel _ _ _ Hrep Hnd). lia.
  - by apply built_weight_balanced.
Qed.

(** C4, amended: the weight bound is what a rebuild establishes, on the part
    of the tree that was rebuilt.  On every tree reached from the empty one
    by fewer than [2^24] operations: an [erase] that returns and passes the
    test [tree_size < alpha * max_size] leaves a tree in which no node
    breaks the bound; and an [insert] that links a new node deeper than
    [h_alpha] and finds a scapegoat [scn] above it returns with a node
    [top] in the place of [scn] (same parent, or the root), holding the
    entries that were below [scn], below which no node breaks the bound,
    the entries of the tree being those before the rebuild. *)
Theorem rebuild_restores_balance ops h0 t h :
  run ops (Tree_new, h0) = Ok (t, h) → Z.of_nat (length ops) < 2 ^ 24 →
  (∀ k t' h',
     erase t h k = Ok (t', h') →
     lt_alpha_mul (size t - 1) (max_size t) = true →
     unbalanced (fuel h') h' (root t') = Ok [])
  ∧ (∀ k v node depth t5 h2 scn n,
     insert_link t h k v = Ok (Some ((node, depth), (t5, h2))) →
     (h_alpha_of (tree_size t5) <? depth) && (2 <? tree_size t5) = true →
     scapegoat_find (fuel h2) h2 node = Ok (Some (scn, n)) →
     ∃ t' h' top sn tn,
       insert t h k v = Ok ((Some node, true), (t', h'))
       ∧ h2 !! scn = Some sn ∧ h' !! top = Some tn
       ∧ nparent tn = nparent sn
       ∧ (nparent sn = None → root t' = Some top)
       ∧ inorder (fuel h') h' (Some top) = inorder (fuel h2) h2 (Some scn)
       ∧ entries t' h' = entries t5 h2
       ∧ unbalanced (fuel h') h' (Some top) = Ok []).
Proof.
  intros Hrun Hlen.
  destruct (reachable_holds ops h0 t h Hrun ltac:(lia)) as (a & Hh & Hw). split.
  - intros k t' h' He Hlt.
    destruct (locate_cases k a) as [(c & Hloc)|(c & l & p & k0 & v0 & r & Hloc)].
    { rewrite (erase_missing t h a k c Hh Hloc) in He. discriminate. }
    destruct (erase_found t h a k c l p k0 v0 r Hh ltac:(lia) Hloc)
      as (t2 & h2 & a2 & He2 & Hh2 & _ & _ & _ & Hb).
    rewrite He2 in He. injection He as <- <-.
    destruct Hh2 as [Hrep2 Hnd2 _ Hroot2 _ _ _]. rewrite Hroot2.
    apply (built_unbalanced h2 None a2); try done. by apply Hb.
  - intros k v node depth t5 h2 scn n Hlink Hgate Hfind.
    destruct Hh as [Hrep Hnd Hbst Hroot _ _ _].
    destruct (locate_cases k a) as [(c & Hloc)|(c & l & p & k0 & v0 & r & Hloc)].
    2:{ rewrite (insert_link_found t h a k v c l p k0 v0 r Hrep Hnd Hroot Hloc) in Hlink.
        discriminate. }
    destruct (insert_link_spec t h a k v c Hrep Hnd Hbst Hroot Hloc)
      as (t5' & h2' & Hlink' & Hins & _ & Hrep2 & Hnd2 & Hbst2 & Hroot5 & _ & _ & _ & _
          & Hna & Hnl & _ & Hfuel).
    rewrite Hlink' in Hlink. injection Hlink as <- <- <- <-.
    rewrite Hgate in Hins.
    set (node := fresh (dom h)) in *. set (leaf := N E node k v E) in *.
    destruct (scapegoat_find_spec c leaf (fuel h2') h2' node eq_refl Hrep2 Hnd2 Hfuel)
      as (res & Hfind' & Hres).
    rewrite Hfind in Hfind'. injection Hfind' as <-.
    destruct Hres as (c0 & s0 & Hplug & Hroot0 & -> & Hloop).
    rewrite <- Hplug in Hrep2, Hnd2, Hbst2, Hroot5.
    assert (weight s0 ≤ 2 ^ 24) as Hsmall.
    { pose proof (weight_plug_le c0 s0) as Hle. rewrite Hplug in Hle.
      rewrite (weight_nodes (plug c leaf)), Hnl in Hle.
      rewrite weight_nodes, Hna in Hw. rewrite length_app in *. simpl in Hle. lia. }
    destruct (rebuild_scapegoat_spec t5' h2' c0 s0 scn Hroot0 Hrep2 Hnd2 Hbst2 Hroot5 Hsmall)
      as (t' & h' & b & Hrs & Hrep' & Hb & Hbt & Hroot' & _).
    rewrite (Hloop t5'), Hrs in Hins. simpl in Hins.
    destruct s0 as [|l0 p0 k0 v0 r0]; [done|]. injection Hroot0 as ->.
    destruct b as [|lb top kb vb rb].
    { apply (f_equal length) in Hb. simpl in Hb. rewrite length_app in Hb. simpl in Hb. lia. }
    pose proof Hrep2 as Hrs0. apply rep_plug in Hrs0 as (Hrs0 & _).
    pose proof Hrep' as Hrb. apply rep_plug in Hrb as (Hrb & _).
    pose proof Hnd2 as Hnds0. apply NoDup_plug in Hnds0 as (Hnds0 & _).
    assert (NoDup (ids (N lb top kb vb rb))) as Hndb by (unfold ids; by rewrite Hb).
    exists t', h', top, (mkNode (cpar None c0) (rootp l0) (rootp r0) k0 v0),
      (mkNode (cpar None c0) (rootp lb) (rootp rb) kb vb).
    split_and!.
    + done.
    + apply Hrs0.
    + apply Hrb.
    + done.
    + cbn [nparent]. intros Hpar. rewrite Hroot', rootp_plug.
      destruct c0 as [|f c0]; [done|done].
    + change (Some top) with (rootp (N lb top kb vb rb)).
      change (Some scn) with (rootp (N l0 scn k0 v0 r0)).
      rewrite (inorder_spec h' _ _ (fuel h') Hrb),
        (inorder_spec h2' _ _ (fuel h2') Hrs0).
      * unfold elems. by rewrite Hb.
      * pose proof (rep_fuel _ _ _ Hrs0 Hnds0). lia.
      * pose proof (rep_fuel _ _ _ Hrb Hndb). lia.
    + assert (NoDup (ids (plug c0 (N lb top kb vb rb)))) as Hnd'.
      { unfold ids in *. by rewrite nodes_plug, Hb, <- nodes_plug. }
      unfold entries. rewrite Hroot', Hroot5.
      rewrite (inorder_spec h' None _ (fuel h') Hrep'),
        (inorder_spec h2' None _ (fuel h2') Hrep2).
      * unfold elems. by rewrite !nodes_plug, Hb.
      * pose proof (rep_fuel _ _ _ Hrep2 Hnd2). lia.
      * pose proof (rep_fuel _ _ _ Hrep' Hnd'). lia.
    + by apply (built_unbalanced h' _ (N lb top kb vb rb) Hrb).
Qed.


(** C10: the copy constructor and copy assignment need a source with a
    root.  From a source without one, both reach a null dereference in the
    scan that recomputes [first]; from a non-empty source reached from the
    empty tree, the copy is made and holds the entries of the source. *)
Theorem copy_needs_nonempty_source ops h0 (src : Tree) h :
  run ops (Tree_new, h0) = Ok (src, h) →
  (root src = None →
     Tree_copy h src = NullDeref
     ∧ ∀ ops' h0' (this : Tree) h',
         run ops' (Tree_new, h0') = Ok (this, h') →
         copy_assign this h' src = NullDeref)
  ∧ (root src ≠ None →
     ∃ t' h',
       Tree_copy h src = Ok (t', h')
       ∧ copy_assign Tree_new h src = Ok (t', h')
       ∧ entries t' h' = entries src h
       ∧ entries src h' = entries src h
       ∧ size t' = size src).
Proof.
  intros Hrun. destruct (reachable_links ops h0 src h Hrun) as (a & Hl). split.
  - intros Hroot. split; [by apply copy_from_empty|].
    intros ops' h0' this h' Hrun'.
    destruct (reachable_links ops' h0' this h' Hrun') as (b & Hb).
    by eapply copy_assign_empty.
  - intros Hroot.
    destruct (copy_from_links h src a Hl Hroot)
      as (t' & h' & a' & Hcp & Hl' & Hel & Hsrc & _ & _ & _ & _ & Hsz).
    exists t', h'. split_and!.
    + done.
    + unfold copy_assign. cbn [root Tree_new]. rewrite delete_Node_null. by bind_ok.
    + rewrite (entries_links _ _ _ Hl'), (entries_links _ _ _ Hl). by rewrite Hel.
    + by rewrite (entries_links _ _ _ Hsrc), (entries_links _ _ _ Hl).
    + done.
Qed.

End Structure.
End Structure.

(** * The entries of a tree as a sorted association list *)

Module Map.
Import DM852 Observe Abs Trace Assoc Basic Ctx Read Flatten Build Rebuild Order Scapegoat Insert Shift Unlink Erase Shape Copy Invariant Properties.

Section Map.
Context {V : Type} `{!EqDecision V} `{!Inhabited V} {halpha : HAlpha}.
Implicit Types (h : gmap positive (@Node V)) (t : Tree) (a b l r s : @T V) (c : list (@frame V)).
Implicit Types (es A B : list (Z * V)).

Lemma put_split k (v : V) A B :
  (∀ e, e ∈ A → e.1 < k) → (∀ e, e ∈ B → k < e.1) →
  put k v (A ++ B) = A ++ (k, v) :: B.
Proof.
  induction A as [|[k' v'] A IH]; intros HA HB; simpl.
  - destruct B as [|[k' v'] B]; [done|]. simpl.
    assert (k < k') as Hlt by (apply (HB (k', v')); by left).
    by assert ((k <? k') = true) as -> by lia.
  - assert (k' < k) as Hlt by (apply (HA (k', v')); by left).
    assert ((k <? k') = false) as -> by lia.
    assert ((k' <? k) = true) as -> by lia.
    rewrite IH; [done| |done]. intros e He. apply HA. by right.
Qed.

Lemma put_replace k (v v0 : V) A B :
  (∀ e, e ∈ A → e.1 < k) →
  put k v (A ++ (k, v0) :: B) = A ++ (k, v) :: B.
Proof.
  induction A as [|[k' v'] A IH]; intros HA; simpl.
  - by rewrite Z.ltb_irrefl.
  - assert (k' < k) as Hlt by (apply (HA (k', v')); by left).
    assert ((k <? k') = false) as -> by lia.
    assert ((k' <? k) = true) as -> by lia.
    rewrite IH; [done|]. intros e He. apply HA. by right.
Qed.

Lemma del_split k (v : V) A B :
  (∀ e, e ∈ A → e.1 < k) →
  del k (A ++ (k, v) :: B) = A ++ B.
Proof.
  induction A as [|[k' v'] A IH]; intros HA; simpl.
  - by rewrite Z.eqb_refl.
  - assert (k' < k) as Hlt by (apply (HA (k', v')); by left).
    assert ((k' =? k) = false) as -> by lia.
    rewrite IH; [done|]. intros e He. apply HA. by right.
Qed.

Lemma has_spec k es : has k es = true ↔ k ∈ es.*1.
Proof.
  unfold has. induction es as [|[k' v'] es IH]; simpl.
  - split; [done|]. intros H. by apply elem_of_nil in H.
  - rewrite orb_true_iff, IH, elem_of_cons. split.
    + intros [H|H]; [left; lia|by right].
    + intros [->|H]; [left; lia|by right].
Qed.

Lemma get_split k (v : V) A B :
  (∀ e, e ∈ A → e.1 < k) → get k (A ++ (k, v) :: B) = Some v.
Proof.
  induction A as [|[k' v'] A IH]; intros HA; simpl.
  - by rewrite Z.eqb_refl.
  - assert (k' < k) as Hlt by (apply (HA (k', v')); by left).
    assert ((k' =? k) = false) as -> by lia.
    apply IH. intros e He. apply HA. by right.
Qed.

Lemma get_absent k es : k ∉ es.*1 → get k es = None.
Proof.
  induction es as [|[k' v'] es IH]; intros Hk; simpl; [done|].
  rewrite fmap_cons in Hk. apply not_elem_of_cons in Hk as (Hne & Hk). simpl in Hne.
  assert ((k' =? k) = false) as -> by lia. by apply IH.
Qed.

(** The entries before a node of a search tree have smaller keys. *)
Lemma sorted_before (A B : list (Z * V)) k (v : V) :
  StronglySorted Z.lt (A ++ (k, v) :: B).*1 → ∀ e, e ∈ A → e.1 < k.
Proof.
  rewrite fmap_app, fmap_cons. rewrite StronglySorted_app.
  intros (H & _) e He. apply H; [|by left].
  apply list_elem_of_fmap. by exists e.
Qed.

(** [insert] on the entries. *)
Lemma insert_elems t h a k (v : V) :
  holds t h a → weight a < 2 ^ 24 →
  ∃ p (ch : bool) t' h' a',
    insert t h k v = Ok ((Some p, ch), (t', h'))
    ∧ holds t' h' a'
    ∧ elems a' = put k v (elems a)
    ∧ (p, (k, v)) ∈ nodes a'
    ∧ weight a' = (if has k (elems a) then weight a else weight a + 1)
    ∧ ch = (if has k (elems a) then bool_decide (get k (elems a) ≠ Some v) else true).
Proof.
  intros Hh Hsmall. pose proof (holds_bst _ _ _ Hh) as Hbst.
  destruct (locate_cases k a) as [(c & Hloc)|(c & l & p & k0 & v0 & r & Hloc)].
  - destruct (insert_fell t h a k v c Hh Hsmall Hloc)
      as (t' & h' & a' & p & Hi & Hh' & _ & Hna & Hna').
    assert (k ∉ keys a) as Hk.
    { intros Hin. apply (locate_elem k a []) in Hin; [|done]. by rewrite Hloc in Hin. }
    assert (has k (elems a) = false) as Hhas.
    { destruct (has k (elems a)) eqn:E; [|done]. by apply has_spec in E. }
    exists p, true, t', h', a'. rewrite Hhas. split_and!; try done.
    + pose proof (locate_plug k a []) as Hplug. rewrite Hloc in Hplug.
      cbn [fst snd plug] in Hplug.
      pose proof (locate_fits k a [] (Forall_nil_2 _)) as Hfits. rewrite Hloc in Hfits.
      cbn [fst] in Hfits.
      rewrite <- Hplug in Hbst. apply bst_plug in Hbst. simpl in Hbst.
      destruct (fits_bounds c k Hfits Hbst) as (Hlo & Hhi).
      unfold elems. rewrite Hna, Hna', !fmap_app, fmap_cons. cbn [snd].
      symmetry. apply put_split.
      * intros e He. apply Hlo. unfold ckl. apply list_elem_of_fmap. by exists e.
      * intros e He. apply Hhi. unfold ckr. apply list_elem_of_fmap. by exists e.
    + rewrite Hna'. set_solver.
    + rewrite !weight_nodes, Hna, Hna', !length_app. simpl. lia.
  - destruct (insert_found t h a k v c l p k0 v0 r Hh Hloc) as (Hi & Hh' & -> & -> & _).
    assert (∀ e, e ∈ (cleft c).*2 ++ elems l → e.1 < k) as Hlo.
    { unfold bst, keys in Hbst. rewrite elems_plug_node in Hbst.
      by eapply sorted_before. }
    assert (has k (elems (plug c (N l p k v0 r))) = true) as Hhas.
    { apply has_spec. rewrite elems_plug_node, fmap_app, fmap_cons. set_solver. }
    eexists p, _, t, _, _. split; [exact Hi|]. rewrite Hhas.
    split_and!; try done.
    + rewrite !elems_plug_node. symmetry. by apply put_replace.
    + rewrite nodes_plug. simpl. set_solver.
    + rewrite !weight_nodes, !nodes_plug. cbn [nodes]. rewrite !length_app.
      cbn [length]. done.
    + rewrite elems_plug_node, get_split by done.
      apply bool_decide_ext. split; intros H1 H2; apply H1; congruence.
Qed.

(** [erase] on the entries. *)
Lemma erase_elems t h a k :
  holds t h a → weight a ≤ 2 ^ 24 →
  if has k (elems a) then
    ∃ t' h' a', erase t h k = Ok (t', h') ∧ holds t' h' a'
                ∧ elems a' = del k (elems a) ∧ weight a' = weight a - 1
  else erase t h k = NullDeref.
Proof.
  intros Hh Hsmall. pose proof (holds_bst _ _ _ Hh) as Hbst.
  destruct (locate_cases k a) as [(c & Hloc)|(c & l & p & k0 & v0 & r & Hloc)].
  - assert (has k (elems a) = false) as ->.
    { destruct (has k (elems a)) eqn:E; [|done]. apply has_spec in E.
      apply (locate_elem k a []) in E; [|done]. by rewrite Hloc in E. }
    by eapply erase_missing.
  - destruct (erase_found t h a k c l p k0 v0 r Hh Hsmall Hloc)
      as (t' & h' & a' & He & Hh' & Hna & Hna' & -> & _).
    assert (elems a = ((cleft c).*2 ++ elems l) ++ (k, v0) :: elems r ++ (cright c).*2)
      as Hea.
    { unfold elems. rewrite Hna, !fmap_app, fmap_cons, <- !app_assoc. cbn [snd].
      by rewrite !fmap_app. }
    assert (has k (elems a) = true) as ->.
    { apply has_spec. rewrite Hea, fmap_app, fmap_cons. set_solver. }
    exists t', h', a'. split_and!; try done.
    + rewrite Hea, del_split.
      * unfold elems. rewrite Hna', !fmap_app, <- !app_assoc. done.
      * unfold bst, keys in Hbst. rewrite Hea in Hbst. by eapply sorted_before.
    + rewrite !weight_nodes, Hna, Hna', !length_app. simpl. rewrite !length_app. lia.
Qed.

Lemma has_put k (v : V) es : has k (put k v es) = true.
Proof.
  apply has_spec. induction es as [|[k' v'] es IH]; simpl; [set_solver|].
  destruct (k <? k') eqn:E1; [simpl; set_solver|].
  destruct (k' <? k) eqn:E2; simpl; set_solver.
Qed.

Lemma del_put k (v : V) es : k ∉ es.*1 → del k (put k v es) = es.
Proof.
  induction es as [|[k' v'] es IH]; intros Hk; simpl.
  - by rewrite Z.eqb_refl.
  - rewrite fmap_cons in Hk. apply not_elem_of_cons in Hk as (Hne & Hk). simpl in Hne.
    destruct (k <? k') eqn:E1.
    + simpl. by rewrite Z.eqb_refl.
    + destruct (k' <? k) eqn:E2; [|lia].
      simpl. assert ((k' =? k) = false) as -> by lia. by rewrite IH.
Qed.

Lemma put_del k (v : V) es :
  StronglySorted Z.lt es.*1 → (k, v) ∈ es → put k v (del k es) = es.
Proof.
  induction es as [|[k' v'] es IH]; intros Hs Hin; [by apply elem_of_nil in Hin|].
  rewrite fmap_cons in Hs. apply StronglySorted_cons in Hs as (Hlt & Hs).
  rewrite Forall_forall in Hlt. simpl in Hlt.
  assert (∀ e, e ∈ es → k' < e.1) as Hlt'.
  { intros e He. apply Hlt. apply list_elem_of_fmap. by exists e. }
  apply elem_of_cons in Hin as [[= <- <-]|Hin]; simpl.
  - rewrite Z.eqb_refl. apply (put_split k v [] es); [|done].
    intros e He. by apply elem_of_nil in He.
  - specialize (Hlt' _ Hin). simpl in Hlt'.
    assert ((k' =? k) = false) as -> by lia. simpl.
    assert ((k <? k') = false) as -> by lia.
    assert ((k' <? k) = true) as -> by lia.
    by rewrite IH.
Qed.

Lemma del_absent k es : NoDup es.*1 → k ∉ (del k es).*1.
Proof.
  induction es as [|[k' v'] es IH]; intros Hnd; simpl.
  - intros H. by apply elem_of_nil in H.
  - rewrite fmap_cons in Hnd. apply NoDup_cons in Hnd as (Hk' & Hnd). simpl in Hk'.
    destruct (k' =? k) eqn:E0.
    + apply Z.eqb_eq in E0. by subst k'.
    + rewrite fmap_cons. apply not_elem_of_cons. split; [simpl; lia|by apply IH].
Qed.

End Map.
End Map.

(** * The tree as a finite map *)

Module Contents.
Import DM852 Observe Abs Trace Assoc Basic Ctx Read Flatten Build Rebuild Order Scapegoat Insert Shift Unlink Erase Shape Copy Invariant Properties Map.

Section Contents.
Context {V : Type} `{!EqDecision V} `{!Inhabited V} {halpha : HAlpha}.
Implicit Types (h : gmap positive (@Node V)) (t : Tree) (a b l r s : @T V) (c : list (@frame V)).
Implicit Types (ops : list (@op V)) (es : list (Z * V)).

(** The cell of a node of the tree holds its entry. *)
Lemma rep_lookup h par a p k (v : V) :
  rep h par a → (p, (k, v)) ∈ nodes a →
  ∃ n, h !! p = Some n ∧ nkey n = k ∧ nvalue n = v.
Proof.
  revert par. induction a as [|l IHl p' k' v' r IHr]; intros par Hrep Hin.
  - by apply elem_of_nil in Hin.
  - destruct Hrep as (Hp & Hl & Hr). cbn [nodes] in Hin.
    apply elem_of_app in Hin as [Hin|Hin]; [by eapply IHl|].
    apply elem_of_cons in Hin as [[= -> -> ->]|Hin]; [|by eapply IHr].
    eexists. split; [exact Hp|]. done.
Qed.

Lemma head_nodes a p : head (ids a) = Some p → ∃ e, head (nodes a) = Some (p, e).
Proof.
  unfold ids. destruct (nodes a) as [|[q e] ns]; [done|]. simpl. intros [= ->]. eauto.
Qed.

Lemma last_nodes a p : last (ids a) = Some p → ∃ e, last (nodes a) = Some (p, e).
Proof.
  unfold ids. rewrite fmap_last. destruct (last (nodes a)) as [[q e]|]; [|done].
  simpl. intros [= ->]. eauto.
Qed.

Lemma weight_zero a : weight a = 0 → a = E.
Proof.
  destruct a as [|l p k v r]; [done|]. simpl.
  pose proof (weight_nonneg l). pose proof (weight_nonneg r). lia.
Qed.

Lemma front_spec t h a :
  holds t h a →
  front t h = match elems a with [] => NullDeref | e :: _ => Ok e end.
Proof.
  intros [Hrep Hnd _ _ Hfirst _ Hsize]. unfold front, begin, empty. rewrite Hsize.
  destruct (weight a =? 0) eqn:Hw.
  - apply Z.eqb_eq, weight_zero in Hw. by subst a.
  - rewrite Hfirst. unfold elems.
    destruct (head (ids a)) as [p|] eqn:Hhd.
    + destruct (head_nodes a p Hhd) as (e & He).
      destruct (nodes a) as [|x ns] eqn:Hn; [done|]. simpl in He. injection He as ->.
      destruct e as [k v].
      destruct (rep_lookup h None a p k v Hrep) as (n & Hn' & <- & <-).
      { rewrite Hn. by left. }
      unfold iter_get. cbn [deref]. bind_ok. rewrite (load_Some _ _ _ Hn'). by bind_ok.
    + unfold ids in Hhd. destruct (nodes a) as [|x ns] eqn:Hn; [|done].
      exfalso. rewrite weight_nodes, Hn in Hw. simpl in Hw. lia.
Qed.

Lemma back_spec t h a :
  holds t h a →
  back t h = match last (elems a) with None => NullDeref | Some e => Ok e end.
Proof.
  intros [Hrep Hnd _ _ _ Hlast Hsize]. unfold back, iter_decr, tend. bind_ok.
  rewrite Hlast. unfold elems. rewrite fmap_last.
  destruct (last (ids a)) as [p|] eqn:Hl.
  - destruct (last_nodes a p Hl) as ([k v] & He). rewrite He. simpl.
    destruct (rep_lookup h None a p k v Hrep) as (n & Hn' & <- & <-).
    { by apply last_Some_elem_of. }
    unfold iter_get. cbn [deref]. bind_ok. rewrite (load_Some _ _ _ Hn'). by bind_ok.
  - unfold ids in Hl. rewrite fmap_last in Hl.
    destruct (last (nodes a)); [done|]. done.
Qed.

(** The whole session against the reference list. *)
Lemma run_holds_assoc ops : ∀ t h a,
  holds t h a → weight a + Z.of_nat (length ops) ≤ 2 ^ 24 →
  match replay ops (elems a) with
  | Some es => ∃ t' h' a', run ops (t, h) = Ok (t', h') ∧ holds t' h' a' ∧ elems a' = es
  | None => run ops (t, h) = NullDeref
  end.
Proof.
  induction ops as [|[k v|k] ops IH]; intros t h a Hh Hsmall.
  - simpl. by exists t, h, a.
  - cbn [replay run step fst snd]. cbn [length] in Hsmall.
    destruct (insert_elems t h a k v Hh ltac:(lia))
      as (p & ch & t' & h' & a' & Hi & Hh' & Hel & _ & Hw & _).
    rewrite Hi. bind_ok. rewrite <- Hel. apply IH; [done|].
    destruct (has k (elems a)); lia.
  - cbn [replay run step fst snd]. cbn [length] in Hsmall.
    pose proof (erase_elems t h a k Hh ltac:(lia)) as He.
    destruct (has k (elems a)).
    + destruct He as (t' & h' & a' & -> & Hh' & Hel & Hw). bind_ok.
      rewrite <- Hel. apply IH; [done|lia].
    + by rewrite He.
Qed.

(** X1: a sequence of fewer than [2^24] inserts and erases on the empty
    tree returns exactly when every erase names a stored key, and then the
    tree holds, in order, the entries that the same operations leave in a
    sorted association list, and [size()] is their number; otherwise it ends
    in a null dereference. *)
Theorem run_refines_assoc ops h0 :
  Z.of_nat (length ops) < 2 ^ 24 →
  match replay ops [] with
  | Some es =>
      ∃ t h, run ops (Tree_new, h0) = Ok (t, h)
             ∧ entries t h = Ok es ∧ size t = Z.of_nat (length es)
  | None => run ops (Tree_new, h0) = NullDeref
  end.
Proof.
  intros Hlen.
  pose proof (run_holds_assoc ops Tree_new h0 E (holds_init h0)) as H.
  change (elems E) with (@nil (Z * V)) in H. cbn [weight] in H.
  specialize (H ltac:(lia)).
  destruct (replay ops []) as [es|]; [|done].
  destruct H as (t & h & a & Hr & Hh & Hel). exists t, h. split_and!; [done| |].
  - rewrite (entries_spec _ _ _ Hh). by rewrite Hel.
  - unfold size. rewrite (holds_size _ _ _ Hh), weight_nodes, <- Hel.
    unfold elems. by rewrite length_fmap.
Qed.

(** X2: on a tree reached from the empty one by fewer than [2^24]
    operations, [insert(k, v)] of a key that is not stored returns [true],
    adds the entry at its place in key order, leaves every other entry as
    it was and adds one to [size()]. *)
Theorem insert_new_key ops h0 t h es k v :
  run ops (Tree_new, h0) = Ok (t, h) → Z.of_nat (length ops) < 2 ^ 24 →
  entries t h = Ok es →
  k ∉ es.*1 →
  ∃ p t' h' A B,
    insert t h k v = Ok ((Some p, true), (t', h'))
    ∧ es = A ++ B
    ∧ entries t' h' = Ok (A ++ (k, v) :: B)
    ∧ Forall (λ e, e.1 < k) A ∧ Forall (λ e, k < e.1) B
    ∧ size t' = size t + 1.
Proof.
  intros Hrun Hlen Hes Hk.
  destruct (reachable_holds ops h0 t h Hrun ltac:(lia)) as (a & Hh & Hwa).
  rewrite (entries_spec _ _ _ Hh) in Hes. injection Hes as <-.
  pose proof (holds_bst _ _ _ Hh) as Hbst.
  destruct (locate_cases k a) as [(c & Hloc)|(c & l & p & k0 & v0 & r & Hloc)].
  - destruct (insert_fell t h a k v c Hh ltac:(lia) Hloc)
      as (t' & h' & a' & p & Hi & Hh' & _ & Hna & Hna').
    pose proof (locate_plug k a []) as Hplug. rewrite Hloc in Hplug.
    cbn [fst snd plug] in Hplug.
    pose proof (locate_fits k a [] (Forall_nil_2 _)) as Hfits. rewrite Hloc in Hfits.
    cbn [fst] in Hfits.
    rewrite <- Hplug in Hbst. apply bst_plug in Hbst. simpl in Hbst.
    destruct (fits_bounds c k Hfits Hbst) as (Hlo & Hhi).
    exists p, t', h', (cleft c).*2, (cright c).*2. split_and!; try done.
    + unfold elems. by rewrite Hna, fmap_app.
    + rewrite (entries_spec _ _ _ Hh'). unfold elems. by rewrite Hna', fmap_app.
    + apply Forall_forall. intros e He. apply Hlo. unfold ckl.
      apply list_elem_of_fmap. by exists e.
    + apply Forall_forall. intros e He. apply Hhi. unfold ckr.
      apply list_elem_of_fmap. by exists e.
    + unfold size. rewrite (holds_size _ _ _ Hh'), (holds_size _ _ _ Hh).
      rewrite !weight_nodes, Hna, Hna', !length_app. simpl. lia.
  - exfalso. apply Hk. apply (locate_elem k a []); [done|]. by rewrite Hloc.
Qed.

(** X3: on a tree reached from the empty one by fewer than [2^24]
    operations, [erase(k)] of a stored key removes the entry of [k], leaves
    every other entry as it was, in order, and takes one from [size()]. *)
Theorem erase_stored_key ops h0 t h es k :
  run ops (Tree_new, h0) = Ok (t, h) → Z.of_nat (length ops) < 2 ^ 24 →
  entries t h = Ok es →
  k ∈ es.*1 →
  ∃ t' h' A v B,
    erase t h k = Ok (t', h')
    ∧ es = A ++ (k, v) :: B
    ∧ entries t' h' = Ok (A ++ B)
    ∧ size t' = size t - 1.
Proof.
  intros Hrun Hlen Hes Hk.
  destruct (reachable_holds ops h0 t h Hrun ltac:(lia)) as (a & Hh & Hwa).
  rewrite (entries_spec _ _ _ Hh) in Hes. injection Hes as <-.
  pose proof (holds_bst _ _ _ Hh) as Hbst.
  apply (locate_elem k a []) in Hk; [|done].
  destruct (locate k a []) as [c [|l p k0 v0 r]] eqn:Hloc; [done|].
  destruct (erase_found t h a k c l p k0 v0 r Hh ltac:(lia) Hloc)
    as (t' & h' & a' & He & Hh' & Hna & Hna' & -> & _).
  exists t', h', ((cleft c).*2 ++ elems l), v0, (elems r ++ (cright c).*2).
  split_and!; try done.
  - unfold elems. rewrite Hna, !fmap_app, fmap_cons, <- !app_assoc. cbn [snd].
    by rewrite !fmap_app.
  - rewrite (entries_spec _ _ _ Hh'). unfold elems.
    by rewrite Hna', !fmap_app, <- !app_assoc.
  - unfold size. rewrite (holds_size _ _ _ Hh'), (holds_size _ _ _ Hh).
    rewrite !weight_nodes, Hna, Hna', !length_app. simpl. rewrite !length_app. lia.
Qed.

(** X4: on a tree reached from the empty one, [find(k)] returns the
    past-the-end position exactly when no entry has key [k], and otherwise a
    position whose dereference is the entry of [k]. *)
Theorem find_reads_entry ops h0 t h es k :
  run ops (Tree_new, h0) = Ok (t, h) →
  entries t h = Ok es →
  match get k es with
  | Some v => ∃ p, find t h k = Ok (Some p) ∧ iter_get h (Some p) = Ok (k, v)
                   ∧ (k, v) ∈ es
  | None => find t h k = Ok tend ∧ k ∉ es.*1
  end.
Proof.
  intros Hrun Hes. destruct (reachable_links ops h0 t h Hrun) as (a & Hh).
  rewrite (entries_links _ _ _ Hh) in Hes. injection Hes as <-.
  pose proof (links_bst _ _ _ Hh) as Hbst.
  destruct (locate k a []) as [c [|l p k0 v0 r]] eqn:Hloc.
  - assert (k ∉ keys a) as Hk.
    { intros Hin. apply (locate_elem k a []) in Hin; [|done]. by rewrite Hloc in Hin. }
    rewrite get_absent by done. split; [|done]. by apply (find_absent_links t h a).
  - pose proof (locate_plug k a []) as Hplug. rewrite Hloc in Hplug.
    cbn [fst snd plug] in Hplug.
    pose proof (locate_found k a [] l p k0 v0 r) as Hk0. rewrite Hloc in Hk0.
    specialize (Hk0 eq_refl). subst k0.
    assert ((p, (k, v0)) ∈ nodes a) as Hin.
    { rewrite <- Hplug, nodes_plug. simpl. set_solver. }
    destruct (find_node_links t h a p k v0 Hh Hin) as (Hf & n & Hn & Hnk & Hnv).
    assert (elems a = ((cleft c).*2 ++ elems l) ++ (k, v0) :: elems r ++ (cright c).*2)
      as Hea by (rewrite <- Hplug; apply elems_plug_node).
    rewrite Hea, get_split.
    + exists p. split_and!; [done| |set_solver].
      unfold iter_get. cbn [deref]. bind_ok. rewrite (load_Some _ _ _ Hn). bind_ok.
      by rewrite Hnk, Hnv.
    + unfold bst, keys in Hbst. rewrite Hea in Hbst. by eapply sorted_before.
Qed.

(** X5: on a tree reached from the empty one by fewer than [2^24]
    operations, [size()] is the number of entries, which is the number of
    nodes below the root, and [empty()] holds exactly when there is no
    entry. *)
Theorem size_counts_entries ops h0 t h es :
  run ops (Tree_new, h0) = Ok (t, h) → Z.of_nat (length ops) < 2 ^ 24 →
  entries t h = Ok es →
  size t = Z.of_nat (length es)
  ∧ node_size (fuel h) h (root t) = Ok (size t)
  ∧ (empty t = true ↔ es = [])
  ∧ (root t = None ↔ es = []).
Proof.
  intros Hrun Hlen Hes.
  destruct (reachable_holds ops h0 t h Hrun ltac:(lia)) as (a & Hh & Hwa).
  rewrite (entries_spec _ _ _ Hh) in Hes. injection Hes as <-.
  pose proof Hh as [Hrep Hnd _ Hroot _ _ Hsize].
  assert (weight a = Z.of_nat (length (elems a))) as Hwl.
  { rewrite weight_nodes. unfold elems. by rewrite length_fmap. }
  unfold size, empty. rewrite Hsize, Hroot. split_and!.
  - done.
  - apply (node_size_spec h None a (fuel h) Hrep).
    pose proof (rep_fuel _ _ _ Hrep Hnd). lia.
  - rewrite Z.eqb_eq. split.
    + intros Hw. apply weight_zero in Hw. by subst a.
    + intros He. rewrite Hwl, He. done.
  - split.
    + by destruct a.
    + intros He. destruct a as [|l p k v r]; [done|].
      unfold elems in He. simpl in He. rewrite fmap_app in He.
      by destruct (snd <$> nodes l).
Qed.

(** X6: on a tree reached from the empty one by fewer than [2^24]
    operations, [front()] returns the first entry in order, which has the
    smallest key, and [back()] the last, which has the largest; on the empty
    tree both dereference a null pointer. *)
Theorem front_back_ends ops h0 t h es :
  run ops (Tree_new, h0) = Ok (t, h) → Z.of_nat (length ops) < 2 ^ 24 →
  entries t h = Ok es →
  front t h = match es with [] => NullDeref | e :: _ => Ok e end
  ∧ back t h = match last es with None => NullDeref | Some e => Ok e end
  ∧ iter_get h (begin t) = front t h
  ∧ (∀ e, e ∈ es → (∀ e0, head es = Some e0 → e0.1 ≤ e.1)
                  ∧ (∀ e1, last es = Some e1 → e.1 ≤ e1.1)).
Proof.
  intros Hrun Hlen Hes.
  destruct (reachable_holds ops h0 t h Hrun ltac:(lia)) as (a & Hh & Hwa).
  rewrite (entries_spec _ _ _ Hh) in Hes. injection Hes as <-.
  split_and!; [by apply front_spec|by apply back_spec|done|].
  pose proof (holds_bst _ _ _ Hh) as Hbst. unfold bst, keys in Hbst.
  intros e He. split.
  - intros e0 H0. destruct (elems a) as [|e' es]; [done|]. injection H0 as ->.
    rewrite fmap_cons in Hbst. apply StronglySorted_cons in Hbst as (Hlt & _).
    apply elem_of_cons in He as [->|He]; [lia|].
    rewrite Forall_forall in Hlt. assert (e0.1 < e.1); [|lia].
    apply Hlt. apply list_elem_of_fmap. by exists e.
  - intros e1 H1. apply last_Some in H1 as (front & Hfront).
    rewrite Hfront in He, Hbst. rewrite fmap_app in Hbst.
    apply StronglySorted_app in Hbst as (Hlt & _).
    apply elem_of_app in He as [He|He].
    + assert (e.1 < e1.1); [|lia]. apply Hlt.
      * apply list_elem_of_fmap. by exists e.
      * simpl. set_solver.
    + apply list_elem_of_singleton in He as ->. lia.
Qed.

(** X19: on a tree reached from the empty one by fewer than [2^24]
    operations, inserting a key that is not stored and erasing it again
    gives back the entries and the size; so does erasing a stored key and
    inserting it again with its value. *)
Theorem insert_erase_round_trip ops h0 t h es k v :
  run ops (Tree_new, h0) = Ok (t, h) → Z.of_nat (length ops) < 2 ^ 24 →
  entries t h = Ok es →
  (k ∉ es.*1 →
     ∃ (res : ptr * bool) t1 h1 t2 h2,
       insert t h k v = Ok (res, (t1, h1)) ∧ erase t1 h1 k = Ok (t2, h2)
       ∧ entries t2 h2 = Ok es ∧ size t2 = size t)
  ∧ ((k, v) ∈ es →
     ∃ t1 h1 (res : ptr * bool) t2 h2,
       erase t h k = Ok (t1, h1) ∧ insert t1 h1 k v = Ok (res, (t2, h2))
       ∧ entries t2 h2 = Ok es ∧ size t2 = size t).
Proof.
  intros Hrun Hlen Hes.
  destruct (reachable_holds ops h0 t h Hrun ltac:(lia)) as (a & Hh & Hwa).
  rewrite (entries_spec _ _ _ Hh) in Hes. injection Hes as <-.
  pose proof (holds_bst _ _ _ Hh) as Hbst. split.
  - intros Hk.
    assert (has k (elems a) = false) as Hhas.
    { destruct (has k (elems a)) eqn:E0; [|done]. by apply has_spec in E0. }
    destruct (insert_elems t h a k v Hh ltac:(lia))
      as (p & ch & t1 & h1 & a1 & Hi & Hh1 & Hel1 & _ & Hw1 & _).
    rewrite Hhas in Hw1.
    pose proof (erase_elems t1 h1 a1 k Hh1 ltac:(lia)) as He.
    rewrite Hel1, has_put in He.
    destruct He as (t2 & h2 & a2 & He & Hh2 & Hel2 & Hw2).
    rewrite del_put in Hel2 by done.
    eexists _, t1, h1, t2, h2. split; [exact Hi|]. split_and!; [done| |].
    + rewrite (entries_spec _ _ _ Hh2). by rewrite Hel2.
    + unfold size. rewrite (holds_size _ _ _ Hh2), (holds_size _ _ _ Hh). lia.
  - intros Hin.
    assert (has k (elems a) = true) as Hhas.
    { apply has_spec. apply list_elem_of_fmap. by exists (k, v). }
    pose proof (erase_elems t h a k Hh ltac:(lia)) as He. rewrite Hhas in He.
    destruct He as (t1 & h1 & a1 & He & Hh1 & Hel1 & Hw1).
    destruct (insert_elems t1 h1 a1 k v Hh1 ltac:(lia))
      as (p & ch & t2 & h2 & a2 & Hi & Hh2 & Hel2 & _ & Hw2 & _).
    assert (has k (elems a1) = false) as Hhas1.
    { destruct (has k (elems a1)) eqn:E0; [|done]. exfalso.
      apply has_spec in E0. rewrite Hel1 in E0. revert E0.
      apply del_absent. by apply sorted_NoDup. }
    rewrite Hhas1 in Hw2.
    eexists t1, h1, _, t2, h2. split; [exact He|]. split; [exact Hi|]. split.
    + rewrite (entries_spec _ _ _ Hh2). rewrite Hel2, Hel1. f_equal.
      by apply put_del.
    + unfold size. rewrite (holds_size _ _ _ Hh2), (holds_size _ _ _ Hh). lia.
Qed.

End Contents.
End Contents.

(** * Iteration: [next], [prev] and the loops built on them *)

Module Iter.
Import DM852 Observe Abs Trace Assoc Basic Ctx Read Flatten Build Rebuild Order Scapegoat Insert Shift Unlink Erase Shape Copy Invariant Properties Map Contents.

Section Iter.
Context {V : Type} `{!EqDecision V} `{!Inhabited V} {halpha : HAlpha}.
Implicit Types (h : gmap positive (@Node V)) (t : Tree) (a b l r s : @T V) (c : list (@frame V)).
Implicit Types (ops : list (@op V)) (es : list (Z * V)).

(** A list without repeated first components splits at an element in one
    way. *)
Lemma split_unique {A B : Type} (L1 L2 M1 M2 : list (A * B)) x e e' :
  NoDup (L1 ++ (x, e) :: L2).*1 →
  L1 ++ (x, e) :: L2 = M1 ++ (x, e') :: M2 →
  L1 = M1 ∧ e = e' ∧ L2 = M2.
Proof.
  revert M1. induction L1 as [|z L1 IH]; intros M1 Hnd Heq.
  - destruct M1 as [|z M1]; simpl in *.
    + by injection Heq as -> ->.
    + injection Heq as <- ->. exfalso.
      apply NoDup_cons in Hnd as (Hx & _). apply Hx.
      rewrite fmap_app, fmap_cons. set_solver.
  - destruct M1 as [|z' M1]; simpl in *.
    + injection Heq as -> <-. exfalso.
      apply NoDup_cons in Hnd as (Hx & _). apply Hx.
      rewrite fmap_app, fmap_cons. set_solver.
    + injection Heq as -> Heq. apply NoDup_cons in Hnd as (_ & Hnd).
      destruct (IH M1 Hnd Heq) as (-> & -> & ->). done.
Qed.

(** Every node of a search tree is the root of a subtree in a context. *)
Lemma node_zip a A x k (v : V) B :
  bst a → NoDup (ids a) → nodes a = A ++ (x, (k, v)) :: B →
  ∃ c l r, a = plug c (N l x k v r) ∧ A = cleft c ++ nodes l ∧ B = nodes r ++ cright c.
Proof.
  intros Hbst Hnd Hn.
  destruct (locate_node a x k v Hbst) as (c & l & r & Hloc).
  { rewrite Hn. set_solver. }
  pose proof (locate_plug k a []) as Hplug. rewrite Hloc in Hplug.
  cbn [fst snd plug] in Hplug.
  exists c, l, r. split; [done|].
  pose proof (nodes_plug c (N l x k v r)) as Hnp. rewrite Hplug, Hn in Hnp.
  cbn [nodes] in Hnp. rewrite <- !app_assoc in Hnp. simpl in Hnp.
  rewrite (app_assoc (cleft c)) in Hnp.
  unfold ids in Hnd. rewrite Hn in Hnd.
  destruct (split_unique _ _ _ _ _ _ _ Hnd Hnp) as (-> & _ & ->). done.
Qed.

(** The loop of the driver's [print]: started at a node, it collects the
    entry of that node and some of those that follow it in order. *)
Lemma traverse_from h a :
  rep h None a → NoDup (ids a) → bst a →
  ∀ B A x e f, nodes a = A ++ (x, e) :: B → (length B < f)%nat →
  ∃ m, traverse_loop f h (Some x) = Ok (take (S m) (e :: B.*2)).
Proof.
  intros Hrep Hnd Hbst B.
  induction B as [|[y e'] B IH]; intros A x [k v] f Hn Hf.
  - destruct f as [|f]; [lia|]. cbn [traverse_loop].
    destruct (rep_lookup h None a x k v Hrep) as (n & Hx & <- & <-).
    { rewrite Hn. set_solver. }
    rewrite (load_Some _ _ _ Hx). bind_ok.
    destruct (node_zip a A x (nkey n) (nvalue n) [] Hbst Hnd Hn)
      as (c & l & r & Ha & HA & HB).
    rewrite Ha in Hrep, Hnd, Hbst.
    destruct (next_zip h c l x _ _ r Hrep Hnd Hbst) as (res & -> & Hres & _).
    rewrite <- HB in Hres. bind_ok.
    assert (res = None) as -> by (by destruct Hres).
    exists 0%nat. by destruct f.
  - destruct f as [|f]; [lia|]. cbn [traverse_loop].
    destruct (rep_lookup h None a x k v Hrep) as (n & Hx & <- & <-).
    { rewrite Hn. set_solver. }
    rewrite (load_Some _ _ _ Hx). bind_ok.
    destruct (node_zip a A x (nkey n) (nvalue n) _ Hbst Hnd Hn)
      as (c & l & r & Ha & HA & HB).
    pose proof Hrep as Hrep'. pose proof Hnd as Hnd'. pose proof Hbst as Hbst'.
    rewrite Ha in Hrep', Hnd', Hbst'.
    destruct (next_zip h c l x _ _ r Hrep' Hnd' Hbst') as (res & -> & Hres & _).
    rewrite <- HB in Hres. bind_ok. cbn [fmap list_fmap head fst] in Hres.
    destruct Hres as [->| ->].
    + exists 0%nat. by destruct f.
    + destruct (IH (A ++ [(x, (nkey n, nvalue n))]) y e' f) as (m & ->).
      { by rewrite <- app_assoc. }
      { simpl in Hf. lia. }
      bind_ok. exists (S m). done.
Qed.

(** Comparing a node with itself. *)
Lemma differ_self h c l x k (v : V) r :
  rep h None (plug c (N l x k v r)) → differ h x x = Ok false.
Proof.
  intros Hrep. apply rep_plug in Hrep as ((Hx & _) & Hc). cbn [rootp] in Hc.
  unfold differ. rewrite (load_Some _ _ _ Hx). bind_ok. cbn [nparent nkey nvalue].
  destruct c as [|f c]; cbn [cpar].
  - rewrite !bool_decide_eq_false_2 by (by intros [? ?]). simpl.
    rewrite Z.eqb_refl. simpl. rewrite bool_decide_eq_false_2; [done|]. by intros H.
  - rewrite !bool_decide_eq_true_2 by (by eexists). simpl.
    destruct (repc_head_cell _ _ _ _ _ Hc) as (pn & Hpn & _).
    rewrite (load_Some _ _ _ Hpn). bind_ok.
    rewrite Z.eqb_refl. simpl. rewrite bool_decide_eq_false_2 by (by intros H).
    bind_ok. rewrite Z.eqb_refl. simpl. rewrite bool_decide_eq_false_2; [done|].
    by intros H.
Qed.

(** The loop of [operator==] run on one tree against itself. *)
Lemma equal_loop_self h a :
  rep h None a → NoDup (ids a) → bst a →
  ∀ B A x e f, nodes a = A ++ (x, e) :: B → (length B < f)%nat →
  equal_loop f h (Some x) (Some x) = Ok true.
Proof.
  intros Hrep Hnd Hbst B.
  induction B as [|[y e'] B IH]; intros A x [k v] f Hn Hf.
  - destruct f as [|f]; [lia|]. cbn [equal_loop deref]. bind_ok.
    destruct (node_zip a A x k v [] Hbst Hnd Hn) as (c & l & r & Ha & HA & HB).
    rewrite Ha in Hrep, Hnd, Hbst.
    rewrite (differ_self h c l x k v r Hrep). bind_ok.
    destruct (next_zip h c l x _ _ r Hrep Hnd Hbst) as (res & -> & Hres & _).
    rewrite <- HB in Hres. bind_ok.
    assert (res = None) as -> by (by destruct Hres). by destruct f.
  - destruct f as [|f]; [lia|]. cbn [equal_loop deref]. bind_ok.
    destruct (node_zip a A x k v _ Hbst Hnd Hn) as (c & l & r & Ha & HA & HB).
    pose proof Hrep as Hrep'. pose proof Hnd as Hnd'. pose proof Hbst as Hbst'.
    rewrite Ha in Hrep', Hnd', Hbst'.
    rewrite (differ_self h c l x k v r Hrep'). bind_ok.
    destruct (next_zip h c l x _ _ r Hrep' Hnd' Hbst') as (res & -> & Hres & _).
    rewrite <- HB in Hres. bind_ok. cbn [fmap list_fmap head fst] in Hres.
    destruct Hres as [->| ->].
    + by destruct f.
    + apply (IH (A ++ [(x, (k, v))]) y e' f).
      * by rewrite <- app_assoc.
      * simpl in Hf. lia.
Qed.

(** [begin()] is the first node in order, whatever [size()] says. *)
Lemma begin_links t h a : links t h a → begin t = head (ids a).
Proof.
  intros [_ _ _ _ Hfirst Hsize]. unfold begin, empty.
  destruct (tree_size t =? 0) eqn:Hw; [|done].
  apply Z.eqb_eq in Hw. pose proof (weight_nonneg a).
  assert (weight a = 0) as Hz by lia. apply weight_zero in Hz. by subst a.
Qed.

(** The position of a stored key in the tree and in the entries. *)
Lemma found_zip t h a A k (v : V) B x :
  links t h a → elems a = A ++ (k, v) :: B → find t h k = Ok (Some x) →
  ∃ c l r, a = plug c (N l x k v r)
           ∧ A = (cleft c ++ nodes l).*2 ∧ B = (nodes r ++ cright c).*2.
Proof.
  intros Hh Hel Hf. pose proof (links_bst _ _ _ Hh) as Hbst.
  rewrite (find_links t h a k Hh) in Hf. injection Hf as Hf.
  destruct (locate k a []) as [c [|l p k0 v0 r]] eqn:Hloc; [done|].
  injection Hf as ->.
  pose proof (locate_plug k a []) as Hplug. rewrite Hloc in Hplug.
  cbn [fst snd plug] in Hplug.
  pose proof (locate_found k a [] l x k0 v0 r) as Hk0. rewrite Hloc in Hk0.
  specialize (Hk0 eq_refl). subst k0.
  pose proof (elems_plug_node c l x k v0 r) as Hep. rewrite Hplug, Hel in Hep.
  assert (NoDup (A ++ (k, v) :: B).*1) as Hnd.
  { rewrite <- Hel. apply sorted_NoDup. apply Hbst. }
  destruct (split_unique _ _ _ _ _ _ _ Hnd Hep) as (-> & -> & ->).
  exists c, l, r. split; [done|]. by rewrite !fmap_app.
Qed.

(** X8: on a tree reached from the empty one, [next] at the node of a
    stored key returns without fault, and what it returns is either null
    or the node of the entry that follows in key order; it is never null
    when the node has a right child. *)
Theorem next_is_sound ops h0 t h A k v B x :
  run ops (Tree_new, h0) = Ok (t, h) →
  entries t h = Ok (A ++ (k, v) :: B) →
  find t h k = Ok (Some x) →
  ∃ res xn,
    next h x = Ok res ∧ h !! x = Some xn
    ∧ match res with
      | None => nright xn = None
      | Some y => ∃ e B', B = e :: B' ∧ iter_get h (Some y) = Ok e
                          ∧ find t h e.1 = Ok (Some y)
      end.
Proof.
  intros Hrun Hes Hf. destruct (reachable_links ops h0 t h Hrun) as (a & Hh).
  rewrite (entries_links _ _ _ Hh) in Hes. injection Hes as Hes.
  destruct (found_zip t h a A k v B x Hh Hes Hf) as (c & l & r & Ha & HA & HB).
  pose proof Hh as [Hrep Hnd Hbst _ _ _].
  pose proof Hrep as Hrep'. pose proof Hnd as Hnd'. pose proof Hbst as Hbst'.
  rewrite Ha in Hrep', Hnd', Hbst'.
  destruct (next_zip h c l x k v r Hrep' Hnd' Hbst') as (res & Hnext & Hres & Hex).
  pose proof Hrep' as Hcell. apply rep_plug in Hcell as ((Hx & _) & _).
  eexists res, _. split; [done|]. split; [exact Hx|].
  destruct res as [y|].
  - destruct Hres as [?|Hres]; [done|].
    destruct (nodes r ++ cright c) as [|[y' [k' v']] rest] eqn:Hrest; [done|].
    simpl in Hres. injection Hres as ->.
    assert ((y', (k', v')) ∈ nodes a) as Hin.
    { rewrite Ha, nodes_plug. cbn [nodes]. rewrite <- !app_assoc. simpl.
      rewrite Hrest. set_solver. }
    destruct (find_node_links t h a y' k' v' Hh Hin) as (Hfy & n & Hn & Hnk & Hnv).
    exists (k', v'), rest.*2. split_and!.
    + by rewrite HB.
    + unfold iter_get. cbn [deref]. bind_ok. rewrite (load_Some _ _ _ Hn). bind_ok.
      by rewrite Hnk, Hnv.
    + done.
  - cbn [nright]. destruct r as [|rl rp rk rv rr]; [done|]. by destruct Hex.
Qed.

(** X9: on a tree reached from the empty one, [prev] at the node of a
    stored key returns without fault, and what it returns is either null
    or the node of the entry that precedes in key order; it is never null
    when the node has a left child. *)
Theorem prev_is_sound ops h0 t h A k v B x :
  run ops (Tree_new, h0) = Ok (t, h) →
  entries t h = Ok (A ++ (k, v) :: B) →
  find t h k = Ok (Some x) →
  ∃ res xn,
    prev h x = Ok res ∧ h !! x = Some xn
    ∧ match res with
      | None => nleft xn = None
      | Some y => ∃ e A', A = A' ++ [e] ∧ iter_get h (Some y) = Ok e
                          ∧ find t h e.1 = Ok (Some y)
      end.
Proof.
  intros Hrun Hes Hf. destruct (reachable_links ops h0 t h Hrun) as (a & Hh).
  rewrite (entries_links _ _ _ Hh) in Hes. injection Hes as Hes.
  destruct (found_zip t h a A k v B x Hh Hes Hf) as (c & l & r & Ha & HA & HB).
  pose proof Hh as [Hrep Hnd Hbst _ _ _].
  pose proof Hrep as Hrep'. pose proof Hnd as Hnd'. pose proof Hbst as Hbst'.
  rewrite Ha in Hrep', Hnd', Hbst'.
  destruct (prev_zip h c l x k v r Hrep' Hnd' Hbst') as (res & Hprev & Hres & Hex).
  pose proof Hrep' as Hcell. apply rep_plug in Hcell as ((Hx & _) & _).
  eexists res, _. split; [done|]. split; [exact Hx|].
  destruct res as [y|].
  - destruct Hres as [?|Hres]; [done|].
    rewrite fmap_last in Hres.
    destruct (last (cleft c ++ nodes l)) as [[y' [k' v']]|] eqn:Hlast; [|done].
    simpl in Hres. injection Hres as ->.
    apply last_Some in Hlast as (front & Hfront).
    assert ((y', (k', v')) ∈ nodes a) as Hin.
    { rewrite Ha, nodes_plug. cbn [nodes]. rewrite !app_assoc.
      rewrite Hfront. set_solver. }
    destruct (find_node_links t h a y' k' v' Hh Hin) as (Hfy & n & Hn & Hnk & Hnv).
    exists (k', v'), front.*2. split_and!.
    + by rewrite HA, Hfront, fmap_app.
    + unfold iter_get. cbn [deref]. bind_ok. rewrite (load_Some _ _ _ Hn). bind_ok.
      by rewrite Hnk, Hnv.
    + done.
  - cbn [nleft]. destruct l as [|ll lp lk lv lr]; [done|]. by destruct Hex.
Qed.

(** X10: on a tree reached from the empty one, the iteration from
    [begin()] to [end()] returns without fault and yields an initial part of
    the entries in key order, which is not empty when the tree is not. *)
Theorem traverse_is_prefix ops h0 t h es :
  run ops (Tree_new, h0) = Ok (t, h) →
  entries t h = Ok es →
  ∃ xs ys, traverse t h = Ok xs ∧ es = xs ++ ys ∧ (es ≠ [] → xs ≠ []).
Proof.
  intros Hrun Hes. destruct (reachable_links ops h0 t h Hrun) as (a & Hh).
  rewrite (entries_links _ _ _ Hh) in Hes. injection Hes as <-.
  pose proof Hh as [Hrep Hnd Hbst _ Hfirst Hsize].
  unfold traverse. rewrite (begin_links t h a Hh).
  - unfold ids, elems.
    destruct (nodes a) as [|[x e] B] eqn:Hn.
    { exists [], []. split; [by unfold fuel|done]. }
    cbn [fmap list_fmap head fst snd].
    destruct (traverse_from h a Hrep Hnd Hbst B [] x e (fuel h)) as (m & ->); [done|..].
    { pose proof (rep_fuel _ _ _ Hrep Hnd) as Hlt. unfold ids in Hlt.
      rewrite Hn, length_fmap in Hlt. simpl in Hlt. lia. }
    exists (take (S m) (e :: B.*2)), (drop (S m) (e :: B.*2)).
    split_and!; [done|by rewrite take_drop|done].
Qed.

(** X11: on a tree reached from the empty one, [operator==] applied to
    the tree and itself returns [true]. *)
Theorem equal_is_reflexive ops h0 t h :
  run ops (Tree_new, h0) = Ok (t, h) → equal t t h = Ok true.
Proof.
  intros Hrun. destruct (reachable_links ops h0 t h Hrun) as (a & Hh).
  pose proof Hh as [Hrep Hnd Hbst _ Hfirst Hsize].
  unfold equal. rewrite Z.eqb_refl. cbn [negb]. rewrite (begin_links t h a Hh).
  - unfold ids.
    destruct (nodes a) as [|[x e] B] eqn:Hn.
    { by unfold fuel. }
    cbn [fmap list_fmap head fst]. apply (equal_loop_self h a Hrep Hnd Hbst B [] x e); [done|].
    pose proof (rep_fuel _ _ _ Hrep Hnd) as Hlt. unfold ids in Hlt.
    rewrite Hn, length_fmap in Hlt. simpl in Hlt. lia.
Qed.

End Iter.
End Iter.

(** * The counters [tree_size] and [max_size] *)

Module Fields.
Import DM852 Observe Abs Trace Assoc Basic Ctx Read Flatten Build Rebuild Order Scapegoat Insert Shift Unlink Erase Shape Copy Invariant Properties Map Contents.

Tactic Notation "inv_bind" hyp(H) "as" simple_intropattern(x) ident(E) :=
  apply bind_Ok_inv in H as (x & E & H).

Section Fields.
Context {V : Type} `{!EqDecision V} `{!Inhabited V} {halpha : HAlpha}.
Implicit Types (h : gmap positive (@Node V)) (t : Tree) (a b l r s : @T V) (c : list (@frame V)).
Implicit Types (ops : list (@op V)) (es : list (Z * V)).









End Fields.
End Fields.

(** * Ownership: what the operations touch *)

Module Own.
Import DM852 Observe Abs Trace Assoc Session Basic Ctx Read Flatten Build Rebuild Order Scapegoat Insert Shift Unlink Erase Shape Copy Invariant Properties Map Contents Iter Fields.

Section Own.
Context {V : Type} `{!EqDecision V} `{!Inhabited V} {halpha : HAlpha}.
Implicit Types (h : gmap positive (@Node V)) (t u : Tree) (a b l r s : @T V) (c : list (@frame V)).
Implicit Types (ops : list (@op V)) (es : list (Z * V)).

Lemma holds_agree t h h' a :
  holds t h a → (∀ q, q ∈ ids a → h' !! q = h !! q) → holds t h' a.
Proof.
  intros [Hrep Hnd Hbst Hroot Hfirst Hlast Hsize] Hag. split; try done.
  by eapply rep_agree.
Qed.

Lemma holds_in_dom t h a q : holds t h a → q ∈ ids a → is_Some (h !! q).
Proof. intros [Hrep _ _ _ _ _ _] Hq. by eapply rep_in_dom. Qed.

Lemma footprint_refl h a a' : ids a' = ids a → footprint h a h a'.
Proof.
  intros Hi. split_and!; [done|..]; intros q H1 H2; rewrite Hi in *; done.
Qed.

(** A tree disjoint from the footprint is left alone. *)
Lemma footprint_other h a h' a' u b :
  footprint h a h' a' → holds u h b → (∀ q, q ∈ ids a → q ∉ ids b) →
  holds u h' b ∧ (∀ q, q ∈ ids a' → q ∉ ids b).
Proof.
  intros (Hout & Hfree & Hnew) Hb Hdisj.
  assert (∀ q, q ∈ ids a' → q ∉ ids b) as Hdisj'.
  { intros q Hq Hqb. destruct (decide (q ∈ ids a)) as [Hqa|Hqa]; [by apply (Hdisj q)|].
    destruct (holds_in_dom u h b q Hb Hqb) as [n Hn].
    rewrite (Hnew q Hq Hqa) in Hn. done. }
  split; [|done]. apply (holds_agree u h h' b Hb).
  intros q Hq. apply Hout.
  - intros Hqa. by apply (Hdisj q).
  - intros Hqa. by apply (Hdisj' q).
Qed.

Lemma owned_swap h0 h a b : owned h0 h a b → owned h0 h b a.
Proof.
  intros (Hd & Ho & Hn). split_and!.
  - intros q Hq Hq'. by apply (Hd q).
  - intros q Hq Hq'. by apply Ho.
  - intros q [Hq|Hq]; apply Hn; auto.
Qed.

Lemma owned_footprint h0 h a b h' a' u :
  owned h0 h a b → holds u h b → footprint h a h' a' → owned h0 h' a' b.
Proof.
  intros (Hd & Ho & Hn) Hb Hfp.
  destruct (footprint_other h a h' a' u b Hfp Hb Hd) as (_ & Hd').
  destruct Hfp as (Hout & Hfree & Hnew).
  split_and!; [done|..].
  - intros q Hqa' Hqb. destruct (decide (q ∈ ids a)) as [Hqa|Hqa].
    + rewrite (Hfree q Hqa Hqa'). symmetry. apply Hn. by left.
    + rewrite (Hout q Hqa Hqa'). by apply Ho.
  - intros q [Hq|Hq]; [|apply Hn; by right].
    destruct (decide (q ∈ ids a)) as [Hqa|Hqa]; [apply Hn; by left|].
    rewrite <- (Ho q Hqa (Hd' q Hq)). by apply Hnew.
Qed.

(** The footprint of [insert] and [erase]. *)
Lemma step_footprint t h a (o : @op V) t' h' :
  holds t h a → weight a < 2 ^ 24 → step (t, h) o = Ok (t', h') →
  ∃ a', holds t' h' a' ∧ footprint h a h' a' ∧ weight a' ≤ weight a + 1.
Proof.
  intros Hh Hsmall Hs. destruct o as [k v|k]; cbn [step fst snd] in Hs.
  - apply bind_Ok_inv in Hs as ([res [t2 h2]] & Hi & Hs). injection Hs as <- <-.
    destruct (locate_cases k a) as [(c & Hloc)|(c & l & p & k0 & v0 & r & Hloc)].
    + destruct (insert_fell_frame t h a k v c Hh Hsmall Hloc)
        as (t' & h' & a' & p & Hi' & Hh' & Hp & Hna & Hna' & Hfr).
      rewrite Hi' in Hi. injection Hi as _ <- <-.
      assert (∀ q, q ∈ ids a' ↔ q = p ∨ q ∈ ids a) as Hids.
      { intros q. unfold ids. rewrite Hna, Hna', !fmap_app, fmap_cons. set_solver. }
      exists a'. split; [done|]. split.
      2:{ rewrite !weight_nodes, Hna, Hna', !length_app. simpl. lia. }
      split_and!.
      * intros q Hqa Hqa'. apply Hfr; [done|]. intros ->. apply Hqa', Hids. by left.
      * intros q Hqa Hqa'. exfalso. apply Hqa', Hids. by right.
      * intros q Hqa' Hqa. apply Hids in Hqa' as [->|?]; done.
    + destruct (insert_found t h a k v c l p k0 v0 r Hh Hloc)
        as (Hi' & Hh' & -> & -> & Hp).
      rewrite Hi' in Hi. injection Hi as _ <- <-.
      assert (ids (plug c (N l p k v r)) = ids (plug c (N l p k v0 r))) as Hids.
      { by rewrite !ids_plug, !ids_N. }
      eexists. split; [exact Hh'|]. split.
      2:{ rewrite !weight_length, Hids. lia. }
      split_and!.
      * intros q Hqa _. rewrite lookup_insert_ne; [done|]. intros <-. apply Hqa.
        rewrite ids_plug, ids_N. set_solver.
      * intros q Hqa Hqa'. by rewrite Hids in Hqa'.
      * intros q Hqa' Hqa. by rewrite Hids in Hqa'.
  - destruct (locate_cases k a) as [(c & Hloc)|(c & l & p & k0 & v0 & r & Hloc)].
    { rewrite (erase_missing t h a k c Hh Hloc) in Hs. discriminate. }
    destruct (erase_found_frame t h a k c l p k0 v0 r Hh ltac:(lia) Hloc)
      as (t2 & h2 & a' & He & Hh' & Hna & Hna' & _ & _ & Hfr & Hp).
    rewrite He in Hs. injection Hs as <- <-.
    assert (∀ q, q ∈ ids a ↔ q = p ∨ q ∈ ids a') as Hids.
    { intros q. unfold ids. rewrite Hna, Hna', !fmap_app, fmap_cons, !fmap_app.
      set_solver. }
    exists a'. split; [done|]. split.
    2:{ rewrite !weight_nodes, Hna, Hna', !length_app. simpl. rewrite !length_app. lia. }
    split_and!.
    + intros q Hqa _. by apply Hfr.
    + intros q Hqa Hqa'. apply Hids in Hqa as [->|?]; done.
    + intros q Hqa' Hqa. exfalso. apply Hqa, Hids. by right.
Qed.

(** [delete root] frees the tree. *)
Lemma destroy_footprint t h a :
  holds t h a → ∃ h', destroy t h = Ok h' ∧ footprint h a h' E.
Proof.
  intros [Hrep Hnd _ Hroot _ _ _]. unfold destroy. rewrite Hroot.
  destruct (delete_tree_spec a (fuel h) h None Hrep Hnd) as (h' & -> & Hfr & Hfree).
  { pose proof (rep_fuel _ _ _ Hrep Hnd). lia. }
  exists h'. split; [done|]. split_and!.
  - intros q Hq _. by apply Hfr.
  - intros q Hq _. by apply Hfree.
  - intros q Hq. by apply elem_of_nil in Hq.
Qed.

Lemma holds_empty t h : root t = None → tfirst t = None → tlast t = None →
  tree_size t = 0 → holds t h E.
Proof. intros. split; try done; [apply NoDup_nil_2|constructor]. Qed.

(** The copy is made of fresh cells. *)
Lemma copy_footprint t h a :
  holds t h a → root t ≠ None →
  ∃ t' h' a', copy_from h t = Ok (t', h') ∧ holds t' h' a' ∧ elems a' = elems a
              ∧ footprint h E h' a'.
Proof.
  intros Hh Hroot.
  destruct (copy_from_holds h t a Hh Hroot)
    as (t' & h' & a' & Hc & Hh' & Hel & _ & Hfresh & _ & Hout).
  exists t', h', a'. split_and!; try done. split_and!.
  - intros q _ Hq. by apply Hout.
  - intros q Hq. by apply elem_of_nil in Hq.
  - intros q Hq _. by apply Hfresh.
Qed.

(** ** The invariant of a session *)

Lemma sinv_first h0 n t u h a b t' h' a' :
  holds t h a → holds u h b → owned h0 h a b →
  holds t' h' a' → footprint h a h' a' → weight a' ≤ n → weight b ≤ n →
  sinv h0 n ((t', u), h').
Proof.
  intros Ha Hb Ho Ha' Hfp Hwa Hwb.
  destruct (footprint_other h a h' a' u b Hfp Hb) as (Hb' & _); [apply Ho|].
  exists a', b. split_and!; [done|done| |done|done]. by eapply owned_footprint.
Qed.

Lemma sinv_second h0 n t u h a b u' h' b' :
  holds t h a → holds u h b → owned h0 h a b →
  holds u' h' b' → footprint h b h' b' → weight a ≤ n → weight b' ≤ n →
  sinv h0 n ((t, u'), h').
Proof.
  intros Ha Hb Ho Hb' Hfp Hwa Hwb. apply owned_swap in Ho.
  destruct (footprint_other h b h' b' t a Hfp Ha) as (Ha' & _); [apply Ho|].
  exists a, b'. split_and!; [done|done| |done|done].
  apply owned_swap. by eapply owned_footprint.
Qed.

Lemma exec_sinv h0 n (s s' : @state V) (c0 : @cmd V) :
  sinv h0 n s → n < 2 ^ 24 → exec s c0 = Ok s' → sinv h0 (n + 1) s'.
Proof.
  destruct s as [[t u] h]. intros (a & b & Ha & Hb & Ho & Hwa & Hwb) Hn He.
  cbn [fst snd] in *.
  pose proof (weight_nonneg a) as Hwa0. pose proof (weight_nonneg b) as Hwb0.
  destruct c0 as [o| | |]; cbn [exec] in He.
  - apply bind_Ok_inv in He as ([t' h'] & Hs & He). injection He as <-.
    destruct (step_footprint t h a o t' h' Ha ltac:(lia) Hs) as (a' & Ha' & Hfp & Hw').
    apply (sinv_first h0 (n + 1) t u h a b t' h' a' Ha Hb Ho Ha' Hfp); lia.
  - apply bind_Ok_inv in He as ([t' h'] & Hs & He). injection He as <-.
    unfold clear in Hs. apply bind_Ok_inv in Hs as (h1 & Hd & Hs).
    injection Hs as Ht Hh. subst t' h'.
    destruct (destroy_footprint t h a Ha) as (h2 & Hd' & Hfp).
    unfold destroy in Hd'. rewrite Hd' in Hd. injection Hd as ->.
    apply (sinv_first h0 (n + 1) t u h a b _ h1 E Ha Hb Ho); [|done|simpl; lia|lia].
    by apply holds_empty.
  - apply bind_Ok_inv in He as ([u' h'] & Hs & He). injection He as <-.
    unfold copy_assign in Hs. apply bind_Ok_inv in Hs as (h1 & Hd & Hs).
    destruct (destroy_footprint u h b Hb) as (h2 & Hd' & Hfp).
    unfold destroy in Hd'. rewrite Hd' in Hd. injection Hd as ->.
    assert (holds Tree_new h1 E) as HE by (by apply holds_empty).
    assert (owned h0 h1 a E ∧ holds t h1 a) as (Ho2 & Ha2).
    { apply owned_swap in Ho.
      destruct (footprint_other h b h1 E t a Hfp Ha) as (Ha' & _); [apply Ho|].
      split; [|done]. apply owned_swap. by eapply owned_footprint. }
    destruct (root t) as [rt|] eqn:Hroot.
    2:{ rewrite (copy_from_empty h1 t Hroot) in Hs. discriminate. }
    destruct (copy_footprint t h1 a Ha2) as (u2 & h2 & b2 & Hc & Hb2 & Hel & Hfp2).
    { by rewrite Hroot. }
    rewrite Hc in Hs. injection Hs as Ht Hh. subst u' h'.
    apply (sinv_second h0 (n + 1) t Tree_new h1 a E u2 h2 b2 Ha2 HE Ho2 Hb2 Hfp2); [lia|].
    assert (weight b2 = weight a) as ->; [|lia]. rewrite !weight_nodes.
    rewrite <- (length_fmap snd (nodes b2)), <- (length_fmap snd (nodes a)).
    fold (elems b2) (elems a). by rewrite Hel.
  - apply bind_Ok_inv in He as ([[u' t'] h'] & Hs & He). injection He as <-.
    unfold move_assign in Hs. apply bind_Ok_inv in Hs as (h1 & Hd & Hs).
    injection Hs as Hu Ht Hh. subst u' t' h'.
    destruct (destroy_footprint u h b Hb) as (h2 & Hd' & Hfp).
    unfold destroy in Hd'. rewrite Hd' in Hd. injection Hd as ->.
    assert (owned h0 h1 a E ∧ holds t h1 a) as (Ho2 & Ha2).
    { apply owned_swap in Ho.
      destruct (footprint_other h b h1 E t a Hfp Ha) as (Ha' & _); [apply Ho|].
      split; [|done]. apply owned_swap. by eapply owned_footprint. }
    exists E, a. cbn [fst snd]. split_and!.
    + by apply holds_empty.
    + destruct Ha2 as [? ? ? ? ? ? ?]. by split.
    + by apply owned_swap.
    + simpl. lia.
    + lia.
Qed.

Lemma sinv_mono h0 n m (s : @state V) : sinv h0 n s → n ≤ m → sinv h0 m s.
Proof.
  intros (a & b & Ha & Hb & Ho & Hwa & Hwb) Hle. exists a, b. split_and!; try done; lia.
Qed.

Lemma session_sinv h0 (cmds : list (@cmd V)) : ∀ n (s s' : @state V),
  sinv h0 n s → n + Z.of_nat (length cmds) ≤ 2 ^ 24 → session cmds s = Ok s' →
  sinv h0 (n + Z.of_nat (length cmds)) s'.
Proof.
  induction cmds as [|c0 cmds IH]; intros n s s' Hs Hn Hr; simpl in Hr.
  - injection Hr as <-. apply (sinv_mono h0 n); [done|simpl; lia].
  - apply bind_Ok_inv in Hr as (s1 & He & Hr). cbn [length] in Hn |- *.
    pose proof (exec_sinv h0 n s s1 c0 Hs ltac:(lia) He) as Hs1.
    pose proof (IH (n + 1) s1 s' Hs1 ltac:(lia) Hr) as Hs'.
    apply (sinv_mono h0 _ _ _ Hs'). lia.
Qed.

Lemma start_sinv h0 : sinv h0 0 (start h0).
Proof.
  exists E, E. cbn. split_and!; [apply holds_init|apply holds_init| |done|done].
  split_and!; [|done|]; intros q Hq; [by apply elem_of_nil in Hq|].
  destruct Hq as [Hq|Hq]; by apply elem_of_nil in Hq.
Qed.

Lemma reachable_sinv h0 (cmds : list (@cmd V)) (s : @state V) :
  session cmds (start h0) = Ok s → Z.of_nat (length cmds) ≤ 2 ^ 24 →
  sinv h0 (Z.of_nat (length cmds)) s.
Proof.
  intros Hs Hlen.
  apply (session_sinv h0 cmds 0 (start h0) s (start_sinv h0)); [lia|done].
Qed.

(** ** Sessions of any length: the two trees stay apart *)

Lemma links_other h a h' a' u b :
  confined h a h' a' → links u h b → (∀ q, q ∈ ids a → q ∉ ids b) →
  links u h' b ∧ (∀ q, q ∈ ids a' → q ∉ ids b).
Proof.
  intros (Hout & Hnew) Hb Hdisj. split.
  - apply (links_agree u h h' b Hb). intros q Hq. apply Hout.
    + by eapply links_in_dom.
    + intros Hqa. by apply (Hdisj q).
  - intros q Hq Hqb. destruct (Hnew q Hq) as [Hqa|Hnone]; [by apply (Hdisj q)|].
    destruct (links_in_dom u h b q Hb Hqb) as [n Hn]. congruence.
Qed.

Lemma destroy_confined t h a :
  links t h a → ∃ h', destroy t h = Ok h' ∧ confined h a h' E.
Proof.
  intros [Hrep Hnd _ Hroot _ _]. unfold destroy. rewrite Hroot.
  destruct (delete_tree_spec a (fuel h) h None Hrep Hnd) as (h' & -> & Hfr & Hfree).
  { pose proof (rep_fuel _ _ _ Hrep Hnd). lia. }
  exists h'. split; [done|]. split.
  - intros q _ Hq. by apply Hfr.
  - intros q Hq. by apply elem_of_nil in Hq.
Qed.

Lemma links_empty t h : root t = None → tfirst t = None → tree_size t = 0 → links t h E.
Proof. intros Hr Hf Hs. split; try done; [apply NoDup_nil_2|constructor|by rewrite Hs]. Qed.

Lemma apart_swap (t u : Tree) h : apart ((t, u), h) → apart ((u, t), h).
Proof.
  intros (a & b & Ha & Hb & Hd). exists b, a. split_and!; try done.
  intros q Hq Hq'. by apply (Hd q).
Qed.

Lemma exec_apart (s s' : @state V) (c0 : @cmd V) :
  apart s → exec s c0 = Ok s' → apart s'.
Proof.
  destruct s as [[t u] h]. intros (a & b & Ha & Hb & Hd) He. cbn [fst snd] in *.
  assert (∀ q, q ∈ ids b → q ∉ ids a) as Hd' by (intros q Hq Hq'; by apply (Hd q)).
  destruct c0 as [o| | |]; cbn [exec] in He.
  - apply bind_Ok_inv in He as ([t' h'] & Hs & He). injection He as <-.
    destruct (step_links (t, h) (t', h') o a Ha Hs) as (a' & Ha' & Hc).
    destruct (links_other h a h' a' u b Hc Hb Hd) as (Hb' & Hd1).
    by exists a', b.
  - apply bind_Ok_inv in He as ([t' h'] & Hs & He). injection He as <-.
    unfold clear in Hs. apply bind_Ok_inv in Hs as (h1 & Hdel & Hs).
    injection Hs as Ht Hh. subst t' h'.
    destruct (destroy_confined t h a Ha) as (h2 & Hd2 & Hc).
    unfold destroy in Hd2. rewrite Hd2 in Hdel. injection Hdel as ->.
    destruct (links_other h a h1 E u b Hc Hb Hd) as (Hb' & Hd1).
    exists E, b. split_and!; [by apply links_empty|done|done].
  - apply bind_Ok_inv in He as ([u' h'] & Hs & He). injection He as <-.
    unfold copy_assign in Hs. apply bind_Ok_inv in Hs as (h1 & Hdel & Hs).
    destruct (destroy_confined u h b Hb) as (h2 & Hd2 & Hc).
    unfold destroy in Hd2. rewrite Hd2 in Hdel. injection Hdel as ->.
    destruct (links_other h b h1 E t a Hc Ha Hd') as (Ha1 & _).
    destruct (root t) as [rt|] eqn:Hroot.
    2:{ rewrite (copy_from_empty h1 t Hroot) in Hs. discriminate. }
    destruct (copy_from_links h1 t a Ha1) as (u2 & h2 & b2 & Hcp & Hb2 & _ & Ha2 & Hfresh & _).
    { by rewrite Hroot. }
    rewrite Hcp in Hs. injection Hs as Ht Hh. subst u' h'.
    exists a, b2. split_and!; [done|done|].
    intros q Hq Hq2. destruct (links_in_dom t h1 a q Ha1 Hq) as [n Hn].
    rewrite (Hfresh q Hq2) in Hn. done.
  - apply bind_Ok_inv in He as ([[u' t'] h'] & Hs & He). injection He as <-.
    unfold move_assign in Hs. apply bind_Ok_inv in Hs as (h1 & Hdel & Hs).
    injection Hs as Hu Ht Hh. subst u' t' h'.
    destruct (destroy_confined u h b Hb) as (h2 & Hd2 & Hc).
    unfold destroy in Hd2. rewrite Hd2 in Hdel. injection Hdel as ->.
    destruct (links_other h b h1 E t a Hc Ha Hd') as (Ha1 & _).
    exists E, a. cbn [fst snd]. split_and!.
    + by apply links_empty.
    + destruct Ha1 as [? ? ? ? ? ?]. by split.
    + intros q Hq. by apply elem_of_nil in Hq.
Qed.

Lemma session_apart (cmds : list (@cmd V)) : ∀ (s s' : @state V),
  apart s → session cmds s = Ok s' → apart s'.
Proof.
  induction cmds as [|c0 cmds IH]; intros s s' Hs Hr; simpl in Hr.
  - by injection Hr as <-.
  - apply bind_Ok_inv in Hr as (s1 & He & Hr).
    eapply IH; [|done]. by eapply exec_apart.
Qed.

Lemma reachable_apart h0 (cmds : list (@cmd V)) (s : @state V) :
  session cmds (start h0) = Ok s → apart s.
Proof.
  apply session_apart. exists E, E. cbn. split_and!; [apply links_init..|].
  intros q Hq. by apply elem_of_nil in Hq.
Qed.

(** ** What a session leaves in the heap *)

Lemma owned_heap h0 t u h a b :
  holds t h a → holds u h b → owned h0 h a b →
  (∀ q, is_Some (h0 !! q) → h !! q = h0 !! q)
  ∧ base.size h = (base.size h0 + length (ids a) + length (ids b))%nat.
Proof.
  intros Ha Hb (Hd & Ho & Hn).
  assert (∀ q, is_Some (h0 !! q) → (q ∉ ids a) ∧ (q ∉ ids b)) as Hold.
  { intros q [n Hq]. split; intros Hin; rewrite Hn in Hq; auto; done. }
  split.
  - intros q Hq. destruct (Hold q Hq). by apply Ho.
  - assert (dom h = dom h0 ∪ (list_to_set (ids a) ∪ list_to_set (ids b))) as Hdom.
    { apply set_eq. intros q. rewrite !elem_of_union, !elem_of_list_to_set, !elem_of_dom.
      split.
      - intros Hq. destruct (decide (q ∈ ids a)) as [?|Hqa]; [auto|].
        destruct (decide (q ∈ ids b)) as [?|Hqb]; [auto|].
        left. by rewrite <- (Ho q Hqa Hqb).
      - intros [Hq|[Hq|Hq]].
        + destruct (Hold q Hq). by rewrite Ho.
        + by apply (holds_in_dom t h a).
        + by apply (holds_in_dom u h b). }
    rewrite <- !size_dom, Hdom.
    rewrite size_union, size_union.
    + rewrite !size_list_to_set; [lia|apply Hb|apply Ha].
    + intros q. rewrite !elem_of_list_to_set. apply Hd.
    + intros q. rewrite elem_of_dom, elem_of_union, !elem_of_list_to_set.
      intros Hq [Hin|Hin]; destruct (Hold q Hq); done.
Qed.

Lemma owned_finish h0 t u h a b :
  holds t h a → holds u h b → owned h0 h a b → finish ((t, u), h) = Ok h0.
Proof.
  intros Ha Hb Ho. unfold finish.
  destruct (destroy_footprint u h b Hb) as (h1 & -> & Hfp). bind_ok.
  pose proof (owned_swap _ _ _ _ Ho) as Ho'.
  destruct (footprint_other h b h1 E t a Hfp Ha) as (Ha1 & _); [apply Ho'|].
  destruct (destroy_footprint t h1 a Ha1) as (h2 & -> & Hfp2).
  f_equal. apply map_eq. intros q.
  destruct Ho as (Hd & Hout & Hn).
  destruct Hfp as (Hout1 & Hfree1 & _). destruct Hfp2 as (Hout2 & Hfree2 & _).
  destruct (decide (q ∈ ids a)) as [Hqa|Hqa].
  - rewrite Hfree2; [|done|by intros H%elem_of_nil]. symmetry. apply Hn. by left.
  - rewrite Hout2; [|done|by intros H%elem_of_nil].
    destruct (decide (q ∈ ids b)) as [Hqb|Hqb].
    + rewrite Hfree1; [|done|by intros H%elem_of_nil]. symmetry. apply Hn. by right.
    + rewrite Hout1; [|done|by intros H%elem_of_nil]. by apply Hout.
Qed.

Lemma session_app (c1 c2 : list (@cmd V)) : ∀ (s0 : @state V),
  session (c1 ++ c2) s0 = (s1 ← session c1 s0; session c2 s1).
Proof.
  induction c1 as [|c0 c1 IH]; intros s0; [done|].
  cbn [app session]. destruct (exec s0 c0); [|done..]. bind_ok. apply IH.
Qed.

(** A run on one tree seen as a session. *)
Lemma session_Do ops : ∀ t u h,
  session (Do <$> ops) ((t, u), h) = ('(t', h') ← run ops (t, h); Ok ((t', u), h')).
Proof.
  induction ops as [|o ops IH]; intros t u h; [done|].
  cbn [fmap list_fmap session exec run].
  destruct (step (t, h) o) as [[t1 h1]| | |]; [|done..].
  bind_ok. apply IH.
Qed.

Lemma run_sinv ops h0 t h :
  run ops (Tree_new, h0) = Ok (t, h) → Z.of_nat (length ops) ≤ 2 ^ 24 →
  ∃ a, holds t h a ∧ owned h0 h a E.
Proof.
  intros Hrun Hlen.
  assert (session (Do <$> ops) (start h0) = Ok ((t, Tree_new), h)) as Hs.
  { unfold start. by rewrite session_Do, Hrun. }
  destruct (reachable_sinv h0 _ _ Hs) as (a & b & Ha & Hb & Ho & _ & _).
  { by rewrite length_fmap. }
  cbn [fst snd] in *.
  assert (b = E) as ->.
  { destruct Hb as [_ _ _ Hroot _ _ _]. by destruct b. }
  by exists a.
Qed.

(** Operations on one tree leave a disjoint tree alone. *)
Lemma run_other ops t h a u b t' h' :
  links t h a → links u h b → (∀ q, q ∈ ids a → q ∉ ids b) →
  run ops (t, h) = Ok (t', h') →
  links u h' b.
Proof.
  intros Ha Hb Hd Hr.
  destruct (run_links ops (t, h) (t', h') a Ha Hr) as (a' & _ & Hc).
  by destruct (links_other h a h' a' u b Hc Hb Hd).
Qed.

(** X12: a sequence of fewer than [2^24] inserts and erases on a new tree
    changes no cell that was allocated before, and leaves as many cells
    allocated as there were before plus one for each entry of the tree. *)
Theorem run_owns_its_nodes ops h0 t h :
  run ops (Tree_new, h0) = Ok (t, h) → Z.of_nat (length ops) < 2 ^ 24 →
  (∀ q, is_Some (h0 !! q) → h !! q = h0 !! q)
  ∧ base.size h = (base.size h0 + Z.to_nat (size t))%nat.
Proof.
  intros Hrun Hlen. destruct (run_sinv ops h0 t h Hrun ltac:(lia)) as (a & Ha & Ho).
  destruct (owned_heap h0 t Tree_new h a E Ha (holds_init h) Ho) as (Hfr & Hsz).
  split; [done|]. rewrite Hsz. unfold size.
  rewrite (holds_size _ _ _ Ha), weight_length. simpl. lia.
Qed.

(** X13: after a sequence of fewer than [2^24] inserts and erases on a new
    tree, [clear()] frees every node and leaves the tree object and the heap
    exactly as they were when the tree was constructed; so does the
    destructor for the heap. *)
Theorem clear_frees_all ops h0 t h :
  run ops (Tree_new, h0) = Ok (t, h) → Z.of_nat (length ops) < 2 ^ 24 →
  clear t h = Ok (Tree_new, h0) ∧ destroy t h = Ok h0.
Proof.
  intros Hrun Hlen. destruct (run_sinv ops h0 t h Hrun ltac:(lia)) as (a & Ha & Ho).
  pose proof (owned_finish h0 t Tree_new h a E Ha (holds_init h) Ho) as Hf.
  change (finish ((t, Tree_new), h))
    with (delete_Node (fuel h) h None ≫= λ h1, destroy t h1) in Hf.
  rewrite delete_Node_null, bind_Ok in Hf.
  split; [|exact Hf].
  unfold clear. unfold destroy in Hf. by rewrite Hf.
Qed.

(** X14: whatever the commands, fewer than [2^24], of a session that
    returns, the heap holds, besides the cells allocated before, one cell
    for each entry of the two trees, none of the earlier cells is changed,
    and the two destructors give back the heap as it was at the start. *)
Theorem session_finish_restores (cmds : list (@cmd V)) h0 tree tmp h :
  session cmds (start h0) = Ok ((tree, tmp), h) → Z.of_nat (length cmds) < 2 ^ 24 →
  (∀ q, is_Some (h0 !! q) → h !! q = h0 !! q)
  ∧ base.size h = (base.size h0 + Z.to_nat (size tree) + Z.to_nat (size tmp))%nat
  ∧ finish ((tree, tmp), h) = Ok h0.
Proof.
  intros Hs Hlen.
  destruct (reachable_sinv h0 _ _ Hs ltac:(lia)) as (a & b & Ha & Hb & Ho & _ & _).
  cbn [fst snd] in *.
  destruct (owned_heap h0 tree tmp h a b Ha Hb Ho) as (Hfr & Hsz).
  split_and!; [done| |by eapply owned_finish].
  rewrite Hsz. unfold size.
  rewrite (holds_size _ _ _ Ha), (holds_size _ _ _ Hb), !weight_length. lia.
Qed.

(** X15: in every state of a session of fewer than [2^24] commands both
    trees hold entries with strictly increasing keys, as many as [size()]
    says. *)
Theorem session_keeps_order (cmds : list (@cmd V)) h0 tree tmp h :
  session cmds (start h0) = Ok ((tree, tmp), h) → Z.of_nat (length cmds) < 2 ^ 24 →
  ∃ es1 es2,
    entries tree h = Ok es1 ∧ entries tmp h = Ok es2
    ∧ StronglySorted Z.lt es1.*1 ∧ StronglySorted Z.lt es2.*1
    ∧ size tree = Z.of_nat (length es1) ∧ size tmp = Z.of_nat (length es2).
Proof.
  intros Hs Hlen.
  destruct (reachable_sinv h0 _ _ Hs ltac:(lia)) as (a & b & Ha & Hb & Ho & _ & _).
  cbn [fst snd] in *. exists (elems a), (elems b).
  split_and!; try (by apply entries_spec); try apply Ha; try apply Hb.
  - unfold size. rewrite (holds_size _ _ _ Ha), weight_nodes. unfold elems.
    by rewrite length_fmap.
  - unfold size. rewrite (holds_size _ _ _ Hb), weight_nodes. unfold elems.
    by rewrite length_fmap.
Qed.

(** X16: in every state of a session, a sequence of inserts and erases
    on one of the two trees leaves the entries of the other as they are. *)
Theorem session_trees_apart (cmds : list (@cmd V)) h0 tree tmp h ops t' h' :
  session cmds (start h0) = Ok ((tree, tmp), h) →
  (run ops (tree, h) = Ok (t', h') → entries tmp h' = entries tmp h)
  ∧ (run ops (tmp, h) = Ok (t', h') → entries tree h' = entries tree h).
Proof.
  intros Hs. destruct (reachable_apart h0 _ _ Hs) as (a & b & Ha & Hb & Hd).
  cbn [fst snd] in *. split; intros Hr.
  - pose proof (run_other ops tree h a tmp b t' h' Ha Hb Hd Hr) as Hb'.
    by rewrite (entries_links _ _ _ Hb'), (entries_links _ _ _ Hb).
  - assert (∀ q, q ∈ ids b → q ∉ ids a) as Hd' by (intros q Hq Hq'; by apply (Hd q)).
    pose proof (run_other ops tmp h b tree a t' h' Hb Ha Hd' Hr) as Ha'.
    by rewrite (entries_links _ _ _ Ha'), (entries_links _ _ _ Ha).
Qed.

(** X17: in every state of a session of fewer than [2^24] commands,
    [tmp_tree = tree] with a non-empty [tree] returns, frees the old nodes
    of [tmp_tree], and gives it the entries and the size of [tree], which
    keeps its own; with an empty [tree] it dereferences a null pointer. *)
Theorem copy_assign_copies (cmds : list (@cmd V)) h0 tree tmp h :
  session cmds (start h0) = Ok ((tree, tmp), h) → Z.of_nat (length cmds) < 2 ^ 24 →
  match root tree with
  | Some _ =>
      ∃ tmp' h',
        copy_assign tmp h tree = Ok (tmp', h')
        ∧ entries tmp' h' = entries tree h
        ∧ entries tree h' = entries tree h
        ∧ size tmp' = size tree
        ∧ base.size h' = (base.size h0 + 2 * Z.to_nat (size tree))%nat
  | None => copy_assign tmp h tree = NullDeref
  end.
Proof.
  intros Hs Hlen.
  destruct (reachable_sinv h0 _ _ Hs ltac:(lia)) as (a & b & Ha & Hb & Ho & _ & _).
  cbn [fst snd] in *.
  destruct (root tree) as [rt|] eqn:Hroot.
  2:{ eapply copy_assign_empty; [by apply holds_links|done]. }
  destruct (destroy_footprint tmp h b Hb) as (h1 & Hd & Hfp). unfold destroy in Hd.
  pose proof (owned_swap _ _ _ _ Ho) as Ho'.
  destruct (footprint_other h b h1 E tree a Hfp Ha) as (Ha1 & _); [apply Ho'|].
  destruct (copy_from_holds h1 tree a Ha1) as (u3 & h3 & a3 & Hc3 & Hu3 & Hel & Ha3 & _).
  { by rewrite Hroot. }
  assert (copy_assign tmp h tree = Ok (u3, h3)) as Hc.
  { unfold copy_assign. rewrite Hd. by bind_ok. }
  assert (session (cmds ++ [Copy]) (start h0) = Ok ((tree, u3), h3)) as Hs'.
  { rewrite session_app, Hs. bind_ok. cbn [session exec]. rewrite Hc. by bind_ok. }
  destruct (reachable_sinv h0 _ _ Hs') as (a4 & b4 & Ha4 & Hb4 & Ho4 & _ & _).
  { rewrite length_app. simpl. lia. }
  cbn [fst snd] in *.
  destruct (owned_heap h0 tree u3 h3 a4 b4 Ha4 Hb4 Ho4) as (_ & Hsz).
  pose proof (weight_length a4) as Hl4. pose proof (weight_length b4) as Hl5.
  rewrite <- (holds_size _ _ _ Ha4) in Hl4. rewrite <- (holds_size _ _ _ Hb4) in Hl5.
  assert (size u3 = size tree) as Hsize.
  { unfold size. rewrite (holds_size _ _ _ Hu3), (holds_size _ _ _ Ha), !weight_nodes.
    rewrite <- (length_fmap snd (nodes a3)), <- (length_fmap snd (nodes a)).
    fold (elems a3) (elems a). by rewrite Hel. }
  exists u3, h3. split_and!.
  - done.
  - rewrite (entries_spec _ _ _ Hu3), (entries_spec _ _ _ Ha). by rewrite Hel.
  - by rewrite (entries_spec _ _ _ Ha3), (entries_spec _ _ _ Ha).
  - done.
  - rewrite Hsz. unfold size in *. lia.
Qed.

(** X18: in every state of a session of fewer than [2^24] commands,
    [tmp_tree = std::move(tree)] returns, frees the old nodes of
    [tmp_tree], hands it the nodes of [tree] with their entries, and leaves
    [tree] as a newly constructed tree. *)
Theorem move_assign_transfers (cmds : list (@cmd V)) h0 tree tmp h :
  session cmds (start h0) = Ok ((tree, tmp), h) → Z.of_nat (length cmds) < 2 ^ 24 →
  ∃ tmp' h',
    move_assign tmp h tree = Ok ((tmp', Tree_new), h')
    ∧ entries tmp' h' = entries tree h
    ∧ size tmp' = size tree
    ∧ root tmp' = root tree
    ∧ base.size h' = (base.size h0 + Z.to_nat (size tree))%nat.
Proof.
  intros Hs Hlen.
  destruct (reachable_sinv h0 _ _ Hs ltac:(lia)) as (a & b & Ha & Hb & Ho & _ & _).
  cbn [fst snd] in *.
  destruct (destroy_footprint tmp h b Hb) as (h1 & Hd & Hfp).
  pose proof (owned_swap _ _ _ _ Ho) as Ho'.
  destruct (footprint_other h b h1 E tree a Hfp Ha) as (Ha1 & _); [apply Ho'|].
  assert (owned h0 h1 E a) as Ho1 by (by eapply owned_footprint).
  assert (holds (taken tree) h1 a) as Ht by (destruct Ha1; by split).
  exists (taken tree), h1. unfold move_assign. unfold destroy in Hd. rewrite Hd. bind_ok.
  split_and!; try done.
  - by rewrite (entries_spec _ _ _ Ht), (entries_spec _ _ _ Ha).
  - destruct (owned_heap h0 Tree_new (taken tree) h1 E a (holds_init h1) Ht Ho1)
      as (_ & Hsz).
    rewrite Hsz. unfold size. rewrite (holds_size _ _ _ Ha), weight_length. simpl. lia.
Qed.

End Own.
End Own.

(** * Comparing a tree with its copy *)

Module Alike.
Import DM852 Observe Abs Trace Assoc Session Basic Ctx Read Flatten Build Rebuild Order Scapegoat Insert Shift Unlink Erase Shape Copy Invariant Properties Map Contents Iter Fields Own.

Section Alike.
Context {V : Type} `{!EqDecision V} `{!Inhabited V} {halpha : HAlpha}.
Implicit Types (h : gmap positive (@Node V)) (t u : Tree) (a b l r s : @T V) (c : list (@frame V)).
Implicit Types (ops : list (@op V)) (es : list (Z * V)).

Lemma elems_strip a : elems (strip a) = elems a.
Proof.
  induction a as [|l IHl p k v r IHr]; [done|].
  cbn [strip]. by rewrite !elems_N, IHl, IHr.
Qed.

Lemma locate_strip k a : ∀ a' c c',
  strip a = strip a' → stripc c = stripc c' →
  stripc (locate k a c).1 = stripc (locate k a' c').1
  ∧ strip (locate k a c).2 = strip (locate k a' c').2.
Proof.
  induction a as [|l IHl p k0 v0 r IHr]; intros [|l' p' k1 v1 r'] c c' Hs Hc;
    try discriminate.
  - done.
  - cbn [strip] in Hs. injection Hs as Hl <- <- Hr. cbn [locate].
    destruct (k <? k0).
    + apply IHl; [done|]. unfold stripc in *. cbn [fmap list_fmap stripf].
      by rewrite Hc, Hr.
    + destruct (k0 <? k).
      * apply IHr; [done|]. unfold stripc in *. cbn [fmap list_fmap stripf].
        by rewrite Hc, Hl.
      * cbn [fst snd strip]. by rewrite Hl, Hr.
Qed.

Lemma goes_on_strip c c' r r' :
  stripc c = stripc c' → strip r = strip r' → goes_on c r = goes_on c' r'.
Proof.
  intros Hc Hr.
  assert (∀ c0 r0, goes_on c0 r0 = goes_on (stripc c0) (strip r0)) as Hg.
  { intros c0 r0. destruct r0; [|done]. destruct c0 as [|[] [|[] c0]]; done. }
  by rewrite (Hg c r), (Hg c' r'), Hc, Hr.
Qed.

(** A node with its context, found by its key. *)
Lemma node_locate a A x k (v : V) B :
  bst a → NoDup (ids a) → nodes a = A ++ (x, (k, v)) :: B →
  ∃ c l r, locate k a [] = (c, N l x k v r) ∧ a = plug c (N l x k v r)
           ∧ A = cleft c ++ nodes l ∧ B = nodes r ++ cright c.
Proof.
  intros Hbst Hnd Hn.
  destruct (locate_node a x k v Hbst) as (c & l & r & Hloc).
  { rewrite Hn. set_solver. }
  pose proof (locate_plug k a []) as Hplug. rewrite Hloc in Hplug.
  cbn [fst snd plug] in Hplug.
  exists c, l, r. split; [done|]. split; [done|].
  pose proof (nodes_plug c (N l x k v r)) as Hnp. rewrite Hplug, Hn in Hnp.
  cbn [nodes] in Hnp. rewrite <- !app_assoc in Hnp. simpl in Hnp.
  rewrite (app_assoc (cleft c)) in Hnp.
  unfold ids in Hnd. rewrite Hn in Hnd.
  destruct (split_unique _ _ _ _ _ _ _ Hnd Hnp) as (-> & _ & ->). done.
Qed.

(** What [next] returns, exactly. *)
Lemma next_exact h c l x k (v : V) r :
  rep h None (plug c (N l x k v r)) →
  NoDup (ids (plug c (N l x k v r))) → bst (plug c (N l x k v r)) →
  next h x = Ok (if goes_on c r then head (nodes r ++ cright c).*1 else None).
Proof.
  intros Hrep Hnd Hbst.
  pose proof Hrep as Hrep'. apply rep_plug in Hrep' as ((Hx & Hl & Hr) & Hc).
  cbn [rootp] in Hc.
  pose proof Hnd as Hnd'.
  apply NoDup_node in Hnd' as (Hndl & Hndr & Hndc & _).
  destruct r as [|rl rp rk rv rr].
  - unfold next. rewrite (load_Some _ _ _ Hx). bind_ok. cbn [nright nparent rootp nkey].
    destruct c as [|f c]; cbn [cpar]; [done|].
    destruct (repc_head_cell _ _ _ _ _ Hc) as (pn & Hpn & Hpk & Hpp & _).
    rewrite (load_Some _ _ _ Hpn). bind_ok. rewrite Hpk.
    assert (fits k f) as Hfit.
    { apply (bst_plug_fits f c (N l x k v E)); [done|]. rewrite keys_N. set_solver. }
    destruct f as [p' kp vp rp|l' p' kp vp]; simpl in Hfit; unfold comp; cbn [fkey faddr].
    + by assert ((k <? kp) = true) as -> by lia.
    + assert ((k <? kp) = false) as -> by lia.
      rewrite Hpp. destruct c as [|f' c]; cbn [cpar]; [done|].
      destruct Hc as (_ & _ & Hc').
      destruct (repc_head_cell _ _ _ _ _ Hc') as (gn & Hgn & Hgk & _).
      rewrite (load_Some _ _ _ Hgn). bind_ok. rewrite Hgk.
      assert (fits kp f') as Hfit'.
      { apply (bst_plug_fits f' c (N l' p' kp vp (N l x k v E))); [done|].
        rewrite keys_N. set_solver. }
      destruct f' as [g kg vg rg|lg g kg vg]; simpl in Hfit'; cbn [fkey faddr].
      * by assert ((kp <? kg) = true) as -> by lia.
      * by assert ((kp <? kg) = false) as -> by lia.
  - rewrite (next_right h x _ (N rl rp rk rv rr) Hx eq_refl) by done.
    cbn [goes_on]. f_equal. unfold ids. rewrite fmap_app.
    destruct (nodes (N rl rp rk rv rr)) eqn:E0; [|done].
    exfalso. cbn [nodes] in E0. by destruct (nodes rl).
Qed.

(** Two nodes at the same place of two trees of one shape do not differ. *)
Lemma differ_alike h c c' l l' x x' k (v : V) r r' :
  rep h None (plug c (N l x k v r)) → rep h None (plug c' (N l' x' k v r')) →
  stripc c = stripc c' →
  differ h x x' = Ok false.
Proof.
  intros Hrep Hrep' Hs.
  apply rep_plug in Hrep as ((Hx & _) & Hc). cbn [rootp] in Hc.
  apply rep_plug in Hrep' as ((Hx' & _) & Hc'). cbn [rootp] in Hc'.
  unfold differ. rewrite (load_Some _ _ _ Hx). bind_ok.
  rewrite (load_Some _ _ _ Hx'). bind_ok. cbn [nparent nkey nvalue].
  destruct c as [|f c], c' as [|f' c']; try discriminate; cbn [cpar].
  - rewrite !bool_decide_eq_false_2 by (by intros [? ?]). simpl.
    rewrite Z.eqb_refl. simpl. rewrite bool_decide_eq_false_2; [done|]. by intros H.
  - rewrite !bool_decide_eq_true_2 by (by eexists). simpl.
    unfold stripc in Hs. cbn [fmap list_fmap] in Hs. injection Hs as Hf _.
    assert (∃ kp vp pn pn', h !! faddr f = Some pn ∧ h !! faddr f' = Some pn'
             ∧ nkey pn = kp ∧ nkey pn' = kp ∧ nvalue pn = vp ∧ nvalue pn' = vp)
      as (kp & vp & pn & pn' & Hpn & Hpn' & Hk1 & Hk2 & Hv1 & Hv2).
    { destruct f as [p kp vp rp|lp p kp vp], f' as [p' kp' vp' rp'|lp' p' kp' vp'];
        try discriminate; cbn [stripf] in Hf; injection Hf as; subst;
        destruct Hc as (Hp & _), Hc' as (Hp' & _);
        eexists _, _, _, _; (split; [exact Hp|]); (split; [exact Hp'|]); done. }
    rewrite (load_Some _ _ _ Hpn). bind_ok. cbn [deref]. bind_ok.
    rewrite (load_Some _ _ _ Hpn'). bind_ok.
    rewrite Hk1, Hk2, Hv1, Hv2.
    rewrite Z.eqb_refl. simpl. rewrite bool_decide_eq_false_2 by (by intros H).
    bind_ok. rewrite Z.eqb_refl. simpl. rewrite bool_decide_eq_false_2; [done|].
    by intros H.
Qed.

(** The loop of [operator==] on two trees of one shape with the same
    entries. *)
Lemma equal_loop_alike h a a' :
  rep h None a → NoDup (ids a) → bst a →
  rep h None a' → NoDup (ids a') → bst a' →
  strip a = strip a' →
  ∀ B A x e B' A' x' e' f,
    nodes a = A ++ (x, e) :: B → nodes a' = A' ++ (x', e') :: B' →
    length A = length A' → (length B < f)%nat →
    equal_loop f h (Some x) (Some x') = Ok true.
Proof.
  intros Hrep Hnd Hbst Hrep' Hnd' Hbst' Hs B.
  assert (elems a = elems a') as Hel by (by rewrite <- (elems_strip a), Hs, elems_strip).
  induction B as [|[y e1] B IH]; intros A x [k v] B' A' x' e' f Hn Hn' Hlen Hf;
    (destruct f as [|f]; [lia|]); cbn [equal_loop deref]; bind_ok.
  all: assert (A.*2 = A'.*2 ∧ (k, v) = e' ∧ (B' : list _).*2 = _) as (HA & <- & HB)
    by (unfold elems in Hel; rewrite Hn, Hn', !fmap_app, !fmap_cons in Hel;
        apply app_inj_1 in Hel as (? & Hel); [|by rewrite !length_fmap];
        by injection Hel as <- <-).
  all: destruct (node_locate a A x k v _ Hbst Hnd Hn) as (c & l & r & Hloc & Ha & _ & HBr).
  all: destruct (node_locate a' A' x' k v _ Hbst' Hnd' Hn')
         as (c' & l' & r' & Hloc' & Ha' & _ & HBr').
  all: destruct (locate_strip k a a' [] [] Hs eq_refl) as (Hsc & Hsn).
  all: rewrite Hloc, Hloc' in Hsc, Hsn; cbn [fst snd strip] in Hsc, Hsn.
  all: injection Hsn as Hsl Hsr.
  all: pose proof Hrep as Hr1; pose proof Hnd as Hn1; pose proof Hbst as Hb1.
  all: pose proof Hrep' as Hr2; pose proof Hnd' as Hn2; pose proof Hbst' as Hb2.
  all: rewrite Ha in Hr1, Hn1, Hb1; rewrite Ha' in Hr2, Hn2, Hb2.
  all: rewrite (differ_alike h c c' l l' x x' k v r r' Hr1 Hr2 Hsc); bind_ok.
  all: rewrite (next_exact h c l x k v r Hr1 Hn1 Hb1); bind_ok.
  all: rewrite (next_exact h c' l' x' k v r' Hr2 Hn2 Hb2); bind_ok.
  all: rewrite <- HBr, <- HBr', <- (goes_on_strip c c' r r' Hsc Hsr).
  - simpl in HB. apply fmap_nil_inv in HB. subst B'.
    destruct (goes_on c r); by destruct f.
  - destruct B' as [|[y' e1'] B']; [done|].
    destruct (goes_on c r); [|by destruct f].
    cbn [fmap list_fmap head fst].
    apply (IH (A ++ [(x, (k, v))]) y e1 B' (A' ++ [(x', (k, v))]) y' e1' f).
    + by rewrite <- app_assoc.
    + by rewrite <- app_assoc.
    + rewrite !length_app. simpl. lia.
    + simpl in Hf. lia.
Qed.

(** X20: in every state of a session, once [tmp_tree = tree] has returned,
    [tree == tmp_tree] and [tmp_tree == tree] both return [true]. *)
Theorem copy_compares_equal (cmds : list (@cmd V)) h0 tree tmp h tmp' h' :
  session cmds (start h0) = Ok ((tree, tmp), h) →
  copy_assign tmp h tree = Ok (tmp', h') →
  equal tree tmp' h' = Ok true ∧ equal tmp' tree h' = Ok true.
Proof.
  intros Hs Hc. destruct (reachable_apart h0 _ _ Hs) as (a & b & Ha & Hb & Hdisj).
  cbn [fst snd] in *.
  unfold copy_assign in Hc. apply bind_Ok_inv in Hc as (h1 & Hd & Hc).
  destruct (destroy_confined tmp h b Hb) as (h1' & Hd' & Hcf).
  unfold destroy in Hd'. rewrite Hd' in Hd. injection Hd as ->.
  assert (∀ q, q ∈ ids b → q ∉ ids a) as Hdisj' by (intros q Hq Hq'; by apply (Hdisj q)).
  destruct (links_other h b h1 E tree a Hcf Ha Hdisj') as (Ha1 & _).
  destruct (root tree) as [rt|] eqn:Hroot.
  2:{ rewrite (copy_from_empty h1 tree Hroot) in Hc. discriminate. }
  destruct (copy_from_links h1 tree a Ha1)
    as (u3 & h3 & a3 & Hc3 & Hu3 & Hel & Ha3 & _ & _ & _ & Hstrip & Hsz3).
  { by rewrite Hroot. }
  rewrite Hc3 in Hc. injection Hc as <- <-.
  pose proof (begin_links _ _ _ Ha3) as Hbegin.
  pose proof (begin_links _ _ _ Hu3) as Hbegin3.
  destruct Ha3 as [Hrep Hnd Hbst Hroot' Hfirst Hsize].
  destruct Hu3 as [Hrep3 Hnd3 Hbst3 _ Hfirst3 Hsize3].
  assert (weight a3 = weight a) as Hw.
  { rewrite !weight_nodes.
    rewrite <- (length_fmap snd (nodes a3)), <- (length_fmap snd (nodes a)).
    fold (elems a3) (elems a). by rewrite Hel. }
  assert (weight a ≠ 0) as Hw0.
  { intros Hz. apply weight_zero in Hz. subst a. rewrite Hroot in Hroot'. done. }
  pose proof (weight_nodes a) as Hwa. pose proof (weight_nodes a3) as Hwa3.
  destruct (nodes a) as [|[x e] B] eqn:Hn.
  { simpl in Hwa. lia. }
  destruct (nodes a3) as [|[x' e'] B'] eqn:Hn'.
  { simpl in Hwa3. lia. }
  unfold equal. rewrite Hsz3, Z.eqb_refl. cbn [negb].
  rewrite Hbegin, Hbegin3. unfold ids. rewrite Hn, Hn'. cbn [fmap list_fmap head fst].
  pose proof (rep_fuel _ _ _ Hrep Hnd) as Hf. pose proof (rep_fuel _ _ _ Hrep3 Hnd3) as Hf3.
  unfold ids in Hf, Hf3. rewrite Hn, length_fmap in Hf. rewrite Hn', length_fmap in Hf3.
  simpl in Hf, Hf3. split.
  - apply (equal_loop_alike h3 a a3 Hrep Hnd Hbst Hrep3 Hnd3 Hbst3 (eq_sym Hstrip)
             B [] x e B' [] x' e'); try done. lia.
  - apply (equal_loop_alike h3 a3 a Hrep3 Hnd3 Hbst3 Hrep Hnd Hbst Hstrip
             B' [] x' e' B [] x e); try done. lia.
Qed.

End Alike.
End Alike.

(** * The claims on concrete runs *)

Module Runs.
Import DM852 Observe Abs Trace Scenario.

(** C1: in the tree obtained by inserting 8, 4, 12, 6, 10, 7 the node of key
    7 has no right child and is the right child of a right child, so [next]
    returns null for it although 7 is not the maximum (key 8 is stored), and
    the iteration from [begin] stops after 4, 6, 7. *)
Theorem next_loses_successor :
  on_state deep_right (λ t h, x ← find t h 7; l ← deref x; next h l) = Ok None
  ∧ on_state deep_right entries
    = Ok [(4, 0); (6, 0); (7, 0); (8, 0); (10, 0); (12, 0)]
  ∧ on_state deep_right traverse = Ok [(4, 0); (6, 0); (7, 0)].
Proof. repeat split; vm_compute; reflexivity. Qed.

(** C2: [erase] of a key that is not stored dereferences the null pointer
    returned by [find], on the empty tree and on a tree holding key 5. *)
Theorem erase_absent_key_crashes :
  erase Tree_new (∅ : memory) 7 = NullDeref
  ∧ on_state (build_from [5]) (λ t h, erase t h 7) = NullDeref.
Proof. split; vm_compute; reflexivity. Qed.

(** C3: inserting 5, 3, 8, 1, 4, 7, 9, 2, 6, 0 into an empty tree gives a
    tree whose iteration from [begin] to [end] visits 0, 1, ..., 9 in that
    order, whose [size()] is 10, and in which [find] returns a node for each
    of the ten keys. *)
Theorem scenario_ten_keys :
  match build_from [5; 3; 8; 1; 4; 7; 9; 2; 6; 0] with
  | Ok (t, h) =>
      traverse t h = Ok ((λ k, (k, 0)) <$> [0; 1; 2; 3; 4; 5; 6; 7; 8; 9])
      ∧ size t = 10
      ∧ ∀ k, k ∈ [5; 3; 8; 1; 4; 7; 9; 2; 6; 0] → ∃ l, find t h k = Ok (Some l)
  | _ => False
  end.
Proof.
  destruct (build_from _) as [[t h]| | |] eqn:E;
    [vm_compute in E; injection E as <- <- | vm_compute in E; discriminate ..].
  split; [vm_compute; reflexivity|]. split; [reflexivity|].
  intros k Hk.
  repeat (apply elem_of_cons in Hk as [->|Hk]; [eexists; vm_compute; reflexivity|]).
  by apply elem_of_nil in Hk.
Qed.

(** C4, refuted as stated: after inserting 2, 1, 4, 3, 5 the root has weight
    5 and its right subtree weight 3, and 3 <= 0.57 * 5 fails. *)
Lemma weight_bound_broken_after_insert :
  on_state lopsided (λ t h, r ← deref (root t); rn ← load h r;
                            a ← node_size (fuel h) h (nright rn);
                            b ← node_size (fuel h) h (root t);
                            Ok (a, b, within_alpha a b)) = Ok (3, 5, false)
  ∧ ∃ x, on_state lopsided (λ t h, unbalanced (fuel h) h (root t)) = Ok [x].
Proof. split; [|eexists]; vm_compute; reflexivity. Qed.


(** C9: two trees of six entries each, equal in shape and keys, whose sixth
    entries in order are (12, 0) and (12, 1): [operator==] answers true in
    both directions, because the iteration through [next] ends after the
    third entry. *)
Theorem equal_misses_difference :
  match two_trees with
  | Ok (a, b, h) =>
      equal a b h = Ok true ∧ equal b a h = Ok true
      ∧ entries a h = Ok [(4, 0); (6, 0); (7, 0); (8, 0); (10, 0); (12, 0)]
      ∧ entries b h = Ok [(4, 0); (6, 0); (7, 0); (8, 0); (10, 0); (12, 1)]
      ∧ traverse b h = Ok [(4, 0); (6, 0); (7, 0)]
  | _ => False
  end.
Proof.
  destruct two_trees as [[[a b] h]| | |] eqn:E;
    [vm_compute in E; injection E as <- <- <- | vm_compute in E; discriminate ..].
  repeat split; vm_compute; reflexivity.
Qed.

(** ** The general properties on the sample session *)

Lemma order_invariant_sample :
  run sample_ops (Tree_new, ∅) = Ok (sample_tree, sample_memory)
  ∧ ∃ es, entries sample_tree sample_memory = Ok es
          ∧ StronglySorted Z.lt es.*1 ∧ NoDup es.*1.
Proof.
  split; [vm_compute; reflexivity|].
  destruct (Properties.order_invariant sample_ops ∅ sample_tree sample_memory)
    as (es & He & Hs & Hn & _); [vm_compute; reflexivity|].
  exists es. split; [exact He|]. split; [exact Hs|exact Hn].
Defined.

Lemma rebuild_restores_balance_sample :
  (run shrink_ops (Tree_new, ∅) = Ok shrink_state
   ∧ lt_alpha_mul (size shrink_state.1 - 1) (max_size shrink_state.1) = true
   ∧ ∃ t' h', erase shrink_state.1 shrink_state.2 3 = Ok (t', h')
              ∧ unbalanced (fuel h') h' (root t') = Ok [])
  ∧ (run climb_ops (Tree_new, ∅) = Ok climb_state
     ∧ ∃ node depth t5 h2 scn t' h' top,
         insert_link climb_state.1 climb_state.2 10 0
         = Ok (Some ((node, depth), (t5, h2)))
         ∧ (h_alpha_of (tree_size t5) <? depth) && (2 <? tree_size t5) = true
         ∧ scapegoat_find (fuel h2) h2 node = Ok (Some (scn, 3))
         ∧ find climb_state.1 climb_state.2 8 = Ok (Some scn)
         ∧ insert climb_state.1 climb_state.2 10 0 = Ok ((Some node, true), (t', h'))
         ∧ inorder (fuel h') h' (Some top) = Ok [(8, 0); (9, 0); (10, 0)]
         ∧ unbalanced (fuel h') h' (Some top) = Ok []).
Proof.
  split.
  - split; [vm_compute; reflexivity|]. split; [vm_compute; reflexivity|].
    destruct (Structure.rebuild_restores_balance shrink_ops ∅ shrink_state.1 shrink_state.2)
      as (He & _); [vm_compute; reflexivity|vm_compute; reflexivity|].
    destruct (erase shrink_state.1 shrink_state.2 3) as [[t' h']| | |] eqn:E;
      [|vm_compute in E; discriminate ..].
    exists t', h'. split; [reflexivity|]. apply (He 3 t' h' E). vm_compute; reflexivity.
  - split; [vm_compute; reflexivity|].
    destruct (Structure.rebuild_restores_balance climb_ops ∅ climb_state.1 climb_state.2)
      as (_ & Hi); [vm_compute; reflexivity|vm_compute; reflexivity|].
    edestruct (Hi 10 0) as (t' & h' & top & sn & tn & H1 & _ & _ & _ & _ & H2 & _ & H3);
      [vm_compute; reflexivity|vm_compute; reflexivity|vm_compute; reflexivity|].
    eexists _, _, _, _, _, t', h', top.
    split; [vm_compute; reflexivity|]. split; [vm_compute; reflexivity|].
    split; [vm_compute; reflexivity|]. split; [vm_compute; reflexivity|].
    split; [exact H1|]. split; [|exact H3].
    rewrite H2. vm_compute; reflexivity.
Defined.


Lemma copy_needs_nonempty_source_sample :
  run sample_ops (Tree_new, ∅) = Ok (sample_tree, sample_memory)
  ∧ ∃ t' h', Tree_copy sample_memory sample_tree = Ok (t', h')
             ∧ entries t' h' = entries sample_tree sample_memory.
Proof.
  split; [vm_compute; reflexivity|].
  destruct (Structure.copy_needs_nonempty_source sample_ops ∅ sample_tree sample_memory)
    as (_ & Hc); [vm_compute; reflexivity|].
  destruct Hc as (t' & h' & H1 & _ & H2 & _); [discriminate|].
  exists t', h'. split; [exact H1|exact H2].
Defined.

End Runs.

(** * The further properties on the sample sessions *)

Module Checks.
Import DM852 Observe Abs Trace Assoc Scenario.

Lemma insert_new_key_sample :
  run sample_ops (Tree_new, ∅) = Ok (sample_tree, sample_memory)
  ∧ entries sample_tree sample_memory = Ok sample_entries
  ∧ (6 ∉ sample_entries.*1)
  ∧ ∃ p t' h' A B,
      insert sample_tree sample_memory 6 0 = Ok ((Some p, true), (t', h'))
      ∧ sample_entries = A ++ B
      ∧ entries t' h' = Ok (A ++ (6, 0) :: B).
Proof.
  assert (6 ∉ sample_entries.*1) as Hk
    by (apply (bool_decide_unpack _); vm_compute; exact I).
  split; [vm_compute; reflexivity|]. split; [vm_compute; reflexivity|].
  split; [exact Hk|].
  destruct (Contents.insert_new_key sample_ops ∅ sample_tree sample_memory
              sample_entries 6 0)
    as (p & t' & h' & A & B & H1 & H2 & H3 & _);
    [vm_compute; reflexivity|vm_compute; reflexivity|vm_compute; reflexivity|exact Hk|].
  exists p, t', h', A, B. split; [exact H1|]. split; [exact H2|exact H3].
Defined.

Lemma erase_stored_key_sample :
  run sample_ops (Tree_new, ∅) = Ok (sample_tree, sample_memory)
  ∧ entries sample_tree sample_memory = Ok sample_entries
  ∧ (4 ∈ sample_entries.*1)
  ∧ ∃ t' h' A v B,
      erase sample_tree sample_memory 4 = Ok (t', h')
      ∧ sample_entries = A ++ (4, v) :: B
      ∧ entries t' h' = Ok (A ++ B)
      ∧ size t' = size sample_tree - 1.
Proof.
  assert (4 ∈ sample_entries.*1) as Hk
    by (apply (bool_decide_unpack _); vm_compute; exact I).
  split; [vm_compute; reflexivity|]. split; [vm_compute; reflexivity|].
  split; [exact Hk|].
  apply (Contents.erase_stored_key sample_ops ∅ sample_tree sample_memory
           sample_entries 4);
    [vm_compute; reflexivity|vm_compute; reflexivity|vm_compute; reflexivity|exact Hk].
Defined.

Lemma find_reads_entry_sample :
  run sample_ops (Tree_new, ∅) = Ok (sample_tree, sample_memory)
  ∧ entries sample_tree sample_memory = Ok sample_entries
  ∧ (∃ p, find sample_tree sample_memory 7 = Ok (Some p)
          ∧ iter_get sample_memory (Some p) = Ok (7, 5))
  ∧ find sample_tree sample_memory 6 = Ok tend.
Proof.
  split; [vm_compute; reflexivity|]. split; [vm_compute; reflexivity|]. split.
  - pose proof (Contents.find_reads_entry sample_ops ∅ sample_tree sample_memory
                  sample_entries 7) as H.
    change (get 7 sample_entries) with (Some 5) in H.
    destruct H as (p & H1 & H2 & _); [vm_compute; reflexivity|vm_compute; reflexivity|].
    exists p. split; [exact H1|exact H2].
  - pose proof (Contents.find_reads_entry sample_ops ∅ sample_tree sample_memory
                  sample_entries 6) as H.
    change (get 6 sample_entries) with (@None Z) in H.
    destruct H as (H1 & _); [vm_compute; reflexivity|vm_compute; reflexivity|].
    exact H1.
Defined.

Lemma size_counts_entries_sample :
  run sample_ops (Tree_new, ∅) = Ok (sample_tree, sample_memory)
  ∧ entries sample_tree sample_memory = Ok sample_entries
  ∧ size sample_tree = Z.of_nat (length sample_entries)
  ∧ node_size (fuel sample_memory) sample_memory (root sample_tree)
    = Ok (size sample_tree).
Proof.
  split; [vm_compute; reflexivity|]. split; [vm_compute; reflexivity|].
  destruct (Contents.size_counts_entries sample_ops ∅ sample_tree sample_memory
              sample_entries) as (H1 & H2 & _);
    [vm_compute; reflexivity|vm_compute; reflexivity|vm_compute; reflexivity|].
  split; [exact H1|exact H2].
Defined.

Lemma front_back_ends_sample :
  run sample_ops (Tree_new, ∅) = Ok (sample_tree, sample_memory)
  ∧ entries sample_tree sample_memory = Ok sample_entries
  ∧ front sample_tree sample_memory = Ok (1, 3)
  ∧ back sample_tree sample_memory = Ok (9, 6).
Proof.
  split; [vm_compute; reflexivity|]. split; [vm_compute; reflexivity|].
  destruct (Contents.front_back_ends sample_ops ∅ sample_tree sample_memory
              sample_entries) as (H1 & H2 & _);
    [vm_compute; reflexivity|vm_compute; reflexivity|vm_compute; reflexivity|].
  split; [exact H1|exact H2].
Defined.


Lemma next_is_sound_sample :
  run sample_ops (Tree_new, ∅) = Ok (sample_tree, sample_memory)
  ∧ entries sample_tree sample_memory
    = Ok ([(1, 3); (2, 7)] ++ (4, 4) :: [(5, 0); (7, 5); (9, 6)])
  ∧ find sample_tree sample_memory 4 = Ok (Some 5%positive)
  ∧ ∃ res, next sample_memory 5%positive = Ok res.
Proof.
  split; [vm_compute; reflexivity|]. split; [vm_compute; reflexivity|].
  split; [vm_compute; reflexivity|].
  destruct (Iter.next_is_sound sample_ops ∅ sample_tree sample_memory
              [(1, 3); (2, 7)] 4 4 [(5, 0); (7, 5); (9, 6)] 5%positive)
    as (res & xn & H1 & _);
    [vm_compute; reflexivity|vm_compute; reflexivity|vm_compute; reflexivity|].
  exists res. exact H1.
Defined.

Lemma prev_is_sound_sample :
  run sample_ops (Tree_new, ∅) = Ok (sample_tree, sample_memory)
  ∧ entries sample_tree sample_memory
    = Ok ([(1, 3); (2, 7)] ++ (4, 4) :: [(5, 0); (7, 5); (9, 6)])
  ∧ find sample_tree sample_memory 4 = Ok (Some 5%positive)
  ∧ ∃ res, prev sample_memory 5%positive = Ok res.
Proof.
  split; [vm_compute; reflexivity|]. split; [vm_compute; reflexivity|].
  split; [vm_compute; reflexivity|].
  destruct (Iter.prev_is_sound sample_ops ∅ sample_tree sample_memory
              [(1, 3); (2, 7)] 4 4 [(5, 0); (7, 5); (9, 6)] 5%positive)
    as (res & xn & H1 & _);
    [vm_compute; reflexivity|vm_compute; reflexivity|vm_compute; reflexivity|].
  exists res. exact H1.
Defined.

Lemma traverse_is_prefix_sample :
  run sample_ops (Tree_new, ∅) = Ok (sample_tree, sample_memory)
  ∧ entries sample_tree sample_memory = Ok sample_entries
  ∧ ∃ xs ys, traverse sample_tree sample_memory = Ok xs ∧ sample_entries = xs ++ ys.
Proof.
  split; [vm_compute; reflexivity|]. split; [vm_compute; reflexivity|].
  destruct (Iter.traverse_is_prefix sample_ops ∅ sample_tree sample_memory
              sample_entries) as (xs & ys & H1 & H2 & _);
    [vm_compute; reflexivity|vm_compute; reflexivity|].
  exists xs, ys. split; [exact H1|exact H2].
Defined.

Lemma equal_is_reflexive_sample :
  run sample_ops (Tree_new, ∅) = Ok (sample_tree, sample_memory)
  ∧ equal sample_tree sample_tree sample_memory = Ok true.
Proof.
  split; [vm_compute; reflexivity|].
  apply (Iter.equal_is_reflexive sample_ops ∅). vm_compute; reflexivity.
Defined.

Lemma run_owns_its_nodes_sample :
  run sample_ops (Tree_new, ∅) = Ok (sample_tree, sample_memory)
  ∧ base.size sample_memory = (base.size (∅ : memory) + Z.to_nat (size sample_tree))%nat.
Proof.
  split; [vm_compute; reflexivity|].
  destruct (Own.run_owns_its_nodes sample_ops ∅ sample_tree sample_memory) as (_ & H);
    [vm_compute; reflexivity|vm_compute; reflexivity|].
  exact H.
Defined.

Lemma clear_frees_all_sample :
  run sample_ops (Tree_new, ∅) = Ok (sample_tree, sample_memory)
  ∧ clear sample_tree sample_memory = Ok (Tree_new, ∅)
  ∧ destroy sample_tree sample_memory = Ok ∅.
Proof.
  split; [vm_compute; reflexivity|].
  apply (Own.clear_frees_all sample_ops ∅); vm_compute; reflexivity.
Defined.

Lemma session_finish_restores_sample :
  Session.session sample_cmds (Session.start ∅)
  = Ok ((sample_pair.1.1, sample_pair.1.2), sample_pair.2)
  ∧ Session.finish ((sample_pair.1.1, sample_pair.1.2), sample_pair.2) = Ok ∅.
Proof.
  split; [vm_compute; reflexivity|].
  destruct (Own.session_finish_restores sample_cmds ∅
              sample_pair.1.1 sample_pair.1.2 sample_pair.2) as (_ & _ & H);
    [vm_compute; reflexivity|vm_compute; reflexivity|].
  exact H.
Defined.

Lemma session_keeps_order_sample :
  Session.session sample_cmds (Session.start ∅)
  = Ok ((sample_pair.1.1, sample_pair.1.2), sample_pair.2)
  ∧ ∃ es1 es2,
      entries sample_pair.1.1 sample_pair.2 = Ok es1
      ∧ entries sample_pair.1.2 sample_pair.2 = Ok es2
      ∧ StronglySorted Z.lt es1.*1 ∧ StronglySorted Z.lt es2.*1.
Proof.
  split; [vm_compute; reflexivity|].
  destruct (Own.session_keeps_order sample_cmds ∅
              sample_pair.1.1 sample_pair.1.2 sample_pair.2)
    as (es1 & es2 & H1 & H2 & H3 & H4 & _); [vm_compute; reflexivity|vm_compute; reflexivity|].
  exists es1, es2. split; [exact H1|]. split; [exact H2|]. split; [exact H3|exact H4].
Defined.

Lemma session_trees_apart_sample :
  Session.session sample_cmds (Session.start ∅)
  = Ok ((sample_pair.1.1, sample_pair.1.2), sample_pair.2)
  ∧ ∀ ops t' h',
      run ops (sample_pair.1.1, sample_pair.2) = Ok (t', h') →
      entries sample_pair.1.2 h' = entries sample_pair.1.2 sample_pair.2.
Proof.
  split; [vm_compute; reflexivity|].
  intros ops t' h'.
  destruct (Own.session_trees_apart sample_cmds ∅
              sample_pair.1.1 sample_pair.1.2 sample_pair.2 ops t' h') as (H & _);
    [vm_compute; reflexivity|].
  exact H.
Defined.

Lemma copy_assign_copies_sample :
  Session.session sample_cmds (Session.start ∅)
  = Ok ((sample_pair.1.1, sample_pair.1.2), sample_pair.2)
  ∧ ∃ tmp' h',
      copy_assign sample_pair.1.2 sample_pair.2 sample_pair.1.1 = Ok (tmp', h')
      ∧ entries tmp' h' = entries sample_pair.1.1 sample_pair.2.
Proof.
  split; [vm_compute; reflexivity|].
  pose proof (Own.copy_assign_copies sample_cmds ∅
                sample_pair.1.1 sample_pair.1.2 sample_pair.2) as H.
  change (root sample_pair.1.1) with (Some 9%positive) in H.
  destruct H as (tmp' & h' & H1 & H2 & _); [vm_compute; reflexivity|vm_compute; reflexivity|].
  exists tmp', h'. split; [exact H1|exact H2].
Defined.

Lemma move_assign_transfers_sample :
  Session.session sample_cmds (Session.start ∅)
  = Ok ((sample_pair.1.1, sample_pair.1.2), sample_pair.2)
  ∧ ∃ tmp' h',
      move_assign sample_pair.1.2 sample_pair.2 sample_pair.1.1
      = Ok ((tmp', Tree_new), h')
      ∧ entries tmp' h' = entries sample_pair.1.1 sample_pair.2.
Proof.
  split; [vm_compute; reflexivity|].
  destruct (Own.move_assign_transfers sample_cmds ∅
              sample_pair.1.1 sample_pair.1.2 sample_pair.2)
    as (tmp' & h' & H1 & H2 & _); [vm_compute; reflexivity|vm_compute; reflexivity|].
  exists tmp', h'. split; [exact H1|exact H2].
Defined.

Lemma insert_erase_round_trip_sample :
  run sample_ops (Tree_new, ∅) = Ok (sample_tree, sample_memory)
  ∧ entries sample_tree sample_memory = Ok sample_entries
  ∧ (6 ∉ sample_entries.*1)
  ∧ ((4, 4) ∈ sample_entries)
  ∧ (∃ (res : ptr * bool) t1 h1 t2 h2,
       insert sample_tree sample_memory 6 0 = Ok (res, (t1, h1))
       ∧ erase t1 h1 6 = Ok (t2, h2)
       ∧ entries t2 h2 = Ok sample_entries ∧ size t2 = size sample_tree)
  ∧ (∃ t1 h1 (res : ptr * bool) t2 h2,
       erase sample_tree sample_memory 4 = Ok (t1, h1)
       ∧ insert t1 h1 4 4 = Ok (res, (t2, h2))
       ∧ entries t2 h2 = Ok sample_entries ∧ size t2 = size sample_tree).
Proof.
  assert (6 ∉ sample_entries.*1) as Hk
    by (apply (bool_decide_unpack _); vm_compute; exact I).
  assert ((4, 4) ∈ sample_entries) as He
    by (apply (bool_decide_unpack _); vm_compute; exact I).
  split; [vm_compute; reflexivity|]. split; [vm_compute; reflexivity|].
  split; [exact Hk|]. split; [exact He|]. split.
  - apply (Contents.insert_erase_round_trip sample_ops ∅ sample_tree sample_memory
             sample_entries 6 0);
      [vm_compute; reflexivity|vm_compute; reflexivity|vm_compute; reflexivity|exact Hk].
  - apply (Contents.insert_erase_round_trip sample_ops ∅ sample_tree sample_memory
             sample_entries 4 4);
      [vm_compute; reflexivity|vm_compute; reflexivity|vm_compute; reflexivity|exact He].
Defined.

Lemma copy_compares_equal_sample :
  Session.session sample_cmds (Session.start ∅)
  = Ok ((sample_pair.1.1, sample_pair.1.2), sample_pair.2)
  ∧ copy_assign sample_pair.1.2 sample_pair.2 sample_pair.1.1
    = Ok (sample_copy.1, sample_copy.2)
  ∧ equal sample_pair.1.1 sample_copy.1 sample_copy.2 = Ok true
  ∧ equal sample_copy.1 sample_pair.1.1 sample_copy.2 = Ok true.
Proof.
  split; [vm_compute; reflexivity|]. split; [vm_compute; reflexivity|].
  apply (Alike.copy_compares_equal sample_cmds ∅ sample_pair.1.1 sample_pair.1.2
           sample_pair.2 sample_copy.1 sample_copy.2);
    vm_compute; reflexivity.
Defined.

Lemma run_refines_assoc_sample :
  Z.of_nat (length sample_ops) < 2 ^ 24
  ∧ ∃ t h, run sample_ops (Tree_new, ∅) = Ok (t, h)
           ∧ entries t h = Ok sample_entries
           ∧ size t = Z.of_nat (length sample_entries).
Proof.
  split; [vm_compute; reflexivity|].
  pose proof (Contents.run_refines_assoc sample_ops (∅ : memory)) as H.
  change (replay sample_ops []) with (Some sample_entries) in H.
  apply H. vm_compute; reflexivity.
Defined.

Lemma insert_twice_small_sample :
  run sample_ops (Tree_new, ∅) = Ok (sample_tree, sample_memory)
  ∧ Z.of_nat (length sample_ops) < 2 ^ 24
  ∧ ∃ p ch t1 h1,
      insert sample_tree sample_memory 6 9 = Ok ((Some p, ch), (t1, h1))
      ∧ insert t1 h1 6 9 = Ok ((Some p, false), (t1, h1)).
Proof.
  split; [vm_compute; reflexivity|]. split; [vm_compute; reflexivity|].
  destruct (Properties.insert_twice_small sample_ops ∅ sample_tree sample_memory 6 9)
    as (p & ch & t1 & h1 & H1 & H2 & _); [vm_compute; reflexivity|vm_compute; reflexivity|].
  exists p, ch, t1, h1. split; [exact H1|exact H2].
Defined.

Lemma insert_stored_in_place_sample :
  run sample_ops (Tree_new, ∅) = Ok (sample_tree, sample_memory)
  ∧ find sample_tree sample_memory 7 = Ok (Some 6%positive)
  ∧ ∃ n, sample_memory !! 6%positive = Some n
         ∧ insert sample_tree sample_memory 7 9
           = Ok ((Some 6%positive, bool_decide (9 ≠ nvalue n)),
                 (sample_tree, <[6%positive := set_value 9 n]> sample_memory)).
Proof.
  split; [vm_compute; reflexivity|]. split; [vm_compute; reflexivity|].
  destruct (Properties.insert_stored_in_place sample_ops ∅ sample_tree sample_memory
              7 9 6%positive)
    as (n & H1 & H2 & _); [vm_compute; reflexivity|vm_compute; reflexivity|].
  exists n. split; [exact H1|exact H2].
Defined.

Lemma find_after_update_small_sample :
  run sample_ops (Tree_new, ∅) = Ok (sample_tree, sample_memory)
  ∧ Z.of_nat (length sample_ops) < 2 ^ 24
  ∧ (∃ p ch t' h' n,
       insert sample_tree sample_memory 6 9 = Ok ((Some p, ch), (t', h'))
       ∧ find t' h' 6 = Ok (Some p)
       ∧ h' !! p = Some n ∧ nkey n = 6 ∧ nvalue n = 9)
  ∧ (∃ p, find sample_tree sample_memory 4 = Ok (Some p))
  ∧ ∃ t' h', erase sample_tree sample_memory 4 = Ok (t', h').
Proof.
  split; [vm_compute; reflexivity|]. split; [vm_compute; reflexivity|].
  destruct (Properties.find_after_update_small sample_ops ∅ sample_tree sample_memory)
    as (Hi & _ & He); [vm_compute; reflexivity|vm_compute; reflexivity|].
  split; [exact (Hi 6 9)|]. split; [eexists; vm_compute; reflexivity|].
  apply (He 4 5%positive). vm_compute; reflexivity.
Defined.

Lemma find_after_erase_sample :
  run sample_ops (Tree_new, ∅) = Ok (sample_tree, sample_memory)
  ∧ ∃ t' h', erase sample_tree sample_memory 4 = Ok (t', h') ∧ find t' h' 4 = Ok tend.
Proof.
  split; [vm_compute; reflexivity|].
  destruct (erase sample_tree sample_memory 4) as [[t' h']| | |] eqn:E;
    [|vm_compute in E; discriminate ..].
  exists t', h'. split; [reflexivity|].
  apply (Properties.find_after_erase sample_ops ∅ sample_tree sample_memory 4 t' h');
    [vm_compute; reflexivity|exact E].
Defined.

End Checks.
